(** * skills-cli: store reconciliation engine

    A shallow embedding of the TypeScript sources of the [skills] command line
    tool: directory fingerprinting ([src/lib/hash.ts]), Git URL parsing
    ([src/lib/paths.ts]), the persisted registry ([src/lib/config.ts]), and the
    sync / update / source / target commands.

    The file is organised as a project would be: first the model of the
    JavaScript runtime pieces the code relies on (strings, [Map], stable
    [Array.prototype.sort], regular expressions, the file system), then the
    translated functions, then the properties. *)

From Stdlib Require Import String Ascii List Bool Arith NArith ZArith Lia.
From Stdlib Require Import Permutation Sorted OrderedTypeEx.
Import ListNotations.

Local Open Scope string_scope.
Local Open Scope list_scope.
Local Set Warnings "-register-all".

Notation "s1 +++ s2" := (String.append s1 s2) (at level 60, right associativity).

(* ===================================================================== *)
(** * Part I. The JavaScript runtime                                      *)
(* ===================================================================== *)

Module JS.

(** ** Strings *)

(** JavaScript strings are modelled as byte strings; every literal of the
    sources is ASCII. *)

Fixpoint split_acc (sep : ascii) (s : string) (cur : string) : list string :=
  match s with
  | EmptyString => [cur]
  | String c rest =>
      if Ascii.eqb c sep then cur :: split_acc sep rest EmptyString
      else split_acc sep rest (cur +++ String c EmptyString)
  end.

(** [s.split(sep)] for a one-character separator. *)
Definition split (sep : ascii) (s : string) : list string := split_acc sep s EmptyString.

(** [arr.join(sep)]. *)
Fixpoint join (sep : string) (l : list string) : string :=
  match l with
  | [] => EmptyString
  | [x] => x
  | x :: rest => x +++ sep +++ join sep rest
  end.

(** Truthiness of a string: the empty string is falsy. *)
Definition truthy (s : string) : bool := negb (String.eqb s EmptyString).

(** Truthiness of an optional string property ([undefined] is falsy). *)
Definition truthy_opt (o : option string) : bool :=
  match o with Some s => truthy s | None => false end.

Fixpoint rev_string_acc (s acc : string) : string :=
  match s with
  | EmptyString => acc
  | String c r => rev_string_acc r (String c acc)
  end.

(** [s.endsWith(suffix)]. *)
Definition endsWith (s suffix : string) : bool :=
  String.prefix (rev_string_acc suffix EmptyString) (rev_string_acc s EmptyString).

(** [a || b] on values that are either an object or [null]. *)
Definition or_else {A : Type} (a b : option A) : option A :=
  match a with Some _ => a | None => b end.

(** ** [Number.prototype.toString(16)] on a non-negative integer *)

Definition hex_digit (d : N) : ascii :=
  match d with
  | 0%N => "0" | 1%N => "1" | 2%N => "2" | 3%N => "3" | 4%N => "4"
  | 5%N => "5" | 6%N => "6" | 7%N => "7" | 8%N => "8" | 9%N => "9"
  | 10%N => "a" | 11%N => "b" | 12%N => "c" | 13%N => "d" | 14%N => "e"
  | _ => "f"
  end%char.

Fixpoint hex_acc (fuel : nat) (n : N) (acc : string) : string :=
  match fuel with
  | O => acc
  | S fuel' =>
      let acc' := String (hex_digit (N.modulo n 16)) acc in
      if N.eqb (N.div n 16) 0 then acc' else hex_acc fuel' (N.div n 16) acc'
  end.

(** At least one digit is produced; [N.size_nat n] bounds the number of
    hexadecimal digits of [n]. *)
Definition toString16 (n : N) : string := hex_acc (S (N.size_nat n)) n EmptyString.

(** ** [Map<string, string>] *)

(** A JavaScript [Map] keeps its entries in insertion order; [set] on a key
    that is present replaces the value where the key already stands. *)
Definition jsmap := list (string * string).

Fixpoint map_set (k v : string) (m : jsmap) : jsmap :=
  match m with
  | [] => [(k, v)]
  | (k', v') :: rest =>
      if String.eqb k' k then (k', v) :: rest else (k', v') :: map_set k v rest
  end.

(** [for (const [k, v] of sub) files.set(k, v)]. *)
Definition map_set_all (sub : jsmap) (files : jsmap) : jsmap :=
  fold_left (fun acc kv => map_set (fst kv) (snd kv) acc) sub files.

(** ** [Array.prototype.sort(comparefn)] *)

(** The sort is stable: an element goes before the first element it does not
    compare greater than, so ties keep their original order. *)
Section Sort.
Context {A : Type}.
Variable comparefn : A -> A -> Z.

Fixpoint insert_sorted (x : A) (l : list A) : list A :=
  match l with
  | [] => [x]
  | y :: rest =>
      if Z.leb (comparefn x y) 0 then x :: y :: rest
      else y :: insert_sorted x rest
  end.

Definition sort (l : list A) : list A := fold_right insert_sorted [] l.
End Sort.

(** ** Regular expressions *)

Inductive cset_item : Type :=
| CsChar (c : ascii)      (* a literal character inside [...] *)
| CsSpace.                (* \s *)

Inductive regex : Type :=
| RChar (c : ascii)
| RAny                                    (* .            *)
| RSet (negated : bool) (items : list cset_item)   (* [...] and [^...] *)
| REmpty
| REnd                                    (* $            *)
| RSeq (r1 r2 : regex)
| RAlt (r1 r2 : regex)                    (* r1|r2        *)
| RStar (greedy : bool) (r : regex)       (* r* and r*?   *)
| RGroup (i : nat) (r : regex).           (* i-th capturing group *)

Definition RPlus (greedy : bool) (r : regex) : regex := RSeq r (RStar greedy r).
Definition ROpt (r : regex) : regex := RAlt r REmpty.   (* greedy r? *)

Fixpoint RLit (s : string) : regex :=
  match s with
  | EmptyString => REmpty
  | String c EmptyString => RChar c
  | String c rest => RSeq (RChar c) (RLit rest)
  end.

Definition is_space (c : ascii) : bool :=
  let n := nat_of_ascii c in
  Nat.eqb n 32 || (Nat.leb 9 n && Nat.leb n 13).

Definition is_line_terminator (c : ascii) : bool :=
  let n := nat_of_ascii c in Nat.eqb n 10 || Nat.eqb n 13.

Definition cset_mem (c : ascii) (it : cset_item) : bool :=
  match it with
  | CsChar d => Ascii.eqb c d
  | CsSpace => is_space c
  end.

Definition captures := list (nat * string).

Fixpoint take (n : nat) (s : string) : string :=
  match n, s with
  | S n', String c r => String c (take n' r)
  | _, _ => EmptyString
  end.

(** Text consumed between the input [s] and its suffix [s']. *)
Definition consumed (s s' : string) : string :=
  take (String.length s - String.length s') s.

(** Backtracking matcher in continuation-passing style: [k] receives the
    rest of the input and the captures so far, and the first alternative
    whose continuation succeeds wins, as in the ECMAScript semantics.  An
    iteration of a star must consume input. *)
Fixpoint rmatch {R : Type} (r : regex) (s : string) (caps : captures)
         (k : string -> captures -> option R) {struct r} : option R :=
  match r with
  | RChar c =>
      match s with
      | String d rest => if Ascii.eqb c d then k rest caps else None
      | EmptyString => None
      end
  | RAny =>
      match s with
      | String d rest => if is_line_terminator d then None else k rest caps
      | EmptyString => None
      end
  | RSet negated items =>
      match s with
      | String d rest =>
          if Bool.eqb (existsb (cset_mem d) items) negated then None else k rest caps
      | EmptyString => None
      end
  | REmpty => k s caps
  | REnd => match s with EmptyString => k s caps | _ => None end
  | RSeq r1 r2 => rmatch r1 s caps (fun s' caps' => rmatch r2 s' caps' k)
  | RAlt r1 r2 =>
      match rmatch r1 s caps k with
      | Some x => Some x
      | None => rmatch r2 s caps k
      end
  | RStar greedy r' =>
      (fix star (fuel : nat) (s : string) (caps : captures) {struct fuel} : option R :=
         match fuel with
         | O => k s caps
         | S fuel' =>
             let more :=
               rmatch r' s caps
                 (fun s' caps' =>
                    if Nat.ltb (String.length s') (String.length s)
                    then star fuel' s' caps' else None) in
             if greedy then
               match more with Some x => Some x | None => k s caps end
             else
               match k s caps with Some x => Some x | None => more end
         end) (S (String.length s)) s caps
  | RGroup i r' =>
      rmatch r' s caps (fun s' caps' => k s' ((i, consumed s s') :: caps'))
  end.

(** The result of a successful search: the text before the match, the
    matched text, the text after it and the captures. *)
Record match_result : Type := MatchResult {
  before : string;
  matched : string;
  after : string;
  groups : captures
}.

(** Unanchored search: the leftmost start position that matches. *)
Fixpoint search_from (r : regex) (pre s : string) : option match_result :=
  match rmatch r s [] (fun s' caps => Some (MatchResult pre (consumed s s') s' caps)) with
  | Some m => Some m
  | None =>
      match s with
      | EmptyString => None
      | String c rest => search_from r (pre +++ String c EmptyString) rest
      end
  end.

(** [s.match(re)] for a regular expression without flags. *)
Definition exec (r : regex) (s : string) : option match_result := search_from r EmptyString s.

(** The text of capturing group [i] (the last binding made wins). *)
Fixpoint group (i : nat) (caps : captures) : string :=
  match caps with
  | [] => EmptyString
  | (j, t) :: rest => if Nat.eqb i j then t else group i rest
  end.

(** [s.replace(re, '')] for a regular expression without flags: the first
    match is removed. *)
Definition replace_empty (r : regex) (s : string) : string :=
  match exec r s with
  | Some m => before m +++ after m
  | None => s
  end.

(** [arr[arr.length - 1]] on the result of [split], which is never empty. *)
Definition last_segment (l : list string) : string := List.last l EmptyString.

End JS.

(* ===================================================================== *)
(** * Part II. [src/lib/paths.ts]: Git URL parsing                        *)
(* ===================================================================== *)

Module Paths.
Import JS.

Record ParsedGitUrl : Type := mkParsed {
  host : string;
  owner : string;
  repo : string;
  branch : option string;
  subdir : option string;
  cloneUrl : string
}.

Definition notSlash : regex := RSet true [CsChar "/"].
Definition repoChar : regex := RSet true [CsChar "/"; CsChar "."; CsSpace].

(** [/\.git$/] *)
Definition re_dotgit_end : regex := RSeq (RLit ".git") REnd.
(** [/\/$/] *)
Definition re_slash_end : regex := RSeq (RChar "/") REnd.

Definition strip_git (repo : string) : string := replace_empty re_dotgit_end repo.

(** [/<host>\/([^\/]+)\/([^\/]+)\/<marker>\/([^\/]+)\/(.+)/] *)
Definition re_subdir (hostname : string) (marker : regex) : regex :=
  RSeq (RLit hostname) (RSeq (RChar "/")
    (RSeq (RGroup 1 (RPlus true notSlash)) (RSeq (RChar "/")
      (RSeq (RGroup 2 (RPlus true notSlash)) (RSeq (RChar "/")
        (RSeq marker (RSeq (RChar "/")
          (RSeq (RGroup 3 (RPlus true notSlash)) (RSeq (RChar "/")
            (RGroup 4 (RPlus true RAny))))))))))).

(** [/<host>\/([^\/]+)\/([^\/\.\s]+)/] *)
Definition re_https (hostname : string) : regex :=
  RSeq (RLit hostname) (RSeq (RChar "/")
    (RSeq (RGroup 1 (RPlus true notSlash)) (RSeq (RChar "/")
      (RGroup 2 (RPlus true repoChar))))).

(** [/git@<host>:([^\/]+)\/(.+?)(?:\.git)?$/] *)
Definition re_ssh (hostname : string) : regex :=
  RSeq (RLit "git@") (RSeq (RLit hostname) (RSeq (RChar ":")
    (RSeq (RGroup 1 (RPlus true notSlash)) (RSeq (RChar "/")
      (RSeq (RGroup 2 (RPlus false RAny))
        (RSeq (ROpt (RLit ".git")) REnd)))))).

(** [(?:tree|blob)], [-\/tree] and [src]: what separates the repository
    from the branch in the subdirectory form of each provider. *)
Definition marker_github : regex := RAlt (RLit "tree") (RLit "blob").
Definition marker_gitlab : regex := RLit "-/tree".
Definition marker_bitbucket : regex := RLit "src".

Definition parseGitHubUrl (url : string) : option ParsedGitUrl :=
  (* /github\.com\/([^\/]+)\/([^\/]+)\/(?:tree|blob)\/([^\/]+)\/(.+)/ *)
  match exec (re_subdir "github.com" marker_github) url with
  | Some subdirMatch =>
      let owner := group 1 (groups subdirMatch) in
      let repo := group 2 (groups subdirMatch) in
      let branch := group 3 (groups subdirMatch) in
      let subdir := group 4 (groups subdirMatch) in
      Some (mkParsed "github.com" owner (strip_git repo) (Some branch)
              (Some (replace_empty re_slash_end subdir))
              ("https://github.com/" +++ owner +++ "/" +++ strip_git repo +++ ".git"))
  | None =>
      (* /github\.com\/([^\/]+)\/([^\/\.\s]+)/ *)
      match exec (re_https "github.com") url with
      | Some httpsMatch =>
          let owner := group 1 (groups httpsMatch) in
          let repo := group 2 (groups httpsMatch) in
          Some (mkParsed "github.com" owner (strip_git repo) None None
                  ("https://github.com/" +++ owner +++ "/" +++ strip_git repo +++ ".git"))
      | None =>
          (* /git@github\.com:([^\/]+)\/(.+?)(?:\.git)?$/ *)
          match exec (re_ssh "github.com") url with
          | Some sshMatch =>
              let owner := group 1 (groups sshMatch) in
              let repo := group 2 (groups sshMatch) in
              Some (mkParsed "github.com" owner (strip_git repo) None None
                      ("git@github.com:" +++ owner +++ "/" +++ strip_git repo +++ ".git"))
          | None => None
          end
      end
  end.

Definition parseGitLabUrl (url : string) : option ParsedGitUrl :=
  (* /gitlab\.com\/([^\/]+)\/([^\/]+)\/-\/tree\/([^\/]+)\/(.+)/ *)
  match exec (re_subdir "gitlab.com" marker_gitlab) url with
  | Some subdirMatch =>
      let owner := group 1 (groups subdirMatch) in
      let repo := group 2 (groups subdirMatch) in
      let branch := group 3 (groups subdirMatch) in
      let subdir := group 4 (groups subdirMatch) in
      Some (mkParsed "gitlab.com" owner (strip_git repo) (Some branch)
              (Some (replace_empty re_slash_end subdir))
              ("https://gitlab.com/" +++ owner +++ "/" +++ strip_git repo +++ ".git"))
  | None =>
      (* /gitlab\.com\/([^\/]+)\/([^\/\.\s]+)/ *)
      match exec (re_https "gitlab.com") url with
      | Some httpsMatch =>
          let owner := group 1 (groups httpsMatch) in
          let repo := group 2 (groups httpsMatch) in
          Some (mkParsed "gitlab.com" owner (strip_git repo) None None
                  ("https://gitlab.com/" +++ owner +++ "/" +++ strip_git repo +++ ".git"))
      | None =>
          (* /git@gitlab\.com:([^\/]+)\/(.+?)(?:\.git)?$/ *)
          match exec (re_ssh "gitlab.com") url with
          | Some sshMatch =>
              let owner := group 1 (groups sshMatch) in
              let repo := group 2 (groups sshMatch) in
              Some (mkParsed "gitlab.com" owner (strip_git repo) None None
                      ("git@gitlab.com:" +++ owner +++ "/" +++ strip_git repo +++ ".git"))
          | None => None
          end
      end
  end.

Definition parseBitbucketUrl (url : string) : option ParsedGitUrl :=
  (* /bitbucket\.org\/([^\/]+)\/([^\/]+)\/src\/([^\/]+)\/(.+)/ *)
  match exec (re_subdir "bitbucket.org" marker_bitbucket) url with
  | Some subdirMatch =>
      let owner := group 1 (groups subdirMatch) in
      let repo := group 2 (groups subdirMatch) in
      let branch := group 3 (groups subdirMatch) in
      let subdir := group 4 (groups subdirMatch) in
      Some (mkParsed "bitbucket.org" owner (strip_git repo) (Some branch)
              (Some (replace_empty re_slash_end subdir))
              ("https://bitbucket.org/" +++ owner +++ "/" +++ strip_git repo +++ ".git"))
  | None =>
      (* /bitbucket\.org\/([^\/]+)\/([^\/\.\s]+)/ *)
      match exec (re_https "bitbucket.org") url with
      | Some httpsMatch =>
          let owner := group 1 (groups httpsMatch) in
          let repo := group 2 (groups httpsMatch) in
          Some (mkParsed "bitbucket.org" owner (strip_git repo) None None
                  ("https://bitbucket.org/" +++ owner +++ "/" +++ strip_git repo +++ ".git"))
      | None =>
          (* /git@bitbucket\.org:([^\/]+)\/(.+?)(?:\.git)?$/ *)
          match exec (re_ssh "bitbucket.org") url with
          | Some sshMatch =>
              let owner := group 1 (groups sshMatch) in
              let repo := group 2 (groups sshMatch) in
              Some (mkParsed "bitbucket.org" owner (strip_git repo) None None
                      ("git@bitbucket.org:" +++ owner +++ "/" +++ strip_git repo +++ ".git"))
          | None => None
          end
      end
  end.

(** [/git@([^:]+):([^\/]+)\/(.+?)(?:\.git)?$/] *)
Definition re_generic_ssh : regex :=
  RSeq (RLit "git@")
    (RSeq (RGroup 1 (RPlus true (RSet true [CsChar ":"]))) (RSeq (RChar ":")
      (RSeq (RGroup 2 (RPlus true notSlash)) (RSeq (RChar "/")
        (RSeq (RGroup 3 (RPlus false RAny))
          (RSeq (ROpt (RLit ".git")) REnd)))))).

(** [/https?:\/\/([^\/]+)\/([^\/]+)\/([^\/\.\s]+)/] *)
Definition re_generic_https : regex :=
  RSeq (RLit "http") (RSeq (ROpt (RChar "s")) (RSeq (RLit "://")
    (RSeq (RGroup 1 (RPlus true notSlash)) (RSeq (RChar "/")
      (RSeq (RGroup 2 (RPlus true notSlash)) (RSeq (RChar "/")
        (RGroup 3 (RPlus true repoChar)))))))).

Definition parseGenericGitUrl (url : string) : option ParsedGitUrl :=
  match exec re_generic_ssh url with
  | Some sshMatch =>
      let host := group 1 (groups sshMatch) in
      let owner := group 2 (groups sshMatch) in
      let repo := group 3 (groups sshMatch) in
      Some (mkParsed host owner (strip_git repo) None None
              (if endsWith url ".git" then url else url +++ ".git"))
  | None =>
      match exec re_generic_https url with
      | Some httpsMatch =>
          let host := group 1 (groups httpsMatch) in
          let owner := group 2 (groups httpsMatch) in
          let repo := group 3 (groups httpsMatch) in
          Some (mkParsed host owner (strip_git repo) None None
                  (if endsWith url ".git" then url else url +++ ".git"))
      | None => None
      end
  end.

(** The matchers are tried in order; an object is truthy, [null] is not. *)
Definition parseGitUrl (url : string) : option ParsedGitUrl :=
  or_else (parseGitHubUrl url)
    (or_else (parseGitLabUrl url)
       (or_else (parseBitbucketUrl url) (parseGenericGitUrl url))).

End Paths.

(* ===================================================================== *)
(** * Part III. [src/types.ts]: the registry's records                    *)
(* ===================================================================== *)

Inductive SourceType : Type := remote | local.

(** A [Source] as it is found in a registry file.  [name] is the flat unique
    name; [namespace] is the compound identifier of the older schema, which
    [readConfig] migrates.  Properties that are absent are [None]. *)
Module Source.
Record t : Type := mk {
  type : SourceType;
  url : option string;
  path : option string;
  name : option string;
  namespace : option string
}.
End Source.

Module Target.
Record t : Type := mk {
  name : string;
  path : string
}.
End Target.

Record Config : Type := mkConfig {
  sources : list Source.t;
  targets : list Target.t
}.

Inductive SyncStatus : Type := synced | not_synced | target_missing.

(** A thrown value: every one in these sources is an instance of [Error],
    with a [name] ([Error], [TypeError], [SyntaxError], [ShellError]) and a
    [message]. *)
Record exn : Type := mkExn {
  exn_name : string;
  message : string
}.

(** [new Error(message)]; the errors of [fs/promises] are of this kind, with
    the error code at the head of the message. *)
Definition Error (message : string) : exn := mkExn "Error" message.

(** The outcome of a call that may throw. *)
Inductive result (A : Type) : Type :=
| Ok (a : A)
| Throw (e : exn).
Arguments Ok {A} a.
Arguments Throw {A} e.

(* ===================================================================== *)
(** * Part IV. The file system                                            *)
(* ===================================================================== *)

Module Fs.

(** An absolute path, as the list of its components. *)
Definition path := list string.

(** The body of a file.  The registry file is kept in parsed form when it
    holds a JSON document ([Json c] is what [JSON.stringify(c)] writes and
    what [.json()] reads back); a [Text] body read as the registry is one
    that [.json()] rejects.  JSON documents of another shape than [Config]
    are not modelled: the code casts what it reads ([content as Config]). *)
Inductive content : Type :=
| Text (bytes : string)
| Json (c : Config).

(** Directory entries are kept in the order in which [readdir] enumerates
    them.  [readable] is the read permission: [readdir] on an unreadable
    directory and reading an unreadable file both fail.  [Special] stands for
    an entry that is neither a regular file nor a directory (a symbolic link,
    a socket). *)
Inductive node : Type :=
| File (readable : bool) (data : content)
| Dir (readable : bool) (entries : list (string * node))
| Special.

Definition entries := list (string * node).

Fixpoint assoc (x : string) (es : entries) : option node :=
  match es with
  | [] => None
  | (y, c) :: rest => if String.eqb y x then Some c else assoc x rest
  end.

Fixpoint lookup (n : node) (p : path) : option node :=
  match p with
  | [] => Some n
  | seg :: rest =>
      match n with
      | Dir _ es =>
          match assoc seg es with
          | Some c => lookup c rest
          | None => None
          end
      | _ => None
      end
  end.

Definition remove_name (x : string) (es : entries) : entries :=
  filter (fun e => negb (String.eqb (fst e) x)) es.

(** Change the entry called [x]: [g] maps what is there (if anything) to
    what shall be there (if anything).  A changed entry keeps its place, a new
    entry goes last, a removed name is gone. *)
Fixpoint entries_alter (x : string) (g : option node -> option node) (es : entries)
  : entries :=
  match es with
  | [] => match g None with Some c => [(x, c)] | None => [] end
  | (y, c) :: rest =>
      if String.eqb y x then
        match g (Some c) with
        | Some c' => (y, c') :: rest
        | None => remove_name x rest
        end
      else (y, c) :: entries_alter x g rest
  end.

(** Change what stands at path [p].  With [mk], missing directories on the
    way are created; a component that is not a directory blocks the change. *)
Fixpoint alter (mk : bool) (f : option node -> option node) (p : path)
         (o : option node) : option node :=
  match p with
  | [] => f o
  | seg :: rest =>
      match o with
      | Some (Dir r es) => Some (Dir r (entries_alter seg (alter mk f rest) es))
      | None =>
          if mk then Some (Dir true (entries_alter seg (alter mk f rest) []))
          else None
      | Some other => Some other
      end
  end.

Definition update (mk : bool) (f : option node -> option node) (p : path)
           (fs : node) : node :=
  match alter mk f p (Some fs) with
  | Some n => n
  | None => fs
  end.

Definition isDirectory (o : option node) : bool :=
  match o with Some (Dir _ _) => true | _ => false end.

Definition isFile (o : option node) : bool :=
  match o with Some (File _ _) => true | _ => false end.

(** Every component of [p] that exists is a directory. *)
Fixpoint dirs_on_the_way (n : node) (p : path) : bool :=
  match n with
  | Dir _ es =>
      match p with
      | [] => true
      | seg :: rest =>
          match assoc seg es with
          | Some c => dirs_on_the_way c rest
          | None => true
          end
      end
  | _ => false
  end.

(** [mkdir(p, { recursive: true })].  It refuses with [EEXIST] when what
    stands at [p] itself is not a directory, and with [ENOTDIR] when
    something that is not a directory stands on the way to [p]. *)
Definition mkdir (p : path) (fs : node) : result node :=
  if dirs_on_the_way fs p then
    Ok (update true
          (fun o => match o with Some n => Some n | None => Some (Dir true []) end) p fs)
  else
    Throw (Error match lookup fs p with
                 | Some _ => "EEXIST: file already exists, mkdir"
                 | None => "ENOTDIR: not a directory, mkdir"
                 end).

(** [rm(p, { recursive: true, force: true })]: nothing to do is no error. *)
Definition rm (p : path) (fs : node) : node := update false (fun _ => None) p fs.

(** [rm(p, { recursive: false })]: refuses a directory, and a missing path. *)
Definition rm_plain (p : path) (fs : node) : result node :=
  match lookup fs p with
  | None => Throw (Error "ENOENT: no such file or directory, rm")
  | Some (Dir _ _) => Throw (Error "ERR_FS_EISDIR: Path is a directory, rm")
  | Some _ => Ok (rm p fs)
  end.

(** [readdir(p)]: the names, in enumeration order. *)
Definition readdir (p : path) (fs : node) : result (list string) :=
  match lookup fs p with
  | Some (Dir true es) => Ok (map fst es)
  | Some (Dir false _) => Throw (Error "EACCES: permission denied, scandir")
  | Some _ => Throw (Error "ENOTDIR: not a directory, scandir")
  | None => Throw (Error "ENOENT: no such file or directory, scandir")
  end.

Definition parent (p : path) : path := removelast p.

(** [Bun.write(p, data)]: creates or replaces the file. *)
Definition write (p : path) (data : content) (fs : node) : result node :=
  match p with
  | [] => Throw (Error "EISDIR: illegal operation on a directory, open")
  | _ =>
      if isDirectory (lookup fs p) then
        Throw (Error "EISDIR: illegal operation on a directory, open")
      else if dirs_on_the_way fs (parent p) then
        Ok (update true (fun _ => Some (File true data)) p fs)
      else Throw (Error "ENOTDIR: not a directory, open")
  end.

(** [rename(from, to)]. *)
Definition rename (from to : path) (fs : node) : result node :=
  match lookup fs from with
  | None => Throw (Error "ENOENT: no such file or directory, rename")
  | Some n =>
      match lookup fs to with
      | Some (Dir _ (_ :: _)) => Throw (Error "ENOTEMPTY: directory not empty, rename")
      | _ =>
          if isDirectory (lookup fs (parent to)) then
            Ok (update false (fun _ => Some n) to (rm from fs))
          else Throw (Error "ENOENT: no such file or directory, rename")
      end
  end.

Fixpoint all_readable (n : node) : bool :=
  match n with
  | File r _ => r
  | Dir r es =>
      r && (fix go (es : entries) : bool :=
              match es with
              | [] => true
              | (_, c) :: rest => all_readable c && go rest
              end) es
  | Special => true
  end.

(** What copying [n] over [old] leaves: directories are merged, anything
    else is replaced. *)
Fixpoint merge (n : node) (old : option node) {struct n} : node :=
  match n with
  | Dir r es =>
      let base := match old with Some (Dir _ es') => es' | _ => [] end in
      Dir (match old with Some (Dir r' _) => r' | _ => r end)
          ((fix go (es : entries) (acc : entries) {struct es} : entries :=
              match es with
              | [] => acc
              | (x, c) :: rest =>
                  go rest (entries_alter x (fun o => Some (merge c o)) acc)
              end) es base)
  | other => other
  end.

(** [cp(from, to, { recursive: true })].  A directory is not copied over
    what is not one, be it a regular file or a special entry.  (The entries
    of the copy stand here in the order of the source; the file system may
    list them in another.) *)
Definition cp (from to : path) (fs : node) : result node :=
  match lookup fs from with
  | None => Throw (Error "ENOENT: no such file or directory, cp")
  | Some n =>
      if negb (all_readable n) then Throw (Error "EACCES: permission denied, cp")
      else
        match n, lookup fs to with
        | Dir _ _, Some (File _ _) =>
            Throw (Error "ERR_FS_CP_DIR_TO_NON_DIR: Cannot overwrite non-directory with directory")
        | Dir _ _, Some Special =>
            Throw (Error "ERR_FS_CP_DIR_TO_NON_DIR: Cannot overwrite non-directory with directory")
        | File _ _, Some (Dir _ _) =>
            Throw (Error "ERR_FS_CP_NON_DIR_TO_DIR: Cannot overwrite directory with non-directory")
        | _, _ =>
            if dirs_on_the_way fs (parent to) then
              Ok (update true (fun o => Some (merge n o)) to fs)
            else Throw (Error "ENOTDIR: not a directory, cp")
        end
  end.

(** [path.join(base, s)] and the reading of an absolute path string: the
    non-empty components between slashes.  (A component [.] or [..], which
    [path.join] would resolve, is kept as a name.) *)
Definition segments (s : string) : path :=
  filter JS.truthy (JS.split "/" s).

Definition join (base : path) (s : string) : path := base ++ segments s.

(** The template [`${p}${suffix}`] on a path: the suffix extends the last
    component. *)
Definition suffixed (p : path) (suffix : string) : path :=
  match rev p with
  | [] => [suffix]
  | l :: front => rev front ++ [l +++ suffix]
  end.

End Fs.

(* ===================================================================== *)
(** * Part V. [src/lib/hash.ts]: directory fingerprints                   *)
(* ===================================================================== *)

Module Hash.
Import JS Fs.

Section Hashing.
(** [Bun.hash]: the 64-bit digest of the bytes of a file or of a string. *)
Variable Bun_hash : content -> N.
(** [String.prototype.localeCompare]: negative, zero or positive. *)
Variable localeCompare : string -> string -> Z.

(** [basePath ? `${basePath}/${entry.name}` : entry.name] *)
Definition relativePath (basePath name : string) : string :=
  if truthy basePath then basePath +++ "/" +++ name else name.

(** The body of [getDirectoryFiles] on the directory that [dirPath]
    resolves to.  [readdir] throws on anything but a readable directory
    and the [catch] leaves [files] empty.  Reading an unreadable file
    throws inside the loop: the same [catch] ends the loop with the
    entries gathered so far. *)
Fixpoint filesOf (n : node) (basePath : string) {struct n} : jsmap :=
  match n with
  | Dir true dirents =>
      (fix loop (es : entries) (files : jsmap) {struct es} : jsmap :=
         match es with
         | [] => files
         | (name, child) :: rest =>
             match child with
             | Dir _ _ =>
                 loop rest
                   (map_set_all (filesOf child (relativePath basePath name)) files)
             | File true data =>
                 loop rest
                   (map_set (relativePath basePath name)
                      (toString16 (Bun_hash data)) files)
             | File false _ => files
             | Special => loop rest files
             end
         end) dirents []
  | _ => []
  end.

Definition getDirectoryFiles (fs : node) (dirPath : path) (basePath : string) : jsmap :=
  match lookup fs dirPath with
  | Some n => filesOf n basePath
  | None => []
  end.

Definition hashDirectory (fs : node) (dirPath : path) : string :=
  let files := getDirectoryFiles fs dirPath EmptyString in
  if Nat.eqb (List.length files) 0 then "empty"
  else
    let sortedEntries :=
      sort (fun a b => localeCompare (fst a) (fst b)) files in
    let combined :=
      JS.join "|" (map (fun e => fst e +++ ":" +++ snd e) sortedEntries) in
    toString16 (Bun_hash (Text combined)).

Definition directoryExists (fs : node) (dirPath : path) : bool :=
  isDirectory (lookup fs dirPath).

Definition compareDirectories (fs : node) (source target : path) : SyncStatus :=
  let targetExists := directoryExists fs target in
  if negb targetExists then target_missing
  else
    let sourceHash := hashDirectory fs source in
    let targetHash := hashDirectory fs target in
    if String.eqb sourceHash targetHash then synced else not_synced.

End Hashing.
End Hash.

(* ===================================================================== *)
(** * Part VI. The process: file system, module state, console            *)
(* ===================================================================== *)

Module Proc.
Import Fs.

Inductive line : Type :=
| Out (text : string)       (* console.log   *)
| Err (text : string).      (* console.error *)

(** What a running command can change: the disk, the module-level
    [DEFAULT_CONFIG] object of [config.ts] (one object, shared by every call
    that returns it), and the console. *)
Record state : Type := mkState {
  fs : node;
  DEFAULT_CONFIG : Config;
  console : list line
}.

(** An [async] function: it runs on the state and either returns or throws;
    what it did before throwing stays done. *)
Definition M (A : Type) : Type := state -> result A * state.

Definition ret {A : Type} (a : A) : M A := fun st => (Ok a, st).

Definition bind {A B : Type} (m : M A) (k : A -> M B) : M B :=
  fun st =>
    match m st with
    | (Ok a, st') => k a st'
    | (Throw e, st') => (Throw e, st')
    end.

(** [throw new Error(message)] *)
Definition throw {A : Type} (message : string) : M A :=
  fun st => (Throw (Error message), st).

Definition throwExn {A : Type} (e : exn) : M A := fun st => (Throw e, st).

(** [try { m } catch (error) { handler(error) }] *)
Definition tryCatch {A : Type} (m : M A) (handler : exn -> M A) : M A :=
  fun st =>
    match m st with
    | (Ok a, st') => (Ok a, st')
    | (Throw e, st') => handler e st'
    end.

Definition readFs {A : Type} (f : node -> A) : M A := fun st => (Ok (f (fs st)), st).

Definition setFs (n : node) : M unit :=
  fun st => (Ok tt, mkState n (DEFAULT_CONFIG st) (console st)).

(** A file-system call that may throw. *)
Definition tryFs (op : node -> result node) : M unit :=
  fun st =>
    match op (fs st) with
    | Ok n => setFs n st
    | Throw e => (Throw e, st)
    end.

(** A file-system call that cannot fail. *)
Definition doFs (op : node -> node) : M unit := fun st => setFs (op (fs st)) st.

(** A read that may throw. *)
Definition askFs {A : Type} (op : node -> result A) : M A := fun st => (op (fs st), st).

Definition print (l : line) : M unit :=
  fun st => (Ok tt, mkState (fs st) (DEFAULT_CONFIG st) (console st ++ [l])).

Definition console_log (text : string) : M unit := print (Out text).
Definition console_error (text : string) : M unit := print (Err text).

(** [for (const x of xs) { await body(x) }] *)
Fixpoint forEach {A : Type} (xs : list A) (body : A -> M unit) : M unit :=
  match xs with
  | [] => ret tt
  | x :: rest => bind (body x) (fun _ => forEach rest body)
  end.

(** [`${error}`]: the name, a colon, the message. *)
Definition show_error (e : exn) : string := exn_name e +++ ": " +++ message e.

(** The double-quote character and the line break of the messages. *)
Definition quote : string := String (Ascii.ascii_of_nat 34) EmptyString.
Definition newline : string := String (Ascii.ascii_of_nat 10) EmptyString.

(** [`${v}`] for an optional string. *)
Definition show_opt (o : option string) : string :=
  match o with Some s => s | None => "undefined" end.

Declare Scope proc_scope.
Delimit Scope proc_scope with proc.
Notation "x <- m ;; k" := (bind m (fun x => k))
  (at level 61, m at next level, right associativity) : proc_scope.
Notation "m ;; k" := (bind m (fun _ => k))
  (at level 61, right associativity) : proc_scope.

End Proc.

(* ===================================================================== *)
(** * Part VII. [src/lib/paths.ts]: where the tool keeps its files        *)
(* ===================================================================== *)

Module Store.
Import JS Fs Proc Paths.

Section WithHome.
(** [os.homedir()] *)
Variable homedir : string.

Definition SKILLS_ROOT : path := join (segments homedir) ".skills".
Definition SKILLS_STORE : path := join SKILLS_ROOT "store".
Definition CONFIG_PATH : path := join SKILLS_ROOT "config.json".

(** Modelled from the spec: [getSkillPath] of the current [paths.ts] is not
    among the sources; the store keeps one child directory per source,
    named by its name ([store/<name>/]), as [getNamespacePath] does for
    the older schema. *)
Definition getSkillPath (name : string) : path := join SKILLS_STORE name.
End WithHome.

(** Modelled from the spec: [getDefaultSkillName] of the current [paths.ts]
    is not among the sources.  If [subdir] is present the name is the final
    path segment of [subdir]; otherwise it is the [repo] name. *)
Definition getDefaultSkillName (parsed : ParsedGitUrl) : string :=
  if truthy_opt (subdir parsed)
  then last_segment (split "/" (show_opt (subdir parsed)))
  else repo parsed.

End Store.

(* ===================================================================== *)
(** * Part VIII. [src/lib/config.ts]: the persisted registry              *)
(* ===================================================================== *)

Module Registry.
Import JS Fs Proc Store.
Local Open Scope proc_scope.

(** The initial value of the module-level constant. *)
Definition DEFAULT_CONFIG_value : Config := mkConfig [] [].

(** Which object a call to [readConfig] returned: the shared
    [DEFAULT_CONFIG] itself, or an object freshly built by [.json()]. *)
Inductive configRef : Type :=
| TheDefault
| Fresh (c : Config).

(** The current value of the object. *)
Definition deref (r : configRef) : M Config :=
  fun st => (Ok (match r with TheDefault => DEFAULT_CONFIG st | Fresh c => c end), st).

(** A mutation of the object ([push], [splice]): it is seen by every later
    holder of [DEFAULT_CONFIG] when that is the object mutated. *)
Definition assign (r : configRef) (c : Config) : M unit :=
  fun st =>
    match r with
    | TheDefault => (Ok tt, mkState (fs st) c (console st))
    | Fresh _ => (Ok tt, st)
    end.

(** [a === b] on optional strings. *)
Definition strict_eq (a b : option string) : bool :=
  match a, b with
  | Some x, Some y => String.eqb x y
  | None, None => true
  | _, _ => false
  end.

(** [configFile.json()] *)
Definition json (p : path) (n : node) : result Config :=
  match lookup n p with
  | Some (File true (Json c)) => Ok c
  | Some (File true (Text _)) => Throw (mkExn "SyntaxError" "JSON Parse error")
  | Some (File false _) => Throw (Error "EACCES: permission denied, open")
  | _ => Throw (Error "ENOENT: no such file or directory, open")
  end.

Section WithHome.
Variable homedir : string.

Definition ensureDirectories : M unit :=
  tryFs (mkdir (SKILLS_ROOT homedir)) ;;
  tryFs (mkdir (SKILLS_STORE homedir)).

Definition writeConfig (config : Config) : M unit :=
  ensureDirectories ;;
  tryFs (write (CONFIG_PATH homedir) (Json config)).

(** [Bun.file(p).exists()]: true for a regular file, false for a directory. *)
Definition exists_ (p : path) : M bool := readFs (fun n => isFile (lookup n p)).

Definition migrateSkillFolder (oldNamespace newName : string) : M unit :=
  let oldPath := join (SKILLS_STORE homedir) oldNamespace in
  let newPath := join (SKILLS_STORE homedir) newName in
  tryCatch
    (skillMd <- exists_ (oldPath ++ ["SKILL.md"]) ;;
     oldItself <- (if skillMd then ret true else exists_ oldPath) ;;
     if oldItself then
       newExists <- exists_ newPath ;;
       if negb newExists then
         tryFs (rename oldPath newPath) ;;
         console_log ("Migrated skill folder: " +++ oldNamespace +++ " -> " +++ newName) ;;
         let parentDir :=
           join (SKILLS_STORE homedir) (hd EmptyString (split "/" oldNamespace)) in
         tryCatch (tryFs (rm_plain parentDir)) (fun _ => ret tt)
       else ret tt
     else ret tt)
    (fun _ => ret tt).

(** The migration loop of [readConfig]: the sources as they stand after
    it, and whether any was rewritten. *)
Fixpoint migrateSources (l : list Source.t) : M (list Source.t * bool) :=
  match l with
  | [] => ret ([], false)
  | source :: rest =>
      if truthy_opt (Source.namespace source) && negb (truthy_opt (Source.name source))
      then
        let oldNamespace := show_opt (Source.namespace source) in
        let newName := last_segment (split "/" oldNamespace) in
        let source' :=
          Source.mk (Source.type source) (Source.url source) (Source.path source)
                    (Some newName) None in
        migrateSkillFolder oldNamespace newName ;;
        r <- migrateSources rest ;;
        ret (source' :: fst r, true)
      else
        r <- migrateSources rest ;;
        ret (source :: fst r, snd r)
  end.

(** [readConfig] of the current [config.ts]. *)
Definition readConfig : M configRef :=
  ensureDirectories ;;
  present <- exists_ (CONFIG_PATH homedir) ;;
  if negb present then
    d <- deref TheDefault ;;
    writeConfig d ;;
    ret TheDefault
  else
    tryCatch
      (content <- askFs (json (CONFIG_PATH homedir)) ;;
       r <- migrateSources (sources content) ;;
       let content' := mkConfig (fst r) (targets content) in
       (if snd r then writeConfig content' else ret tt) ;;
       ret (Fresh content'))
      (fun _ =>
         d <- deref TheDefault ;;
         writeConfig d ;;
         ret TheDefault).

(** [readConfig] of the older [config.ts], without the migration. *)
Definition readConfig_v1 : M configRef :=
  ensureDirectories ;;
  present <- exists_ (CONFIG_PATH homedir) ;;
  if negb present then
    d <- deref TheDefault ;;
    writeConfig d ;;
    ret TheDefault
  else
    tryCatch
      (content <- askFs (json (CONFIG_PATH homedir)) ;;
       ret (Fresh content))
      (fun _ =>
         d <- deref TheDefault ;;
         writeConfig d ;;
         ret TheDefault).

Definition addSource (source : Source.t) : M unit :=
  r <- readConfig ;;
  config <- deref r ;;
  let existing :=
    find (fun s => strict_eq (Source.name s) (Source.name source)) (sources config) in
  match existing with
  | Some _ =>
      throw ("Skill with name " +++ quote +++ show_opt (Source.name source) +++ quote
             +++ " already exists")
  | None =>
      let config' := mkConfig (sources config ++ [source]) (targets config) in
      assign r config' ;;
      writeConfig config'
  end.

(** [findIndex] followed by [splice(index, 1)]: the first element that
    satisfies [p], and the list without it. *)
Fixpoint splice_first {A : Type} (p : A -> bool) (l : list A) : option (A * list A) :=
  match l with
  | [] => None
  | x :: rest =>
      if p x then Some (x, rest)
      else
        match splice_first p rest with
        | Some (y, rest') => Some (y, x :: rest')
        | None => None
        end
  end.

Definition removeSource (name : string) : M (option Source.t) :=
  r <- readConfig ;;
  config <- deref r ;;
  match splice_first (fun s => strict_eq (Source.name s) (Some name)) (sources config) with
  | None => ret None
  | Some (removed, rest) =>
      let config' := mkConfig rest (targets config) in
      assign r config' ;;
      writeConfig config' ;;
      ret (Some removed)
  end.

Definition getSources : M (list Source.t) :=
  r <- readConfig ;;
  config <- deref r ;;
  ret (sources config).

Definition addTarget (target : Target.t) : M unit :=
  r <- readConfig ;;
  config <- deref r ;;
  let existing :=
    find (fun t => String.eqb (Target.name t) (Target.name target)) (targets config) in
  match existing with
  | Some _ =>
      throw ("Target with name " +++ quote +++ Target.name target +++ quote
             +++ " already exists")
  | None =>
      let config' := mkConfig (sources config) (targets config ++ [target]) in
      assign r config' ;;
      writeConfig config'
  end.

Definition removeTarget (name : string) : M (option Target.t) :=
  r <- readConfig ;;
  config <- deref r ;;
  match splice_first (fun t => String.eqb (Target.name t) name) (targets config) with
  | None => ret None
  | Some (removed, rest) =>
      let config' := mkConfig (sources config) rest in
      assign r config' ;;
      writeConfig config' ;;
      ret (Some removed)
  end.

Definition getTargets : M (list Target.t) :=
  r <- readConfig ;;
  config <- deref r ;;
  ret (targets config).

End WithHome.
End Registry.

(* ===================================================================== *)
(** * Part IX. [src/commands/sync.ts]                                     *)
(* ===================================================================== *)

Module Sync.
Import JS Fs Proc Store Registry.
Local Open Scope proc_scope.

Section WithHome.
Variable homedir : string.

Definition syncToTarget (target : Target.t) : M unit :=
  let targetPath := segments (Target.path target) in
  tryFs (mkdir targetPath) ;;
  storeExists <- readFs (fun n => Hash.directoryExists n (SKILLS_STORE homedir)) ;;
  if negb storeExists then
    console_log ("  " +++ Target.name target +++ ": Store is empty, nothing to sync")
  else
    (* [const entries = await Bun.file(target.path).exists() ? [] : []]
       has no effect and is left out. *)
    tryCatch
      (existingFiles <- askFs (readdir targetPath) ;;
       forEach existingFiles (fun file => doFs (rm (targetPath ++ [file]))))
      (fun _ => ret tt) ;;
    tryFs (cp (SKILLS_STORE homedir) targetPath) ;;
    console_log ("  " +++ Target.name target +++ ": Synced").

(** The loop of [sync]: one guarded call per target. *)
Definition syncEach (targets : list Target.t) : M unit :=
  forEach targets (fun target =>
    tryCatch (syncToTarget target)
      (fun error =>
         console_error ("  " +++ Target.name target +++ ": Failed - " +++ message error))).

Definition sync : M unit :=
  targets <- getTargets homedir ;;
  if Nat.eqb (List.length targets) 0 then
    console_log "No targets registered." ;;
    console_log "Add a target with: skills target add <name> <path>"
  else
    storeExists <- readFs (fun n => Hash.directoryExists n (SKILLS_STORE homedir)) ;;
    if negb storeExists then
      console_log "Store is empty. Add sources first with: skills source add <url> --remote"
    else
      console_log ("Syncing skills to all targets..." +++ newline) ;;
      syncEach targets ;;
      console_log (newline +++ "Sync complete.").

End WithHome.
End Sync.

(* ===================================================================== *)
(** * Part X. The Git client                                              *)
(* ===================================================================== *)

Module Git.
Import Fs Proc.

(** A run of the [git] program with the given arguments: what it leaves on
    disk, and whether it exited with a non-zero status (a [ShellError] is
    then thrown, with the given message). *)
Definition client : Type := list string -> node -> result unit * node.

Definition run (git : client) (args : list string) : M unit :=
  fun st =>
    let r := git args (fs st) in
    (fst r, mkState (snd r) (DEFAULT_CONFIG st) (console st)).

(** How a path is handed to [git]. *)
Definition show_path (p : path) : string := "/" +++ JS.join "/" p.

End Git.

(* ===================================================================== *)
(** * Part XI. [src/commands/source.ts]                                   *)
(* ===================================================================== *)

Module SourceCmd.
Import JS Fs Proc Paths Store Registry Git.
Local Open Scope proc_scope.

Section WithHome.
Variable homedir : string.
Variable git : client.

(** The body of the [try] of [addRemoteSource] and of [updateRemoteSource]:
    a sparse checkout of [subdir] through a temporary clone, or a shallow
    clone of the whole repository. *)
Definition cloneInto (parsed : ParsedGitUrl) (branch : string) (targetPath : path)
  : M unit :=
  if truthy_opt (subdir parsed) then
    let tempPath := suffixed targetPath "_temp" in
    run git ["clone"; "--filter=blob:none"; "--no-checkout"; "--depth"; "1";
             "--branch"; branch; cloneUrl parsed; show_path tempPath] ;;
    run git ["-C"; show_path tempPath; "sparse-checkout"; "init"; "--cone"] ;;
    run git ["-C"; show_path tempPath; "sparse-checkout"; "set";
             show_opt (subdir parsed)] ;;
    run git ["-C"; show_path tempPath; "checkout"] ;;
    let subdirFullPath := join tempPath (show_opt (subdir parsed)) in
    tryFs (cp subdirFullPath targetPath) ;;
    doFs (rm tempPath)
  else
    run git ["clone"; "--depth"; "1"; "--branch"; branch; cloneUrl parsed;
             show_path targetPath] ;;
    doFs (rm (targetPath ++ [".git"])).

Definition branchOf (parsed : ParsedGitUrl) : string :=
  if truthy_opt (branch parsed) then show_opt (branch parsed) else "main".

Definition addRemoteSource (url : string) (customName : option string) : M unit :=
  match parseGitUrl url with
  | None =>
      throw ("Invalid Git URL: " +++ url +++ ". Expected formats:" +++ newline
             +++ "  - https://github.com/owner/repo" +++ newline
             +++ "  - https://gitlab.com/owner/repo" +++ newline
             +++ "  - https://bitbucket.org/owner/repo" +++ newline
             +++ "  - https://any-host.com/owner/repo.git")
  | Some parsed =>
      let defaultName := getDefaultSkillName parsed in
      let skillName := if truthy_opt customName then show_opt customName else defaultName in
      let targetPath := getSkillPath homedir skillName in
      console_log ("Adding remote source: " +++ url) ;;
      console_log ("Skill name: " +++ skillName) ;;
      (if truthy_opt customName && negb (String.eqb (show_opt customName) defaultName)
       then console_log ("  (renamed from: " +++ defaultName +++ ")") else ret tt) ;;
      (if truthy_opt (subdir parsed)
       then console_log ("Subdirectory: " +++ show_opt (subdir parsed)) else ret tt) ;;
      exists_already <- readFs (fun n => Hash.directoryExists n targetPath) ;;
      if exists_already then
        throw ("Skill " +++ quote +++ skillName +++ quote
               +++ " already exists. Remove it first with 'skills source remove "
               +++ skillName +++ "' or use --name to specify a different name.")
      else
        console_log "Cloning repository..." ;;
        tryCatch (cloneInto parsed (branchOf parsed) targetPath)
          (fun error =>
             doFs (rm targetPath) ;;
             doFs (rm (suffixed targetPath "_temp")) ;;
             throw ("Failed to clone repository: " +++ show_error error)) ;;
        addSource homedir (Source.mk remote (Some url) None (Some skillName) None) ;;
        console_log ("Successfully added skill: " +++ skillName)
  end.

End WithHome.
End SourceCmd.

(* ===================================================================== *)
(** * Part XII. [src/commands/update.ts]                                  *)
(* ===================================================================== *)

Module Update.
Import JS Fs Proc Paths Store Registry Git SourceCmd.
Local Open Scope proc_scope.

Section WithHome.
Variable homedir : string.
Variable git : client.

Definition updateRemoteSource (name : string) (url : string) : M unit :=
  let targetPath := getSkillPath homedir name in
  match parseGitUrl url with
  | None => throw ("Invalid URL: " +++ url)
  | Some parsed =>
      console_log ("  " +++ name +++ ": Updating from " +++ url +++ "...") ;;
      doFs (rm targetPath) ;;
      tryCatch
        (cloneInto git parsed (branchOf parsed) targetPath ;;
         console_log ("  " +++ name +++ ": Updated"))
        (fun error =>
           doFs (rm (suffixed targetPath "_temp")) ;;
           throw ("Failed to clone: " +++ show_error error))
  end.

(** [sourcePath] is [source.path!]: when the property is missing, [stat]
    throws inside [directoryExists], which answers [false]. *)
Definition updateLocalSource (name : string) (sourcePath : option string) : M unit :=
  let targetPath := getSkillPath homedir name in
  console_log ("  " +++ name +++ ": Updating from " +++ show_opt sourcePath +++ "...") ;;
  stillThere <- readFs (fun n =>
                  match sourcePath with
                  | Some p => Hash.directoryExists n (segments p)
                  | None => false
                  end) ;;
  if negb stillThere then
    throw ("Source folder no longer exists: " +++ show_opt sourcePath)
  else
    doFs (rm targetPath) ;;
    tryFs (cp (segments (show_opt sourcePath)) targetPath) ;;
    console_log ("  " +++ name +++ ": Updated").

(** An argument that the types promise to be a string: [source.name] goes
    to [path.join] and [source.url!] to [String.prototype.match]; each throws
    a [TypeError] on [undefined]. *)
Definition asserted (o : option string) (k : string -> M unit) : M unit :=
  match o with
  | Some s => k s
  | None => throwExn (mkExn "TypeError" "undefined is not a string")
  end.

(** The body of the loop of [update]. *)
Definition updateOne (source : Source.t) : M unit :=
  match Source.type source with
  | remote =>
      asserted (Source.name source) (fun name =>
        asserted (Source.url source) (updateRemoteSource name))
  | local =>
      asserted (Source.name source) (fun name =>
        updateLocalSource name (Source.path source))
  end.

(** The loop of [update]: one guarded call per source. *)
Definition updateEach (srcs : list Source.t) : M unit :=
  forEach srcs (fun source =>
    tryCatch (updateOne source)
      (fun error =>
         console_error ("  " +++ show_opt (Source.name source) +++ ": Failed - "
                          +++ message error))).

Definition update : M unit :=
  srcs <- getSources homedir ;;
  if Nat.eqb (List.length srcs) 0 then
    console_log "No sources registered." ;;
    console_log "Add a source with: skills source add <url> --remote"
  else
    console_log ("Updating all sources..." +++ newline) ;;
    updateEach srcs ;;
    console_log (newline +++ "Update complete.") ;;
    console_log "Run 'skills sync' to push changes to targets.".

End WithHome.
End Update.

(* ===================================================================== *)
(** * Part XIII. [src/commands/target.ts]                                 *)
(* ===================================================================== *)

Module TargetCmd.
Import JS Fs Proc Store Registry.
Local Open Scope proc_scope.

Section WithHome.
Variable homedir : string.

Definition targetRemove (name : string) : M unit :=
  removed <- removeTarget homedir name ;;
  match removed with
  | None => throw ("Target not found: " +++ name)
  | Some t =>
      console_log ("Removed target: " +++ name) ;;
      console_log ("Note: Files at " +++ Target.path t +++ " were not deleted.")
  end.

End WithHome.
End TargetCmd.

(* ===================================================================== *)
(** * Part XIV. [src/lib/paths.ts], older version: namespaces             *)
(* ===================================================================== *)

Module Namespaces.
Import JS Fs Paths Proc Store.

Fixpoint split_where_acc (sep : ascii -> bool) (s : string) (cur : string) : list string :=
  match s with
  | EmptyString => [cur]
  | String c rest =>
      if sep c then cur :: split_where_acc sep rest EmptyString
      else split_where_acc sep rest (cur +++ String c EmptyString)
  end.

(** [s.split(/[...]/)] for a class of one-character separators. *)
Definition split_where (sep : ascii -> bool) (s : string) : list string :=
  split_where_acc sep s EmptyString.

(** The class [[\/\\]]: a slash or a backslash. *)
Definition slash_or_backslash (c : ascii) : bool :=
  Ascii.eqb c "/" || Ascii.eqb c "\".

(** [arr.pop()] as a value: the last element, [undefined] on an empty array. *)
Definition pop (l : list string) : option string :=
  match rev l with
  | [] => None
  | x :: _ => Some x
  end.

(** [a || b] for an [a] that may be [undefined] or the empty string. *)
Definition or_string (a : option string) (b : string) : string :=
  if truthy_opt a then show_opt a else b.

Section WithHome.
Variable homedir : string.

Definition getNamespacePath (namespace : string) : path :=
  join (SKILLS_STORE homedir) namespace.
End WithHome.

Definition getRemoteNamespace (parsed : ParsedGitUrl) : string :=
  if truthy_opt (subdir parsed) then
    let subdirName :=
      or_string (pop (split "/" (show_opt (subdir parsed)))) (show_opt (subdir parsed)) in
    owner parsed +++ "/" +++ subdirName
  else owner parsed +++ "/" +++ repo parsed.

Definition getLocalNamespace (folderPath : string) : string :=
  let folderName :=
    or_string (pop (filter truthy (split_where slash_or_backslash folderPath))) "unnamed" in
  "local/" +++ folderName.

End Namespaces.

(* ===================================================================== *)
(** * Part XV. [src/lib/known-targets.ts]                                 *)
(* ===================================================================== *)

Module KnownTargets.
Import JS Fs.

Inductive Status : Type := GA | Beta | Experimental.

(** [path] is kept as the list of its components, as the paths of
    [paths.ts] are. *)
Record KnownTarget : Type := mk {
  name : string;
  description : string;
  path : Fs.path;
  status : Status
}.

(** [String.prototype.toLowerCase] on the letters of ASCII.  The bytes of
    other characters are left as they are: whatever their lower case is, it
    is not a text of the ASCII letters that the names of the table are made
    of. *)
Definition lower (c : ascii) : ascii :=
  let n := nat_of_ascii c in
  if Nat.leb 65 n && Nat.leb n 90 then ascii_of_nat (n + 32) else c.

Fixpoint toLowerCase (s : string) : string :=
  match s with
  | EmptyString => EmptyString
  | String c rest => String (lower c) (toLowerCase rest)
  end.

Section WithHome.
(** [os.homedir()] *)
Variable homedir : string.

(** [join(home, a, b, ...)] *)
Definition under_home (parts : list string) : Fs.path :=
  fold_left Fs.join parts (segments homedir).

Definition KNOWN_TARGETS : list KnownTarget :=
  [ mk "cursor" "Cursor IDE" (under_home [".cursor"; "skills"]) GA;
    mk "claude" "Claude Code / Claude Desktop" (under_home [".claude"; "skills"]) GA;
    mk "gemini" "Gemini CLI" (under_home [".gemini"; "skills"]) Beta;
    mk "copilot" "GitHub Copilot / VS Code" (under_home [".copilot"; "skills"]) GA;
    mk "opencode" "OpenCode CLI" (under_home [".config"; "opencode"; "skills"]) GA;
    mk "windsurf" "Windsurf IDE" (under_home [".windsurf"; "skills"]) GA;
    mk "antigravity" "Antigravity" (under_home [".gemini"; "antigravity"]) Experimental;
    mk "aider" "Aider CLI" (under_home [".aider"; "skills"]) Beta;
    mk "goose" "Goose AI" (under_home [".config"; "goose"; "skills"]) Beta;
    mk "amp" "Amp AI" (under_home [".amp"; "skills"]) Beta ].

Definition getKnownTarget (n : string) : option KnownTarget :=
  find (fun t => String.eqb (toLowerCase (name t)) (toLowerCase n)) KNOWN_TARGETS.

Definition getKnownTargetNames : list string := map name KNOWN_TARGETS.

End WithHome.
End KnownTargets.

(* ===================================================================== *)
(** * Part XVI. [src/cli.ts]                                              *)
(* ===================================================================== *)

Module Cli.
Import JS Proc.
Local Open Scope proc_scope.

(** How a run of a handler ends: it returns to its caller, or the process
    is ended by [process.exit(code)]; nothing that follows the call in the
    source is run then. *)
Inductive ending : Type :=
| Returned
| Exited (code : nat).

(** [process.exit(code)] *)
Definition exit (code : nat) : M ending := ret (Exited code).

Definition VERSION : string := "1.1.0".

(** [args.includes(x)] *)
Definition includes (args : list string) (x : string) : bool :=
  existsb (String.eqb x) args.

(** [args.findIndex(p)]; [None] stands for [-1]. *)
Fixpoint findIndex (p : string -> bool) (args : list string) : option nat :=
  match args with
  | [] => None
  | a :: rest =>
      if p a then Some 0
      else match findIndex p rest with Some i => Some (S i) | None => None end
  end.

(** [case s:] of a [switch (x)], for an [x] that may be [undefined]. *)
Definition selects (x : option string) (s : string) : bool :=
  match x with Some y => String.eqb y s | None => false end.

Section Commands.
(** [chalk.red], [chalk.cyan]: what they add depends on the terminal. *)
Variable red cyan : string -> string.
(** The text that [printHelp] builds from its template and [chalk]. *)
Variable help_text : string.
(** The commands of [src/commands/].  A command returns, throws, or ends
    the process itself, as [targetAdd] does for a name that it does not
    know. *)
Variable sourceAdd : string -> SourceType -> option string -> M ending.
Variable sourceRemove : string -> M ending.
Variable sourceList : M ending.
Variable targetAdd : string -> option string -> M ending.
Variable targetRemove : string -> M ending.
Variable targetList targetAvailable sync update doctor status : M ending.

Definition printHelp : M unit := console_log help_text.

Definition handleSourceCommand (subcommand : option string) (args : list string)
  : M ending :=
  if selects subcommand "add" then
    let nonFlagArgs := filter (fun a => negb (String.prefix "--" a)) args in
    let pathOrUrl := nth_error nonFlagArgs 0 in
    let isRemote := includes args "--remote" in
    let isLocal := includes args "--local" in
    let nameIndex := findIndex (fun a => String.eqb a "--name") args in
    let customName :=
      match nameIndex with
      | Some i => nth_error args (i + 1)
      | None => None
      end in
    if negb (truthy_opt pathOrUrl) then
      console_error "Missing path or URL for source add" ;; exit 1
    else if negb isRemote && negb isLocal then
      console_error "Please specify --remote or --local" ;; exit 1
    else if isRemote && isLocal then
      console_error "Cannot specify both --remote and --local" ;; exit 1
    else
      sourceAdd (show_opt pathOrUrl) (if isRemote then remote else local) customName
  else if selects subcommand "remove" then
    let name := nth_error args 0 in
    if negb (truthy_opt name) then
      console_error "Missing skill name for source remove" ;; exit 1
    else
      sourceRemove (show_opt name)
  else if selects subcommand "list" then
    sourceList
  else
    console_error ("Unknown source subcommand: " +++ show_opt subcommand) ;;
    console_log "Available: add, remove, list" ;;
    exit 1.

Definition handleTargetCommand (subcommand : option string) (args : list string)
  : M ending :=
  if selects subcommand "add" then
    let name := nth_error args 0 in
    let path := nth_error args 1 in
    if negb (truthy_opt name) then
      console_error "Usage: skills target add <name> [path]" ;;
      console_log (newline +++ "Run " +++ cyan "skills target available"
                     +++ " to see predefined targets.") ;;
      exit 1
    else
      targetAdd (show_opt name) path
  else if selects subcommand "remove" then
    let name := nth_error args 0 in
    if negb (truthy_opt name) then
      console_error "Missing name for target remove" ;; exit 1
    else
      targetRemove (show_opt name)
  else if selects subcommand "list" then
    targetList
  else if selects subcommand "available" then
    targetAvailable
  else
    console_error ("Unknown target subcommand: " +++ show_opt subcommand) ;;
    console_log "Available: add, remove, list, available" ;;
    exit 1.

(** The [switch] of [main], inside its [try]. *)
Definition dispatch (args : list string) : M ending :=
  let command := nth_error args 0 in
  let subcommand := nth_error args 1 in
  if selects command "source" then handleSourceCommand subcommand (skipn 2 args)
  else if selects command "target" then handleTargetCommand subcommand (skipn 2 args)
  else if selects command "sync" then sync
  else if selects command "update" then update
  else if selects command "doctor" then doctor
  else if selects command "status" then status
  else if selects command "help" then printHelp ;; ret Returned
  else
    console_error (red ("Unknown command: " +++ show_opt command)) ;;
    console_log ("Run " +++ cyan "skills --help" +++ " for usage.") ;;
    exit 1.

(** [main], on [process.argv.slice(2)]. *)
Definition main (args : list string) : M ending :=
  if Nat.eqb (List.length args) 0 || includes args "--help" || includes args "-h" then
    printHelp ;; exit 0
  else if includes args "--version" || includes args "-v" then
    console_log ("skills v" +++ VERSION) ;; exit 0
  else
    tryCatch (dispatch args)
      (fun error => console_error (red ("Error: " +++ message error)) ;; exit 1).

End Commands.
End Cli.

(* ===================================================================== *)
(** * Part XVII. [src/commands/target.ts], [src/commands/source.ts]:
      adding a target, removing a source                                  *)
(* ===================================================================== *)

Module Commands.
Import JS Fs Proc Paths Store Registry Git KnownTargets.
Local Open Scope proc_scope.

Section WithHome.
Variable homedir : string.
(** [process.env.HOME || process.env.USERPROFILE || ""] *)
Variable env_home : string.
(** [path.resolve], which reads the working directory. *)
Variable resolve : string -> string.
(** [chalk.cyan], [chalk.green], [chalk.red] *)
Variable cyan green red : string -> string.

(** [path.replace(/^~/, home)]; the replacement text is taken as it is
    written, as it is when it holds no [$]. *)
Definition untilde (path : string) : string :=
  match path with
  | String "~" rest => env_home +++ rest
  | _ => path
  end.

(** [targetAdd].  [rest] is what follows the choice of the path; the path
    of a predefined target is the text that [path.join] made of its
    components. *)
Definition targetAdd (name : string) (path : option string) : M Cli.ending :=
  let rest (absolutePath : string) : M Cli.ending :=
    console_log ("Adding target: " +++ cyan name) ;;
    console_log ("Path: " +++ absolutePath) ;;
    tryFs (mkdir (segments absolutePath)) ;;
    addTarget homedir (Target.mk name absolutePath) ;;
    console_log (green ("Successfully registered target: " +++ name)) ;;
    console_log "Performing initial sync..." ;;
    Sync.syncToTarget homedir (Target.mk name absolutePath) ;;
    console_log (green ("Target " +++ quote +++ name +++ quote +++ " is now synced.")) ;;
    ret Cli.Returned in
  if truthy_opt path then rest (resolve (untilde (show_opt path)))
  else
    match getKnownTarget homedir name with
    | None =>
        console_error (red ("Unknown target: " +++ name)) ;;
        console_log (newline +++ "Run " +++ cyan "skills target available"
                       +++ " to see predefined targets.") ;;
        console_log ("Or specify a custom path: "
                       +++ cyan ("skills target add " +++ name +++ " <path>")) ;;
        Cli.exit 1
    | Some known =>
        console_log ("Using predefined path for " +++ cyan (description known)) ;;
        rest (show_path (KnownTargets.path known))
    end.

Definition sourceRemove (name : string) : M unit :=
  removed <- removeSource homedir name ;;
  match removed with
  | None => throw ("Skill not found: " +++ name)
  | Some _ =>
      doFs (rm (getSkillPath homedir name)) ;;
      console_log (green ("Removed skill: " +++ name))
  end.

End WithHome.
End Commands.

(* ===================================================================== *)
(** * Part XVIII. Vocabulary of the properties                            *)
(* ===================================================================== *)

Module Shape.
Import JS Fs.

(** Induction on a tree, with the hypothesis for every entry of a directory. *)
Section NodeInduction.
Variable P : node -> Prop.
Hypothesis HFile : forall r d, P (File r d).
Hypothesis HSpecial : P Special.
Hypothesis HDir : forall r es, Forall (fun e => P (snd e)) es -> P (Dir r es).

Fixpoint node_induction (n : node) : P n :=
  match n with
  | File r d => HFile r d
  | Special => HSpecial
  | Dir r es =>
      HDir r es
        ((fix go (es : entries) : Forall (fun e => P (snd e)) es :=
            match es with
            | [] => Forall_nil _
            | e :: rest => Forall_cons e (node_induction (snd e)) (go rest)
            end) es)
  end.
End NodeInduction.

Fixpoint slash_free (s : string) : bool :=
  match s with
  | EmptyString => true
  | String c rest => negb (Ascii.eqb c "/") && slash_free rest
  end.

(** A file name: not empty, no slash. *)
Definition valid_name (x : string) : bool := truthy x && slash_free x.

Fixpoint distinct (l : list string) : bool :=
  match l with
  | [] => true
  | x :: rest => negb (existsb (String.eqb x) rest) && distinct rest
  end.

(** What every file system guarantees of a tree: in each directory the
    names are valid and no name occurs twice. *)
Fixpoint well_formed (n : node) : bool :=
  match n with
  | Dir _ es =>
      distinct (map fst es)
      && (fix go (es : entries) : bool :=
            match es with
            | [] => true
            | (x, c) :: rest => valid_name x && well_formed c && go rest
            end) es
  | _ => true
  end.

(** Every regular file of the tree can be read. *)
Fixpoint files_readable (n : node) : bool :=
  match n with
  | File r _ => r
  | Dir _ es =>
      (fix go (es : entries) : bool :=
         match es with
         | [] => true
         | (_, c) :: rest => files_readable c && go rest
         end) es
  | Special => true
  end.

(** The same tree, with the entries of any of its directories enumerated
    in another order. *)
Inductive reordered : node -> node -> Prop :=
| reordered_refl : forall n, reordered n n
| reordered_trans : forall a b c, reordered a b -> reordered b c -> reordered a c
| reordered_here : forall r es es',
    Permutation es es' -> reordered (Dir r es) (Dir r es')
| reordered_child : forall r x c c' front back,
    reordered c c' ->
    reordered (Dir r (front ++ (x, c) :: back)) (Dir r (front ++ (x, c') :: back)).

(** A comparator as [Array.prototype.sort] needs it: the two ways round
    agree, and the order is transitive. *)
Definition consistent (cmp : string -> string -> Z) : Prop :=
  (forall a b, Z.sgn (cmp b a) = (- Z.sgn (cmp a b))%Z)
  /\ (forall a b c, (cmp a b <= 0)%Z -> (cmp b c <= 0)%Z -> (cmp a c <= 0)%Z).

(** The comparator tells any two different strings of [l] apart. *)
Definition separates (cmp : string -> string -> Z) (l : list string) : Prop :=
  forall a b, In a l -> In b l -> cmp a b = 0%Z -> a = b.

(** Comparison of the bytes, as a comparator. *)
Definition byteCompare (a b : string) : Z :=
  match String.compare a b with
  | Lt => (-1)%Z
  | Eq => 0%Z
  | Gt => 1%Z
  end.

Definition is_hex (c : ascii) : bool :=
  existsb (Ascii.eqb c) (list_ascii_of_string "0123456789abcdef").

Fixpoint all_hex (s : string) : bool :=
  match s with
  | EmptyString => true
  | String c rest => is_hex c && all_hex rest
  end.

(** The value of a hexadecimal digit, and of a text of such digits. *)
Definition digit_value (c : ascii) : N :=
  (if is_hex c then
     if Nat.leb (nat_of_ascii c) 57 then N_of_ascii c - 48 else N_of_ascii c - 87
   else 0)%N.

Fixpoint hex_value (s : string) : N :=
  match s with
  | EmptyString => 0%N
  | String c rest =>
      (digit_value c * 16 ^ N.of_nat (String.length rest) + hex_value rest)%N
  end.

Definition keys (m : jsmap) : list string := map fst m.

Section Gather.
Variable Bun_hash : content -> N.

(** What one directory entry contributes to the map of its parent. *)
Definition entry_files (basePath : string) (e : string * node) : jsmap :=
  match snd e with
  | Dir _ _ => Hash.filesOf Bun_hash (snd e) (Hash.relativePath basePath (fst e))
  | File _ data =>
      [(Hash.relativePath basePath (fst e), toString16 (Bun_hash data))]
  | Special => []
  end.

Section Loop.
Variable basePath : string.

(** The loop of [getDirectoryFiles], by itself. *)
Fixpoint gather (es : entries) (files : jsmap) {struct es} : jsmap :=
  match es with
  | [] => files
  | (name, child) :: rest =>
      match child with
      | Dir _ _ =>
          gather rest
            (map_set_all
               (Hash.filesOf Bun_hash child (Hash.relativePath basePath name)) files)
      | File true data =>
          gather rest
            (map_set (Hash.relativePath basePath name)
               (toString16 (Bun_hash data)) files)
      | File false _ => files
      | Special => gather rest files
      end
  end.
End Loop.
End Gather.

(** The relative paths of the regular files below [n]. *)
Definition file_paths (Bun_hash : content -> N) (n : node) : list string :=
  keys (Hash.filesOf Bun_hash n EmptyString).

(** The order in which [hashDirectory] sorts the entries of the map. *)
Definition entry_le (cmp : string -> string -> Z) (a b : string * string) : Prop :=
  (cmp (fst a) (fst b) <= 0)%Z.

Definition direct_files_readable (es : entries) : Prop :=
  Forall (fun e => forall d, snd e <> File false d) es.

(** What [relativePath] puts in front of the name. *)
Definition lead (basePath : string) : string :=
  if truthy basePath then basePath +++ "/" else EmptyString.

(** A suffix that is empty or begins a further component. *)
Definition tail_like (s : string) : Prop :=
  s = EmptyString \/ exists t, s = "/" +++ t.

Definition entries_ok (es : entries) : Prop :=
  Forall (fun e => valid_name (fst e) = true /\ well_formed (snd e) = true) es.

Definition entries_readable (es : entries) : Prop :=
  Forall (fun e => files_readable (snd e) = true) es.

(** There is a directory at [p]. *)
Definition directory_at (fs : node) (p : path) : Prop :=
  exists r es, lookup fs p = Some (Dir r es).

(** How one entry of the map is written into the text that is hashed. *)
Definition path_colon_hash (e : string * string) : string :=
  fst e +++ ":" +++ snd e.

(** The comparator that finds every two strings equal. *)
Definition allTies (a b : string) : Z := 0%Z.

End Shape.


(** ** Paths and frames *)

Module Frame.
Import JS Fs Proc.

(** [lookup] from a node that may be missing. *)
Definition lookup_opt (o : option node) (p : path) : option node :=
  match o with
  | Some n => lookup n p
  | None => None
  end.

(** Nothing that is not a directory stands on the way to [p]. *)
Fixpoint way_clear (o : option node) (p : path) : Prop :=
  match p with
  | [] => True
  | seg :: rest =>
      match o with
      | None => True
      | Some (Dir _ es) => way_clear (assoc seg es) rest
      | Some _ => False
      end
  end.

(** Two paths part ways: after a common prefix they continue with different
    components, so neither lies inside the other. *)
Definition diverge (p q : path) : Prop :=
  exists common a b p' q',
    p = common ++ a :: p' /\ q = common ++ b :: q' /\ a <> b.

(** The computation leaves what stands at [p] as it is, whatever its outcome. *)
Definition preserves {A : Type} (p : path) (m : M A) : Prop :=
  forall st r st', m st = (r, st') -> lookup (fs st') p = lookup (fs st) p.

(** The same for a file-system call. *)
Definition keeps (p : path) (op : node -> node) : Prop :=
  forall n, lookup (op n) p = lookup n p.

Definition keeps_or_fails (p : path) (op : node -> result node) : Prop :=
  forall n n', op n = Ok n' -> lookup n' p = lookup n p.

(** The state with another file system. *)
Definition with_fs (n : node) (st : state) : state :=
  mkState n (DEFAULT_CONFIG st) (console st).

(** The state with one more line on the console. *)
Definition with_line (l : line) (st : state) : state :=
  mkState (fs st) (DEFAULT_CONFIG st) (console st ++ [l]).

End Frame.

(** ** The registry on disk *)

Module RegistryShape.
Import JS Fs Proc Store Registry Frame.

(** A source entry of the older schema, which [readConfig] rewrites. *)
Definition needs_migration (s : Source.t) : bool :=
  truthy_opt (Source.namespace s) && negb (truthy_opt (Source.name s)).

(** Every source entry is of the current schema. *)
Definition current_schema (l : list Source.t) : Prop :=
  Forall (fun s => needs_migration s = false) l.

(** How many sources carry the name [n]. *)
Definition count_name (n : option string) (l : list Source.t) : nat :=
  List.length (filter (fun s => strict_eq (Source.name s) n) l).

(** [dirs_on_the_way] from a node that may be missing. *)
Definition dirs_opt (o : option node) (p : path) : bool :=
  match o with
  | Some n => dirs_on_the_way n p
  | None => true
  end.

(** What [mkdir] puts where nothing stands. *)
Definition a_directory (o : option node) : option node :=
  match o with Some n => Some n | None => Some (Dir true []) end.

Section WithHome.
Variable homedir : string.

(** The tool's directories are there, and no directory stands where the
    registry file belongs. *)
Definition settled (n : node) : Prop :=
  isDirectory (lookup n (SKILLS_ROOT homedir)) = true
  /\ isDirectory (lookup n (SKILLS_STORE homedir)) = true
  /\ isDirectory (lookup n (CONFIG_PATH homedir)) = false.

(** The tool's directories are there or can be made, and no directory stands
    where the registry file belongs. *)
Definition usable (n : node) : Prop :=
  dirs_on_the_way n (SKILLS_STORE homedir) = true
  /\ isDirectory (lookup n (CONFIG_PATH homedir)) = false.

(** The configuration a call to [readConfig] works with: the document in the
    registry file when there is one, the [DEFAULT_CONFIG] object otherwise. *)
Definition loaded (st : state) : Config :=
  match lookup (fs st) (CONFIG_PATH homedir) with
  | Some (File true (Json c)) => c
  | _ => DEFAULT_CONFIG st
  end.

(** The state once [config] is written to the registry file. *)
Definition with_registry (config : Config) (st : state) : state :=
  mkState (update true (fun _ => Some (File true (Json config))) (CONFIG_PATH homedir) (fs st))
          (DEFAULT_CONFIG st) (console st).

(** The message of [addSource] for a name that is taken. *)
Definition name_collision (n : option string) : string :=
  "Skill with name " +++ quote +++ show_opt n +++ quote +++ " already exists".

End WithHome.
End RegistryShape.

(** ** Batches *)

Module Batch.
Import Fs Proc Frame.

(** A run of a batch, item by item: each item's body is run once, from the
    state the item before left; when it throws, the line [report x e] goes to
    the console and the run goes on with the next item. *)
Inductive run {A : Type} (body : A -> M unit) (report : A -> exn -> line)
  : list A -> state -> state -> Prop :=
| run_done : forall st, run body report [] st st
| run_ok : forall x xs st st1 st',
    body x st = (Ok tt, st1) ->
    run body report xs st1 st' ->
    run body report (x :: xs) st st'
| run_failed : forall x xs st e st1 st',
    body x st = (Throw e, st1) ->
    run body report xs (with_line (report x e) st1) st' ->
    run body report (x :: xs) st st'.

(** The line that [sync] prints for a target that failed. *)
Definition target_failed (t : Target.t) (e : exn) : line :=
  Err ("  " +++ Target.name t +++ ": Failed - " +++ message e).

(** The line that [update] prints for a source that failed. *)
Definition source_failed (s : Source.t) (e : exn) : line :=
  Err ("  " +++ show_opt (Source.name s) +++ ": Failed - " +++ message e).

End Batch.

(** ** Trees *)

Module Trees.
Import JS Fs.

(** No regular file stands anywhere below the entry: a special entry, an
    empty directory, directories of such. *)
Fixpoint fileless (n : node) : bool :=
  match n with
  | File _ _ => false
  | Special => true
  | Dir _ es =>
      (fix go (es : entries) : bool :=
         match es with
         | [] => true
         | (_, c) :: rest => fileless c && go rest
         end) es
  end.

(** The loop of [merge] over the entries of the directory that is copied. *)
Fixpoint merge_entries (es : entries) (acc : entries) {struct es} : entries :=
  match es with
  | [] => acc
  | (x, c) :: rest =>
      merge_entries rest (entries_alter x (fun o => Some (merge c o)) acc)
  end.

(** The entry is called by one of the names. *)
Definition listed (names : list string) (e : string * node) : bool :=
  existsb (String.eqb (fst e)) names.

(** The two paths differ at a place that both reach. *)
Fixpoint part_ways (p q : list string) : bool :=
  match p, q with
  | a :: p', b :: q' => if String.eqb a b then part_ways p' q' else true
  | _, _ => false
  end.

(** No character of the text is a separator. *)
Fixpoint free_of (sep : ascii -> bool) (s : string) : bool :=
  match s with
  | EmptyString => true
  | String c rest => negb (sep c) && free_of sep rest
  end.

(** The message of [addTarget] for a name that is taken. *)
Definition target_collision (n : string) : string :=
  "Target with name " +++ Proc.quote +++ n +++ Proc.quote +++ " already exists".

End Trees.

(** ** Regular expressions *)

Module Regex.
Import JS Paths Shape.

(** What a successful run of the matcher on [r] does: it takes a prefix off
    the input and records the groups it closed. *)
Inductive Matches : regex -> string -> captures -> string -> captures -> Prop :=
| MChar : forall c rest caps, Matches (RChar c) (String c rest) caps rest caps
| MAny : forall d rest caps,
    is_line_terminator d = false -> Matches RAny (String d rest) caps rest caps
| MSet : forall negated items d rest caps,
    Bool.eqb (existsb (cset_mem d) items) negated = false ->
    Matches (RSet negated items) (String d rest) caps rest caps
| MEmpty : forall s caps, Matches REmpty s caps s caps
| MEnd : forall caps, Matches REnd EmptyString caps EmptyString caps
| MSeq : forall r1 r2 s caps s1 caps1 s2 caps2,
    Matches r1 s caps s1 caps1 -> Matches r2 s1 caps1 s2 caps2 ->
    Matches (RSeq r1 r2) s caps s2 caps2
| MAltL : forall r1 r2 s caps s' caps',
    Matches r1 s caps s' caps' -> Matches (RAlt r1 r2) s caps s' caps'
| MAltR : forall r1 r2 s caps s' caps',
    Matches r2 s caps s' caps' -> Matches (RAlt r1 r2) s caps s' caps'
| MStarDone : forall greedy r s caps, Matches (RStar greedy r) s caps s caps
| MStarMore : forall greedy r s caps s1 caps1 s2 caps2,
    Matches r s caps s1 caps1 ->
    Matches (RStar greedy r) s1 caps1 s2 caps2 ->
    Matches (RStar greedy r) s caps s2 caps2
| MGroup : forall i r s caps s' caps',
    Matches r s caps s' caps' ->
    Matches (RGroup i r) s caps s' ((i, consumed s s') :: caps').

(** The loop of the matcher on a starred expression, by itself. *)
Section Star.
Context {R : Type}.
Variable r : regex.
Variable greedy : bool.
Variable k : string -> captures -> option R.

Fixpoint star_loop (fuel : nat) (s : string) (caps : captures) {struct fuel} : option R :=
  match fuel with
  | O => k s caps
  | S fuel' =>
      let more :=
        rmatch r s caps
          (fun s' caps' =>
             if Nat.ltb (String.length s') (String.length s)
             then star_loop fuel' s' caps' else None) in
      if greedy then
        match more with Some x => Some x | None => k s caps end
      else
        match k s caps with Some x => Some x | None => more end
  end.
End Star.

(** The expression closes no group. *)
Fixpoint groupless (r : regex) : bool :=
  match r with
  | RGroup _ _ => false
  | RSeq r1 r2 | RAlt r1 r2 => groupless r1 && groupless r2
  | RStar _ r' => groupless r'
  | _ => true
  end.

(** Every character of the text is in the class [[...]] or [[^...]]. *)
Fixpoint class_all (negated : bool) (items : list cset_item) (t : string) : bool :=
  match t with
  | EmptyString => true
  | String d rest =>
      negb (Bool.eqb (existsb (cset_mem d) items) negated) && class_all negated items rest
  end.

(** What holds of every result of [parseGitUrl]: a host, an owner without
    a slash, a clone URL that ends in [.git], and a branch exactly when
    there is a subdirectory. *)
Definition parsed_shape (p : ParsedGitUrl) : Prop :=
  host p <> EmptyString
  /\ owner p <> EmptyString /\ slash_free (owner p) = true
  /\ endsWith (cloneUrl p) ".git" = true
  /\ match branch p, subdir p with
     | Some b, Some _ => b <> EmptyString /\ slash_free b = true
     | None, None => True
     | _, _ => False
     end.

(** How often the character occurs in the text. *)
Fixpoint count_char (c : ascii) (s : string) : nat :=
  match s with
  | EmptyString => 0
  | String d rest => (if Ascii.eqb d c then 1 else 0) + count_char c rest
  end.

(** A number of occurrences of the character that every text matched by
    the expression has. *)
Fixpoint min_count (c : ascii) (r : regex) : nat :=
  match r with
  | RChar d => if Ascii.eqb d c then 1 else 0
  | RSeq r1 r2 => min_count c r1 + min_count c r2
  | RAlt r1 r2 => Nat.min (min_count c r1) (min_count c r2)
  | RGroup _ r' => min_count c r'
  | _ => 0
  end.

(** What the class [[^\/\.\s]] leaves out. *)
Definition repo_chars : list cset_item := [CsChar "/"; CsChar "."; CsSpace].

(** Every character of the text is one of ASCII: for such a text the
    bytes of the model are the characters that JavaScript sees. *)
Fixpoint ascii_only (s : string) : bool :=
  match s with
  | EmptyString => true
  | String c rest => Nat.ltb (nat_of_ascii c) 128 && ascii_only rest
  end.

(** The text is empty or begins with a character outside the class. *)
Definition stops (negated : bool) (items : list cset_item) (s : string) : Prop :=
  match s with
  | EmptyString => True
  | String d _ => Bool.eqb (existsb (cset_mem d) items) negated = true
  end.

End Regex.

(** ** Migration of the registry *)

Module Migration.
Import JS Fs Proc Store Registry Frame RegistryShape.

(** What the loop of [readConfig] makes of a source entry. *)
Definition migrated_source (s : Source.t) : Source.t :=
  if needs_migration s then
    Source.mk (Source.type s) (Source.url s) (Source.path s)
      (Some (last_segment (split "/" (show_opt (Source.namespace s))))) None
  else s.

Definition migrated (c : Config) : Config :=
  mkConfig (map migrated_source (sources c)) (targets c).

(** A path that [path.join] leaves as it is written: it has a component,
    and none is [.] or [..]. *)
Definition plain_path (p : path) : bool :=
  match p with
  | [] => false
  | _ => forallb (fun x => negb (String.eqb x ".") && negb (String.eqb x "..")) p
  end.

(** The namespace of an entry of the older schema names a place below the
    store. *)
Definition plainly_placed (s : Source.t) : bool :=
  if needs_migration s then plain_path (segments (show_opt (Source.namespace s))) else true.

(** The computation keeps the property of the disk, whatever its outcome. *)
Definition stable {A : Type} (I : node -> Prop) (m : M A) : Prop :=
  forall st r st', I (fs st) -> m st = (r, st') -> I (fs st').

Section WithHome.
Variable homedir : string.

(** The tool's directories are in place and [v] is what stands where the
    registry file belongs. *)
Definition in_place (v : option node) (n : node) : Prop :=
  settled homedir n /\ lookup n (CONFIG_PATH homedir) = v.

End WithHome.
End Migration.

(** ** Targets and their places *)

Module Places.
Import JS Fs Proc Store Frame KnownTargets.

Section WithHome.
Variable homedir : string.

(** A target that [syncToTarget] can bring up to date: its path lies apart
    from the tool's directory, can be made a directory, and the directory, if
    it is there, can be read. *)
Definition ready (n : node) (t : Target.t) : Prop :=
  diverge (segments (Target.path t)) (SKILLS_ROOT homedir)
  /\ dirs_on_the_way n (segments (Target.path t)) = true
  /\ forall es', lookup n (segments (Target.path t)) <> Some (Dir false es').

(** The paths of the targets lie apart from one another. *)
Definition apart (ts : list Target.t) : Prop :=
  ForallOrdPairs
    (fun t t' => diverge (segments (Target.path t)) (segments (Target.path t'))) ts.

Variable env_home : string.
Variable resolve : string -> string.

(** The path that [targetAdd] works with: the one given, or the one of the
    predefined target of that name. *)
Definition chosen (name : string) (path : option string) (absolutePath : string) : Prop :=
  (truthy_opt path = true
   /\ absolutePath = resolve (Commands.untilde env_home (show_opt path)))
  \/ (truthy_opt path = false
      /\ exists known, getKnownTarget homedir name = Some known
                       /\ absolutePath = Git.show_path (KnownTargets.path known)).

End WithHome.
End Places.

(** ** Paths that the tree reads as the operating system does *)

Module Plain.
Import JS Fs Proc Store Shape.

(** No component of the path is [.] or [..].  [path.join], [path.resolve]
    and the operating system resolve such components; the tree takes them
    for names. *)
Definition dotless (p : path) : bool :=
  forallb (fun x => negb (String.eqb x ".") && negb (String.eqb x "..")) p.

(** Walking along [p] from [n] meets no special entry, neither on the way
    nor at its end.  A symbolic link is such an entry: [stat], [readdir] and
    [mkdir] follow it where [lookup] stops. *)
Fixpoint link_free_way (n : node) (p : path) : bool :=
  match n with
  | Special => false
  | File _ _ => true
  | Dir _ es =>
      match p with
      | [] => true
      | seg :: rest =>
          match assoc seg es with
          | Some c => link_free_way c rest
          | None => true
          end
      end
  end.

(** The path names on the tree the place that it names for the code. *)
Definition literal (n : node) (p : path) : Prop :=
  dotless p = true /\ link_free_way n p = true.

(** No special entry stands anywhere in the tree. *)
Fixpoint link_free (n : node) : bool :=
  match n with
  | Special => false
  | File _ _ => true
  | Dir _ es =>
      (fix go (es : entries) : bool :=
         match es with
         | [] => true
         | (_, c) :: rest => link_free c && go rest
         end) es
  end.

(** A regular file stands at [p] or on the way to it. *)
Fixpoint file_on_the_way (n : node) (p : path) : bool :=
  match n with
  | File _ _ => true
  | Special => false
  | Dir _ es =>
      match p with
      | [] => false
      | seg :: rest =>
          match assoc seg es with
          | Some c => file_on_the_way c rest
          | None => false
          end
      end
  end.

(** The comparator puts the file paths of [D] in one order, whatever order
    they come in: it is consistent, and it ties no two different paths. *)
Definition orders (Bun_hash : content -> N) (cmp : string -> string -> Z) (D : node)
  : Prop :=
  consistent cmp /\ separates cmp (file_paths Bun_hash D).

(** The disk holds the directory [D] at [source] and a copy of it at
    [target]: the same tree, with the entries of each of its directories in
    whatever order the file system lists them there. *)
Definition holds_copy (disk : node) (source target : path) (D : node) : Prop :=
  isDirectory (Some D) = true
  /\ lookup disk source = Some D
  /\ exists copy, lookup disk target = Some copy /\ reordered D copy.

Section WithHome.
Variable homedir : string.

(** The tool's own directory is where the tree has it: the home directory is
    written without [.] and [..], and no special entry stands on the way to
    [~/.skills] or anywhere inside it. *)
Definition own_directory_plain (n : node) : Prop :=
  dotless (segments homedir) = true
  /\ link_free_way n (SKILLS_ROOT homedir) = true
  /\ forall m, lookup n (SKILLS_ROOT homedir) = Some m -> link_free m = true.

End WithHome.
End Plain.

Module Examples.
Import JS Fs.

(** A toy digest for the examples: the length of the text. *)
Definition lengthHash (c : content) : N :=
  match c with
  | Text s => N.of_nat (String.length s)
  | Json _ => 0%N
  end.

(** One directory in two enumeration orders; [b] cannot be read. *)
Definition dir_ab : node :=
  Dir true [("a", File true (Text "x")); ("b", File false (Text "y"))].
Definition dir_ba : node :=
  Dir true [("b", File false (Text "y")); ("a", File true (Text "x"))].

(** A small skill tree and a reordering of it. *)
Definition skill : node :=
  Dir true [("SKILL.md", File true (Text "# Skill"));
            ("rules", Dir true [("a.md", File true (Text "one"));
                                ("b.md", File true (Text "two!"))])].
Definition skill' : node :=
  Dir true [("rules", Dir true [("b.md", File true (Text "two!"));
                                ("a.md", File true (Text "one"))]);
            ("SKILL.md", File true (Text "# Skill"))].

(** A toy digest that looks at the first byte only. *)
Definition firstByteHash (c : content) : N :=
  match c with
  | Text (String ch _) => N_of_ascii ch
  | _ => 0%N
  end.

(** Two readable files, in two enumeration orders. *)
Definition two_files : node :=
  Dir true [("a", File true (Text "x")); ("b", File true (Text "y"))].
Definition two_files' : node :=
  Dir true [("b", File true (Text "y")); ("a", File true (Text "x"))].

(** A root with a store directory, a target directory with the same file,
    another with a different one, an empty one, and a plain file. *)
Definition disk : node :=
  Dir true [("store", Dir true [("f", File true (Text "one"))]);
            ("same", Dir true [("f", File true (Text "one"))]);
            ("other", Dir true [("f", File true (Text "three and a half!"))]);
            ("empty1", Dir true []);
            ("empty2", Dir true [("sub", Dir true [])]);
            ("locked", Dir false [("f", File true (Text "one"))]);
            ("file", File true (Text "one"))].

(** The home directory of the examples. *)
Definition home : string := "/home/u".

(** A disk with the tool's directory [/home/u/.skills] holding [skills], and
    [rest] beside [/home]. *)
Definition disk_with (skills : entries) (rest : entries) : node :=
  Dir true (("home", Dir true [("u", Dir true [(".skills", Dir true skills)])]) :: rest).

Definition start (disk : node) : Proc.state :=
  Proc.mkState disk (mkConfig [] []) [].

(** A registry file that is not JSON. *)
Definition corrupt_state : Proc.state :=
  start (disk_with [("store", Dir true []);
                    ("config.json", File true (Text "not valid json {{{"))] []).

(** Nothing on disk yet. *)
Definition blank_state : Proc.state := start (Dir true []).

Definition a_source : Source.t :=
  Source.mk remote (Some "https://github.com/owner/repo") None (Some "repo") None.

Definition cursor : Target.t := Target.mk "cursor" "/work/cursor".
Definition blocked : Target.t := Target.mk "blocked" "/work/file/inside".

(** What the user keeps beside the tool: a target directory with a file of
    its own, and a plain file. *)
Definition work : string * node :=
  ("work", Dir true [("cursor", Dir true [("notes.md", File true (Text "mine"))]);
                     ("file", File true (Text "plain"))]).

(** A registry that lists the target [cursor]. *)
Definition registered_state : Proc.state :=
  start (disk_with [("store", Dir true []);
                    ("config.json", File true (Json (mkConfig [] [cursor])))] [work]).

(** The store directory is there and holds nothing. *)
Definition empty_store_state : Proc.state :=
  start (disk_with [("store", Dir true [])] [work]).

(** The store directory is not there. *)
Definition no_store_state : Proc.state :=
  start (disk_with [] [work]).

(** The store holds one skill. *)
Definition one_skill_state : Proc.state :=
  start (disk_with [("store", Dir true [("repo", Dir true [("SKILL.md", File true (Text "# old"))])])]
                   [work]).

(** A [git] whose [clone] creates the repository directory and then fails
    (the checkout does not go through); every other command succeeds. *)
Definition clone_fails : list string -> node -> result unit * node :=
  fun args n =>
    match args with
    | "clone" :: _ =>
        (Throw (mkExn "ShellError" "Failed with exit code 128"),
         update true (fun _ => Some (Dir true [(".git", Dir true [])]))
                (segments (List.last args EmptyString)) n)
    | _ => (Ok tt, n)
    end.

(** The state after [addSource a_source] on [blank_state], with the registry
    file overwritten by text that is not JSON. *)
Definition spoiled_state : Proc.state :=
  Proc.mkState
    (disk_with [("store", Dir true []);
                ("config.json", File true (Text "not valid json {{{"))] [])
    (mkConfig [a_source] []) [].

End Examples.

(** Further inputs for the properties of the commands. *)
Module Samples.
Import JS Fs Proc.
Local Open Scope proc_scope.

(** A directory that holds no regular file at all. *)
Definition hollow : node :=
  Dir true [("docs", Dir true [("drafts", Dir true [])]); ("link", Special)].

(** A skill, and the same with an empty directory beside its file. *)
Definition lean_skill : node :=
  Dir true [("SKILL.md", File true (Text "# Skill"))].
Definition padded_skill : node :=
  Dir true [("cache", Dir true []); ("SKILL.md", File true (Text "# Skill"))].

(** A file that cannot be read, between two that can. *)
Definition guarded : node :=
  Dir true [("a.md", File true (Text "one")); ("b.md", File false (Text "two"));
            ("c.md", File true (Text "three"))].
Definition only_a : node := Dir true [("a.md", File true (Text "one"))].

(** A disk on which a file stands where the home directory should be. *)
Definition no_room_state : Proc.state :=
  Examples.start (Dir true [("home", File true (Text "in the way"))]).

Definition claude : Target.t := Target.mk "claude" "/work/claude".

Definition a_local_source : Source.t :=
  Source.mk local None (Some "/work/mine") (Some "mine") None.

(** [chalk] on a terminal without colours. *)
Definition plain (s : string) : string := s.

Definition help : string := "usage".

(** Commands that do nothing, and one that fails. *)
Definition quiet : M Cli.ending := ret Cli.Returned.
Definition failing : M Cli.ending := throw "no such thing".
Definition add_nothing (pathOrUrl : string) (type : SourceType) (customName : option string)
  : M Cli.ending :=
  console_log (pathOrUrl +++ " as " +++ show_opt customName) ;; ret Cli.Returned.
Definition take_nothing (name : string) : M Cli.ending := ret Cli.Returned.
Definition aim_nothing (name : string) (path : option string) : M Cli.ending :=
  ret Cli.Returned.

(** A registry that lists a source and two targets, beside a store with
    the skill of the source. *)
Definition two_targets_config : Config :=
  mkConfig [Examples.a_source] [Examples.cursor; claude].
Definition two_targets_state : Proc.state :=
  Examples.start
    (Examples.disk_with
       [("store", Dir true [("repo", Dir true [("SKILL.md", File true (Text "# old"))])]);
        ("config.json", File true (Json two_targets_config))]
       [Examples.work]).

(** A registry of the older schema, with the folder of its one source. *)
Definition old_source : Source.t :=
  Source.mk remote (Some "https://github.com/owner/skill") None None (Some "owner/skill").
Definition old_config : Config := mkConfig [old_source] [Examples.cursor].
Definition old_state : Proc.state :=
  Examples.start
    (Examples.disk_with
       [("store",
         Dir true [("owner",
                    Dir true [("skill",
                               Dir true [("SKILL.md", File true (Text "# Skill"))])])]);
        ("config.json", File true (Json old_config))]
       [Examples.work]).

(** A registry of the older schema with two sources whose namespaces end in
    the same component, as the older [addSource] writes them for the
    repositories [a/x] and [b/x], beside the folders of both. *)
Definition twin_a : Source.t :=
  Source.mk remote (Some "https://github.com/a/x") None None (Some "a/x").
Definition twin_b : Source.t :=
  Source.mk remote (Some "https://github.com/b/x") None None (Some "b/x").
Definition twins_config : Config := mkConfig [twin_a; twin_b] [].
Definition twins_state : Proc.state :=
  Examples.start
    (Examples.disk_with
       [("store",
         Dir true [("a", Dir true [("x", Dir true [("SKILL.md", File true (Text "# A"))])]);
                   ("b", Dir true [("x", Dir true [("SKILL.md", File true (Text "# B"))])])]);
        ("config.json", File true (Json twins_config))]
       []).

(** A registry of the older schema that lists a target whose directory is
    the folder [a] of the store, where the skill of the repository [a/x]
    lies. *)
Definition store_target : Target.t := Target.mk "inside" "/home/u/.skills/store/a".
Definition nested_config : Config := mkConfig [twin_a] [store_target].
Definition nested_state : Proc.state :=
  Examples.start
    (Examples.disk_with
       [("store",
         Dir true [("a", Dir true [("x", Dir true [("SKILL.md", File true (Text "# A"))])])]);
        ("config.json", File true (Json nested_config))]
       []).

(** A source of the current schema by the name [x]. *)
Definition x_source : Source.t :=
  Source.mk remote (Some "https://github.com/c/x") None (Some "x") None.

(** A registry whose first target cannot be made (a plain file stands on
    its way) and whose second can, beside a store with one skill. *)
Definition mixed_config : Config :=
  mkConfig [Examples.a_source] [Examples.blocked; Examples.cursor].
Definition mixed_state : Proc.state :=
  Examples.start
    (Examples.disk_with
       [("store", Dir true [("repo", Dir true [("SKILL.md", File true (Text "# old"))])]);
        ("config.json", File true (Json mixed_config))]
       [Examples.work]).

(** A registry whose first source is a local folder that is gone and whose
    second is one that is there. *)
Definition notes_source : Source.t :=
  Source.mk local None (Some "/work/cursor") (Some "notes") None.
Definition locals_config : Config := mkConfig [a_local_source; notes_source] [].
Definition locals_state : Proc.state :=
  Examples.start
    (Examples.disk_with
       [("store", Dir true []);
        ("config.json", File true (Json locals_config))]
       [Examples.work]).

End Samples.

(* ===================================================================== *)
(** * Part XIX. Properties                                                *)
(* ===================================================================== *)

(** ** Git URL parsing *)

Module PathsFacts.
Import JS Paths.

(** C8. [parseGitUrl "https://github.com/owner/repo"] is exactly the record
    with host [github.com], owner [owner], repo [repo] and clone URL
    [https://github.com/owner/repo.git], without branch and without
    subdirectory; ["not-a-url"] and the empty string are matched by none of
    the GitHub, GitLab, Bitbucket and generic matchers, so [parseGitUrl]
    returns null for both. *)
Theorem parseGitUrl_examples :
  parseGitUrl "https://github.com/owner/repo"
  = Some (mkParsed "github.com" "owner" "repo" None None
                   "https://github.com/owner/repo.git")
  /\ (parseGitHubUrl "not-a-url" = None /\ parseGitLabUrl "not-a-url" = None
      /\ parseBitbucketUrl "not-a-url" = None /\ parseGenericGitUrl "not-a-url" = None
      /\ parseGitUrl "not-a-url" = None)
  /\ (parseGitHubUrl EmptyString = None /\ parseGitLabUrl EmptyString = None
      /\ parseBitbucketUrl EmptyString = None /\ parseGenericGitUrl EmptyString = None
      /\ parseGitUrl EmptyString = None).
Proof. vm_compute. repeat split; reflexivity. Qed.

End PathsFacts.

(** ** The file system *)

Module FsFacts.
Import JS Fs Proc Frame.

Lemma assoc_remove_name_same : forall x es, assoc x (remove_name x es) = None.
Proof.
  induction es as [|[y c] es IH]; simpl; [reflexivity|].
  destruct (String.eqb_spec y x) as [->|Hne]; simpl; [assumption|].
  destruct (String.eqb_spec y x); [contradiction | assumption].
Qed.

Lemma assoc_remove_name_other : forall x y es,
    y <> x -> assoc y (remove_name x es) = assoc y es.
Proof.
  induction es as [|[z c] es IH]; simpl; intro Hne; [reflexivity|].
  destruct (String.eqb_spec z x) as [->|Hzx]; simpl.
  - destruct (String.eqb_spec x y); [congruence | auto].
  - destruct (String.eqb_spec z y); auto.
Qed.

Lemma assoc_entries_alter_same : forall x g es,
    assoc x (entries_alter x g es) = g (assoc x es).
Proof.
  induction es as [|[y c] es IH]; simpl.
  - destruct (g None); simpl; [now rewrite String.eqb_refl | reflexivity].
  - destruct (String.eqb_spec y x) as [->|Hne].
    + destruct (g (Some c)); simpl.
      * now rewrite String.eqb_refl.
      * apply assoc_remove_name_same.
    + simpl. destruct (String.eqb_spec y x); [contradiction | assumption].
Qed.

Lemma assoc_entries_alter_other : forall x y g es,
    y <> x -> assoc y (entries_alter x g es) = assoc y es.
Proof.
  induction es as [|[z c] es IH]; simpl; intro Hne.
  - destruct (g None); simpl; [|reflexivity].
    destruct (String.eqb_spec x y); [congruence | reflexivity].
  - destruct (String.eqb_spec z x) as [->|Hzx].
    + destruct (String.eqb_spec x y); [congruence|].
      destruct (g (Some c)); simpl.
      * destruct (String.eqb_spec x y); [congruence | reflexivity].
      * now apply assoc_remove_name_other.
    + simpl. destruct (String.eqb_spec z y); auto.
Qed.

Lemma entries_alter_id : forall x g es c,
    assoc x es = Some c -> g (Some c) = Some c -> entries_alter x g es = es.
Proof.
  induction es as [|[y d] es IH]; simpl; intros c Hc Hg; [discriminate|].
  destruct (String.eqb_spec y x) as [->|Hne].
  - inversion Hc; subst. now rewrite Hg.
  - f_equal. eapply IH; eauto.
Qed.

Lemma lookup_opt_nil : forall o, lookup_opt o [] = o.
Proof. now intros [n|]. Qed.

Lemma lookup_opt_cons_dir : forall r es seg rest,
    lookup_opt (Some (Dir r es)) (seg :: rest) = lookup_opt (assoc seg es) rest.
Proof. intros. simpl. now destruct (assoc seg es). Qed.

(** What stands at [p] after a change at [p]. *)
Lemma lookup_alter_same : forall mk f p o,
    (mk = true /\ way_clear o p) \/ (f None = None) ->
    lookup_opt (alter mk f p o) p = f (lookup_opt o p).
Proof.
  intros mk f p. induction p as [|seg rest IH]; intros o H.
  - simpl. now rewrite !lookup_opt_nil.
  - destruct o as [[r d|r es|]|].
    + destruct H as [[_ []]|H]. simpl. now rewrite H.
    + simpl alter. rewrite !lookup_opt_cons_dir, assoc_entries_alter_same.
      apply IH. destruct H as [[Hmk Hw]|H]; [left; split; assumption | now right].
    + destruct H as [[_ []]|H]. simpl. now rewrite H.
    + destruct mk.
      * cbn [alter]. rewrite lookup_opt_cons_dir, assoc_entries_alter_same. simpl assoc.
        rewrite IH; [reflexivity|].
        destruct H as [[_ _]|H]; [left; split; [reflexivity | now destruct rest] | now right].
      * destruct H as [[Hmk _]|H]; [discriminate|]. simpl. now rewrite H.
Qed.

(** A change at [q] is not seen at a path that parts ways with [q]. *)
Lemma lookup_alter_diverge : forall mk f p q o,
    diverge p q -> lookup_opt (alter mk f q o) p = lookup_opt o p.
Proof.
  intros mk f p q o (common & a & b & p' & q' & -> & -> & Hab).
  revert o. induction common as [|s common IH]; intro o; simpl app.
  - destruct o as [[r d|r es|]|]; try reflexivity.
    + simpl alter. rewrite !lookup_opt_cons_dir.
      now rewrite assoc_entries_alter_other.
    + destruct mk; [|reflexivity].
      cbn [alter]. rewrite lookup_opt_cons_dir.
      rewrite assoc_entries_alter_other by assumption. reflexivity.
  - destruct o as [[r d|r es|]|]; try reflexivity.
    + simpl alter. rewrite !lookup_opt_cons_dir, assoc_entries_alter_same. apply IH.
    + destruct mk; [|reflexivity].
      cbn [alter]. rewrite lookup_opt_cons_dir, assoc_entries_alter_same. simpl assoc.
      rewrite IH. reflexivity.
Qed.

(** A change that leaves what it finds is no change. *)
Lemma alter_id : forall mk f p o n,
    lookup_opt o p = Some n -> f (Some n) = Some n -> alter mk f p o = o.
Proof.
  intros mk f p. induction p as [|seg rest IH]; intros o n Hl Hf.
  - rewrite lookup_opt_nil in Hl. subst. exact Hf.
  - destruct o as [[r d|r es|]|]; try discriminate.
    rewrite lookup_opt_cons_dir in Hl. simpl.
    destruct (assoc seg es) as [c|] eqn:Hc; [|discriminate].
    f_equal. f_equal. eapply entries_alter_id; eauto.
Qed.

Lemma update_lookup_diverge : forall mk f p q n,
    diverge p q -> lookup (update mk f q n) p = lookup n p.
Proof.
  intros mk f p q n Hd. unfold update.
  pose proof (lookup_alter_diverge mk f p q (Some n) Hd) as H.
  destruct (alter mk f q (Some n)); [exact H | reflexivity].
Qed.

Lemma alter_some : forall mk f seg rest n, exists n',
    alter mk f (seg :: rest) (Some n) = Some n'.
Proof. intros. destruct n; simpl; eauto. Qed.

Lemma update_lookup_same : forall mk f p n,
    p <> [] ->
    (mk = true /\ way_clear (Some n) p) \/ (f None = None) ->
    lookup (update mk f p n) p = f (lookup n p).
Proof.
  intros mk f p n Hp H. unfold update.
  pose proof (lookup_alter_same mk f p (Some n) H) as Hl.
  destruct p as [|seg rest]; [congruence|].
  destruct (alter_some mk f seg rest n) as [n' Hn']. rewrite Hn' in *. exact Hl.
Qed.

Lemma update_id : forall mk f p n m,
    lookup n p = Some m -> f (Some m) = Some m -> update mk f p n = n.
Proof.
  intros mk f p n m Hl Hf. unfold update.
  now rewrite (alter_id mk f p (Some n) m Hl Hf).
Qed.

(** *** Parting ways *)

Lemma diverge_sym : forall p q, diverge p q -> diverge q p.
Proof.
  intros p q (common & a & b & p' & q' & Hp & Hq & Hab).
  exists common, b, a, q', p'. repeat split; auto.
Qed.

Lemma diverge_extend : forall p q ext, diverge p q -> diverge p (q ++ ext).
Proof.
  intros p q ext (common & a & b & p' & q' & Hp & Hq & Hab).
  exists common, a, b, p', (q' ++ ext). repeat split; auto.
  subst q. now rewrite <- app_assoc.
Qed.

Lemma diverge_siblings : forall front a b, a <> b -> diverge (front ++ [a]) (front ++ [b]).
Proof. intros front a b H. exists front, a, b, [], []. auto. Qed.

(** *** The calls *)

Lemma lookup_rm_same : forall p n, p <> [] -> lookup (rm p n) p = None.
Proof. intros p n Hp. unfold rm. rewrite update_lookup_same; auto. Qed.

Lemma rm_keeps : forall p q, diverge p q -> keeps p (rm q).
Proof. intros p q Hd n. unfold rm. now apply update_lookup_diverge. Qed.

Lemma mkdir_keeps : forall p q, diverge p q -> keeps_or_fails p (mkdir q).
Proof.
  intros p q Hd n n' H. unfold mkdir in H.
  destruct (dirs_on_the_way n q); inversion H; subst.
  now apply update_lookup_diverge.
Qed.

Lemma write_keeps : forall p q data, diverge p q -> keeps_or_fails p (write q data).
Proof.
  intros p q data Hd n n' H. unfold write in H.
  destruct q as [|seg rest]; [discriminate|].
  destruct (isDirectory (lookup n (seg :: rest))); [discriminate|].
  destruct (dirs_on_the_way n (parent (seg :: rest))); inversion H; subst.
  now apply update_lookup_diverge.
Qed.

Lemma rm_plain_keeps : forall p q, diverge p q -> keeps_or_fails p (rm_plain q).
Proof.
  intros p q Hd n n' H. unfold rm_plain in H.
  destruct (lookup n q) as [[r d|r es|]|]; inversion H; subst; now apply rm_keeps.
Qed.

Lemma rename_keeps : forall p from to,
    diverge p from -> diverge p to -> keeps_or_fails p (rename from to).
Proof.
  intros p from to Hf Ht n n' H. unfold rename in H.
  destruct (lookup n from) as [m|]; [|discriminate].
  assert (Hgoal : forall x, Ok (update false (fun _ => Some m) to (rm from n)) = Ok x ->
                            lookup x p = lookup n p).
  { intros x Hx. inversion Hx; subst.
    rewrite update_lookup_diverge by assumption. now apply rm_keeps. }
  destruct (lookup n to) as [[r d|r [|e es]|]|];
    try discriminate;
    destruct (isDirectory (lookup n (parent to))); try discriminate; now apply Hgoal.
Qed.

End FsFacts.

(** ** The process monad *)

Module ProcFacts.
Import JS Fs Proc Frame FsFacts.
Local Open Scope proc_scope.

Lemma bind_ok : forall (A B : Type) (m : M A) (k : A -> M B) st a st1,
    m st = (Ok a, st1) -> bind m k st = k a st1.
Proof. intros. unfold bind. now rewrite H. Qed.

Lemma bind_throw : forall (A B : Type) (m : M A) (k : A -> M B) st e st1,
    m st = (Throw e, st1) -> bind m k st = (Throw e, st1).
Proof. intros. unfold bind. now rewrite H. Qed.

Lemma tryCatch_ok : forall (A : Type) (m : M A) h st a st1,
    m st = (Ok a, st1) -> tryCatch m h st = (Ok a, st1).
Proof. intros. unfold tryCatch. now rewrite H. Qed.

Lemma tryCatch_throw : forall (A : Type) (m : M A) h st e st1,
    m st = (Throw e, st1) -> tryCatch m h st = h e st1.
Proof. intros. unfold tryCatch. now rewrite H. Qed.

Lemma state_eta : forall st, mkState (fs st) (DEFAULT_CONFIG st) (console st) = st.
Proof. now intros []. Qed.

(** *** Frames *)

Lemma preserves_ret : forall (A : Type) p (a : A), preserves p (ret a).
Proof. intros A p a st r st' H. inversion H. reflexivity. Qed.

Lemma preserves_throw : forall (A : Type) p message, preserves p (@throw A message).
Proof. intros A p e st r st' H. inversion H. reflexivity. Qed.

Lemma preserves_throwExn : forall (A : Type) p e, preserves p (@throwExn A e).
Proof. intros A p e st r st' H. inversion H. reflexivity. Qed.

Lemma preserves_bind : forall (A B : Type) p (m : M A) (k : A -> M B),
    preserves p m -> (forall a, preserves p (k a)) -> preserves p (bind m k).
Proof.
  intros A B p m k Hm Hk st r st' H. unfold bind in H.
  destruct (m st) as [[a|e] st1] eqn:E.
  - rewrite (Hk a _ _ _ H). eapply Hm; eauto.
  - inversion H; subst. eapply Hm; eauto.
Qed.

Lemma preserves_tryCatch : forall (A : Type) p (m : M A) h,
    preserves p m -> (forall e, preserves p (h e)) -> preserves p (tryCatch m h).
Proof.
  intros A p m h Hm Hh st r st' H. unfold tryCatch in H.
  destruct (m st) as [[a|e] st1] eqn:E.
  - inversion H; subst. eapply Hm; eauto.
  - rewrite (Hh e _ _ _ H). eapply Hm; eauto.
Qed.

Lemma preserves_readFs : forall (A : Type) p (f : node -> A), preserves p (readFs f).
Proof. intros A p f st r st' H. inversion H. reflexivity. Qed.

Lemma preserves_askFs : forall (A : Type) p (f : node -> result A), preserves p (askFs f).
Proof. intros A p f st r st' H. inversion H. reflexivity. Qed.

Lemma preserves_print : forall p l, preserves p (print l).
Proof. intros p l st r st' H. inversion H. reflexivity. Qed.

Lemma preserves_doFs : forall p op, keeps p op -> preserves p (doFs op).
Proof. intros p op Hk st r st' H. inversion H. simpl. apply Hk. Qed.

Lemma preserves_tryFs : forall p op, keeps_or_fails p op -> preserves p (tryFs op).
Proof.
  intros p op Hk st r st' H. unfold tryFs in H.
  destruct (op (fs st)) as [n|e] eqn:E; inversion H; subst; simpl; [|reflexivity].
  eapply Hk; eauto.
Qed.

Lemma preserves_forEach : forall (A : Type) p (xs : list A) body,
    (forall x, preserves p (body x)) -> preserves p (forEach xs body).
Proof.
  intros A p xs body Hb. induction xs as [|x xs IH]; simpl.
  - apply preserves_ret.
  - apply preserves_bind; auto.
Qed.

Lemma preserves_if : forall (A : Type) p (b : bool) (m1 m2 : M A),
    preserves p m1 -> preserves p m2 -> preserves p (if b then m1 else m2).
Proof. intros. now destruct b. Qed.

End ProcFacts.

(** ** The registry *)

Module RegistryFacts.
Import JS Fs Proc Store Registry Frame FsFacts ProcFacts RegistryShape.
Local Open Scope proc_scope.

(** *** More on paths *)

Lemma lookup_opt_app : forall p q o,
    lookup_opt o (p ++ q) = lookup_opt (lookup_opt o p) q.
Proof.
  induction p as [|seg rest IH]; intros q o; simpl app.
  - now rewrite lookup_opt_nil.
  - destruct o as [[r d|r es|]|]; try reflexivity.
    rewrite !lookup_opt_cons_dir. apply IH.
Qed.

Lemma lookup_app : forall n p q, lookup n (p ++ q) = lookup_opt (lookup n p) q.
Proof. intros n p q. apply (lookup_opt_app p q (Some n)). Qed.

Lemma isDirectory_dirs_way : forall p n,
    isDirectory (lookup n p) = true -> dirs_on_the_way n p = true.
Proof.
  induction p as [|seg rest IH]; intros n H.
  - destruct n; try discriminate. reflexivity.
  - destruct n as [r d|r es|]; try discriminate. simpl in *.
    destruct (assoc seg es); [now apply IH | discriminate].
Qed.

Lemma dirs_way_exists_dir : forall p n m,
    dirs_on_the_way n p = true -> lookup n p = Some m -> isDirectory (Some m) = true.
Proof.
  induction p as [|seg rest IH]; intros n m Hd Hl.
  - inversion Hl; subst. destruct m; try discriminate. reflexivity.
  - destruct n as [r d|r es|]; try discriminate. simpl in *.
    destruct (assoc seg es); [eapply IH; eauto | discriminate].
Qed.

Lemma dirs_way_prefix : forall p q n,
    dirs_on_the_way n (p ++ q) = true -> dirs_on_the_way n p = true.
Proof.
  induction p as [|seg rest IH]; intros q n H.
  - destruct n; try discriminate; reflexivity || (destruct q; discriminate).
  - destruct n as [r d|r es|]; try discriminate. simpl in *.
    destruct (assoc seg es); [eapply IH; eauto | reflexivity].
Qed.

Lemma dirs_way_clear : forall p n x,
    dirs_on_the_way n p = true -> way_clear (Some n) (p ++ [x]).
Proof.
  induction p as [|seg rest IH]; intros n x H.
  - destruct n as [r d|r es|]; try discriminate. simpl. now destruct (assoc x es).
  - destruct n as [r d|r es|]; try discriminate. simpl in *.
    destruct (assoc seg es) as [c|]; [now apply IH|].
    now destruct (rest ++ [x]).
Qed.

Lemma dirs_way_clear_self : forall p n,
    dirs_on_the_way n p = true -> way_clear (Some n) p.
Proof.
  induction p as [|seg rest IH]; intros n H; [exact I|].
  destruct n as [r d|r es|]; try discriminate. simpl in *.
  destruct (assoc seg es) as [c|]; [now apply IH | now destruct rest].
Qed.

Lemma lookup_alter_below : forall f p ext o,
    way_clear o p ->
    lookup_opt (alter true f p o) (p ++ ext) = lookup_opt (f (lookup_opt o p)) ext.
Proof.
  intros f p ext. induction p as [|seg rest IH]; intros o Hw.
  - simpl. now rewrite lookup_opt_nil.
  - destruct o as [[r d|r es|]|]; try contradiction.
    + simpl in Hw. cbn [alter app]. rewrite !lookup_opt_cons_dir.
      rewrite assoc_entries_alter_same. now apply IH.
    + cbn [alter app]. rewrite lookup_opt_cons_dir, assoc_entries_alter_same.
      simpl assoc. rewrite IH; [reflexivity | now destruct rest].
Qed.

Lemma dirs_opt_cons : forall r es s q,
    dirs_opt (Some (Dir r es)) (s :: q) = dirs_opt (assoc s es) q.
Proof. intros. simpl. now destruct (assoc s es). Qed.

(** Making directories puts nothing in the way of making others. *)
Lemma dirs_opt_after_mkdir : forall p q o,
    dirs_opt o p = true -> dirs_opt o q = true ->
    dirs_opt (alter true a_directory p o) q = true.
Proof.
  induction p as [|seg rest IH]; intros q o Hp Hq.
  - simpl. destruct o as [n|]; [exact Hq|]. simpl. now destruct q.
  - destruct o as [[r d|r es|]|]; try discriminate.
    + cbn [alter]. destruct q as [|s q']; [reflexivity|].
      rewrite dirs_opt_cons in *.
      destruct (String.eqb_spec seg s) as [->|Hne].
      * rewrite assoc_entries_alter_same. now apply IH.
      * rewrite assoc_entries_alter_other by congruence. exact Hq.
    + cbn [alter]. destruct q as [|s q']; [reflexivity|].
      rewrite dirs_opt_cons.
      destruct (String.eqb_spec seg s) as [->|Hne].
      * rewrite assoc_entries_alter_same. now apply IH.
      * rewrite assoc_entries_alter_other by congruence. reflexivity.
Qed.

Lemma isDirectory_a_directory : forall o,
    dirs_opt o [] = true -> isDirectory (a_directory o) = true.
Proof. intros [[r d|r es|]|] H; try discriminate; reflexivity. Qed.

Lemma lookup_prefix_dir : forall p x q n m,
    lookup n (p ++ x :: q) = Some m -> isDirectory (lookup n p) = true.
Proof.
  induction p as [|seg rest IH]; intros x q n m H.
  - destruct n; try discriminate. reflexivity.
  - destruct n as [r d|r es|]; try discriminate. simpl in *.
    destruct (assoc seg es); [eapply IH; eauto | discriminate].
Qed.

Lemma lookup_dir_after_alter_below : forall mk f p x q o,
    isDirectory (lookup_opt o p) = true ->
    isDirectory (lookup_opt (alter mk f (p ++ x :: q) o) p) = true.
Proof.
  intros mk f p x q. induction p as [|seg rest IH]; intros o H.
  - rewrite lookup_opt_nil in *. destruct o as [[r d|r es|]|]; try discriminate.
    reflexivity.
  - destruct o as [[r d|r es|]|]; try discriminate.
    rewrite lookup_opt_cons_dir in H. cbn [alter app].
    rewrite lookup_opt_cons_dir, assoc_entries_alter_same. now apply IH.
Qed.

(** *** The calls on the tool's own paths *)

Lemma tryFs_ok : forall op st n,
    op (fs st) = Ok n -> tryFs op st = (Ok tt, with_fs n st).
Proof. intros op st n H. unfold tryFs. now rewrite H. Qed.

Lemma with_fs_same : forall st, with_fs (fs st) st = st.
Proof. intros. apply state_eta. Qed.

Lemma mkdir_unfold : forall p n,
    mkdir p n = if dirs_on_the_way n p then Ok (update true a_directory p n)
                else Throw (Error match lookup n p with
                                  | Some _ => "EEXIST: file already exists, mkdir"
                                  | None => "ENOTDIR: not a directory, mkdir"
                                  end).
Proof. reflexivity. Qed.

Lemma mkdir_existing : forall p n,
    isDirectory (lookup n p) = true -> mkdir p n = Ok n.
Proof.
  intros p n H. rewrite mkdir_unfold, (isDirectory_dirs_way p n H).
  destruct (lookup n p) as [m|] eqn:E; [|discriminate].
  now rewrite (update_id true a_directory p n m E eq_refl).
Qed.

Lemma mkdir_creates : forall p n,
    p <> [] -> dirs_on_the_way n p = true ->
    mkdir p n = Ok (update true a_directory p n)
    /\ isDirectory (lookup (update true a_directory p n) p) = true
    /\ (forall q, dirs_on_the_way n q = true ->
                  dirs_on_the_way (update true a_directory p n) q = true)
    /\ (forall ext, lookup (update true a_directory p n) (p ++ ext)
                    = lookup_opt (a_directory (lookup n p)) ext).
Proof.
  intros p n Hp Hd. rewrite mkdir_unfold, Hd.
  destruct p as [|seg rest]; [congruence|].
  unfold update. destruct (alter_some true a_directory seg rest n) as [n' Hn'].
  pose proof (lookup_alter_below a_directory (seg :: rest) [] (Some n)
                (dirs_way_clear_self _ _ Hd)) as Hsame.
  rewrite app_nil_r, lookup_opt_nil in Hsame.
  rewrite Hn' in *. cbn [lookup_opt] in Hsame.
  split; [reflexivity|]. split; [|split].
  - rewrite Hsame. apply isDirectory_a_directory.
    destruct (lookup n (seg :: rest)) as [m|] eqn:E; [|reflexivity].
    pose proof (dirs_way_exists_dir _ _ _ Hd E) as Hm.
    destruct m; try discriminate. reflexivity.
  - intros q Hq.
    pose proof (dirs_opt_after_mkdir (seg :: rest) q (Some n) Hd Hq) as H.
    rewrite Hn' in H. exact H.
  - intro ext.
    pose proof (lookup_alter_below a_directory (seg :: rest) ext (Some n)
                  (dirs_way_clear_self _ _ Hd)) as H.
    rewrite Hn' in H. exact H.
Qed.

Section WithHome.
Variable homedir : string.

Local Abbreviation ROOT := (SKILLS_ROOT homedir).
Local Abbreviation STORE := (SKILLS_STORE homedir).
Local Abbreviation CONFIG := (CONFIG_PATH homedir).

Lemma STORE_eq : STORE = ROOT ++ ["store"].
Proof. reflexivity. Qed.

Lemma CONFIG_eq : CONFIG = ROOT ++ ["config.json"].
Proof. reflexivity. Qed.

Lemma ROOT_not_nil : ROOT <> [].
Proof. unfold SKILLS_ROOT, join. now destruct (segments homedir). Qed.

Lemma STORE_not_nil : STORE <> [].
Proof. rewrite STORE_eq. now destruct ROOT. Qed.

Lemma CONFIG_not_nil : CONFIG <> [].
Proof. rewrite CONFIG_eq. now destruct ROOT. Qed.

Lemma CONFIG_diverges_STORE : diverge CONFIG STORE.
Proof. rewrite CONFIG_eq, STORE_eq. apply diverge_siblings. discriminate. Qed.

Lemma parent_CONFIG : parent CONFIG = ROOT.
Proof. rewrite CONFIG_eq. unfold parent. apply removelast_last. Qed.

Lemma diverge_ROOT_STORE : forall p, diverge p ROOT -> diverge p STORE.
Proof. intros p H. rewrite STORE_eq. now apply diverge_extend. Qed.

Lemma diverge_ROOT_CONFIG : forall p, diverge p ROOT -> diverge p CONFIG.
Proof. intros p H. rewrite CONFIG_eq. now apply diverge_extend. Qed.

Lemma ensureDirectories_settled : forall st,
    settled homedir (fs st) -> ensureDirectories homedir st = (Ok tt, st).
Proof.
  intros st (Hroot & Hstore & _). unfold ensureDirectories.
  rewrite (bind_ok _ _ _ _ st tt st).
  - rewrite (tryFs_ok _ _ (fs st)); [now rewrite with_fs_same|].
    now apply mkdir_existing.
  - rewrite (tryFs_ok _ _ (fs st)); [now rewrite with_fs_same|].
    now apply mkdir_existing.
Qed.

Lemma ensureDirectories_usable : forall st,
    usable homedir (fs st) ->
    exists n, ensureDirectories homedir st = (Ok tt, with_fs n st)
              /\ settled homedir n
              /\ lookup n CONFIG = lookup (fs st) CONFIG.
Proof.
  intros st (Hway & Hcfg).
  assert (Hwroot : dirs_on_the_way (fs st) ROOT = true).
  { rewrite STORE_eq in Hway. eapply dirs_way_prefix; eauto. }
  destruct (mkdir_creates ROOT (fs st) ROOT_not_nil Hwroot) as (Hmk1 & Hd1 & Hw1 & Hb1).
  set (n1 := update true a_directory ROOT (fs st)) in *.
  destruct (mkdir_creates STORE n1 STORE_not_nil (Hw1 _ Hway)) as (Hmk2 & Hd2 & _ & _).
  set (n2 := update true a_directory STORE n1) in *.
  assert (Hc1 : lookup n1 CONFIG = lookup (fs st) CONFIG).
  { rewrite CONFIG_eq, Hb1, lookup_app.
    destruct (lookup (fs st) ROOT); reflexivity. }
  assert (Hc2 : lookup n2 CONFIG = lookup n1 CONFIG).
  { unfold n2. apply update_lookup_diverge. apply CONFIG_diverges_STORE. }
  exists n2. split; [|split].
  - unfold ensureDirectories.
    rewrite (bind_ok _ _ _ _ st tt (with_fs n1 st)) by now apply tryFs_ok.
    now rewrite (tryFs_ok _ (with_fs n1 st) n2).
  - split; [|split].
    + destruct (lookup n2 STORE) as [m|] eqn:E; [|discriminate].
      rewrite STORE_eq in E. eapply lookup_prefix_dir; eauto.
    + exact Hd2.
    + now rewrite Hc2, Hc1.
  - now rewrite Hc2, Hc1.
Qed.

Lemma write_unfold : forall p data n,
    p <> [] ->
    write p data n
    = if isDirectory (lookup n p) then
        Throw (Error "EISDIR: illegal operation on a directory, open")
      else if dirs_on_the_way n (parent p) then
        Ok (update true (fun _ => Some (File true data)) p n)
      else Throw (Error "ENOTDIR: not a directory, open").
Proof. intros [|seg rest] data n H; [congruence | reflexivity]. Qed.

Lemma update_keeps_dir_above : forall mk f p x q n,
    isDirectory (lookup n p) = true ->
    isDirectory (lookup (update mk f (p ++ x :: q) n) p) = true.
Proof.
  intros mk f p x q n H. unfold update.
  pose proof (lookup_dir_after_alter_below mk f p x q (Some n) H) as Hl.
  destruct (alter mk f (p ++ x :: q) (Some n)); [exact Hl | exact H].
Qed.

Lemma settled_with_registry : forall c st,
    settled homedir (fs st) ->
    settled homedir (fs (with_registry homedir c st))
    /\ lookup (fs (with_registry homedir c st)) CONFIG = Some (File true (Json c)).
Proof.
  intros c st (Hroot & Hstore & Hcfg). unfold with_registry. cbn [fs].
  assert (Hl : lookup (update true (fun _ => Some (File true (Json c))) CONFIG (fs st)) CONFIG
               = Some (File true (Json c))).
  { apply update_lookup_same; [apply CONFIG_not_nil|].
    left. split; [reflexivity|]. rewrite CONFIG_eq. apply dirs_way_clear.
    now apply isDirectory_dirs_way. }
  split; [|exact Hl]. split; [|split].
  - rewrite CONFIG_eq. now apply update_keeps_dir_above.
  - rewrite update_lookup_diverge; [assumption|].
    apply diverge_sym, CONFIG_diverges_STORE.
  - now rewrite Hl.
Qed.

Lemma writeConfig_settled : forall c st,
    settled homedir (fs st) ->
    writeConfig homedir c st = (Ok tt, with_registry homedir c st).
Proof.
  intros c st Hs. unfold writeConfig.
  rewrite (bind_ok _ _ _ _ st tt st) by now apply ensureDirectories_settled.
  destruct Hs as (Hroot & Hstore & Hcfg).
  apply tryFs_ok. rewrite write_unfold by apply CONFIG_not_nil.
  rewrite Hcfg, parent_CONFIG, (isDirectory_dirs_way _ _ Hroot). reflexivity.
Qed.

Lemma migrateSources_current : forall l st,
    current_schema l -> migrateSources homedir l st = (Ok (l, false), st).
Proof.
  induction l as [|s l IH]; intros st H; [reflexivity|].
  inversion H as [|? ? Hs Hl]; subst. unfold needs_migration in Hs.
  cbn [migrateSources]. rewrite Hs.
  rewrite (bind_ok _ _ _ _ st (l, false) st) by now apply IH.
  reflexivity.
Qed.

(** Reading a registry of the current schema returns a fresh object and
    changes nothing. *)
Lemma readConfig_present : forall st c,
    settled homedir (fs st) ->
    lookup (fs st) CONFIG = Some (File true (Json c)) ->
    current_schema (sources c) ->
    readConfig homedir st = (Ok (Fresh c), st)
    /\ readConfig_v1 homedir st = (Ok (Fresh c), st).
Proof.
  intros st c Hs Hl Hc.
  assert (Hex : exists_ CONFIG st = (Ok true, st))
    by (unfold exists_, readFs; now rewrite Hl).
  assert (Hjs : askFs (json CONFIG) st = (Ok c, st))
    by (unfold askFs, json; now rewrite Hl).
  split.
  - unfold readConfig.
    rewrite (bind_ok _ _ _ _ st tt st) by now apply ensureDirectories_settled.
    rewrite (bind_ok _ _ _ _ st true st) by exact Hex.
    cbn [negb]. apply tryCatch_ok.
    rewrite (bind_ok _ _ _ _ st c st) by exact Hjs.
    rewrite (bind_ok _ _ _ _ st (sources c, false) st)
      by now apply migrateSources_current.
    cbn [fst snd]. destruct c. reflexivity.
  - unfold readConfig_v1.
    rewrite (bind_ok _ _ _ _ st tt st) by now apply ensureDirectories_settled.
    rewrite (bind_ok _ _ _ _ st true st) by exact Hex.
    cbn [negb]. apply tryCatch_ok.
    rewrite (bind_ok _ _ _ _ st c st) by exact Hjs.
    reflexivity.
Qed.

(** Reading when the registry file is missing or cannot be parsed writes
    the [DEFAULT_CONFIG] object to the file and returns that very object. *)
Lemma readConfig_reset : forall st,
    settled homedir (fs st) ->
    (forall c, lookup (fs st) CONFIG <> Some (File true (Json c))) ->
    readConfig homedir st
    = (Ok TheDefault, with_registry homedir (DEFAULT_CONFIG st) st)
    /\ readConfig_v1 homedir st
       = (Ok TheDefault, with_registry homedir (DEFAULT_CONFIG st) st).
Proof.
  intros st Hs Hl.
  assert (Hreset : (d <- deref TheDefault ;; writeConfig homedir d ;; ret TheDefault) st
                   = (Ok TheDefault, with_registry homedir (DEFAULT_CONFIG st) st)).
  { rewrite (bind_ok _ _ _ _ st (DEFAULT_CONFIG st) st) by reflexivity.
    rewrite (bind_ok _ _ _ _ st tt (with_registry homedir (DEFAULT_CONFIG st) st))
      by now apply writeConfig_settled.
    reflexivity. }
  assert (Hjs : isFile (lookup (fs st) CONFIG) = true ->
                exists e, askFs (json CONFIG) st = (Throw e, st)).
  { intro Hf. unfold askFs, json.
    destruct (lookup (fs st) CONFIG) as [[[|] [raw|c]|r es|]|] eqn:E;
      try discriminate; eauto.
    exfalso. now apply (Hl c). }
  split.
  - unfold readConfig.
    rewrite (bind_ok _ _ _ _ st tt st) by now apply ensureDirectories_settled.
    rewrite (bind_ok _ _ _ _ st (isFile (lookup (fs st) CONFIG)) st) by reflexivity.
    destruct (isFile (lookup (fs st) CONFIG)) eqn:Hf; cbn [negb]; [|exact Hreset].
    destruct (Hjs eq_refl) as [e He].
    rewrite (tryCatch_throw _ _ _ st e st); [exact Hreset|].
    now apply bind_throw.
  - unfold readConfig_v1.
    rewrite (bind_ok _ _ _ _ st tt st) by now apply ensureDirectories_settled.
    rewrite (bind_ok _ _ _ _ st (isFile (lookup (fs st) CONFIG)) st) by reflexivity.
    destruct (isFile (lookup (fs st) CONFIG)) eqn:Hf; cbn [negb]; [|exact Hreset].
    destruct (Hjs eq_refl) as [e He].
    rewrite (tryCatch_throw _ _ _ st e st); [exact Hreset|].
    now apply bind_throw.
Qed.

Lemma readConfig_usable : forall st n,
    ensureDirectories homedir st = (Ok tt, with_fs n st) ->
    settled homedir n ->
    readConfig homedir st = readConfig homedir (with_fs n st)
    /\ readConfig_v1 homedir st = readConfig_v1 homedir (with_fs n st).
Proof.
  intros st n Hens Hs. split.
  - unfold readConfig.
    rewrite (bind_ok _ _ _ _ st tt (with_fs n st)) by exact Hens.
    rewrite (bind_ok _ _ _ _ (with_fs n st) tt (with_fs n st)); [reflexivity|].
    now apply ensureDirectories_settled.
  - unfold readConfig_v1.
    rewrite (bind_ok _ _ _ _ st tt (with_fs n st)) by exact Hens.
    rewrite (bind_ok _ _ _ _ (with_fs n st) tt (with_fs n st)); [reflexivity|].
    now apply ensureDirectories_settled.
Qed.

Lemma bind_same_start : forall (A B : Type) (m : M A) (k : A -> M B) st st2,
    m st = m st2 -> bind m k st = bind m k st2.
Proof. intros. unfold bind. now rewrite H. Qed.

(** What the reset does in a process that has not yet changed the
    [DEFAULT_CONFIG] object.  When the registry file holds text that is not
    valid JSON, [readConfig] (in both versions of [config.ts]) does not throw:
    it returns the [DEFAULT_CONFIG] object, there still the empty
    configuration, and the file is rewritten to hold it.  The tool's store
    directory must be there or be creatable. *)
Lemma readConfig_invalid_json : forall st r raw,
    DEFAULT_CONFIG st = DEFAULT_CONFIG_value ->
    lookup (fs st) CONFIG = Some (File r (Text raw)) ->
    dirs_on_the_way (fs st) STORE = true ->
    exists st',
      readConfig homedir st = (Ok TheDefault, st')
      /\ readConfig_v1 homedir st = (Ok TheDefault, st')
      /\ deref TheDefault st' = (Ok (mkConfig [] []), st')
      /\ lookup (fs st') CONFIG = Some (File true (Json (mkConfig [] []))).
Proof.
  intros st r raw Hdef Hl Hway.
  assert (Hu : usable homedir (fs st)) by (split; [assumption | now rewrite Hl]).
  destruct (ensureDirectories_usable st Hu) as (n & Hens & Hs & Hln).
  destruct (readConfig_usable st n Hens Hs) as [-> ->].
  assert (Hs' : settled homedir (fs (with_fs n st))) by exact Hs.
  assert (Hbad : forall c, lookup (fs (with_fs n st)) CONFIG <> Some (File true (Json c))).
  { intro c. cbn [with_fs fs]. rewrite Hln, Hl. discriminate. }
  destruct (readConfig_reset _ Hs' Hbad) as [-> ->].
  assert (Hd : DEFAULT_CONFIG (with_fs n st) = mkConfig [] []) by exact Hdef.
  rewrite Hd.
  exists (with_registry homedir (mkConfig [] []) (with_fs n st)).
  split; [reflexivity|]. split; [reflexivity|]. split.
  - unfold deref. cbn [with_registry DEFAULT_CONFIG]. now rewrite Hd.
  - apply settled_with_registry. exact Hs'.
Qed.

(** *** [addSource] *)

Lemma strict_eq_refl : forall a, strict_eq a a = true.
Proof. intros [s|]; [apply String.eqb_refl | reflexivity]. Qed.

Lemma find_some_count : forall (A : Type) (f : A -> bool) l x,
    find f l = Some x -> 1 <= List.length (filter f l).
Proof.
  induction l as [|y l IH]; simpl; intros x H; [discriminate|].
  destruct (f y); simpl; [lia | eauto].
Qed.

Lemma find_none_count : forall (A : Type) (f : A -> bool) l,
    find f l = None -> List.length (filter f l) = 0.
Proof.
  induction l as [|y l IH]; simpl; intro H; [reflexivity|].
  destruct (f y); [discriminate | auto].
Qed.

Lemma find_last : forall (A : Type) (f : A -> bool) l x,
    f x = true -> exists y, find f (l ++ [x]) = Some y.
Proof.
  induction l as [|z l IH]; simpl; intros x H.
  - rewrite H. eauto.
  - destruct (f z); eauto.
Qed.

Local Abbreviation same_name source :=
  (fun s : Source.t => strict_eq (Source.name s) (Source.name source)).

Lemma addSource_present : forall st c source,
    settled homedir (fs st) ->
    lookup (fs st) CONFIG = Some (File true (Json c)) ->
    current_schema (sources c) ->
    addSource homedir source st
    = match find (same_name source) (sources c) with
      | Some _ => (Throw (Error (name_collision (Source.name source))), st)
      | None =>
          (Ok tt, with_registry homedir
                    (mkConfig (sources c ++ [source]) (targets c)) st)
      end.
Proof.
  intros st c source Hs Hl Hc. unfold addSource.
  rewrite (bind_ok _ _ _ _ st (Fresh c) st) by now apply readConfig_present.
  rewrite (bind_ok _ _ _ _ st c st) by reflexivity.
  destruct (find (same_name source) (sources c)); [reflexivity|].
  rewrite (bind_ok _ _ _ _ st tt st) by reflexivity.
  now apply writeConfig_settled.
Qed.

Lemma addSource_reset : forall st source,
    settled homedir (fs st) ->
    (forall c, lookup (fs st) CONFIG <> Some (File true (Json c))) ->
    exists st1,
      settled homedir (fs st1)
      /\ addSource homedir source st
         = match find (same_name source) (sources (DEFAULT_CONFIG st)) with
           | Some _ => (Throw (Error (name_collision (Source.name source))), st1)
           | None => (Ok tt, st1)
           end
      /\ lookup (fs st1) CONFIG
         = Some (File true (Json
             match find (same_name source) (sources (DEFAULT_CONFIG st)) with
             | Some _ => DEFAULT_CONFIG st
             | None => mkConfig (sources (DEFAULT_CONFIG st) ++ [source])
                                (targets (DEFAULT_CONFIG st))
             end)).
Proof.
  intros st source Hs Hl. unfold addSource.
  set (d := DEFAULT_CONFIG st).
  set (st0 := with_registry homedir d st).
  destruct (settled_with_registry d st Hs) as [Hs0 Hl0].
  rewrite (bind_ok _ _ _ _ st TheDefault st0) by now apply readConfig_reset.
  rewrite (bind_ok _ _ _ _ st0 d st0) by reflexivity.
  destruct (find (same_name source) (sources d)).
  - exists st0. split; [assumption|]. split; [reflexivity | exact Hl0].
  - set (c' := mkConfig (sources d ++ [source]) (targets d)).
    set (st_a := mkState (fs st0) c' (console st0)).
    assert (Hsa : settled homedir (fs st_a)) by exact Hs0.
    destruct (settled_with_registry c' st_a Hsa) as [Hs1 Hl1].
    exists (with_registry homedir c' st_a). split; [assumption|]. split; [|exact Hl1].
    rewrite (bind_ok _ _ _ _ st0 tt st_a) by reflexivity.
    now apply writeConfig_settled.
Qed.

Lemma count_name_app : forall n l1 l2,
    count_name n (l1 ++ l2) = count_name n l1 + count_name n l2.
Proof. intros. unfold count_name. now rewrite filter_app, length_app. Qed.

Lemma current_schema_snoc : forall l s,
    current_schema l -> needs_migration s = false -> current_schema (l ++ [s]).
Proof.
  intros l s Hl Hs. unfold current_schema. rewrite Forall_app. split; [assumption|].
  now constructor.
Qed.

(** After a call that found or put the name in a registry of the current
    schema, the next call finds it and changes nothing. *)
Lemma addSource_again : forall st c source,
    settled homedir (fs st) ->
    lookup (fs st) CONFIG = Some (File true (Json c)) ->
    current_schema (sources c) ->
    1 <= count_name (Source.name source) (sources c) ->
    addSource homedir source st = (Throw (Error (name_collision (Source.name source))), st).
Proof.
  intros st c source Hs Hl Hc Hn.
  rewrite (addSource_present st c source Hs Hl Hc).
  destruct (find (same_name source) (sources c)) eqn:E; [reflexivity|].
  apply find_none_count in E. unfold count_name in Hn. lia.
Qed.

(** On a registry of the current schema names stay unique.  Calling
    [addSource] twice with the same name: whatever the first call did (it
    added the source, or it found the name already taken), the second call
    fails with the name-collision error and leaves the state as it found it,
    and the registry file then holds exactly one source of that name.  The
    registry holds at most one source of that name before the calls, on a
    disk where the tool's directories exist or can be made. *)
Lemma addSource_twice : forall st source,
    usable homedir (fs st) ->
    current_schema (sources (loaded homedir st)) ->
    needs_migration source = false ->
    count_name (Source.name source) (sources (loaded homedir st)) <= 1 ->
    exists r1 st1,
      addSource homedir source st = (r1, st1)
      /\ (r1 = Ok tt \/ r1 = Throw (Error (name_collision (Source.name source))))
      /\ addSource homedir source st1
         = (Throw (Error (name_collision (Source.name source))), st1)
      /\ exists c, lookup (fs st1) CONFIG = Some (File true (Json c))
                   /\ count_name (Source.name source) (sources c) = 1.
Proof.
  intros st source Hu Hschema Hsrc Hcount.
  destruct (ensureDirectories_usable st Hu) as (n & Hens & Hs & Hln).
  assert (Hstart : addSource homedir source st = addSource homedir source (with_fs n st)).
  { unfold addSource. apply bind_same_start. now apply readConfig_usable. }
  rewrite Hstart.
  assert (Hloaded : loaded homedir (with_fs n st) = loaded homedir st).
  { unfold loaded. cbn [with_fs fs DEFAULT_CONFIG]. now rewrite Hln. }
  rewrite <- Hloaded in Hschema, Hcount. clear Hstart Hloaded Hens Hu Hln.
  set (s0 := with_fs n st) in *.
  assert (Hs0 : settled homedir (fs s0)) by exact Hs.
  unfold loaded in Hschema, Hcount.
  destruct (lookup (fs s0) CONFIG) as [[[|] [raw|c]|r es|]|] eqn:E.
  2: { (* a registry that parses *)
    rewrite (addSource_present s0 c source Hs0 E Hschema).
    destruct (find (same_name source) (sources c)) eqn:F.
    - exists (Throw (Error (name_collision (Source.name source)))), s0.
      apply find_some_count in F.
      split; [reflexivity|]. split; [now right|]. split.
      + eapply addSource_again; eauto.
      + exists c. split; [exact E|]. unfold count_name in *. lia.
    - set (c' := mkConfig (sources c ++ [source]) (targets c)).
      destruct (settled_with_registry c' s0 Hs0) as [Hs1 Hl1].
      assert (Hc1 : count_name (Source.name source) (sources c') = 1).
      { unfold c'. cbn [sources]. rewrite count_name_app.
        apply find_none_count in F. unfold count_name at 1. rewrite F.
        unfold count_name. simpl. now rewrite strict_eq_refl. }
      exists (Ok tt), (with_registry homedir c' s0).
      split; [reflexivity|]. split; [now left|]. split.
      + eapply addSource_again; eauto; [|lia].
        now apply current_schema_snoc.
      + exists c'. now split. }
  all: (* no registry that parses: the default object is written *)
    assert (Hbad : forall c, lookup (fs s0) CONFIG <> Some (File true (Json c)))
      by (intro c0; rewrite E; discriminate);
    destruct (addSource_reset s0 source Hs0 Hbad) as (st1 & Hs1 & Hrun & Hl1);
    rewrite Hrun; clear Hrun;
    destruct (find (same_name source) (sources (DEFAULT_CONFIG s0))) eqn:F;
    [ exists (Throw (Error (name_collision (Source.name source)))), st1;
      apply find_some_count in F;
      split; [reflexivity|]; split; [now right|]; split;
      [ eapply addSource_again; eauto
      | eexists; split; [exact Hl1|]; unfold count_name in *; lia ]
    | exists (Ok tt), st1;
      assert (Hc1 : count_name (Source.name source)
                      (sources (DEFAULT_CONFIG s0) ++ [source]) = 1)
        by (rewrite count_name_app; apply find_none_count in F;
            unfold count_name at 1; rewrite F; unfold count_name; simpl;
            now rewrite strict_eq_refl);
      split; [reflexivity|]; split; [now left|]; split;
      [ eapply addSource_again; eauto;
        [ now apply current_schema_snoc | cbn [sources]; lia ]
      | eexists; split; [exact Hl1 | exact Hc1] ] ].
Qed.

(** *** What the registry calls leave alone *)

Lemma preserves_deref : forall p r, preserves p (deref r).
Proof. intros p r st x st' H. inversion H. reflexivity. Qed.

Lemma preserves_assign : forall p r c, preserves p (assign r c).
Proof. intros p r c st x st' H. destruct r; inversion H; reflexivity. Qed.

Lemma diverge_join_STORE : forall p s, diverge p ROOT -> diverge p (join STORE s).
Proof.
  intros p s H. change (join STORE s) with (STORE ++ segments s).
  rewrite STORE_eq, <- app_assoc. now apply diverge_extend.
Qed.

Lemma ensureDirectories_preserves : forall p,
    diverge p ROOT -> preserves p (ensureDirectories homedir).
Proof.
  intros p H. unfold ensureDirectories.
  apply preserves_bind; [|intros _]; apply preserves_tryFs, mkdir_keeps;
    [assumption | now apply diverge_ROOT_STORE].
Qed.

Lemma writeConfig_preserves : forall p c,
    diverge p ROOT -> preserves p (writeConfig homedir c).
Proof.
  intros p c H. unfold writeConfig.
  apply preserves_bind; [now apply ensureDirectories_preserves | intros _].
  apply preserves_tryFs, write_keeps. now apply diverge_ROOT_CONFIG.
Qed.

Lemma migrateSkillFolder_preserves : forall p oldNamespace newName,
    diverge p ROOT -> preserves p (migrateSkillFolder homedir oldNamespace newName).
Proof.
  intros p oldNamespace newName H. unfold migrateSkillFolder.
  apply preserves_tryCatch; [|intros _; apply preserves_ret].
  apply preserves_bind; [apply preserves_readFs | intro skillMd].
  apply preserves_bind;
    [apply preserves_if; [apply preserves_ret | apply preserves_readFs] | intro oldItself].
  apply preserves_if; [|apply preserves_ret].
  apply preserves_bind; [apply preserves_readFs | intro newExists].
  apply preserves_if; [|apply preserves_ret].
  apply preserves_bind; [|intros _].
  - apply preserves_tryFs, rename_keeps; now apply diverge_join_STORE.
  - apply preserves_bind; [apply preserves_print | intros _].
    apply preserves_tryCatch; [|intros _; apply preserves_ret].
    apply preserves_tryFs, rm_plain_keeps. now apply diverge_join_STORE.
Qed.

Lemma migrateSources_preserves : forall p l,
    diverge p ROOT -> preserves p (migrateSources homedir l).
Proof.
  intros p l H. induction l as [|s l IH]; cbn [migrateSources].
  - apply preserves_ret.
  - apply preserves_if.
    + apply preserves_bind; [now apply migrateSkillFolder_preserves | intros _].
      apply preserves_bind; [exact IH | intro r; apply preserves_ret].
    + apply preserves_bind; [exact IH | intro r; apply preserves_ret].
Qed.

Lemma reset_preserves : forall p,
    diverge p ROOT ->
    preserves p (d <- deref TheDefault ;; writeConfig homedir d ;; ret TheDefault).
Proof.
  intros p H. apply preserves_bind; [apply preserves_deref | intro d].
  apply preserves_bind; [now apply writeConfig_preserves | intros _; apply preserves_ret].
Qed.

Lemma readConfig_preserves : forall p,
    diverge p ROOT -> preserves p (readConfig homedir).
Proof.
  intros p H. unfold readConfig.
  apply preserves_bind; [now apply ensureDirectories_preserves | intros _].
  apply preserves_bind; [apply preserves_readFs | intro present].
  apply preserves_if; [now apply reset_preserves|].
  apply preserves_tryCatch; [|intros _; now apply reset_preserves].
  apply preserves_bind; [apply preserves_askFs | intro content].
  apply preserves_bind; [now apply migrateSources_preserves | intro r].
  apply preserves_bind; [|intros _; apply preserves_ret].
  apply preserves_if; [now apply writeConfig_preserves | apply preserves_ret].
Qed.

Lemma removeTarget_preserves : forall p name,
    diverge p ROOT -> preserves p (removeTarget homedir name).
Proof.
  intros p name H. unfold removeTarget.
  apply preserves_bind; [now apply readConfig_preserves | intro r].
  apply preserves_bind; [apply preserves_deref | intro config].
  destruct (splice_first _ (targets config)) as [[removed rest]|]; [|apply preserves_ret].
  apply preserves_bind; [apply preserves_assign | intros _].
  apply preserves_bind; [now apply writeConfig_preserves | intros _; apply preserves_ret].
Qed.

Lemma targetRemove_preserves : forall p name,
    diverge p ROOT -> preserves p (TargetCmd.targetRemove homedir name).
Proof.
  intros p name H. unfold TargetCmd.targetRemove.
  apply preserves_bind; [now apply removeTarget_preserves | intros [t|]].
  - apply preserves_bind; [apply preserves_print | intros _; apply preserves_print].
  - apply preserves_throw.
Qed.

(** *** [removeTarget] *)

Lemma splice_first_found : forall (A : Type) (f : A -> bool) l t,
    find f l = Some t ->
    exists front back,
      splice_first f l = Some (t, front ++ back)
      /\ l = front ++ t :: back /\ f t = true.
Proof.
  induction l as [|x l IH]; simpl; intros t H; [discriminate|].
  destruct (f x) eqn:Fx.
  - inversion H; subst. exists [], l. auto.
  - destruct (IH t H) as (front & back & Hsp & Hl & Ht).
    exists (x :: front), back. rewrite Hsp, Hl. auto.
Qed.

Lemma removeTarget_present : forall st c name,
    settled homedir (fs st) ->
    lookup (fs st) CONFIG = Some (File true (Json c)) ->
    current_schema (sources c) ->
    removeTarget homedir name st
    = match splice_first (fun t => String.eqb (Target.name t) name) (targets c) with
      | None => (Ok None, st)
      | Some (removed, rest) =>
          (Ok (Some removed), with_registry homedir (mkConfig (sources c) rest) st)
      end.
Proof.
  intros st c name Hs Hl Hc. unfold removeTarget.
  rewrite (bind_ok _ _ _ _ st (Fresh c) st) by now apply readConfig_present.
  rewrite (bind_ok _ _ _ _ st c st) by reflexivity.
  destruct (splice_first _ (targets c)) as [[removed rest]|]; [|reflexivity].
  rewrite (bind_ok _ _ _ _ st tt st) by reflexivity.
  rewrite (bind_ok _ _ _ _ st tt (with_registry homedir (mkConfig (sources c) rest) st))
    by now apply writeConfig_settled.
  reflexivity.
Qed.

(** On a disk where the tool's directories are in place, reading a registry
    that has no entry of the older schema touches the registry file only. *)
Lemma readConfig_touches_registry : forall st r st',
    settled homedir (fs st) ->
    (forall c, lookup (fs st) CONFIG = Some (File true (Json c)) ->
               current_schema (sources c)) ->
    readConfig homedir st = (r, st') ->
    settled homedir (fs st')
    /\ forall p, diverge p CONFIG -> lookup (fs st') p = lookup (fs st) p.
Proof.
  intros st r st' Hs Hcur Hrun.
  destruct (lookup (fs st) CONFIG) as [[[|] [raw|c]|rd es|]|] eqn:E.
  2: { destruct (readConfig_present st c Hs E (Hcur c eq_refl)) as [Hr _].
       rewrite Hr in Hrun. inversion Hrun; subst. now split. }
  all: assert (Hbad : forall c, lookup (fs st) CONFIG <> Some (File true (Json c)))
         by (intro c0; rewrite E; discriminate);
       destruct (readConfig_reset st Hs Hbad) as [Hr _];
       rewrite Hr in Hrun; inversion Hrun; subst;
       split; [now apply settled_with_registry|];
       intros p Hp; unfold with_registry; cbn [fs]; now apply update_lookup_diverge.
Qed.

Lemma removeTarget_touches_registry : forall name st r st',
    settled homedir (fs st) ->
    (forall c, lookup (fs st) CONFIG = Some (File true (Json c)) ->
               current_schema (sources c)) ->
    removeTarget homedir name st = (r, st') ->
    forall p, diverge p CONFIG -> lookup (fs st') p = lookup (fs st) p.
Proof.
  intros name st r st' Hs Hcur Hrun p Hp.
  unfold removeTarget in Hrun. unfold bind at 1 in Hrun.
  destruct (readConfig homedir st) as [[ref|e] st1] eqn:Hread.
  2: { inversion Hrun; subst.
       now apply (proj2 (readConfig_touches_registry st _ _ Hs Hcur Hread)). }
  destruct (readConfig_touches_registry st _ _ Hs Hcur Hread) as [Hs1 Hf1].
  rewrite <- (Hf1 p Hp).
  unfold bind at 1 in Hrun. unfold deref at 1 in Hrun.
  destruct (splice_first _ _) as [[removed rest]|].
  - set (c' := mkConfig _ rest) in Hrun.
    set (st1a := snd (assign ref c' st1)).
    assert (Hfs : fs st1a = fs st1) by (unfold st1a; destruct ref; reflexivity).
    assert (Hassign : assign ref c' st1 = (Ok tt, st1a))
      by (unfold st1a; destruct ref; reflexivity).
    rewrite (bind_ok _ _ _ _ st1 tt st1a Hassign) in Hrun.
    assert (Hs1a : settled homedir (fs st1a)) by (rewrite Hfs; exact Hs1).
    rewrite (bind_ok _ _ _ _ st1a tt _ (writeConfig_settled c' st1a Hs1a)) in Hrun.
    inversion Hrun; subst. unfold with_registry. cbn [fs]. rewrite <- Hfs.
    now apply update_lookup_diverge.
  - inversion Hrun; subst. reflexivity.
Qed.

(** The lines that [targetRemove] prints leave the disk alone. *)
Lemma targetRemove_follows : forall name st r st',
    TargetCmd.targetRemove homedir name st = (r, st') ->
    exists r0 st0, removeTarget homedir name st = (r0, st0) /\ fs st' = fs st0.
Proof.
  intros name st r st' Hrun. unfold TargetCmd.targetRemove, bind in Hrun.
  destruct (removeTarget homedir name st) as [[[t|]|e] st0] eqn:E.
  - exists (Ok (Some t)), st0. split; [reflexivity|]. inversion Hrun; subst. reflexivity.
  - exists (Ok None), st0. split; [reflexivity|]. inversion Hrun; subst. reflexivity.
  - exists (Throw e), st0. split; [reflexivity|]. inversion Hrun; subst. reflexivity.
Qed.

End WithHome.

(** *** The registry properties at concrete inputs *)

Lemma readConfig_invalid_json_witness :
  exists st',
    readConfig Examples.home Examples.corrupt_state = (Ok TheDefault, st')
    /\ readConfig_v1 Examples.home Examples.corrupt_state = (Ok TheDefault, st')
    /\ deref TheDefault st' = (Ok (mkConfig [] []), st')
    /\ lookup (fs st') (CONFIG_PATH Examples.home)
       = Some (File true (Json (mkConfig [] []))).
Proof.
  apply (readConfig_invalid_json Examples.home Examples.corrupt_state
           true "not valid json {{{").
  - reflexivity.
  - reflexivity.
  - reflexivity.
Defined.

(** C5, at the input where the code departs from it.  [DEFAULT_CONFIG] is
    one object: [addSource] on a fresh home directory gets it from
    [readConfig] and pushes the source onto it.  When the registry file is
    then overwritten with text that is not JSON (the state that this leaves
    is [Examples.spoiled_state]), [readConfig] (in both versions of
    [config.ts]) does not throw, but what it returns, and what it writes to
    the file, is that object as it then is: a configuration with one source,
    not the empty one that its handler is there to reset to. *)
Theorem readConfig_invalid_json_keeps_additions :
  (exists st1,
      addSource Examples.home Examples.a_source Examples.blank_state = (Ok tt, st1)
      /\ write (CONFIG_PATH Examples.home) (Text "not valid json {{{") (fs st1)
         = Ok (fs Examples.spoiled_state)
      /\ DEFAULT_CONFIG st1 = DEFAULT_CONFIG Examples.spoiled_state
      /\ console st1 = console Examples.spoiled_state)
  /\ lookup (fs Examples.spoiled_state) (CONFIG_PATH Examples.home)
     = Some (File true (Text "not valid json {{{"))
  /\ exists st',
      readConfig Examples.home Examples.spoiled_state = (Ok TheDefault, st')
      /\ readConfig_v1 Examples.home Examples.spoiled_state = (Ok TheDefault, st')
      /\ deref TheDefault st' = (Ok (mkConfig [Examples.a_source] []), st')
      /\ lookup (fs st') (CONFIG_PATH Examples.home)
         = Some (File true (Json (mkConfig [Examples.a_source] []))).
Proof.
  split; [|split].
  - eexists. split; [vm_compute; reflexivity|].
    split; [vm_compute; reflexivity|]. split; reflexivity.
  - reflexivity.
  - eexists. split; [vm_compute; reflexivity|].
    split; [vm_compute; reflexivity|]. split; reflexivity.
Qed.

Lemma addSource_twice_witness :
  exists r1 st1,
    addSource Examples.home Examples.a_source Examples.blank_state = (r1, st1)
    /\ (r1 = Ok tt \/ r1 = Throw (Error (name_collision (Some "repo"))))
    /\ addSource Examples.home Examples.a_source st1
       = (Throw (Error (name_collision (Some "repo"))), st1)
    /\ exists c, lookup (fs st1) (CONFIG_PATH Examples.home) = Some (File true (Json c))
                 /\ count_name (Some "repo") (sources c) = 1.
Proof.
  apply (addSource_twice Examples.home Examples.blank_state Examples.a_source).
  - split; reflexivity.
  - constructor.
  - reflexivity.
  - apply Nat.le_0_l.
Defined.

(** C6, at the input where the code departs from it.  The registry is one
    that the older [addSource] wrote for the repositories [a/x] and [b/x]: no
    entry carries a name yet.  [addSource] of a source named [x] reads it
    through [readConfig], whose migration names both entries [x] and writes
    them back; the check for the name then finds it taken.  The first call
    fails as the second does, and the registry file holds two sources of the
    name, not one. *)
Theorem addSource_twice_after_migration :
  lookup (fs Samples.twins_state) (CONFIG_PATH Examples.home)
  = Some (File true (Json Samples.twins_config))
  /\ map Source.namespace (sources Samples.twins_config) = [Some "a/x"; Some "b/x"]
  /\ count_name (Some "x") (sources Samples.twins_config) = 0
  /\ exists st1,
      addSource Examples.home Samples.x_source Samples.twins_state
      = (Throw (Error (name_collision (Some "x"))), st1)
      /\ addSource Examples.home Samples.x_source st1
         = (Throw (Error (name_collision (Some "x"))), st1)
      /\ exists c,
          lookup (fs st1) (CONFIG_PATH Examples.home) = Some (File true (Json c))
          /\ map Source.name (sources c) = [Some "x"; Some "x"]
          /\ count_name (Some "x") (sources c) = 2.
Proof.
  split; [reflexivity|]. split; [reflexivity|]. split; [reflexivity|].
  eexists. split; [vm_compute; reflexivity|].
  split; [vm_compute; reflexivity|].
  eexists. split; [reflexivity|]. split; reflexivity.
Qed.

Lemma work_cursor_apart : diverge ["work"; "cursor"] (SKILLS_ROOT Examples.home).
Proof. exists [], "work", "home", ["cursor"], ["u"; ".skills"]. repeat split. discriminate. Qed.

End RegistryFacts.

(** ** Batches: [sync] and [update] *)

Module BatchFacts.
Import JS Fs Proc Store Registry Sync Git SourceCmd Update Frame FsFacts ProcFacts Batch.
Local Open Scope proc_scope.

(** A loop whose body is guarded item by item never throws, and visits
    every item. *)
Lemma guarded_forEach : forall (A : Type) (body : A -> M unit) report xs st,
    exists st',
      forEach xs (fun x => tryCatch (body x) (fun e => print (report x e))) st
      = (Ok tt, st')
      /\ run body report xs st st'.
Proof.
  intros A body report xs. induction xs as [|x xs IH]; intro st.
  - exists st. split; [reflexivity | constructor].
  - cbn [forEach]. destruct (body x st) as [[[]|e] st1] eqn:E.
    + destruct (IH st1) as (st' & Hrun & Hbatch). exists st'. split.
      * rewrite (bind_ok _ _ _ _ st tt st1); [exact Hrun|].
        now apply tryCatch_ok.
      * eapply run_ok; eauto.
    + destruct (IH (with_line (report x e) st1)) as (st' & Hrun & Hbatch).
      exists st'. split.
      * rewrite (bind_ok _ _ _ _ st tt (with_line (report x e) st1)); [exact Hrun|].
        now rewrite (tryCatch_throw _ _ _ st e st1).
      * eapply run_failed; eauto.
Qed.

Section WithHome.
Variable homedir : string.
Variable git : client.

(** C7.  In [sync] and in [update] a failure on one item is caught and
    reported on the console against that item's name, every remaining item
    is still processed, and the batch returns without throwing.  The loops
    return normally after a run that visits every target (every source) in
    turn.  [sync], once it has read a registry that lists targets and found
    the store, prints its opening line, makes that very run over the targets
    of the registry, prints its closing line and returns; [update] does the
    same over the sources of the registry.  With no target, or no source,
    registered they print their notice and return; neither throws once the
    registry has been read. *)
Theorem batches_isolate_failures :
  (forall targets st,
      exists st',
        syncEach homedir targets st = (Ok tt, st')
        /\ run (syncToTarget homedir) target_failed targets st st')
  /\ (forall srcs st,
         exists st',
           updateEach homedir git srcs st = (Ok tt, st')
           /\ run (updateOne homedir git) source_failed srcs st st')
  /\ (forall st targets st1,
         getTargets homedir st = (Ok targets, st1) ->
         targets <> [] ->
         Hash.directoryExists (fs st1) (SKILLS_STORE homedir) = true ->
         exists st2,
           run (syncToTarget homedir) target_failed targets
               (with_line (Out ("Syncing skills to all targets..." +++ newline)) st1) st2
           /\ sync homedir st
              = (Ok tt, with_line (Out (newline +++ "Sync complete.")) st2))
  /\ (forall st srcs st1,
         getSources homedir st = (Ok srcs, st1) ->
         srcs <> [] ->
         exists st2,
           run (updateOne homedir git) source_failed srcs
               (with_line (Out ("Updating all sources..." +++ newline)) st1) st2
           /\ update homedir git st
              = (Ok tt,
                 with_line (Out "Run 'skills sync' to push changes to targets.")
                   (with_line (Out (newline +++ "Update complete.")) st2)))
  /\ (forall st st1,
         (getTargets homedir st = (Ok [], st1) ->
          sync homedir st
          = (Ok tt,
             with_line (Out "Add a target with: skills target add <name> <path>")
               (with_line (Out "No targets registered.") st1)))
         /\ (getSources homedir st = (Ok [], st1) ->
             update homedir git st
             = (Ok tt,
                with_line (Out "Add a source with: skills source add <url> --remote")
                  (with_line (Out "No sources registered.") st1))))
  /\ (forall st targets st1,
         getTargets homedir st = (Ok targets, st1) ->
         exists st', sync homedir st = (Ok tt, st'))
  /\ (forall st srcs st1,
         getSources homedir st = (Ok srcs, st1) ->
         exists st', update homedir git st = (Ok tt, st')).
Proof.
  assert (Hsome : forall (A : Type) (l : list A),
             l <> [] -> Nat.eqb (List.length l) 0 = false)
    by (intros A [|x l] H; [congruence | reflexivity]).
  split; [|split; [|split; [|split; [|split; [|split]]]]].
  - intros targets st. apply (guarded_forEach _ (syncToTarget homedir) target_failed).
  - intros srcs st. apply (guarded_forEach _ (updateOne homedir git) source_failed).
  - intros st targets st1 Hget Hne Hstore. unfold sync.
    rewrite (bind_ok _ _ _ _ st targets st1) by exact Hget.
    rewrite (Hsome _ targets Hne).
    rewrite (bind_ok _ _ _ _ st1 true st1)
      by (unfold readFs; now rewrite Hstore).
    cbn [negb].
    set (st_a := with_line (Out ("Syncing skills to all targets..." +++ newline)) st1).
    rewrite (bind_ok _ _ _ _ st1 tt st_a) by reflexivity.
    destruct (guarded_forEach _ (syncToTarget homedir) target_failed targets st_a)
      as (st2 & Hloop & Hrun).
    exists st2. split; [exact Hrun|].
    now rewrite (bind_ok _ _ _ _ st_a tt st2) by exact Hloop.
  - intros st srcs st1 Hget Hne. unfold update.
    rewrite (bind_ok _ _ _ _ st srcs st1) by exact Hget.
    rewrite (Hsome _ srcs Hne).
    set (st_a := with_line (Out ("Updating all sources..." +++ newline)) st1).
    rewrite (bind_ok _ _ _ _ st1 tt st_a) by reflexivity.
    destruct (guarded_forEach _ (updateOne homedir git) source_failed srcs st_a)
      as (st2 & Hloop & Hrun).
    exists st2. split; [exact Hrun|].
    now rewrite (bind_ok _ _ _ _ st_a tt st2) by exact Hloop.
  - intros st st1. split.
    + intros Hget. unfold sync.
      now rewrite (bind_ok _ _ _ _ st [] st1) by exact Hget.
    + intros Hget. unfold update.
      now rewrite (bind_ok _ _ _ _ st [] st1) by exact Hget.
  - intros st targets st1 Hget. unfold sync.
    rewrite (bind_ok _ _ _ _ st targets st1) by exact Hget.
    destruct (Nat.eqb (List.length targets) 0); [eexists; reflexivity|].
    rewrite (bind_ok _ _ _ _ st1
               (Hash.directoryExists (fs st1) (SKILLS_STORE homedir)) st1)
      by reflexivity.
    destruct (negb (Hash.directoryExists (fs st1) (SKILLS_STORE homedir)));
      [eexists; reflexivity|].
    set (st_a := with_line (Out ("Syncing skills to all targets..." +++ newline)) st1).
    rewrite (bind_ok _ _ _ _ st1 tt st_a) by reflexivity.
    destruct (guarded_forEach _ (syncToTarget homedir) target_failed targets st_a)
      as (st2 & Hrun & _).
    rewrite (bind_ok _ _ _ _ st_a tt st2) by exact Hrun.
    eexists; reflexivity.
  - intros st srcs st1 Hget. unfold update.
    rewrite (bind_ok _ _ _ _ st srcs st1) by exact Hget.
    destruct (Nat.eqb (List.length srcs) 0); [eexists; reflexivity|].
    set (st_a := with_line (Out ("Updating all sources..." +++ newline)) st1).
    rewrite (bind_ok _ _ _ _ st1 tt st_a) by reflexivity.
    destruct (guarded_forEach _ (updateOne homedir git) source_failed srcs st_a)
      as (st2 & Hrun & _).
    rewrite (bind_ok _ _ _ _ st_a tt st2) by exact Hrun.
    eexists; reflexivity.
Qed.

End WithHome.

(** [sync] on a registry whose first target cannot be made and whose second
    can, and [update] on one whose first source is gone and whose second is
    there: each makes the run over its items between its opening and closing
    lines. *)
Lemma batches_isolate_failures_witness :
  (exists st2,
      run (syncToTarget Examples.home) target_failed [Examples.blocked; Examples.cursor]
          (with_line (Out ("Syncing skills to all targets..." +++ newline))
                     Samples.mixed_state) st2
      /\ sync Examples.home Samples.mixed_state
         = (Ok tt, with_line (Out (newline +++ "Sync complete.")) st2))
  /\ exists st2,
      run (updateOne Examples.home Examples.clone_fails) source_failed
          [Samples.a_local_source; Samples.notes_source]
          (with_line (Out ("Updating all sources..." +++ newline)) Samples.locals_state) st2
      /\ update Examples.home Examples.clone_fails Samples.locals_state
         = (Ok tt,
            with_line (Out "Run 'skills sync' to push changes to targets.")
              (with_line (Out (newline +++ "Update complete.")) st2)).
Proof.
  split.
  - apply (proj1 (proj2 (proj2 (batches_isolate_failures Examples.home Examples.clone_fails)))
             Samples.mixed_state [Examples.blocked; Examples.cursor] Samples.mixed_state).
    + vm_compute. reflexivity.
    + discriminate.
    + reflexivity.
  - apply (proj1 (proj2 (proj2 (proj2
             (batches_isolate_failures Examples.home Examples.clone_fails))))
             Samples.locals_state [Samples.a_local_source; Samples.notes_source]
             Samples.locals_state).
    + vm_compute. reflexivity.
    + discriminate.
Defined.

(** What the two runs leave on the console and on the disk: the item that
    failed is reported under its name, and the one after it is done. *)
Example sync_reports_and_goes_on :
  console (snd (sync Examples.home Samples.mixed_state))
  = [Out ("Syncing skills to all targets..." +++ newline);
     Err "  blocked: Failed - ENOTDIR: not a directory, mkdir";
     Out "  cursor: Synced";
     Out (newline +++ "Sync complete.")]
  /\ lookup (fs (snd (sync Examples.home Samples.mixed_state))) ["work"; "cursor"]
     = Some (Dir true [("repo", Dir true [("SKILL.md", File true (Text "# old"))])]).
Proof. split; vm_compute; reflexivity. Qed.

Example update_reports_and_goes_on :
  console (snd (update Examples.home Examples.clone_fails Samples.locals_state))
  = [Out ("Updating all sources..." +++ newline);
     Out "  mine: Updating from /work/mine...";
     Err "  mine: Failed - Source folder no longer exists: /work/mine";
     Out "  notes: Updating from /work/cursor...";
     Out "  notes: Updated";
     Out (newline +++ "Update complete.");
     Out "Run 'skills sync' to push changes to targets."]
  /\ lookup (fs (snd (update Examples.home Examples.clone_fails Samples.locals_state)))
            (getSkillPath Examples.home "notes")
     = Some (Dir true [("notes.md", File true (Text "mine"))]).
Proof. split; vm_compute; reflexivity. Qed.

End BatchFacts.

(** ** [syncToTarget] and an empty store *)

Module SyncFacts.
Import JS Fs Proc Store Registry Sync Frame FsFacts ProcFacts RegistryFacts.
Local Open Scope proc_scope.

(** When the store directory is missing, [syncToTarget] only makes sure the
    target directory exists and prints the notice. *)
Lemma syncToTarget_without_store : forall homedir target st n,
    mkdir (segments (Target.path target)) (fs st) = Ok n ->
    Hash.directoryExists n (SKILLS_STORE homedir) = false ->
    syncToTarget homedir target st
    = (Ok tt, with_line (Out ("  " +++ Target.name target
                                   +++ ": Store is empty, nothing to sync"))
                        (with_fs n st)).
Proof.
  intros homedir target st n Hmk Hstore. unfold syncToTarget.
  rewrite (bind_ok _ _ _ _ st tt (with_fs n st)) by now apply tryFs_ok.
  unfold bind, readFs. cbn [with_fs fs]. rewrite Hstore. reflexivity.
Qed.

(** C1, at the input where the code departs from it.  The store directory
    exists and holds nothing (the state every command leaves behind before any
    source is added, since [ensureDirectories] creates the directory).  The
    check [directoryExists] sees a directory, so [syncToTarget] does not take
    the no-op branch: it removes every entry of the target directory and
    copies the empty store over it.  The file the target held is gone and the
    console says [Synced]. *)
Theorem syncToTarget_empty_store_clears_target :
  lookup (fs Examples.empty_store_state) (SKILLS_STORE Examples.home) = Some (Dir true [])
  /\ lookup (fs Examples.empty_store_state) ["work"; "cursor"]
     = Some (Dir true [("notes.md", File true (Text "mine"))])
  /\ exists st',
      syncToTarget Examples.home Examples.cursor Examples.empty_store_state = (Ok tt, st')
      /\ lookup (fs st') ["work"; "cursor"] = Some (Dir true [])
      /\ console st' = [Out "  cursor: Synced"].
Proof.
  split; [reflexivity|]. split; [reflexivity|].
  eexists. split; [vm_compute; reflexivity|]. split; reflexivity.
Qed.

(** The no-op that the specification describes is what happens when the
    store directory is missing. *)
Example syncToTarget_missing_store_is_noop :
  syncToTarget Examples.home Examples.cursor Examples.no_store_state
  = (Ok tt, with_line (Out "  cursor: Store is empty, nothing to sync")
                      Examples.no_store_state).
Proof. vm_compute. reflexivity. Qed.

End SyncFacts.

(** ** Cleaning up after a failed clone *)

Module CloneFacts.
Import JS Fs Proc Paths Store Registry Git SourceCmd Update Frame FsFacts ProcFacts.
Local Open Scope proc_scope.

Lemma suffixed_last : forall front l suffix,
    suffixed (front ++ [l]) suffix = front ++ [l +++ suffix].
Proof.
  intros. unfold suffixed. rewrite rev_unit. now rewrite rev_involutive.
Qed.

Lemma length_append : forall a b : string,
    String.length (a +++ b) = String.length a + String.length b.
Proof. induction a as [|c a IH]; intro b; simpl; [reflexivity | now rewrite IH]. Qed.

Lemma append_longer : forall (l suffix : string),
    suffix <> EmptyString -> l <> l +++ suffix.
Proof.
  intros l suffix Hs H.
  assert (Hlen : String.length l = String.length (l +++ suffix)) by now rewrite <- H.
  rewrite length_append in Hlen.
  destruct suffix; [congruence | simpl in Hlen; lia].
Qed.

(** The handler of [addRemoteSource]: after any failure of the clone, neither
    the store path of the skill nor the temporary clone is left, and the error
    that is thrown carries the cause. *)
Lemma addRemoteSource_handler_cleans_up : forall git parsed branch targetPath st e st1,
    targetPath <> [] ->
    cloneInto git parsed branch targetPath st = (Throw e, st1) ->
    exists st2,
      tryCatch (cloneInto git parsed branch targetPath)
        (fun error =>
           doFs (rm targetPath) ;;
           doFs (rm (suffixed targetPath "_temp")) ;;
           throw ("Failed to clone repository: " +++ show_error error)) st
      = (Throw (Error ("Failed to clone repository: " +++ show_error e)), st2)
      /\ lookup (fs st2) targetPath = None
      /\ lookup (fs st2) (suffixed targetPath "_temp") = None.
Proof.
  intros git parsed branch targetPath st e st1 Hne Hfail.
  rewrite (tryCatch_throw _ _ _ st e st1) by exact Hfail.
  destruct (exists_last Hne) as (front & l & ->).
  rewrite suffixed_last.
  eexists. split; [reflexivity|]. cbn [fs]. split.
  - rewrite rm_keeps.
    + apply lookup_rm_same. now destruct front.
    + apply diverge_siblings. apply append_longer. discriminate.
  - apply lookup_rm_same. now destruct front.
Qed.

(** C2, at the input where the code departs from it.  The clone creates the
    skill's store directory and then fails.  [updateRemoteSource] surfaces the
    failure with its cause, but its handler removes the temporary clone only:
    the partially created store directory is still there.  [addRemoteSource],
    on the same failure, removes it. *)
Theorem updateRemoteSource_leaves_partial_clone :
  exists st',
    updateRemoteSource Examples.home Examples.clone_fails "repo"
      "https://github.com/owner/repo" Examples.one_skill_state
    = (Throw (Error "Failed to clone: ShellError: Failed with exit code 128"), st')
    /\ lookup (fs st') (getSkillPath Examples.home "repo")
       = Some (Dir true [(".git", Dir true [])])
    /\ exists st'',
        addRemoteSource Examples.home Examples.clone_fails
          "https://github.com/owner/repo" (Some "fresh") Examples.one_skill_state
        = (Throw (Error "Failed to clone repository: ShellError: Failed with exit code 128"),
           st'')
        /\ lookup (fs st'') (getSkillPath Examples.home "fresh") = None.
Proof.
  eexists. split; [vm_compute; reflexivity|]. split; [reflexivity|].
  eexists. split; [vm_compute; reflexivity|]. reflexivity.
Qed.

End CloneFacts.

(** ** Directory fingerprints *)

Module HashFacts.
Import JS Fs Hash Shape.

(** *** The digits of [toString16] *)

Lemma hex_digit_is_hex : forall d, is_hex (hex_digit d) = true.
Proof.
  intros [|p]; [reflexivity|].
  do 4 (try destruct p as [p|p|]); reflexivity.
Qed.

Lemma hex_acc_all_hex : forall fuel n acc,
    all_hex acc = true -> all_hex (hex_acc fuel n acc) = true.
Proof.
  induction fuel as [|fuel IH]; intros n acc Hacc; simpl; [assumption|].
  assert (Hstep : all_hex (String (hex_digit (n mod 16)) acc) = true).
  { simpl. rewrite hex_digit_is_hex, Hacc. reflexivity. }
  destruct (N.eqb (n / 16) 0); [exact Hstep | apply IH; exact Hstep].
Qed.

Lemma toString16_all_hex : forall n, all_hex (toString16 n) = true.
Proof. intro n. apply hex_acc_all_hex. reflexivity. Qed.

Lemma toString16_not_empty_sentinel : forall n, toString16 n <> "empty".
Proof.
  intros n H. pose proof (toString16_all_hex n) as Hh.
  rewrite H in Hh. discriminate Hh.
Qed.

(** [toString16] writes the number: the fuel of [hex_acc] suffices. *)
Lemma digit_value_hex_digit : forall d, (d < 16)%N -> digit_value (hex_digit d) = d.
Proof.
  intros [|p] H; [reflexivity|].
  do 4 (try destruct p as [p|p|]); try reflexivity; exfalso;
    destruct p; discriminate H.
Qed.

Lemma hex_acc_value : forall fuel n acc,
    (n < 16 ^ N.of_nat fuel)%N ->
    hex_value (hex_acc fuel n acc)
    = (n * 16 ^ N.of_nat (String.length acc) + hex_value acc)%N.
Proof.
  induction fuel as [|fuel IH]; intros n acc Hn.
  - simpl in Hn. assert (n = 0%N) by lia. subst. reflexivity.
  - cbn [hex_acc].
    assert (Hmod : (n mod 16 < 16)%N) by (apply N.mod_lt; discriminate).
    assert (Hdiv : n = (16 * (n / 16) + n mod 16)%N) by (apply N.div_mod; discriminate).
    assert (Hstep : hex_value (String (hex_digit (n mod 16)) acc)
                    = ((n mod 16) * 16 ^ N.of_nat (String.length acc) + hex_value acc)%N).
    { cbn [hex_value]. now rewrite digit_value_hex_digit. }
    destruct (N.eqb_spec (n / 16) 0) as [Hz|Hnz].
    + rewrite Hstep. rewrite Hz in Hdiv. f_equal. f_equal. lia.
    + rewrite IH.
      * rewrite Hstep. cbn [String.length]. rewrite Nat2N.inj_succ, N.pow_succ_r'.
        rewrite Hdiv at 3. lia.
      * rewrite Nat2N.inj_succ, N.pow_succ_r' in Hn.
        apply N.Div0.div_lt_upper_bound. exact Hn.
Qed.

Lemma toString16_value : forall n, hex_value (toString16 n) = n.
Proof.
  intro n. unfold toString16. rewrite hex_acc_value.
  - simpl. lia.
  - rewrite Nat2N.inj_succ, N.pow_succ_r'.
    assert (Hnat : N.of_nat (N.size_nat n) = N.size n).
    { destruct n as [|p]; [reflexivity|]. cbn [N.size_nat N.size].
      induction p as [p IHp|p IHp|]; cbn [Pos.size_nat Pos.size];
        [rewrite Nat2N.inj_succ, IHp | rewrite Nat2N.inj_succ, IHp |]; reflexivity. }
    rewrite Hnat.
    assert (Hsize : (n < 2 ^ N.size n)%N) by apply N.size_gt.
    assert (Hpow : (2 ^ N.size n <= 16 ^ N.size n)%N)
      by (apply N.pow_le_mono_l; lia).
    assert (Hpos : (0 < 16 ^ N.size n)%N) by (apply N.neq_0_lt_0, N.pow_nonzero; discriminate).
    lia.
Qed.

(** *** The map *)

Lemma keys_app : forall a b, keys (a ++ b) = keys a ++ keys b.
Proof. intros. apply map_app. Qed.

Lemma map_set_present : forall k v m, In k (keys m) -> keys (map_set k v m) = keys m.
Proof.
  induction m as [|[k' v'] m IH]; simpl; intros Hin; [contradiction|].
  destruct (String.eqb_spec k' k) as [->|Hne]; [reflexivity|].
  simpl. f_equal. apply IH. destruct Hin; [contradiction | assumption].
Qed.

Lemma map_set_fresh : forall k v m, ~ In k (keys m) -> map_set k v m = m ++ [(k, v)].
Proof.
  induction m as [|[k' v'] m IH]; simpl; intros Hnin; [reflexivity|].
  destruct (String.eqb_spec k' k) as [->|Hne]; [exfalso; auto|].
  f_equal. apply IH. intro H. apply Hnin. now right.
Qed.

Lemma map_set_nodup : forall k v m, NoDup (keys m) -> NoDup (keys (map_set k v m)).
Proof.
  intros k v m Hnd. destruct (in_dec string_dec k (keys m)) as [Hin|Hnin].
  - rewrite map_set_present by assumption. assumption.
  - rewrite map_set_fresh by assumption. rewrite keys_app. simpl.
    apply NoDup_app; auto.
    + constructor; [intros [] | constructor].
    + intros a Ha [<-|[]]. contradiction.
Qed.

Lemma map_set_keys_incl : forall k v m x,
    In x (keys (map_set k v m)) -> x = k \/ In x (keys m).
Proof.
  intros k v m x. destruct (in_dec string_dec k (keys m)) as [Hin|Hnin].
  - rewrite map_set_present by assumption. auto.
  - rewrite map_set_fresh by assumption. rewrite keys_app, in_app_iff. simpl.
    intros [H|[H|[]]]; auto.
Qed.

Lemma map_set_all_nodup : forall sub files,
    NoDup (keys files) -> NoDup (keys (map_set_all sub files)).
Proof.
  unfold map_set_all. induction sub as [|[k v] sub IH]; simpl; intros files H.
  - assumption.
  - apply IH. apply map_set_nodup. assumption.
Qed.

Lemma map_set_all_keys_incl : forall sub files x,
    In x (keys (map_set_all sub files)) -> In x (keys sub) \/ In x (keys files).
Proof.
  unfold map_set_all. induction sub as [|[k v] sub IH]; simpl; intros files x H.
  - now right.
  - apply IH in H. destruct H as [H|H]; [left; now right|].
    apply map_set_keys_incl in H. destruct H as [->|H]; [left; now left | now right].
Qed.

Lemma map_set_all_fresh : forall sub files,
    NoDup (keys sub) ->
    (forall k, In k (keys sub) -> ~ In k (keys files)) ->
    map_set_all sub files = files ++ sub.
Proof.
  unfold map_set_all. induction sub as [|[k v] sub IH]; simpl; intros files Hnd Hfresh.
  - now rewrite app_nil_r.
  - inversion Hnd as [|? ? Hk Hnd']; subst.
    rewrite map_set_fresh by (apply Hfresh; now left).
    rewrite IH.
    + now rewrite <- app_assoc.
    + assumption.
    + intros k' Hk'. rewrite keys_app, in_app_iff. simpl.
      intros [H|[<-|[]]]; [|contradiction].
      eapply Hfresh; [right; exact Hk' | exact H].
Qed.

Section WithHash.
Variable Bun_hash : content -> N.
Variable localeCompare : string -> string -> Z.

Local Abbreviation filesOf := (Hash.filesOf Bun_hash).
Local Abbreviation gather := (Shape.gather Bun_hash).
Local Abbreviation entry_files := (Shape.entry_files Bun_hash).
Local Abbreviation hashDirectory := (Hash.hashDirectory Bun_hash localeCompare).
Local Abbreviation getDirectoryFiles := (Hash.getDirectoryFiles Bun_hash).
Local Abbreviation compareDirectories := (Hash.compareDirectories Bun_hash localeCompare).

Lemma filesOf_dir : forall es basePath,
    filesOf (Dir true es) basePath = gather basePath es [].
Proof. reflexivity. Qed.

(** The recursive call [getDirectoryFiles(fullPath, relativePath)] reads the
    child that [fullPath] resolves to. *)
Lemma getDirectoryFiles_child : forall fs dirPath basePath name child r es,
    lookup fs dirPath = Some (Dir r es) ->
    assoc name es = Some child ->
    getDirectoryFiles fs (dirPath ++ [name]) basePath = filesOf child basePath.
Proof.
  intros fs dirPath basePath name child r es Hdir Hchild.
  unfold Hash.getDirectoryFiles.
  rewrite RegistryFacts.lookup_app, Hdir. cbn [Frame.lookup_opt lookup].
  now rewrite Hchild.
Qed.

(** A [Map] never holds a key twice. *)
Lemma gather_nodup : forall basePath es files,
    Forall (fun e => forall b, NoDup (keys (filesOf (snd e) b))) es ->
    NoDup (keys files) -> NoDup (keys (gather basePath es files)).
Proof.
  intros basePath es. induction es as [|[x c] es IH]; simpl; intros files Hall Hnd.
  - assumption.
  - inversion Hall as [|? ? Hc Hall']; subst. simpl in Hc.
    destruct c as [[|] d | r es' |].
    + apply IH; [assumption|]. now apply map_set_nodup.
    + assumption.
    + apply IH; [assumption|]. now apply map_set_all_nodup.
    + now apply IH.
Qed.

Lemma filesOf_nodup : forall n basePath, NoDup (keys (filesOf n basePath)).
Proof.
  intro n. induction n as [r d| |r es IH] using node_induction; intro basePath.
  - constructor.
  - constructor.
  - destruct r; [|constructor].
    rewrite filesOf_dir. apply gather_nodup; [assumption | constructor].
Qed.

(** *** One directory level *)

Lemma nodup_app_inv : forall (A : Type) (a b : list A),
    NoDup (a ++ b) -> NoDup a /\ NoDup b /\ (forall x, In x a -> ~ In x b).
Proof.
  intros A a b H. split; [eapply NoDup_app_remove_r; eauto|].
  split; [eapply NoDup_app_remove_l; eauto|].
  induction a as [|y a IH]; simpl in *; intros x Hx; [contradiction|].
  inversion H as [|? ? Hy Hnd]; subst. destruct Hx as [<-|Hx].
  - intro Hb. apply Hy. apply in_or_app. now right.
  - now apply IH.
Qed.

Lemma gather_flat : forall basePath es files,
    direct_files_readable es ->
    NoDup (keys (files ++ flat_map (entry_files basePath) es)) ->
    gather basePath es files = files ++ flat_map (entry_files basePath) es.
Proof.
  intros basePath es. induction es as [|[x c] es IH]; simpl; intros files Hr Hnd.
  - now rewrite app_nil_r.
  - inversion Hr as [|? ? Hc Hr']; subst. simpl in Hc.
    rewrite app_assoc in Hnd.
    pose proof Hnd as Hsplit. rewrite keys_app in Hsplit.
    apply nodup_app_inv in Hsplit. destruct Hsplit as [Hhead _].
    rewrite keys_app in Hhead. apply nodup_app_inv in Hhead.
    destruct Hhead as [_ [Hef Hdisj]].
    unfold Shape.entry_files in *. simpl in *.
    destruct c as [[|] d | r es' |].
    + rewrite map_set_fresh.
      * rewrite IH by assumption. now rewrite <- app_assoc.
      * intro Hin. apply (Hdisj _ Hin). now left.
    + exfalso. now apply (Hc d).
    + rewrite map_set_all_fresh.
      * rewrite IH by assumption. now rewrite <- app_assoc.
      * assumption.
      * intros k Hk Hin. now apply (Hdisj _ Hin).
    + rewrite app_nil_r in Hnd. rewrite IH by assumption. reflexivity.
Qed.

(** *** The shape of the relative paths *)

Lemma string_app_assoc : forall a b c : string, (a +++ b) +++ c = a +++ b +++ c.
Proof. induction a as [|ch a IH]; intros; simpl; [reflexivity | now rewrite IH]. Qed.

Lemma string_app_inj : forall p a b : string, p +++ a = p +++ b -> a = b.
Proof.
  induction p as [|ch p IH]; simpl; intros a b H; [assumption|].
  inversion H. now apply IH.
Qed.

Lemma string_app_nil_r : forall a : string, a +++ EmptyString = a.
Proof. induction a as [|ch a IH]; simpl; [reflexivity | now rewrite IH]. Qed.

Lemma relativePath_lead : forall basePath x,
    relativePath basePath x = lead basePath +++ x.
Proof.
  intros. unfold relativePath, lead. destruct (truthy basePath); [|reflexivity].
  now rewrite string_app_assoc.
Qed.

Lemma truthy_app : forall a b, truthy a = true -> truthy (a +++ b) = true.
Proof. intros [|ch a] b H; [discriminate | reflexivity]. Qed.

Lemma truthy_relativePath : forall basePath x,
    truthy x = true -> truthy (relativePath basePath x) = true.
Proof.
  intros basePath x Hx. unfold relativePath.
  destruct (truthy basePath) eqn:Hb; [now apply truthy_app | assumption].
Qed.

Lemma gather_keys : forall basePath es files k,
    In k (keys (gather basePath es files)) ->
    In k (keys files) \/ In k (keys (flat_map (entry_files basePath) es)).
Proof.
  intros basePath es. induction es as [|[x c] es IH]; simpl; intros files k Hk.
  - now left.
  - unfold keys in *. rewrite map_app, in_app_iff.
    unfold Shape.entry_files at 1. simpl.
    destruct c as [[|] d | r es' |].
    + apply IH in Hk. destruct Hk as [Hk|Hk]; [|auto].
      apply map_set_keys_incl in Hk. destruct Hk as [->|Hk]; [|auto].
      right. left. now left.
    + now left.
    + apply IH in Hk. destruct Hk as [Hk|Hk]; [|auto].
      apply map_set_all_keys_incl in Hk. destruct Hk as [Hk|Hk]; auto.
    + apply IH in Hk. destruct Hk as [Hk|Hk]; auto.
Qed.

Lemma filesOf_keys_under : forall n basePath k,
    truthy basePath = true ->
    In k (keys (filesOf n basePath)) -> exists t, k = basePath +++ "/" +++ t.
Proof.
  intro n. induction n as [r d| |r es IH] using node_induction;
    intros basePath k Hb Hk; try contradiction.
  destruct r; [|contradiction].
  rewrite filesOf_dir in Hk. apply gather_keys in Hk.
  destruct Hk as [[]|Hk].
  unfold keys in Hk. rewrite in_map_iff in Hk. destruct Hk as [[k' v] [Hfst Hin]].
  simpl in Hfst. subst k'. rewrite in_flat_map in Hin.
  destruct Hin as [[x c] [Hxc Hin]].
  rewrite Forall_forall in IH. specialize (IH _ Hxc). simpl in IH.
  unfold Shape.entry_files in Hin. simpl in Hin.
  assert (Hrel : relativePath basePath x = basePath +++ "/" +++ x).
  { unfold relativePath. now rewrite Hb. }
  destruct c as [r d | r es' |].
  - destruct Hin as [Hin|[]]. inversion Hin; subst. exists x. exact Hrel.
  - destruct (IH (relativePath basePath x) k) as [t Ht].
    + rewrite Hrel. now apply truthy_app.
    + unfold keys. rewrite in_map_iff. exists (k, v). auto.
    + exists (x +++ "/" +++ t). rewrite Ht, Hrel.
      now rewrite !string_app_assoc.
  - contradiction.
Qed.

Lemma entry_keys_shape : forall basePath x c k,
    truthy x = true ->
    In k (keys (entry_files basePath (x, c))) ->
    exists s, k = relativePath basePath x +++ s /\ tail_like s.
Proof.
  intros basePath x c k Hx Hk. unfold Shape.entry_files in Hk. simpl in Hk.
  destruct c as [r d | r es' |].
  - destruct Hk as [<-|[]]. exists EmptyString. simpl.
    split; [now rewrite string_app_nil_r | now left].
  - apply filesOf_keys_under in Hk; [|now apply truthy_relativePath].
    destruct Hk as [t ->]. exists ("/" +++ t). split; [reflexivity|].
    right. now exists t.
  - contradiction.
Qed.

Lemma slash_free_split : forall x y s s',
    slash_free x = true -> slash_free y = true ->
    tail_like s -> tail_like s' ->
    x +++ s = y +++ s' -> x = y.
Proof.
  induction x as [|c x IH]; intros [|d y] s s' Hx Hy Hs Hs' H; simpl in *.
  - reflexivity.
  - exfalso. destruct Hs as [->|[t ->]]; [discriminate|].
    inversion H; subst. apply andb_prop in Hy. destruct Hy as [Hd _].
    discriminate Hd.
  - exfalso. destruct Hs' as [->|[t ->]]; [discriminate|].
    inversion H; subst. apply andb_prop in Hx. destruct Hx as [Hc _].
    discriminate Hc.
  - inversion H; subst. apply andb_prop in Hx. apply andb_prop in Hy.
    destruct Hx as [_ Hx]. destruct Hy as [_ Hy].
    f_equal. apply (IH y s s'); assumption.
Qed.

(** *** Well-formed trees *)

Lemma distinct_NoDup : forall l, distinct l = true -> NoDup l.
Proof.
  induction l as [|x l IH]; simpl; intro H; [constructor|].
  apply andb_prop in H. destruct H as [Hx Hl]. constructor; [|auto].
  intro Hin. apply negb_true_iff in Hx.
  assert (existsb (String.eqb x) l = true).
  { apply existsb_exists. exists x. split; [assumption | apply String.eqb_refl]. }
  congruence.
Qed.

Lemma NoDup_distinct : forall l, NoDup l -> distinct l = true.
Proof.
  induction l as [|x l IH]; simpl; intro H; [reflexivity|].
  inversion H as [|? ? Hx Hl]; subst. rewrite IH by assumption.
  rewrite andb_true_r. apply negb_true_iff.
  destruct (existsb (String.eqb x) l) eqn:E; [|reflexivity].
  apply existsb_exists in E. destruct E as [y [Hy Heq]].
  apply String.eqb_eq in Heq. subst. contradiction.
Qed.

Lemma well_formed_dir : forall r es,
    well_formed (Dir r es) = true <-> NoDup (map fst es) /\ entries_ok es.
Proof.
  intros r es. simpl. rewrite andb_true_iff.
  assert (Hgo : forall l,
             (fix go (es : entries) : bool :=
                match es with
                | [] => true
                | (x, c) :: rest => valid_name x && well_formed c && go rest
                end) l = true <-> entries_ok l).
  { induction l as [|[x c] l IH].
    - split; [constructor | reflexivity].
    - rewrite !andb_true_iff, IH. split.
      + intros [[H1 H2] H3]. constructor; [split|]; assumption.
      + intro H. inversion H as [|? ? [H1 H2] H3]; subst. auto. }
  rewrite Hgo. split; intros [H1 H2]; split; auto using distinct_NoDup, NoDup_distinct.
Qed.

Lemma files_readable_dir : forall r es,
    files_readable (Dir r es) = true <-> entries_readable es.
Proof.
  intros r es. simpl. induction es as [|[x c] es IH].
  - split; [constructor | reflexivity].
  - rewrite andb_true_iff, IH. split.
    + intros [H1 H2]. now constructor.
    + intro H. inversion H; subst. auto.
Qed.

Lemma entries_readable_direct : forall es,
    entries_readable es -> direct_files_readable es.
Proof.
  intros es H. eapply Forall_impl; [|exact H].
  intros [x c] Hc d Heq. simpl in *. subst. discriminate.
Qed.

Lemma flat_nodup : forall basePath es,
    NoDup (map fst es) -> entries_ok es ->
    NoDup (keys (flat_map (entry_files basePath) es)).
Proof.
  intros basePath es. induction es as [|[x c] es IH]; simpl; intros Hnd Hok.
  - constructor.
  - inversion Hnd as [|? ? Hx Hnd']; subst.
    inversion Hok as [|? ? [Hvx Hwc] Hok']; subst. simpl in *.
    rewrite keys_app. apply NoDup_app.
    + unfold Shape.entry_files. simpl. destruct c as [r d | r es' |].
      * repeat constructor. intros [].
      * apply filesOf_nodup.
      * constructor.
    + now apply IH.
    + intros k Hk Hk'.
      unfold valid_name in Hvx. apply andb_prop in Hvx. destruct Hvx as [Htx Hsx].
      apply entry_keys_shape in Hk; [|assumption].
      destruct Hk as [s [Hks Hs]].
      unfold keys in Hk'. rewrite in_map_iff in Hk'.
      destruct Hk' as [[k' v] [Hfst Hin]]. simpl in Hfst. subst k'.
      rewrite in_flat_map in Hin. destruct Hin as [[y c'] [Hy Hin]].
      rewrite Forall_forall in Hok'. destruct (Hok' _ Hy) as [Hvy _]. simpl in Hvy.
      unfold valid_name in Hvy. apply andb_prop in Hvy. destruct Hvy as [Hty Hsy].
      assert (Hk2 : In k (keys (entry_files basePath (y, c')))).
      { unfold keys. rewrite in_map_iff. exists (k, v). auto. }
      apply entry_keys_shape in Hk2; [|assumption].
      destruct Hk2 as [s' [Hks' Hs']].
      rewrite Hks in Hks'. rewrite !relativePath_lead, !string_app_assoc in Hks'.
      apply string_app_inj in Hks'.
      apply slash_free_split in Hks'; try assumption.
      subst y. apply Hx. apply in_map_iff. exists (x, c'). auto.
Qed.

Lemma filesOf_flat : forall es basePath,
    well_formed (Dir true es) = true -> entries_readable es ->
    filesOf (Dir true es) basePath = flat_map (entry_files basePath) es.
Proof.
  intros es basePath Hwf Hr. apply well_formed_dir in Hwf. destruct Hwf as [Hnd Hok].
  rewrite filesOf_dir, gather_flat; [reflexivity | | ].
  - now apply entries_readable_direct.
  - simpl. now apply flat_nodup.
Qed.

(** *** Reordering the enumeration *)

Lemma reordered_kind : forall a b,
    reordered a b ->
    match a, b with
    | File r d, File r' d' => r = r' /\ d = d'
    | Special, Special => True
    | Dir r _, Dir r' _ => r = r'
    | _, _ => False
    end.
Proof.
  induction 1 as [n | a b c _ IH1 _ IH2 | r es es' _ | r x c c' front back _ _].
  - destruct n; auto.
  - destruct a, b, c; try contradiction; intuition congruence.
  - reflexivity.
  - reflexivity.
Qed.

Lemma entry_files_reordered : forall basePath x c c',
    reordered c c' ->
    (forall b, Permutation (filesOf c b) (filesOf c' b)) ->
    Permutation (entry_files basePath (x, c)) (entry_files basePath (x, c')).
Proof.
  intros basePath x c c' Hre Hperm. apply reordered_kind in Hre.
  unfold Shape.entry_files. simpl.
  destruct c, c'; try contradiction.
  - destruct Hre as [_ ->]. apply Permutation_refl.
  - apply Hperm.
  - apply Permutation_refl.
Qed.

Lemma reordered_sound : forall a b,
    reordered a b ->
    well_formed a = true -> files_readable a = true ->
    well_formed b = true /\ files_readable b = true
    /\ forall basePath, Permutation (filesOf a basePath) (filesOf b basePath).
Proof.
  induction 1 as [n | a b c _ IH1 _ IH2 | r es es' Hp | r x c c' front back Hre IH];
    intros Hwf Hrd.
  - repeat split; auto.
  - destruct (IH1 Hwf Hrd) as [Hwb [Hrb Hpb]].
    destruct (IH2 Hwb Hrb) as [Hwc [Hrc Hpc]].
    repeat split; auto. intro basePath.
    eapply Permutation_trans; [apply Hpb | apply Hpc].
  - assert (Hwf1 : well_formed (Dir true es) = true) by exact Hwf.
    apply well_formed_dir in Hwf. destruct Hwf as [Hnd Hok].
    apply files_readable_dir in Hrd.
    assert (Hwf' : forall r', well_formed (Dir r' es') = true).
    { intro r'. apply well_formed_dir. split.
      - eapply Permutation_NoDup; [|exact Hnd]. now apply Permutation_map.
      - unfold entries_ok. eapply Permutation_Forall; eauto. }
    assert (Hrd' : entries_readable es').
    { unfold entries_readable. eapply Permutation_Forall; eauto. }
    split; [apply Hwf'|]. split; [now apply files_readable_dir|].
    intro basePath. destruct r; [|apply Permutation_refl].
    rewrite (filesOf_flat es basePath Hwf1 Hrd).
    rewrite (filesOf_flat es' basePath (Hwf' true) Hrd').
    now apply Permutation_flat_map.
  - assert (Hwf1 : well_formed (Dir true (front ++ (x, c) :: back)) = true) by exact Hwf.
    apply well_formed_dir in Hwf. destruct Hwf as [Hnd Hok].
    apply files_readable_dir in Hrd. pose proof Hrd as Hrd0.
    unfold entries_ok in Hok. unfold entries_readable in Hrd.
    rewrite Forall_app in Hok, Hrd.
    destruct Hok as [Hok1 Hok2]. destruct Hrd as [Hrd1 Hrd2].
    inversion Hok2 as [|? ? [Hvx Hwc] Hok3]; subst.
    inversion Hrd2 as [|? ? Hrc Hrd3]; subst. simpl in Hvx, Hwc, Hrc.
    destruct (IH Hwc Hrc) as [Hwc' [Hrc' Hpc]].
    assert (Hwf' : forall r', well_formed (Dir r' (front ++ (x, c') :: back)) = true).
    { intro r'. apply well_formed_dir. split.
      - rewrite map_app in *. exact Hnd.
      - unfold entries_ok. rewrite Forall_app. split; [assumption|].
        constructor; [split|]; assumption. }
    assert (Hrd' : entries_readable (front ++ (x, c') :: back)).
    { unfold entries_readable. rewrite Forall_app. split; [assumption|].
      now constructor. }
    split; [apply Hwf'|]. split; [now apply files_readable_dir|].
    intro basePath. destruct r; [|apply Permutation_refl].
    rewrite (filesOf_flat _ basePath Hwf1 Hrd0).
    rewrite (filesOf_flat _ basePath (Hwf' true) Hrd').
    rewrite !flat_map_app. simpl. apply Permutation_app_head.
    apply Permutation_app_tail. now apply entry_files_reordered.
Qed.

(** *** The sort *)

Section SortFacts.
Context {A : Type}.
Variable f : A -> A -> Z.
Hypothesis f_total : forall a b, (0 < f a b)%Z -> (f b a <= 0)%Z.
Hypothesis f_trans : forall a b c, (f a b <= 0)%Z -> (f b c <= 0)%Z -> (f a c <= 0)%Z.

Local Abbreviation le := (fun a b => (f a b <= 0)%Z).

Lemma insert_sorted_perm : forall x l, Permutation (insert_sorted f x l) (x :: l).
Proof.
  intros x l. induction l as [|y l IH]; simpl; [apply Permutation_refl|].
  destruct (Z.leb (f x y) 0); [apply Permutation_refl|].
  eapply Permutation_trans; [apply perm_skip, IH | apply perm_swap].
Qed.

Lemma sort_perm : forall l, Permutation (sort f l) l.
Proof.
  induction l as [|x l IH]; simpl; [constructor|].
  eapply Permutation_trans; [apply insert_sorted_perm | now apply perm_skip].
Qed.

Lemma insert_sorted_sorted : forall x l,
    StronglySorted le l -> StronglySorted le (insert_sorted f x l).
Proof.
  intros x l. induction l as [|y l IH]; simpl; intro Hs.
  - repeat constructor.
  - inversion Hs as [|? ? Hl Hy]; subst.
    destruct (Z.leb_spec (f x y) 0) as [Hle|Hgt].
    + constructor; [assumption|]. constructor; [assumption|].
      rewrite Forall_forall in *. intros z Hz. eapply f_trans; [exact Hle | auto].
    + constructor; [auto|].
      rewrite Forall_forall in *. intros z Hz.
      apply (Permutation_in _ (insert_sorted_perm x l)) in Hz.
      destruct Hz as [<-|Hz]; [now apply f_total | auto].
Qed.

Lemma sort_sorted : forall l, StronglySorted le (sort f l).
Proof.
  induction l as [|x l IH]; simpl; [constructor | now apply insert_sorted_sorted].
Qed.

Lemma sorted_perm_unique : forall l1 l2,
    StronglySorted le l1 -> StronglySorted le l2 -> Permutation l1 l2 ->
    (forall a b, In a l1 -> In b l1 -> le a b -> le b a -> a = b) ->
    l1 = l2.
Proof.
  induction l1 as [|a l1 IH]; intros l2 Hs1 Hs2 Hp Hanti.
  - apply Permutation_nil in Hp. now subst.
  - destruct l2 as [|b l2].
    + apply Permutation_sym, Permutation_nil in Hp. discriminate.
    + inversion Hs1 as [|? ? Hs1' Ha]; subst.
      inversion Hs2 as [|? ? Hs2' Hb]; subst.
      rewrite Forall_forall in Ha, Hb.
      assert (Hab : a = b).
      { assert (Hina : In a (b :: l2))
          by (eapply Permutation_in; [exact Hp | now left]).
        assert (Hinb : In b (a :: l1))
          by (eapply Permutation_in; [apply Permutation_sym; exact Hp | now left]).
        destruct Hina as [->|Hina]; [reflexivity|].
        destruct Hinb as [->|Hinb]; [reflexivity|].
        apply Hanti; [now left | now right | now apply Ha | now apply Hb]. }
      subst b. f_equal. apply IH; auto.
      * eapply Permutation_cons_inv; eauto.
      * intros x y Hx Hy. apply Hanti; now right.
Qed.
End SortFacts.

Lemma comparator_total : forall cmp,
    consistent cmp -> forall a b, (0 < cmp a b)%Z -> (cmp b a <= 0)%Z.
Proof.
  intros cmp [Hsgn _] a b H. specialize (Hsgn a b).
  destruct (cmp a b), (cmp b a); simpl in *; try lia; discriminate.
Qed.

Lemma comparator_tie : forall cmp,
    consistent cmp -> forall a b, (cmp a b <= 0)%Z -> (cmp b a <= 0)%Z -> cmp a b = 0%Z.
Proof.
  intros cmp [Hsgn _] a b H1 H2. specialize (Hsgn a b).
  destruct (cmp a b), (cmp b a); simpl in *; try lia; discriminate.
Qed.

Local Abbreviation byPath := (fun a b : string * string => localeCompare (fst a) (fst b)).

Lemma sort_order_independent : forall l l',
    consistent localeCompare ->
    Permutation l l' -> NoDup (keys l) -> separates localeCompare (keys l) ->
    sort byPath l = sort byPath l'.
Proof.
  intros l l' Hc Hp Hnd Hsep.
  assert (Htot : forall a b : string * string, (0 < byPath a b)%Z -> (byPath b a <= 0)%Z)
    by (intros a b; apply comparator_total; assumption).
  assert (Htr : forall a b c : string * string,
             (byPath a b <= 0)%Z -> (byPath b c <= 0)%Z -> (byPath a c <= 0)%Z)
    by (intros a b c; apply (proj2 Hc)).
  apply (sorted_perm_unique byPath).
  - now apply sort_sorted.
  - now apply sort_sorted.
  - eapply Permutation_trans; [apply sort_perm|].
    eapply Permutation_trans; [exact Hp | apply Permutation_sym, sort_perm].
  - intros [ka va] [kb vb] Ha Hb Hab Hba. simpl in *.
    apply (Permutation_in _ (sort_perm byPath l)) in Ha.
    apply (Permutation_in _ (sort_perm byPath l)) in Hb.
    assert (ka = kb).
    { apply Hsep.
      - unfold keys. apply in_map_iff. now exists (ka, va).
      - unfold keys. apply in_map_iff. now exists (kb, vb).
      - now apply comparator_tie. }
    subst kb. f_equal.
    clear - Ha Hb Hnd. induction l as [|[k v] l IH]; [contradiction|].
    simpl in Hnd. inversion Hnd as [|? ? Hk Hnd']; subst.
    assert (Hkey : forall w, In (ka, w) l -> In ka (keys l)).
    { intros w Hw. unfold keys. apply in_map_iff. now exists (ka, w). }
    destruct Ha as [Ha|Ha], Hb as [Hb|Hb].
    + congruence.
    + inversion Ha; subst. exfalso. apply Hk. eapply Hkey; eauto.
    + inversion Hb; subst. exfalso. apply Hk. eapply Hkey; eauto.
    + now apply IH.
Qed.

(** *** The fingerprint *)

Lemma hashDirectory_of_empty : forall fs p,
    getDirectoryFiles fs p EmptyString = [] -> hashDirectory fs p = "empty".
Proof. intros fs p H. unfold Hash.hashDirectory. now rewrite H. Qed.

Lemma hashDirectory_of_files : forall fs p,
    getDirectoryFiles fs p EmptyString <> [] ->
    hashDirectory fs p
    = toString16 (Bun_hash (Text (JS.join "|"
        (map path_colon_hash (sort byPath (getDirectoryFiles fs p EmptyString)))))).
Proof.
  intros fs p H. unfold Hash.hashDirectory.
  destruct (getDirectoryFiles fs p EmptyString); [congruence | reflexivity].
Qed.

Lemma hashDirectory_forms : forall fs p,
    hashDirectory fs p = "empty" \/ exists n, hashDirectory fs p = toString16 n.
Proof.
  intros fs p. destruct (getDirectoryFiles fs p EmptyString) eqn:E.
  - left. now apply hashDirectory_of_empty.
  - right. eexists. apply hashDirectory_of_files. rewrite E. discriminate.
Qed.

(** Two places that hold the same tree, enumerated in whatever order, have
    the same fingerprint, provided that every regular file can be read and
    the comparator ties no two of the relative file paths. *)
Lemma reordered_same_fingerprint : forall fs p fs' p' D D',
    consistent localeCompare ->
    lookup fs p = Some D -> lookup fs' p' = Some D' ->
    reordered D D' ->
    well_formed D = true -> files_readable D = true ->
    separates localeCompare (file_paths Bun_hash D) ->
    hashDirectory fs p = hashDirectory fs' p'.
Proof.
  intros fs p fs' p' D D' Hc HD HD' Hre Hwf Hrd Hsep.
  destruct (reordered_sound D D' Hre Hwf Hrd) as [_ [_ Hperm]].
  specialize (Hperm EmptyString).
  unfold Hash.hashDirectory, Hash.getDirectoryFiles. rewrite HD, HD'.
  rewrite (Permutation_length Hperm).
  destruct (Nat.eqb (List.length (filesOf D' EmptyString)) 0); [reflexivity|].
  rewrite (sort_order_independent _ _ Hc Hperm); [reflexivity | | exact Hsep].
  apply filesOf_nodup.
Qed.

(** Where the sort does make the fingerprint consistent.  Take a directory
    whose tree is well formed, whose regular files can all be read, and
    whose relative file paths [localeCompare] tells apart.  Then its
    fingerprint is the same for every order in which the file system
    enumerates the entries of its directories.  The entries are sorted by
    path with the stable sort under [String.prototype.localeCompare] before
    the final hash: what is hashed is the ["path:hash"] texts of a list that
    is ordered by that comparator and holds the same entries as the map. *)
Lemma fingerprint_order_independent : forall fs fs' p D D',
    consistent localeCompare ->
    lookup fs p = Some D -> lookup fs' p = Some D' ->
    reordered D D' ->
    well_formed D = true -> files_readable D = true ->
    separates localeCompare (file_paths Bun_hash D) ->
    hashDirectory fs p = hashDirectory fs' p
    /\ StronglySorted (entry_le localeCompare)
         (sort byPath (getDirectoryFiles fs p EmptyString))
    /\ Permutation (sort byPath (getDirectoryFiles fs p EmptyString))
         (getDirectoryFiles fs p EmptyString).
Proof.
  intros fs fs' p D D' Hc HD HD' Hre Hwf Hrd Hsep.
  destruct (reordered_sound D D' Hre Hwf Hrd) as [_ [_ Hperm]].
  specialize (Hperm EmptyString).
  split; [|split].
  - unfold Hash.hashDirectory, Hash.getDirectoryFiles. rewrite HD, HD'.
    rewrite (Permutation_length Hperm).
    destruct (Nat.eqb (List.length (filesOf D' EmptyString)) 0); [reflexivity|].
    rewrite (sort_order_independent _ _ Hc Hperm); [reflexivity | | exact Hsep].
    apply filesOf_nodup.
  - apply (sort_sorted byPath).
    + intros a b. now apply comparator_total.
    + intros a b c. apply (proj2 Hc).
  - apply sort_perm.
Qed.

(** C4.  Take a source path and a target path that name on the tree the
    places they name for the code: neither has a component [.] or [..], and
    no symbolic link (no special entry) stands on the way to either or at its
    end.  Then [compareDirectories] answers [target_missing] exactly when
    there is no directory at the target path (nothing, or something that is
    not a directory); [synced] exactly when there is one and the two
    fingerprints are equal, which includes two sides that both resolve to
    the ["empty"] sentinel; and [not_synced] exactly when there is one and
    the fingerprints differ. *)
Theorem compareDirectories_spec : forall fs source target,
    Plain.literal fs source -> Plain.literal fs target ->
    (compareDirectories fs source target = target_missing
     <-> ~ directory_at fs target)
    /\ (compareDirectories fs source target = synced
        <-> directory_at fs target
            /\ hashDirectory fs source = hashDirectory fs target)
    /\ (compareDirectories fs source target = not_synced
        <-> directory_at fs target
            /\ hashDirectory fs source <> hashDirectory fs target)
    /\ (directory_at fs target ->
        hashDirectory fs source = "empty" -> hashDirectory fs target = "empty" ->
        compareDirectories fs source target = synced).
Proof.
  intros fs source target _ _.
  assert (Hdir : directoryExists fs target = true <-> directory_at fs target).
  { unfold directoryExists, directory_at, isDirectory.
    destruct (lookup fs target) as [[r d|r es|]|]; split; intro H;
      try discriminate; try reflexivity;
      try (destruct H as (r' & es' & H); discriminate).
    now exists r, es. }
  unfold Hash.compareDirectories.
  destruct (directoryExists fs target) eqn:Hex; simpl.
  - assert (Hd : directory_at fs target) by now apply Hdir.
    destruct (String.eqb_spec (hashDirectory fs source) (hashDirectory fs target))
      as [Heq|Hne];
      repeat split; intros; try discriminate; try tauto; try congruence.
  - assert (Hd : ~ directory_at fs target).
    { intro H. apply Hdir in H. discriminate. }
    repeat split; intros; try discriminate; try tauto.
Qed.

(** C9.  [hashDirectory] returns for every path: its value is the
    ["empty"] sentinel or the hexadecimal text of a digest, and no
    exception escapes.  A path that does not exist, a regular file and an
    unreadable directory each contribute no file (the failure of [readdir]
    is swallowed) and so fingerprint to ["empty"]; and the sentinel is the
    hexadecimal text of no number. *)
Theorem hashDirectory_total : forall fs p,
    (hashDirectory fs p = "empty" \/ exists n, hashDirectory fs p = toString16 n)
    /\ (lookup fs p = None
        \/ (exists r d, lookup fs p = Some (File r d))
        \/ (exists es, lookup fs p = Some (Dir false es)) ->
        getDirectoryFiles fs p EmptyString = [] /\ hashDirectory fs p = "empty")
    /\ (forall n, toString16 n <> "empty").
Proof.
  intros fs p. split; [apply hashDirectory_forms|]. split.
  - intro H.
    assert (Hnone : getDirectoryFiles fs p EmptyString = []).
    { unfold Hash.getDirectoryFiles.
      destruct H as [-> | [[r [d ->]] | [es ->]]]; reflexivity. }
    split; [assumption | now apply hashDirectory_of_empty].
  - apply toString16_not_empty_sentinel.
Qed.

End WithHash.

(** *** Concrete comparators *)

Lemma byteCompare_eq : forall a b, byteCompare a b = 0%Z -> a = b.
Proof.
  intros a b H. unfold byteCompare in H.
  destruct (String.compare a b) eqn:E; try discriminate.
  now apply String_as_OT.cmp_eq.
Qed.

Lemma byteCompare_le : forall a b,
    (byteCompare a b <= 0)%Z <-> a = b \/ String_as_OT.lt a b.
Proof.
  intros a b. unfold byteCompare. destruct (String.compare a b) eqn:E.
  - apply String_as_OT.cmp_eq in E. split; [auto | lia].
  - apply String_as_OT.cmp_lt in E. split; [auto | lia].
  - split; [lia|]. intros [->|Hlt].
    + assert (String.compare b b = Eq) by now apply String_as_OT.cmp_eq.
      congruence.
    + apply String_as_OT.cmp_lt in Hlt. unfold String_as_OT.cmp in Hlt. congruence.
Qed.

Lemma byteCompare_consistent : consistent byteCompare.
Proof.
  split.
  - intros a b. unfold byteCompare. rewrite (String.compare_antisym a b).
    destruct (String.compare b a); reflexivity.
  - intros a b c Hab Hbc. rewrite byteCompare_le in *.
    destruct Hab as [->|Hab]; [assumption|].
    destruct Hbc as [<-|Hbc]; [now right|].
    right. eapply String_as_OT.lt_trans; eauto.
Qed.

Lemma allTies_consistent : consistent allTies.
Proof. split; intros; unfold allTies; simpl; lia. Qed.

(** *** The fingerprint properties at concrete inputs *)

Lemma skill_reordered : reordered Examples.skill Examples.skill'.
Proof.
  eapply reordered_trans.
  - apply reordered_here. apply perm_swap.
  - apply (reordered_child true "rules" _ _ [] [_]).
    apply reordered_here. apply perm_swap.
Qed.

Lemma fingerprint_order_independent_witness :
  Hash.hashDirectory Examples.lengthHash byteCompare Examples.skill []
  = Hash.hashDirectory Examples.lengthHash byteCompare Examples.skill' [].
Proof.
  apply (fingerprint_order_independent Examples.lengthHash byteCompare
           Examples.skill Examples.skill' [] Examples.skill Examples.skill').
  - exact byteCompare_consistent.
  - reflexivity.
  - reflexivity.
  - exact skill_reordered.
  - reflexivity.
  - reflexivity.
  - intros a b _ _ H. exact (byteCompare_eq a b H).
Defined.

(** C3, at the input where the code departs from it.  One [try] spans the
    whole loop of [getDirectoryFiles], so a file that cannot be read ends the
    enumeration where it stands: the files enumerated before it are counted
    and those after it are not, and the sort that follows cannot mend that.
    With [a] readable and [b] unreadable, the order [a, b] fingerprints to a
    digest and the order [b, a] to ["empty"], whatever the digest and the
    comparator are. *)
Theorem fingerprint_depends_on_enumeration_order :
  well_formed Examples.dir_ab = true
  /\ reordered Examples.dir_ab Examples.dir_ba
  /\ forall Bun_hash localeCompare,
      Hash.hashDirectory Bun_hash localeCompare Examples.dir_ab []
      <> Hash.hashDirectory Bun_hash localeCompare Examples.dir_ba [].
Proof.
  split; [reflexivity|]. split.
  - apply reordered_here. apply perm_swap.
  - intros Bun_hash localeCompare.
    rewrite (hashDirectory_of_empty Bun_hash localeCompare Examples.dir_ba [])
      by reflexivity.
    rewrite hashDirectory_of_files by discriminate.
    apply toString16_not_empty_sentinel.
Qed.

Lemma toString16_injective : forall n m, toString16 n = toString16 m -> n = m.
Proof.
  intros n m H. rewrite <- (toString16_value n), <- (toString16_value m). now rewrite H.
Qed.

(** The other way in which the fingerprint follows the enumeration: names
    that the comparator ties.  [localeCompare] is a collation, not a
    comparison of the bytes, and finds some different names equal; the stable
    sort then leaves two such files in the order in which they were
    enumerated, and the text that is hashed is written in that order.  So
    the two orders have different fingerprints unless the digest happens to
    agree on the two texts. *)
Lemma tied_names_keep_enumeration_order : forall Bun_hash localeCompare a b da db,
    a <> b ->
    localeCompare a b = 0%Z -> localeCompare b a = 0%Z ->
    let line_a := a +++ ":" +++ toString16 (Bun_hash da) in
    let line_b := b +++ ":" +++ toString16 (Bun_hash db) in
    Hash.hashDirectory Bun_hash localeCompare
      (Dir true [(a, File true da); (b, File true db)]) []
    = toString16 (Bun_hash (Text (line_a +++ "|" +++ line_b)))
    /\ Hash.hashDirectory Bun_hash localeCompare
         (Dir true [(b, File true db); (a, File true da)]) []
       = toString16 (Bun_hash (Text (line_b +++ "|" +++ line_a)))
    /\ (Bun_hash (Text (line_a +++ "|" +++ line_b))
        <> Bun_hash (Text (line_b +++ "|" +++ line_a)) ->
        Hash.hashDirectory Bun_hash localeCompare
          (Dir true [(a, File true da); (b, File true db)]) []
        <> Hash.hashDirectory Bun_hash localeCompare
             (Dir true [(b, File true db); (a, File true da)]) []).
Proof.
  intros Bun_hash localeCompare a b da db Hab Htie Htie' line_a line_b.
  assert (Eab : String.eqb a b = false) by now apply String.eqb_neq.
  assert (Eba : String.eqb b a = false) by (apply String.eqb_neq; congruence).
  assert (H1 : Hash.hashDirectory Bun_hash localeCompare
                 (Dir true [(a, File true da); (b, File true db)]) []
               = toString16 (Bun_hash (Text (line_a +++ "|" +++ line_b)))).
  { unfold Hash.hashDirectory, Hash.getDirectoryFiles.
    cbn [lookup filesOf]. unfold Hash.relativePath. cbn [truthy String.eqb negb].
    cbn [map_set]. rewrite Eab. cbn [List.length Nat.eqb].
    cbn [sort fold_right insert_sorted fst]. rewrite Htie. cbn [Z.leb Z.compare].
    reflexivity. }
  assert (H2 : Hash.hashDirectory Bun_hash localeCompare
                 (Dir true [(b, File true db); (a, File true da)]) []
               = toString16 (Bun_hash (Text (line_b +++ "|" +++ line_a)))).
  { unfold Hash.hashDirectory, Hash.getDirectoryFiles.
    cbn [lookup filesOf]. unfold Hash.relativePath. cbn [truthy String.eqb negb].
    cbn [map_set]. rewrite Eba. cbn [List.length Nat.eqb].
    cbn [sort fold_right insert_sorted fst]. rewrite Htie'. cbn [Z.leb Z.compare].
    reflexivity. }
  split; [exact H1|]. split; [exact H2|].
  intros Hne. rewrite H1, H2. intro E. apply Hne. now apply toString16_injective.
Qed.

(** An instance: a comparator that ties, and a digest that tells the two
    texts apart. *)
Remark ties_keep_enumeration_order :
  consistent allTies
  /\ reordered Examples.two_files Examples.two_files'
  /\ Hash.hashDirectory Examples.firstByteHash allTies Examples.two_files []
     <> Hash.hashDirectory Examples.firstByteHash allTies Examples.two_files' [].
Proof.
  split; [exact allTies_consistent|]. split.
  - apply reordered_here. apply perm_swap.
  - apply (tied_names_keep_enumeration_order Examples.firstByteHash allTies
             "a" "b" (Text "x") (Text "y")).
    + discriminate.
    + reflexivity.
    + reflexivity.
    + vm_compute. discriminate.
Qed.

Lemma compareDirectories_spec_witness :
  Hash.compareDirectories Examples.lengthHash byteCompare Examples.disk
    ["empty1"] ["empty2"] = synced
  /\ Hash.compareDirectories Examples.lengthHash byteCompare Examples.disk
       ["store"] ["same"] = synced
  /\ Hash.compareDirectories Examples.lengthHash byteCompare Examples.disk
       ["store"] ["other"] = not_synced
  /\ Hash.compareDirectories Examples.lengthHash byteCompare Examples.disk
       ["store"] ["file"] = target_missing
  /\ Hash.compareDirectories Examples.lengthHash byteCompare Examples.disk
       ["store"] ["nowhere"] = target_missing.
Proof.
  split.
  - apply (compareDirectories_spec Examples.lengthHash byteCompare Examples.disk
             ["empty1"] ["empty2"]).
    + split; reflexivity.
    + split; reflexivity.
    + exists true, [("sub", Dir true [])]. reflexivity.
    + reflexivity.
    + reflexivity.
  - repeat split; reflexivity.
Defined.

Lemma hashDirectory_total_witness :
  Hash.hashDirectory Examples.lengthHash byteCompare Examples.disk ["nowhere"] = "empty"
  /\ Hash.hashDirectory Examples.lengthHash byteCompare Examples.disk ["file"] = "empty"
  /\ Hash.hashDirectory Examples.lengthHash byteCompare Examples.disk ["locked"] = "empty".
Proof.
  split; [|split].
  - apply (hashDirectory_total Examples.lengthHash byteCompare Examples.disk ["nowhere"]).
    left. reflexivity.
  - apply (hashDirectory_total Examples.lengthHash byteCompare Examples.disk ["file"]).
    right. left. exists true, (Text "one"). reflexivity.
  - apply (hashDirectory_total Examples.lengthHash byteCompare Examples.disk ["locked"]).
    right. right. exists [("f", File true (Text "one"))]. reflexivity.
Defined.

End HashFacts.

(** ** Trees: copying and removing *)

Module TreeFacts.
Import JS Fs Hash Shape Proc Frame RegistryShape Trees.
Import FsFacts ProcFacts RegistryFacts.

Lemma merge_dir : forall r es old,
    merge (Dir r es) old
    = Dir (match old with Some (Dir r' _) => r' | _ => r end)
          (merge_entries es (match old with Some (Dir _ es') => es' | _ => [] end)).
Proof. reflexivity. Qed.

Lemma entries_alter_fresh : forall x g es c,
    assoc x es = None -> g None = Some c -> entries_alter x g es = es ++ [(x, c)].
Proof.
  intros x g es c. induction es as [|[y d] rest IH]; intros Hx Hg.
  - cbn [entries_alter]. now rewrite Hg.
  - cbn [assoc] in Hx. cbn [entries_alter app].
    destruct (String.eqb y x); [discriminate|]. now rewrite IH.
Qed.

Lemma assoc_none_iff : forall x es, assoc x es = None <-> ~ In x (map fst es).
Proof.
  intros x es. induction es as [|[y d] rest IH]; cbn [assoc map fst In].
  - tauto.
  - destruct (String.eqb y x) eqn:E.
    + apply String.eqb_eq in E. split; [discriminate | intros H; exfalso; apply H; now left].
    + apply String.eqb_neq in E. rewrite IH. tauto.
Qed.

Lemma merge_entries_fresh : forall es acc,
    Forall (fun e => merge (snd e) None = snd e) es ->
    NoDup (map fst es) ->
    (forall x, In x (map fst es) -> ~ In x (map fst acc)) ->
    merge_entries es acc = acc ++ es.
Proof.
  induction es as [|[x c] rest IH]; intros acc Hm Hnd Hfresh.
  - now rewrite app_nil_r.
  - inversion Hm as [|? ? Hc Hrest]; subst. cbn [snd] in Hc.
    cbn [map fst] in Hnd. inversion Hnd as [|? ? Hx Hnd']; subst.
    cbn [merge_entries].
    rewrite (entries_alter_fresh x _ acc c).
    + rewrite IH; [now rewrite <- app_assoc | assumption | assumption |].
      intros y Hy. rewrite map_app, in_app_iff. cbn [map fst In].
      intros [H|[H|[]]].
      * apply (Hfresh y); [now right | exact H].
      * subst y. contradiction.
    + apply assoc_none_iff. apply Hfresh. now left.
    + now rewrite Hc.
Qed.

(** Copying a well-formed tree to a place where nothing stands gives the
    tree itself. *)
Lemma merge_fresh : forall n, well_formed n = true -> merge n None = n.
Proof.
  induction n as [r d| |r es IH] using node_induction; intros Hwf; try reflexivity.
  rewrite merge_dir. apply HashFacts.well_formed_dir in Hwf. destruct Hwf as [Hnd Hok].
  rewrite merge_entries_fresh; [reflexivity| |exact Hnd|intros x _ []].
  unfold entries_ok in Hok. rewrite Forall_forall in *. intros e He.
  apply IH; [exact He|]. now apply (Hok e He).
Qed.

(** Copying it over an empty directory fills the directory with its entries. *)
Lemma merge_into_empty : forall r es r',
    well_formed (Dir r es) = true ->
    merge (Dir r es) (Some (Dir r' [])) = Dir r' es.
Proof.
  intros r es r' Hwf. rewrite merge_dir.
  apply HashFacts.well_formed_dir in Hwf. destruct Hwf as [Hnd Hok].
  rewrite merge_entries_fresh; [reflexivity| |exact Hnd|intros x _ []].
  unfold entries_ok in Hok. rewrite Forall_forall in *. intros e He.
  apply merge_fresh. now apply (Hok e He).
Qed.

Lemma entries_alter_remove : forall x es,
    entries_alter x (fun _ => None) es = remove_name x es.
Proof.
  intros x es. induction es as [|[y d] rest IH]; [reflexivity|].
  cbn [entries_alter]. unfold remove_name at 2. cbn [filter fst].
  destruct (String.eqb y x); cbn [negb]; [reflexivity|].
  now rewrite IH.
Qed.

Lemma lookup_alter_at_parent : forall mk f p x o r es,
    lookup_opt o p = Some (Dir r es) ->
    lookup_opt (alter mk f (p ++ [x]) o) p = Some (Dir r (entries_alter x f es)).
Proof.
  intros mk f p x. induction p as [|seg rest IH]; intros o r es H.
  - rewrite lookup_opt_nil in H. subst o. reflexivity.
  - destruct o as [[r0 d0|r0 es0|]|]; try discriminate H.
    rewrite lookup_opt_cons_dir in H.
    cbn [app alter]. rewrite lookup_opt_cons_dir, assoc_entries_alter_same.
    now apply IH.
Qed.

Lemma lookup_update_at_parent : forall mk f p x n r es,
    lookup n p = Some (Dir r es) ->
    lookup (update mk f (p ++ [x]) n) p = Some (Dir r (entries_alter x f es)).
Proof.
  intros mk f p x n r es H. unfold update.
  pose proof (lookup_alter_at_parent mk f p x (Some n) r es H) as Hl.
  destruct (alter mk f (p ++ [x]) (Some n)) as [n'|]; [exact Hl | discriminate Hl].
Qed.

Lemma rm_child : forall p x n r es,
    lookup n p = Some (Dir r es) ->
    lookup (rm (p ++ [x]) n) p = Some (Dir r (remove_name x es)).
Proof.
  intros p x n r es H. unfold rm.
  rewrite (lookup_update_at_parent false _ p x n r es H).
  now rewrite entries_alter_remove.
Qed.

Lemma filter_all : forall (A : Type) (f : A -> bool) l,
    (forall x, In x l -> f x = true) -> filter f l = l.
Proof.
  induction l as [|a l IH]; intros H; [reflexivity|].
  cbn [filter]. rewrite (H a (or_introl eq_refl)), IH; [reflexivity|].
  intros x Hx. apply H. now right.
Qed.

Lemma filter_none : forall (A : Type) (f : A -> bool) l,
    (forall x, In x l -> f x = false) -> filter f l = [].
Proof.
  induction l as [|a l IH]; intros H; [reflexivity|].
  cbn [filter]. rewrite (H a (or_introl eq_refl)). apply IH.
  intros x Hx. apply H. now right.
Qed.

Lemma filter_filter : forall (A : Type) (f g : A -> bool) l,
    filter f (filter g l) = filter (fun x => g x && f x) l.
Proof.
  induction l as [|a l IH]; [reflexivity|].
  cbn [filter]. destruct (g a); cbn [filter andb]; [|exact IH].
  destruct (f a); now rewrite IH.
Qed.

(** The loop of [syncToTarget] that empties the target directory. *)
Lemma rm_each : forall names p st r es,
    lookup (fs st) p = Some (Dir r es) ->
    exists n',
      forEach names (fun file => doFs (rm (p ++ [file]))) st = (Ok tt, with_fs n' st)
      /\ lookup n' p = Some (Dir r (filter (fun e => negb (listed names e)) es))
      /\ forall q, diverge q p -> lookup n' q = lookup (fs st) q.
Proof.
  induction names as [|x names IH]; intros p st r es H.
  - exists (fs st). split; [now rewrite with_fs_same|]. split; [|reflexivity].
    rewrite filter_all; [exact H | reflexivity].
  - set (n1 := rm (p ++ [x]) (fs st)).
    assert (H1 : lookup (fs (with_fs n1 st)) p = Some (Dir r (remove_name x es)))
      by (apply rm_child; exact H).
    destruct (IH p (with_fs n1 st) r (remove_name x es) H1) as (n' & Hrun & Hl & Hq).
    exists n'. split; [|split].
    + cbn [forEach]. rewrite (bind_ok _ _ _ _ st tt (with_fs n1 st)) by reflexivity.
      exact Hrun.
    + rewrite Hl. unfold remove_name. rewrite filter_filter. do 2 f_equal.
      apply filter_ext. intros e. unfold listed. cbn [existsb].
      now rewrite negb_orb.
    + intros q Hd. rewrite (Hq q Hd). cbn [with_fs fs]. unfold n1.
      apply rm_keeps. now apply diverge_extend.
Qed.

Lemma listed_own_names : forall es e, In e es -> listed (map fst es) e = true.
Proof.
  intros es e He. unfold listed. apply existsb_exists. exists (fst e).
  split; [now apply in_map | apply String.eqb_refl].
Qed.

Lemma cp_keeps : forall p from to, diverge p to -> keeps_or_fails p (cp from to).
Proof.
  intros p from to Hd n n' H. unfold cp in H.
  destruct (lookup n from) as [m|]; [|discriminate].
  destruct (negb (all_readable m)); [discriminate|].
  assert (Hgo : (if dirs_on_the_way n (parent to)
                 then Ok (update true (fun o => Some (merge m o)) to n)
                 else Throw (Error "ENOTDIR: not a directory, cp")) = Ok n' ->
                lookup n' p = lookup n p).
  { destruct (dirs_on_the_way n (parent to)); [|discriminate].
    intros E. inversion E. now apply update_lookup_diverge. }
  destruct m as [r d|r es|]; destruct (lookup n to) as [[r' d'|r' es'|]|];
    try discriminate H; exact (Hgo H).
Qed.

Lemma all_readable_root : forall r es, all_readable (Dir r es) = true -> r = true.
Proof. intros [|] es H; [reflexivity | discriminate H]. Qed.

Lemma parent_snoc : forall (p : path) x, parent (p ++ [x]) = p.
Proof. intros. unfold parent. apply removelast_last. Qed.

Lemma path_snoc : forall p : path, p <> [] -> exists front l, p = front ++ [l].
Proof.
  intros p H. destruct (exists_last H) as (front & l & E). now exists front, l.
Qed.

Lemma diverge_not_nil : forall p q, diverge p q -> p <> [].
Proof.
  intros p q (common & a & b & p' & q' & Hp & _). subst p. now destruct common.
Qed.

(** Copying a readable directory onto an empty one. *)
Lemma cp_into_empty : forall from to n r es r',
    to <> [] ->
    lookup n from = Some (Dir r es) ->
    all_readable (Dir r es) = true -> well_formed (Dir r es) = true ->
    lookup n to = Some (Dir r' []) ->
    exists n',
      cp from to n = Ok n'
      /\ lookup n' to = Some (Dir r' es)
      /\ forall q, diverge q to -> lookup n' q = lookup n q.
Proof.
  intros from to n r es r' Hto Hfrom Hread Hwf Hempty.
  assert (Hway : dirs_on_the_way n to = true)
    by (apply isDirectory_dirs_way; now rewrite Hempty).
  destruct (path_snoc to Hto) as (front & l & ->).
  assert (Hpar : dirs_on_the_way n (parent (front ++ [l])) = true)
    by (rewrite parent_snoc; eapply dirs_way_prefix; exact Hway).
  exists (update true (fun o => Some (merge (Dir r es) o)) (front ++ [l]) n).
  split; [|split].
  - unfold cp. rewrite Hfrom, Hread, Hempty. cbn [negb]. now rewrite Hpar.
  - rewrite update_lookup_same; [|exact Hto|].
    + rewrite Hempty. now rewrite merge_into_empty.
    + left. split; [reflexivity|]. now apply dirs_way_clear_self.
  - intros q Hq. now apply update_lookup_diverge.
Qed.

Lemma part_ways_diverge : forall p q, part_ways p q = true -> diverge p q.
Proof.
  induction p as [|a p IH]; intros [|b q] H; try discriminate H.
  cbn [part_ways] in H. destruct (String.eqb a b) eqn:E.
  - apply String.eqb_eq in E. subst b.
    destruct (IH q H) as (common & x & y & p' & q' & -> & -> & Hxy).
    now exists (a :: common), x, y, p', q'.
  - apply String.eqb_neq in E. now exists [], a, b, p, q.
Qed.

Lemma diverge_under : forall front p q, diverge p q -> diverge (front ++ p) (front ++ q).
Proof.
  intros front p q (common & x & y & p' & q' & -> & -> & Hxy).
  exists (front ++ common), x, y, p', q'. now rewrite <- !app_assoc.
Qed.

Lemma dirs_opt_after_rm : forall p q o,
    dirs_opt o q = true -> dirs_opt (alter false (fun _ => None) p o) q = true.
Proof.
  induction p as [|seg rest IH]; intros q o H; [reflexivity|].
  destruct o as [[r d|r es|]|]; cbn [alter]; try exact H.
  destruct q as [|s q]; [reflexivity|].
  rewrite dirs_opt_cons in *.
  destruct (String.eqb s seg) eqn:E.
  - apply String.eqb_eq in E. subst s. rewrite assoc_entries_alter_same. now apply IH.
  - apply String.eqb_neq in E. now rewrite assoc_entries_alter_other.
Qed.

(** Removing something blocks no way. *)
Lemma dirs_way_after_rm : forall p q n,
    dirs_on_the_way n q = true -> dirs_on_the_way (rm p n) q = true.
Proof.
  intros p q n H. unfold rm, update.
  pose proof (dirs_opt_after_rm p q (Some n) H) as H'.
  destruct (alter false (fun _ => None) p (Some n)); [exact H' | exact H].
Qed.

(** Copying a readable tree to a place where nothing stands. *)
Lemma cp_into_nothing : forall from to n m,
    to <> [] ->
    lookup n from = Some m ->
    all_readable m = true -> well_formed m = true ->
    lookup n to = None ->
    dirs_on_the_way n (parent to) = true ->
    exists n',
      cp from to n = Ok n'
      /\ lookup n' to = Some m
      /\ forall q, diverge q to -> lookup n' q = lookup n q.
Proof.
  intros from to n m Hto Hfrom Hread Hwf Hnone Hpar.
  exists (update true (fun o => Some (merge m o)) to n).
  split; [|split].
  - unfold cp. rewrite Hfrom, Hread, Hnone, Hpar. cbn [negb]. now destruct m.
  - rewrite update_lookup_same; [|exact Hto|].
    + rewrite Hnone. now rewrite merge_fresh.
    + left. split; [reflexivity|].
      destruct (path_snoc to Hto) as (front & l & ->).
      rewrite parent_snoc in Hpar. now apply dirs_way_clear.
  - intros q Hq. now apply update_lookup_diverge.
Qed.

(** A prefix of a path that parts ways with [p] parts ways with [p] itself,
    or leads to [p]. *)
Lemma diverge_prefix : forall (q1 q2 p : path),
    diverge (q1 ++ q2) p -> diverge q1 p \/ exists x p2, p = q1 ++ x :: p2.
Proof.
  intros q1 q2 p (common & a & b & q' & p' & Hq & Hp & Hab). subst p.
  revert q1 Hq. induction common as [|c common IH]; intros q1 Hq.
  - destruct q1 as [|y q1].
    + right. now exists b, p'.
    + cbn [app] in Hq. injection Hq as -> Hq. left. now exists [], a, b, q1, p'.
  - destruct q1 as [|y q1].
    + right. now exists c, (common ++ b :: p').
    + cbn [app] in Hq. injection Hq as -> Hq.
      destruct (IH q1 Hq) as [(cm & a' & b' & x' & y' & E1 & E2 & Hne)|(x & p2 & E)].
      * left. exists (c :: cm), a', b', x', y'. cbn [app]. now rewrite E1, E2.
      * right. exists x, p2. cbn [app]. now rewrite E.
Qed.

Lemma dirs_way_from_lookups : forall q n,
    (forall q1 q2 m, q = q1 ++ q2 -> lookup n q1 = Some m -> isDirectory (Some m) = true) ->
    dirs_on_the_way n q = true.
Proof.
  induction q as [|s q IH]; intros n H.
  - specialize (H [] [] n eq_refl eq_refl). destruct n; try discriminate H. reflexivity.
  - pose proof (H [] (s :: q) n eq_refl eq_refl) as Hn.
    destruct n as [|r es|]; try discriminate Hn. cbn [dirs_on_the_way].
    destruct (assoc s es) as [c|] eqn:E; [|reflexivity].
    apply IH. intros q1 q2 m Hq Hl. apply (H (s :: q1) q2 m).
    + cbn [app]. now rewrite Hq.
    + cbn [lookup]. now rewrite E.
Qed.

(** A change at [p] that leaves a directory there does not block the way to
    a path that parts ways with [p]. *)
Lemma dirs_way_kept : forall n n' q p,
    dirs_on_the_way n q = true ->
    diverge q p ->
    (forall x, diverge x p -> lookup n' x = lookup n x) ->
    isDirectory (lookup n' p) = true ->
    dirs_on_the_way n' q = true.
Proof.
  intros n n' q p Hway Hd Hframe Hdir.
  apply dirs_way_from_lookups. intros q1 q2 m -> Hl.
  destruct (diverge_prefix q1 q2 p Hd) as [Hq1|(x & p2 & ->)].
  - rewrite (Hframe q1 Hq1) in Hl.
    eapply dirs_way_exists_dir; [|exact Hl]. eapply dirs_way_prefix. exact Hway.
  - rewrite <- Hl. destruct (lookup n' (q1 ++ x :: p2)) as [m'|] eqn:E; [|discriminate Hdir].
    eapply lookup_prefix_dir. exact E.
Qed.

Lemma all_readable_files : forall n, all_readable n = true -> files_readable n = true.
Proof.
  induction n as [r d| |r es IH] using node_induction; intros H; try exact H.
  cbn [all_readable] in H. apply andb_true_iff in H. destruct H as [_ H].
  cbn [files_readable]. induction es as [|[x c] es IHes]; [reflexivity|].
  inversion IH as [|? ? Hc Hrest]; subst. cbn [snd] in Hc.
  apply andb_true_iff in H. destruct H as [H1 H2].
  apply andb_true_iff. split; [now apply Hc | now apply IHes].
Qed.

(** A copy of a directory has the fingerprint of the directory, in whatever
    order its directories list their entries, under a comparator that ties no
    two of the file paths. *)
Lemma copy_synced : forall Bun_hash localeCompare disk source target D,
    Plain.orders Bun_hash localeCompare D ->
    well_formed D = true -> all_readable D = true ->
    Plain.holds_copy disk source target D ->
    Hash.compareDirectories Bun_hash localeCompare disk source target = synced.
Proof.
  intros Bun_hash localeCompare disk source target D [Hc Hsep] Hwf Hread
         (Hdir & Hsrc & copy & Hcopy & Hre).
  unfold Hash.compareDirectories, Hash.directoryExists. rewrite Hcopy.
  pose proof (HashFacts.reordered_kind Bun_hash D copy Hre) as Hkind.
  destruct D as [? ?|r es|]; try discriminate Hdir.
  destruct copy as [? ?|r' es'|]; try contradiction.
  cbn [isDirectory negb].
  rewrite (HashFacts.reordered_same_fingerprint Bun_hash localeCompare
             disk source disk target (Dir r es) (Dir r' es') Hc Hsrc Hcopy Hre Hwf
             (all_readable_files _ Hread) Hsep).
  now rewrite String.eqb_refl.
Qed.

(** What [cp] leaves in the model is one of the copies. *)
Lemma holds_copy_same : forall disk source target r es,
    lookup disk source = Some (Dir r es) ->
    lookup disk target = Some (Dir true es) ->
    all_readable (Dir r es) = true ->
    Plain.holds_copy disk source target (Dir r es).
Proof.
  intros disk source target r es Hsrc Htgt Hread.
  split; [reflexivity|]. split; [exact Hsrc|].
  exists (Dir true es). split; [exact Htgt|].
  rewrite (all_readable_root r es Hread). apply reordered_refl.
Qed.

(** The comparison of the bytes orders every tree: it is consistent, and it
    ties no two different strings. *)
Lemma byteCompare_orders : forall Bun_hash D, Plain.orders Bun_hash byteCompare D.
Proof.
  intros Bun_hash D. split; [exact HashFacts.byteCompare_consistent|].
  intros a b _ _ H. exact (HashFacts.byteCompare_eq a b H).
Qed.

(** A directory and a copy that the file system lists the other way round
    compare as [synced]. *)
Example copy_in_another_order :
  Hash.compareDirectories Examples.lengthHash byteCompare
    (Dir true [("s", Dir true [("a", File true (Text "1")); ("b", File true (Text "22"))]);
               ("t", Dir true [("b", File true (Text "22")); ("a", File true (Text "1"))])])
    ["s"] ["t"]
  = synced.
Proof.
  apply (copy_synced Examples.lengthHash byteCompare _ ["s"] ["t"]
           (Dir true [("a", File true (Text "1")); ("b", File true (Text "22"))])).
  - apply byteCompare_orders.
  - reflexivity.
  - reflexivity.
  - split; [reflexivity|]. split; [reflexivity|].
    eexists. split; [reflexivity|]. apply reordered_here. apply perm_swap.
Qed.

End TreeFacts.

(** ** [syncToTarget] when the store is there *)

Module MirrorFacts.
Import JS Fs Hash Shape Proc Store Registry Frame RegistryShape Trees Plain.
Import FsFacts ProcFacts RegistryFacts TreeFacts.
Local Open Scope proc_scope.

Section WithHome.
Variable homedir : string.
Local Abbreviation STORE := (SKILLS_STORE homedir).

(** What a run of [syncToTarget] does when the store is there. *)
Lemma syncToTarget_copies : forall target st r es,
    lookup (fs st) STORE = Some (Dir r es) ->
    well_formed (Dir r es) = true ->
    all_readable (Dir r es) = true ->
    diverge (segments (Target.path target)) STORE ->
    dirs_on_the_way (fs st) (segments (Target.path target)) = true ->
    (forall es', lookup (fs st) (segments (Target.path target)) <> Some (Dir false es')) ->
    exists n',
      Sync.syncToTarget homedir target st
      = (Ok tt, with_line (Out ("  " +++ Target.name target +++ ": Synced")) (with_fs n' st))
      /\ lookup n' (segments (Target.path target)) = Some (Dir true es)
      /\ forall q, diverge q (segments (Target.path target)) ->
                   lookup n' q = lookup (fs st) q.
Proof.
  intros target st r es Hstore Hwf Hread Hdiv Hway Hrd.
  set (T := segments (Target.path target)) in *.
  assert (HT : T <> []) by (eapply diverge_not_nil; exact Hdiv).
  pose proof (diverge_sym _ _ Hdiv) as Hdiv'.
  (* mkdir *)
  destruct (mkdir_creates T (fs st) HT Hway) as (Hmk & _ & _ & Hb1).
  set (n1 := update true a_directory T (fs st)) in *.
  assert (Hf1 : forall q, diverge q T -> lookup n1 q = lookup (fs st) q).
  { intros q Hq. exact (mkdir_keeps q T Hq (fs st) n1 Hmk). }
  assert (Hs1 : lookup n1 STORE = Some (Dir r es))
    by (rewrite (Hf1 STORE Hdiv'); exact Hstore).
  assert (Ht1 : exists es1, lookup n1 T = Some (Dir true es1)).
  { specialize (Hb1 []). rewrite app_nil_r, lookup_opt_nil in Hb1. rewrite Hb1.
    destruct (lookup (fs st) T) as [m|] eqn:E; [|now exists []].
    pose proof (dirs_way_exists_dir _ _ _ Hway E) as Hm.
    destruct m as [? ?|[|] es1|]; try discriminate Hm.
    - now exists es1.
    - exfalso. exact (Hrd es1 eq_refl). }
  destruct Ht1 as [es1 Ht1].
  (* the target is emptied *)
  destruct (rm_each (map fst es1) T (with_fs n1 st) true es1 Ht1) as (n2 & Hrm & Ht2 & Hq2).
  rewrite filter_none in Ht2
    by (intros e He; now rewrite (listed_own_names es1 e He)).
  assert (Hs2 : lookup n2 STORE = Some (Dir r es))
    by (rewrite (Hq2 STORE Hdiv'); exact Hs1).
  (* the store is copied *)
  destruct (cp_into_empty STORE T n2 r es true HT Hs2 Hread Hwf Ht2)
    as (n3 & Hcp & Ht3 & Hq3).
  exists n3. split; [|split; [exact Ht3|]].
  - unfold Sync.syncToTarget. fold T.
    rewrite (bind_ok _ _ _ _ st tt (with_fs n1 st)) by (apply tryFs_ok; exact Hmk).
    rewrite (bind_ok _ _ _ _ (with_fs n1 st) true (with_fs n1 st))
      by (unfold readFs, Hash.directoryExists; cbn [with_fs fs]; now rewrite Hs1).
    cbn [negb].
    rewrite (bind_ok _ _ _ _ (with_fs n1 st) tt (with_fs n2 st)).
    + rewrite (bind_ok _ _ _ _ (with_fs n2 st) tt (with_fs n3 st))
        by (apply (tryFs_ok _ (with_fs n2 st) n3); exact Hcp).
      reflexivity.
    + apply tryCatch_ok.
      rewrite (bind_ok _ _ _ _ (with_fs n1 st) (map fst es1) (with_fs n1 st))
        by (unfold askFs, readdir; cbn [with_fs fs]; now rewrite Ht1).
      exact Hrm.
  - intros q Hq. rewrite (Hq3 q Hq), (Hq2 q Hq). cbn [with_fs fs]. exact (Hf1 q Hq).
Qed.


(** X2.  [syncToTarget] changes the target only.  Take a target whose path
    is written without [.] and [..], on whose way and at whose end nothing
    but directories stands (so no symbolic link), and whose directory, if it
    is there, can be read.  Whatever its outcome, the call leaves as it was
    everything that stands at a path lying apart from the target path: the
    store, the registry, the directories of the other targets. *)
Theorem syncToTarget_changes_the_target_only : forall target p st r st',
    dotless (segments (Target.path target)) = true ->
    dirs_on_the_way (fs st) (segments (Target.path target)) = true ->
    (forall es', lookup (fs st) (segments (Target.path target)) <> Some (Dir false es')) ->
    diverge p (segments (Target.path target)) ->
    Sync.syncToTarget homedir target st = (r, st') ->
    lookup (fs st') p = lookup (fs st) p.
Proof.
  intros target p st r st' _ _ _ Hd. revert st r st'.
  change (preserves p (Sync.syncToTarget homedir target)).
  unfold Sync.syncToTarget.
  apply preserves_bind; [apply preserves_tryFs; now apply mkdir_keeps|]. intros _.
  apply preserves_bind; [apply preserves_readFs|]. intros storeExists.
  apply preserves_if; [apply preserves_print|].
  apply preserves_bind.
  - apply preserves_tryCatch; [|intros; apply preserves_ret].
    apply preserves_bind; [apply preserves_askFs|]. intros existingFiles.
    apply preserves_forEach. intros file. apply preserves_doFs, rm_keeps.
    now apply diverge_extend.
  - intros _. apply preserves_bind; [|intros; apply preserves_print].
    apply preserves_tryFs. now apply cp_keeps.
Qed.

End WithHome.

Lemma work_cursor_off_the_store :
  diverge (segments (Target.path Examples.cursor)) (SKILLS_STORE Examples.home).
Proof. apply part_ways_diverge. reflexivity. Qed.


Lemma syncToTarget_changes_the_target_only_witness :
  lookup (fs (snd (Sync.syncToTarget Examples.home Examples.cursor Examples.one_skill_state)))
         ["work"; "file"]
  = lookup (fs Examples.one_skill_state) ["work"; "file"].
Proof.
  apply (syncToTarget_changes_the_target_only Examples.home Examples.cursor
           ["work"; "file"] Examples.one_skill_state
           (fst (Sync.syncToTarget Examples.home Examples.cursor Examples.one_skill_state))
           (snd (Sync.syncToTarget Examples.home Examples.cursor Examples.one_skill_state))).
  - reflexivity.
  - reflexivity.
  - intros es' H. vm_compute in H. discriminate H.
  - apply part_ways_diverge. reflexivity.
  - apply surjective_pairing.
Defined.

End MirrorFacts.

(** ** Further properties of the fingerprint *)

Module FingerprintFacts.
Import JS Fs Hash Shape Trees.

Section WithHash.
Variable Bun_hash : content -> N.
Variable localeCompare : string -> string -> Z.

Local Abbreviation filesOf := (Hash.filesOf Bun_hash).
Local Abbreviation gather := (Shape.gather Bun_hash).
Local Abbreviation hashDirectory := (Hash.hashDirectory Bun_hash localeCompare).
Local Abbreviation getDirectoryFiles := (Hash.getDirectoryFiles Bun_hash).
Local Abbreviation compareDirectories := (Hash.compareDirectories Bun_hash localeCompare).

Lemma fileless_dir : forall r es,
    fileless (Dir r es) = true <-> Forall (fun e => fileless (snd e) = true) es.
Proof.
  intros r es. cbn [fileless].
  induction es as [|[x c] rest IH].
  - split; [constructor | reflexivity].
  - rewrite andb_true_iff, IH. split.
    + intros [H1 H2]. constructor; assumption.
    + intros H. inversion H; subst. split; assumption.
Qed.

Lemma gather_fileless : forall basePath es files,
    Forall (fun e => forall b, filesOf (snd e) b = []) es ->
    Forall (fun e => fileless (snd e) = true) es ->
    gather basePath es files = files.
Proof.
  intros basePath es. induction es as [|[x c] rest IH]; intros files Hrec Hfl.
  - reflexivity.
  - inversion Hrec as [|? ? Hc Hrest]; subst. inversion Hfl as [|? ? Hfc Hfrest]; subst.
    cbn [snd] in Hc, Hfc. cbn [Shape.gather].
    destruct c as [r d|r es'|].
    + discriminate Hfc.
    + rewrite Hc. cbn [map_set_all fold_left]. apply IH; assumption.
    + apply IH; assumption.
Qed.

Lemma filesOf_fileless : forall n basePath,
    fileless n = true -> filesOf n basePath = [].
Proof.
  induction n as [r d| |r es IH] using node_induction; intros basePath Hfl.
  - discriminate.
  - reflexivity.
  - destruct r; [|reflexivity].
    rewrite HashFacts.filesOf_dir.
    apply fileless_dir in Hfl.
    apply gather_fileless; [|exact Hfl].
    rewrite Forall_forall in *. intros e He b. apply IH; [exact He|].
    apply Hfl; exact He.
Qed.

(** Where the loop ends early, it ends at the same place whatever follows. *)
Lemma gather_insert_fileless : forall basePath front x c back files,
    fileless c = true ->
    gather basePath (front ++ (x, c) :: back) files
    = gather basePath (front ++ back) files.
Proof.
  intros basePath front x c back. induction front as [|[y c'] rest IH]; intros files Hfl.
  - cbn [app Shape.gather]. destruct c as [r d|r es'|].
    + discriminate Hfl.
    + now rewrite (filesOf_fileless _ _ Hfl).
    + reflexivity.
  - cbn [app Shape.gather].
    destruct c' as [[|] d|r es'|]; try reflexivity; apply IH; exact Hfl.
Qed.

Lemma gather_stops : forall basePath front x d back files,
    gather basePath (front ++ (x, File false d) :: back) files
    = gather basePath front files.
Proof.
  intros basePath front x d back. induction front as [|[y c'] rest IH]; intros files.
  - reflexivity.
  - cbn [app Shape.gather].
    destruct c' as [[|] d'|r es'|]; try reflexivity; apply IH.
Qed.

Lemma hashDirectory_same_files : forall fs fs' p p',
    getDirectoryFiles fs p EmptyString = getDirectoryFiles fs' p' EmptyString ->
    hashDirectory fs p = hashDirectory fs' p'.
Proof. intros fs fs' p p' H. unfold Hash.hashDirectory. now rewrite H. Qed.

Lemma filesOf_unreadable_root : forall r es es' basePath,
    (r = true -> gather basePath es [] = gather basePath es' []) ->
    filesOf (Dir r es) basePath = filesOf (Dir r es') basePath.
Proof. intros [|] es es' basePath H; [exact (H eq_refl) | reflexivity]. Qed.

(** X3.  What holds no regular file does not count: a directory below which
    there are only directories and special entries fingerprints as [empty],
    and putting such an entry into a directory, anywhere among its entries,
    changes neither the listing of [getDirectoryFiles] nor the fingerprint. *)
Theorem fingerprint_skips_entries_without_files :
  (forall fs p D,
      lookup fs p = Some D -> fileless D = true ->
      getDirectoryFiles fs p EmptyString = [] /\ hashDirectory fs p = "empty")
  /\ (forall fs fs' p p' r front x c back,
         lookup fs p = Some (Dir r (front ++ (x, c) :: back)) ->
         lookup fs' p' = Some (Dir r (front ++ back)) ->
         fileless c = true ->
         getDirectoryFiles fs p EmptyString = getDirectoryFiles fs' p' EmptyString
         /\ hashDirectory fs p = hashDirectory fs' p').
Proof.
  split.
  - intros fs p D HD Hfl.
    assert (H : getDirectoryFiles fs p EmptyString = []).
    { unfold Hash.getDirectoryFiles. rewrite HD. apply filesOf_fileless; exact Hfl. }
    split; [exact H | apply HashFacts.hashDirectory_of_empty; exact H].
  - intros fs fs' p p' r front x c back H H' Hfl.
    assert (E : getDirectoryFiles fs p EmptyString = getDirectoryFiles fs' p' EmptyString).
    { unfold Hash.getDirectoryFiles. rewrite H, H'.
      apply filesOf_unreadable_root. intros _.
      apply gather_insert_fileless; exact Hfl. }
    split; [exact E | apply hashDirectory_same_files; exact E].
Qed.

(** X4.  A regular file that cannot be read ends the listing of its
    directory: the file itself and every entry enumerated after it are left
    out, the entries before it stay, and the fingerprint is that of the
    directory cut off before the file. *)
Theorem unreadable_file_ends_the_listing : forall fs fs' p p' front x d back,
    lookup fs p = Some (Dir true (front ++ (x, File false d) :: back)) ->
    lookup fs' p' = Some (Dir true front) ->
    getDirectoryFiles fs p EmptyString = getDirectoryFiles fs' p' EmptyString
    /\ hashDirectory fs p = hashDirectory fs' p'.
Proof.
  intros fs fs' p p' front x d back H H'.
  assert (E : getDirectoryFiles fs p EmptyString = getDirectoryFiles fs' p' EmptyString).
  { unfold Hash.getDirectoryFiles. rewrite H, H'.
    rewrite !HashFacts.filesOf_dir. apply gather_stops. }
  split; [exact E | apply hashDirectory_same_files; exact E].
Qed.

Lemma slash_free_app : forall a b,
    slash_free (a +++ b) = slash_free a && slash_free b.
Proof.
  induction a as [|c a IH]; intros b; [reflexivity|].
  cbn [String.append slash_free]. now rewrite IH, andb_assoc.
Qed.

Lemma all_hex_slash_free : forall s, all_hex s = true -> slash_free s = true.
Proof.
  induction s as [|c s IH]; [reflexivity|].
  cbn [all_hex slash_free]. rewrite !andb_true_iff. intros [Hc Hs].
  split; [|exact (IH Hs)].
  destruct (Ascii.eqb c "/") eqn:E; [|reflexivity].
  apply Ascii.eqb_eq in E. subst c. discriminate Hc.
Qed.

(** X5.  The text that is hashed does not keep paths and hashes apart: for
    any two files [x] and [y] of a directory there is a single file, with a
    valid name, whose directory has the same fingerprint, whatever [Bun.hash]
    and [localeCompare] are; [compareDirectories] calls the two directories
    [synced]. *)
Theorem fingerprint_confuses_paths_and_hashes : forall x y d1 d2,
    valid_name x = true -> valid_name y = true -> x <> y ->
    exists name d,
      valid_name name = true
      /\ forall fs src tgt,
          lookup fs src = Some (Dir true [(x, File true d1); (y, File true d2)]) ->
          lookup fs tgt = Some (Dir true [(name, File true d)]) ->
          hashDirectory fs src = hashDirectory fs tgt
          /\ compareDirectories fs src tgt = synced.
Proof.
  intros x y d1 d2 Hx Hy Hxy.
  set (h1 := toString16 (Bun_hash d1)). set (h2 := toString16 (Bun_hash d2)).
  assert (Hh : forall h : N, slash_free (toString16 h) = true)
    by (intros h; apply all_hex_slash_free, HashFacts.toString16_all_hex).
  assert (Hsync : forall fs src tgt name d,
             lookup fs tgt = Some (Dir true [(name, File true d)]) ->
             hashDirectory fs src = hashDirectory fs tgt ->
             compareDirectories fs src tgt = synced).
  { intros fs src tgt name d Ht E. unfold Hash.compareDirectories, Hash.directoryExists.
    rewrite Ht, E. cbn [isDirectory negb]. now rewrite String.eqb_refl. }
  assert (Hfiles : forall fs src,
             lookup fs src = Some (Dir true [(x, File true d1); (y, File true d2)]) ->
             getDirectoryFiles fs src EmptyString = [(x, h1); (y, h2)]).
  { intros fs src Hs. unfold Hash.getDirectoryFiles. rewrite Hs.
    cbn [Hash.filesOf Hash.relativePath truthy String.eqb negb map_set].
    destruct (String.eqb x y) eqn:E; [|reflexivity].
    apply String.eqb_eq in E. contradiction. }
  assert (Hone : forall fs tgt name d,
             lookup fs tgt = Some (Dir true [(name, File true d)]) ->
             hashDirectory fs tgt
             = toString16 (Bun_hash (Text (name +++ ":" +++ toString16 (Bun_hash d))))).
  { intros fs tgt name d Ht. unfold Hash.hashDirectory, Hash.getDirectoryFiles.
    rewrite Ht. reflexivity. }
  unfold valid_name in Hx, Hy. apply andb_true_iff in Hx, Hy.
  destruct Hx as [Hxt Hxs]. destruct Hy as [Hyt Hys].
  assert (Hvalid : forall a h b,
             truthy a = true -> slash_free a = true -> slash_free b = true ->
             valid_name (a +++ ":" +++ toString16 h +++ "|" +++ b) = true).
  { intros a h b Hat Has Hbs. unfold valid_name. apply andb_true_intro. split.
    - now apply HashFacts.truthy_app.
    - rewrite !slash_free_app, Has, Hh, Hbs. reflexivity. }
  destruct (Z.leb (localeCompare x y) 0) eqn:Hcmp.
  - exists (x +++ ":" +++ h1 +++ "|" +++ y), d2. split; [now apply Hvalid|].
    intros fs src tgt Hs Ht.
    assert (E : hashDirectory fs src = hashDirectory fs tgt).
    { rewrite (Hone fs tgt _ _ Ht). unfold Hash.hashDirectory.
      rewrite (Hfiles fs src Hs).
      cbn [List.length Nat.eqb sort fold_right insert_sorted fst snd map JS.join].
      rewrite Hcmp. cbn [map JS.join fst snd]. fold h2.
      now rewrite !HashFacts.string_app_assoc. }
    split; [exact E | exact (Hsync _ _ _ _ _ Ht E)].
  - exists (y +++ ":" +++ h2 +++ "|" +++ x), d1. split; [now apply Hvalid|].
    intros fs src tgt Hs Ht.
    assert (E : hashDirectory fs src = hashDirectory fs tgt).
    { rewrite (Hone fs tgt _ _ Ht). unfold Hash.hashDirectory.
      rewrite (Hfiles fs src Hs).
      cbn [List.length Nat.eqb sort fold_right insert_sorted fst snd map JS.join].
      rewrite Hcmp. cbn [map JS.join fst snd]. fold h1.
      now rewrite !HashFacts.string_app_assoc. }
    split; [exact E | exact (Hsync _ _ _ _ _ Ht E)].
Qed.

End WithHash.

Lemma fingerprint_skips_entries_without_files_witness :
  Hash.hashDirectory Examples.lengthHash byteCompare Samples.hollow [] = "empty"
  /\ Hash.hashDirectory Examples.lengthHash byteCompare Samples.padded_skill []
     = Hash.hashDirectory Examples.lengthHash byteCompare Samples.lean_skill [].
Proof.
  destruct (fingerprint_skips_entries_without_files Examples.lengthHash byteCompare)
    as [Hnone Hsame].
  split.
  - exact (proj2 (Hnone Samples.hollow [] Samples.hollow eq_refl eq_refl)).
  - exact (proj2 (Hsame Samples.padded_skill Samples.lean_skill [] [] true
                    [] "cache" (Dir true [])
                    [("SKILL.md", File true (Text "# Skill"))] eq_refl eq_refl eq_refl)).
Defined.

Lemma unreadable_file_ends_the_listing_witness :
  Hash.getDirectoryFiles Examples.lengthHash Samples.guarded [] EmptyString
  = Hash.getDirectoryFiles Examples.lengthHash Samples.only_a [] EmptyString
  /\ Hash.hashDirectory Examples.lengthHash byteCompare Samples.guarded []
     = Hash.hashDirectory Examples.lengthHash byteCompare Samples.only_a [].
Proof.
  exact (unreadable_file_ends_the_listing Examples.lengthHash byteCompare
           Samples.guarded Samples.only_a [] []
           [("a.md", File true (Text "one"))] "b.md" (Text "two")
           [("c.md", File true (Text "three"))] eq_refl eq_refl).
Defined.

Lemma fingerprint_confuses_paths_and_hashes_witness :
  exists name d,
    valid_name name = true
    /\ forall fs src tgt,
        lookup fs src
        = Some (Dir true [("a", File true (Text "one")); ("b", File true (Text "two"))]) ->
        lookup fs tgt = Some (Dir true [(name, File true d)]) ->
        Hash.hashDirectory Examples.lengthHash byteCompare fs src
        = Hash.hashDirectory Examples.lengthHash byteCompare fs tgt
        /\ Hash.compareDirectories Examples.lengthHash byteCompare fs src tgt = synced.
Proof.
  apply (fingerprint_confuses_paths_and_hashes Examples.lengthHash byteCompare "a" "b").
  - reflexivity.
  - reflexivity.
  - discriminate.
Defined.

End FingerprintFacts.

(** ** The registry: what is written is what is read *)

Module RegistryRoundTrips.
Import JS Fs Hash Shape Proc Store Registry Frame RegistryShape Trees.
Import FsFacts ProcFacts RegistryFacts.
Local Open Scope proc_scope.

Section WithHome.
Variable homedir : string.
Local Abbreviation ROOT := (SKILLS_ROOT homedir).
Local Abbreviation STORE := (SKILLS_STORE homedir).
Local Abbreviation CONFIG := (CONFIG_PATH homedir).

Lemma config_eta : forall c, mkConfig (sources c) (targets c) = c.
Proof. now intros []. Qed.

Lemma getSources_present : forall st c,
    settled homedir (fs st) ->
    lookup (fs st) CONFIG = Some (File true (Json c)) ->
    current_schema (sources c) ->
    getSources homedir st = (Ok (sources c), st).
Proof.
  intros st c Hs Hl Hc. unfold getSources.
  rewrite (bind_ok _ _ _ _ st (Fresh c) st) by now apply readConfig_present.
  reflexivity.
Qed.

Lemma getTargets_present : forall st c,
    settled homedir (fs st) ->
    lookup (fs st) CONFIG = Some (File true (Json c)) ->
    current_schema (sources c) ->
    getTargets homedir st = (Ok (targets c), st).
Proof.
  intros st c Hs Hl Hc. unfold getTargets.
  rewrite (bind_ok _ _ _ _ st (Fresh c) st) by now apply readConfig_present.
  reflexivity.
Qed.


Local Abbreviation named name := (fun t : Target.t => String.eqb (Target.name t) name).

Lemma addTarget_present : forall st c target,
    settled homedir (fs st) ->
    lookup (fs st) CONFIG = Some (File true (Json c)) ->
    current_schema (sources c) ->
    addTarget homedir target st
    = match find (named (Target.name target)) (targets c) with
      | Some _ => (Throw (Error (target_collision (Target.name target))), st)
      | None =>
          (Ok tt, with_registry homedir
                    (mkConfig (sources c) (targets c ++ [target])) st)
      end.
Proof.
  intros st c target Hs Hl Hc. unfold addTarget.
  rewrite (bind_ok _ _ _ _ st (Fresh c) st) by now apply readConfig_present.
  rewrite (bind_ok _ _ _ _ st c st) by reflexivity.
  destruct (find (named (Target.name target)) (targets c)); [reflexivity|].
  rewrite (bind_ok _ _ _ _ st tt st) by reflexivity.
  now apply writeConfig_settled.
Qed.

Lemma find_none_names : forall name l,
    find (named name) l = None <-> ~ In name (map Target.name l).
Proof.
  intros name l. induction l as [|t l IH]; cbn [find map In]; [tauto|].
  destruct (String.eqb (Target.name t) name) eqn:E.
  - apply String.eqb_eq in E. split; [discriminate | intros H; exfalso; apply H; now left].
  - apply String.eqb_neq in E. rewrite IH. tauto.
Qed.

(** X7.  [addTarget] on a registry that is in place.  A name that is
    already registered is refused with the name-collision error and nothing
    changes.  A new name is appended after the targets that are there:
    [getTargets] then returns the old list followed by the new target, the
    sources are untouched, and a second [addTarget] of it is refused.  Either
    way the names of the registered targets stay pairwise different, if they
    were. *)
Theorem addTarget_appends_or_rejects : forall st c target,
    settled homedir (fs st) ->
    lookup (fs st) CONFIG = Some (File true (Json c)) ->
    current_schema (sources c) ->
    (In (Target.name target) (map Target.name (targets c)) ->
     addTarget homedir target st
     = (Throw (Error (target_collision (Target.name target))), st))
    /\ (~ In (Target.name target) (map Target.name (targets c)) ->
        exists st1,
          addTarget homedir target st = (Ok tt, st1)
          /\ getTargets homedir st1 = (Ok (targets c ++ [target]), st1)
          /\ getSources homedir st1 = (Ok (sources c), st1)
          /\ addTarget homedir target st1
             = (Throw (Error (target_collision (Target.name target))), st1))
    /\ (NoDup (map Target.name (targets c)) ->
        forall r st1,
          addTarget homedir target st = (r, st1) ->
          exists c1, lookup (fs st1) CONFIG = Some (File true (Json c1))
                     /\ NoDup (map Target.name (targets c1))).
Proof.
  intros st c target Hs Hl Hc.
  pose proof (addTarget_present st c target Hs Hl Hc) as Hrun.
  set (c' := mkConfig (sources c) (targets c ++ [target])) in *.
  destruct (settled_with_registry homedir c' st Hs) as [Hs1 Hl1].
  split; [|split].
  - intros Hin. rewrite Hrun.
    destruct (find (named (Target.name target)) (targets c)) eqn:F; [reflexivity|].
    apply find_none_names in F. contradiction.
  - intros Hout. apply find_none_names in Hout. rewrite Hout in Hrun.
    exists (with_registry homedir c' st). split; [exact Hrun|]. split; [|split].
    + now apply (getTargets_present _ c').
    + now apply (getSources_present _ c').
    + rewrite (addTarget_present _ c' target Hs1 Hl1 Hc).
      destruct (find (named (Target.name target)) (targets c')) eqn:F; [reflexivity|].
      apply find_none_names in F. exfalso. apply F. unfold c'. cbn [targets].
      rewrite map_app, in_app_iff. right. now left.
  - intros Hnd r st1 E. rewrite Hrun in E.
    destruct (find (named (Target.name target)) (targets c)) eqn:F.
    + inversion E; subst. now exists c.
    + inversion E; subst. exists c'. split; [exact Hl1|].
      unfold c'. cbn [targets]. rewrite map_app. cbn [map].
      apply find_none_names in F.
      apply NoDup_app; [exact Hnd | repeat constructor; intros [] |].
      intros x Hx [Hy|[]]. subst x. contradiction.
Qed.

Local Abbreviation called name :=
  (fun s : Source.t => strict_eq (Source.name s) (Some name)).

Lemma removeSource_present : forall st c name,
    settled homedir (fs st) ->
    lookup (fs st) CONFIG = Some (File true (Json c)) ->
    current_schema (sources c) ->
    removeSource homedir name st
    = match splice_first (called name) (sources c) with
      | None => (Ok None, st)
      | Some (removed, rest) =>
          (Ok (Some removed), with_registry homedir (mkConfig rest (targets c)) st)
      end.
Proof.
  intros st c name Hs Hl Hc. unfold removeSource.
  rewrite (bind_ok _ _ _ _ st (Fresh c) st) by now apply readConfig_present.
  rewrite (bind_ok _ _ _ _ st c st) by reflexivity.
  destruct (splice_first (called name) (sources c)) as [[removed rest]|]; [|reflexivity].
  rewrite (bind_ok _ _ _ _ st tt st) by reflexivity.
  rewrite (bind_ok _ _ _ _ st tt (with_registry homedir (mkConfig rest (targets c)) st))
    by now apply writeConfig_settled.
  reflexivity.
Qed.

Lemma strict_eq_true : forall a b, strict_eq a b = true <-> a = b.
Proof.
  intros [x|] [y|]; cbn [strict_eq]; try (split; [discriminate | congruence]).
  - rewrite String.eqb_eq. split; congruence.
  - tauto.
Qed.

Lemma splice_first_absent : forall (A : Type) (f : A -> bool) l,
    (forall x, In x l -> f x = false) -> splice_first f l = None.
Proof.
  induction l as [|a l IH]; intros H; [reflexivity|].
  cbn [splice_first]. rewrite (H a (or_introl eq_refl)), IH; [reflexivity|].
  intros x Hx. apply H. now right.
Qed.

Lemma splice_first_last : forall (A : Type) (f : A -> bool) l x,
    (forall y, In y l -> f y = false) -> f x = true ->
    splice_first f (l ++ [x]) = Some (x, l).
Proof.
  induction l as [|a l IH]; intros x H Hx; cbn [app splice_first].
  - now rewrite Hx.
  - rewrite (H a (or_introl eq_refl)), IH; [reflexivity| |exact Hx].
    intros y Hy. apply H. now right.
Qed.

Lemma not_called : forall name l,
    ~ In (Some name) (map Source.name l) ->
    forall s, In s l -> called name s = false.
Proof.
  intros name l H s Hs. destruct (called name s) eqn:E; [|reflexivity].
  apply strict_eq_true in E. exfalso. apply H. rewrite <- E. now apply in_map.
Qed.

Lemma find_absent : forall (A : Type) (f : A -> bool) l,
    (forall x, In x l -> f x = false) -> find f l = None.
Proof.
  induction l as [|a l IH]; intros H; [reflexivity|].
  cbn [find]. rewrite (H a (or_introl eq_refl)). apply IH.
  intros x Hx. apply H. now right.
Qed.

(** X8.  [removeSource] undoes [addSource].  On a registry that is in place
    and holds no source of the name, [removeSource] of that name returns
    [null] and changes nothing; [addSource] puts the source last;
    [removeSource] then returns that very source, the registry file holds
    again the configuration it held before, and the source is no longer
    listed. *)
Theorem addSource_then_removeSource : forall st c source name,
    settled homedir (fs st) ->
    lookup (fs st) CONFIG = Some (File true (Json c)) ->
    current_schema (sources c) ->
    needs_migration source = false ->
    Source.name source = Some name ->
    ~ In (Some name) (map Source.name (sources c)) ->
    removeSource homedir name st = (Ok None, st)
    /\ exists st1 st2,
        addSource homedir source st = (Ok tt, st1)
        /\ getSources homedir st1 = (Ok (sources c ++ [source]), st1)
        /\ removeSource homedir name st1 = (Ok (Some source), st2)
        /\ lookup (fs st2) CONFIG = Some (File true (Json c))
        /\ getSources homedir st2 = (Ok (sources c), st2).
Proof.
  intros st c source name Hs Hl Hc Hsrc Hname Hout.
  pose proof (not_called name (sources c) Hout) as Hno.
  split.
  - rewrite (removeSource_present st c name Hs Hl Hc).
    now rewrite (splice_first_absent _ _ _ Hno).
  - set (c' := mkConfig (sources c ++ [source]) (targets c)).
    destruct (settled_with_registry homedir c' st Hs) as [Hs1 Hl1].
    assert (Hc' : current_schema (sources c')) by now apply current_schema_snoc.
    set (st1 := with_registry homedir c' st) in *.
    destruct (settled_with_registry homedir c st1 Hs1) as [Hs2 Hl2].
    exists st1, (with_registry homedir c st1).
    split; [|split; [|split; [|split]]].
    + rewrite (addSource_present homedir st c source Hs Hl Hc).
      rewrite find_absent; [reflexivity|].
      intros s Hin. rewrite Hname. now apply Hno.
    + now apply (getSources_present st1 c').
    + rewrite (removeSource_present st1 c' name Hs1 Hl1 Hc').
      unfold c'. cbn [sources targets].
      rewrite (splice_first_last _ (called name) (sources c) source Hno).
      * now rewrite config_eta.
      * apply strict_eq_true. exact Hname.
    + exact Hl2.
    + now apply (getSources_present _ c).
Qed.

Lemma dirs_way_blocked_below : forall p q n,
    dirs_on_the_way n p = true -> dirs_on_the_way n (p ++ q) = false ->
    isDirectory (lookup n p) = true.
Proof.
  induction p as [|seg rest IH]; intros q n Hp Hq.
  - destruct n; try discriminate Hp. reflexivity.
  - destruct n as [r d|r es|]; try discriminate Hp.
    cbn [app dirs_on_the_way] in Hp, Hq. cbn [lookup].
    destruct (assoc seg es) as [c|]; [|discriminate Hq].
    now apply (IH q).
Qed.

Lemma file_blocks_the_way : forall p n,
    Plain.file_on_the_way n p = true -> dirs_on_the_way n p = false.
Proof.
  induction p as [|seg rest IH]; intros n H.
  - destruct n; [reflexivity | discriminate H | discriminate H].
  - destruct n as [r d|r es|]; [reflexivity | | discriminate H].
    cbn [Plain.file_on_the_way] in H. cbn [dirs_on_the_way].
    destruct (assoc seg es) as [c|]; [now apply IH | discriminate H].
Qed.

(** A regular file on the way to the store stops [ensureDirectories]. *)
Lemma ensureDirectories_blocked : forall st,
    Plain.file_on_the_way (fs st) STORE = true ->
    exists e, ensureDirectories homedir st = (Throw e, st).
Proof.
  intros st Hfile. pose proof (file_blocks_the_way _ _ Hfile) as Hblocked.
  unfold ensureDirectories, bind, tryFs.
  destruct (dirs_on_the_way (fs st) ROOT) eqn:Hroot.
  - rewrite STORE_eq in Hblocked.
    pose proof (dirs_way_blocked_below _ _ _ Hroot Hblocked) as Hdir.
    rewrite (mkdir_existing ROOT (fs st) Hdir). cbn [setFs fs].
    rewrite state_eta, mkdir_unfold, STORE_eq, Hblocked. eauto.
  - rewrite mkdir_unfold, Hroot. eauto.
Qed.

(** [readConfig] calls [ensureDirectories] before its [try]: where that
    throws, [readConfig] throws, whatever the registry file holds. *)
Lemma readConfig_needs_its_directories : forall st,
    Plain.file_on_the_way (fs st) STORE = true ->
    exists e, readConfig homedir st = (Throw e, st)
              /\ readConfig_v1 homedir st = (Throw e, st).
Proof.
  intros st Hfile. destruct (ensureDirectories_blocked st Hfile) as [e He].
  exists e. unfold readConfig, readConfig_v1.
  now rewrite !(bind_throw _ _ _ _ st e st He).
Qed.

(** X9.  [ensureDirectories] makes the directories or refuses.  The home
    directory is written without [.] and [..].  When a regular file stands
    on the way to [~/.skills/store] or in its place, the call throws and
    leaves the state as it is.  When nothing but directories stands there
    (so no symbolic link either), it succeeds; then [~/.skills] and
    [~/.skills/store] are directories, nothing is printed, everything that
    lies apart from [~/.skills] is as before, and a second call changes
    nothing. *)
Theorem ensureDirectories_makes_or_refuses : forall st,
    Plain.dotless (segments homedir) = true ->
    (Plain.file_on_the_way (fs st) STORE = true ->
     exists e, ensureDirectories homedir st = (Throw e, st))
    /\ (dirs_on_the_way (fs st) STORE = true ->
        exists st1,
          ensureDirectories homedir st = (Ok tt, st1)
          /\ isDirectory (lookup (fs st1) ROOT) = true
          /\ isDirectory (lookup (fs st1) STORE) = true
          /\ ensureDirectories homedir st1 = (Ok tt, st1)
          /\ console st1 = console st
          /\ forall p, diverge p ROOT -> lookup (fs st1) p = lookup (fs st) p).
Proof.
  intros st _. split.
  - intros Hfile. now apply ensureDirectories_blocked.
  - intros Hway.
    assert (Hwroot : dirs_on_the_way (fs st) ROOT = true).
    { rewrite STORE_eq in Hway. eapply dirs_way_prefix; eauto. }
    destruct (mkdir_creates ROOT (fs st) (ROOT_not_nil homedir) Hwroot)
      as (Hmk1 & Hd1 & Hw1 & _).
    set (n1 := update true a_directory ROOT (fs st)) in *.
    destruct (mkdir_creates STORE n1 (STORE_not_nil homedir) (Hw1 _ Hway))
      as (Hmk2 & Hd2 & _ & _).
    set (n2 := update true a_directory STORE n1) in *.
    assert (Hrun : ensureDirectories homedir st = (Ok tt, with_fs n2 st)).
    { unfold ensureDirectories.
      rewrite (bind_ok _ _ _ _ st tt (with_fs n1 st)) by now apply tryFs_ok.
      now rewrite (tryFs_ok _ (with_fs n1 st) n2). }
    assert (Hr2 : isDirectory (lookup n2 ROOT) = true).
    { destruct (lookup n2 STORE) as [m|] eqn:E; [|discriminate].
      rewrite STORE_eq in E. eapply lookup_prefix_dir; eauto. }
    exists (with_fs n2 st).
    split; [exact Hrun|]. split; [exact Hr2|]. split; [exact Hd2|].
    split; [|split; [reflexivity|]].
    + unfold ensureDirectories.
      rewrite (bind_ok _ _ _ _ (with_fs n2 st) tt (with_fs n2 st)).
      * rewrite (tryFs_ok _ _ n2); [reflexivity|]. now apply mkdir_existing.
      * rewrite (tryFs_ok _ _ n2); [reflexivity|]. now apply mkdir_existing.
    + intros p Hp. exact (ensureDirectories_preserves homedir p Hp st _ _ Hrun).
Qed.


End WithHome.

(** *** The round trips at concrete inputs *)

Lemma registered_state_settled :
  settled Examples.home (fs Examples.registered_state).
Proof. repeat split. Qed.


Lemma addTarget_appends_or_rejects_witness :
  addTarget Examples.home Examples.cursor Examples.registered_state
  = (Throw (Error (target_collision "cursor")), Examples.registered_state)
  /\ exists st1,
      addTarget Examples.home Samples.claude Examples.registered_state = (Ok tt, st1)
      /\ getTargets Examples.home st1 = (Ok [Examples.cursor; Samples.claude], st1)
      /\ getSources Examples.home st1 = (Ok [], st1)
      /\ addTarget Examples.home Samples.claude st1
         = (Throw (Error (target_collision "claude")), st1).
Proof.
  split.
  - apply (addTarget_appends_or_rejects Examples.home Examples.registered_state
             (mkConfig [] [Examples.cursor]) Examples.cursor
             registered_state_settled eq_refl (Forall_nil _)).
    left. reflexivity.
  - apply (addTarget_appends_or_rejects Examples.home Examples.registered_state
             (mkConfig [] [Examples.cursor]) Samples.claude
             registered_state_settled eq_refl (Forall_nil _)).
    intros [H|[]]. discriminate H.
Defined.

Lemma addSource_then_removeSource_witness :
  removeSource Examples.home "repo" Examples.registered_state
  = (Ok None, Examples.registered_state)
  /\ exists st1 st2,
      addSource Examples.home Examples.a_source Examples.registered_state = (Ok tt, st1)
      /\ getSources Examples.home st1 = (Ok ([] ++ [Examples.a_source]), st1)
      /\ removeSource Examples.home "repo" st1 = (Ok (Some Examples.a_source), st2)
      /\ lookup (fs st2) (CONFIG_PATH Examples.home)
         = Some (File true (Json (mkConfig [] [Examples.cursor])))
      /\ getSources Examples.home st2 = (Ok [], st2).
Proof.
  apply (addSource_then_removeSource Examples.home Examples.registered_state
           (mkConfig [] [Examples.cursor]) Examples.a_source "repo"
           registered_state_settled eq_refl (Forall_nil _) eq_refl eq_refl).
  intros [].
Defined.

Lemma ensureDirectories_makes_or_refuses_witness :
  (exists e, ensureDirectories Examples.home Samples.no_room_state
             = (Throw e, Samples.no_room_state))
  /\ exists st1,
      ensureDirectories Examples.home Examples.blank_state = (Ok tt, st1)
      /\ isDirectory (lookup (fs st1) (SKILLS_ROOT Examples.home)) = true
      /\ isDirectory (lookup (fs st1) (SKILLS_STORE Examples.home)) = true
      /\ ensureDirectories Examples.home st1 = (Ok tt, st1)
      /\ console st1 = console Examples.blank_state
      /\ forall p, diverge p (SKILLS_ROOT Examples.home) ->
                   lookup (fs st1) p = lookup (fs Examples.blank_state) p.
Proof.
  split.
  - apply (ensureDirectories_makes_or_refuses Examples.home Samples.no_room_state eq_refl).
    reflexivity.
  - apply (ensureDirectories_makes_or_refuses Examples.home Examples.blank_state eq_refl).
    reflexivity.
Defined.


End RegistryRoundTrips.

(** ** The matcher, and what every parsed URL looks like *)

Module RegexFacts.
Import JS Paths Shape Regex.

Lemma rmatch_sound : forall r (R : Type) s caps (k : string -> captures -> option R) x,
    rmatch r s caps k = Some x ->
    exists s' caps', Matches r s caps s' caps' /\ k s' caps' = Some x.
Proof.
  induction r as [c| |negated items| | |r1 IH1 r2 IH2|r1 IH1 r2 IH2|greedy r IH|i r IH];
    intros R s caps k x H; try (cbn [rmatch] in H).
  - destruct s as [|d rest]; [discriminate|].
    destruct (Ascii.eqb c d) eqn:E; [|discriminate].
    apply Ascii.eqb_eq in E. subst d. exists rest, caps. split; [constructor | exact H].
  - destruct s as [|d rest]; [discriminate|].
    destruct (is_line_terminator d) eqn:E; [discriminate|].
    exists rest, caps. split; [now constructor | exact H].
  - destruct s as [|d rest]; [discriminate|].
    destruct (Bool.eqb (existsb (cset_mem d) items) negated) eqn:E; [discriminate|].
    exists rest, caps. split; [now constructor | exact H].
  - exists s, caps. split; [constructor | exact H].
  - destruct s; [|discriminate]. exists EmptyString, caps. split; [constructor | exact H].
  - apply IH1 in H. destruct H as (s1 & caps1 & M1 & H).
    apply IH2 in H. destruct H as (s2 & caps2 & M2 & H).
    exists s2, caps2. split; [econstructor; eassumption | exact H].
  - destruct (rmatch r1 s caps k) as [y|] eqn:E.
    + inversion H; subst y. apply IH1 in E. destruct E as (s' & caps' & M & Hk).
      exists s', caps'. split; [now apply MAltL | exact Hk].
    + apply IH2 in H. destruct H as (s' & caps' & M & Hk).
      exists s', caps'. split; [now apply MAltR | exact Hk].
  - change (star_loop r greedy k (S (String.length s)) s caps = Some x) in H.
    remember (S (String.length s)) as fuel eqn:Ef. clear Ef. revert s caps H.
    induction fuel as [|fuel IHf]; intros s caps H.
    + exists s, caps. split; [constructor | exact H].
    + cbn [star_loop] in H. cbv zeta in H.
      assert (Hcase : k s caps = Some x
                      \/ rmatch r s caps
                           (fun s' caps' =>
                              if Nat.ltb (String.length s') (String.length s)
                              then star_loop r greedy k fuel s' caps' else None) = Some x).
      { destruct greedy.
        - match type of H with
          | match ?m with _ => _ end = _ => destruct m eqn:E
          end; [right; rewrite <- H; reflexivity | now left].
        - destruct (k s caps) eqn:E; [now left | now right]. }
      destruct Hcase as [Hk|Hmore].
      * exists s, caps. split; [constructor | exact Hk].
      * apply IH in Hmore. destruct Hmore as (s1 & caps1 & M1 & Hrest).
        destruct (Nat.ltb (String.length s1) (String.length s)); [|discriminate].
        apply IHf in Hrest. destruct Hrest as (s2 & caps2 & M2 & Hk).
        exists s2, caps2. split; [eapply MStarMore; eassumption | exact Hk].
  - apply IH in H. destruct H as (s' & caps' & M & H).
    exists s', ((i, consumed s s') :: caps'). split; [now constructor | exact H].
Qed.


Ltac inv H := inversion H; subst; clear H.

Lemma matches_groupless : forall r s caps s' caps',
    Matches r s caps s' caps' -> groupless r = true -> caps' = caps.
Proof.
  induction 1; cbn [groupless]; intros G; try reflexivity;
    try (apply andb_true_iff in G; destruct G as [G1 G2]).
  - rewrite IHMatches2 by exact G2. now apply IHMatches1.
  - now apply IHMatches.
  - now apply IHMatches.
  - rewrite IHMatches2 by exact G. now apply IHMatches1.
  - discriminate G.
Qed.

Lemma groupless_RLit : forall s, groupless (RLit s) = true.
Proof.
  induction s as [|c s IH]; [reflexivity|].
  destruct s; [reflexivity|]. cbn [RLit groupless]. exact IH.
Qed.

Lemma take_app : forall t s, take (String.length t) (t +++ s) = t.
Proof.
  induction t as [|c t IH]; intros s; cbn.
  - now destruct s.
  - now rewrite IH.
Qed.

Lemma consumed_app : forall t s, consumed (t +++ s) s = t.
Proof.
  intros t s. unfold consumed. rewrite CloneFacts.length_append.
  replace (String.length t + String.length s - String.length s) with (String.length t) by lia.
  apply take_app.
Qed.

Lemma matches_class_star : forall greedy negated items s caps s' caps',
    Matches (RStar greedy (RSet negated items)) s caps s' caps' ->
    exists t, s = t +++ s' /\ class_all negated items t = true /\ caps' = caps.
Proof.
  intros greedy negated items s caps s' caps' H.
  remember (RStar greedy (RSet negated items)) as r eqn:E.
  induction H; try discriminate E.
  - now exists EmptyString.
  - inversion E; subst. inv H.
    destruct (IHMatches2 eq_refl) as (t & -> & Ht & ->).
    exists (String d t). split; [reflexivity|]. split; [|reflexivity].
    cbn [class_all]. rewrite Ht. now match goal with H : _ = false |- _ => rewrite H end.
Qed.

Lemma matches_group_class : forall i greedy negated items s caps s' caps',
    Matches (RGroup i (RPlus greedy (RSet negated items))) s caps s' caps' ->
    exists t, s = t +++ s' /\ t <> EmptyString
              /\ class_all negated items t = true /\ caps' = (i, t) :: caps.
Proof.
  intros i greedy negated items s caps s' caps' H.
  inv H. unfold RPlus in *.
  match goal with H : Matches (RSeq _ _) _ _ _ _ |- _ => inv H end.
  match goal with H : Matches (RSet _ _) _ _ _ _ |- _ => inv H end.
  match goal with H : Matches (RStar _ _) _ _ _ _ |- _ =>
    apply matches_class_star in H; destruct H as (t & -> & Ht & ->) end.
  exists (String d t). split; [reflexivity|]. split; [discriminate|]. split.
  - cbn [class_all]. rewrite Ht. now match goal with H : _ = false |- _ => rewrite H end.
  - change (String d (t +++ s')) with (String d t +++ s'). now rewrite consumed_app.
Qed.

Lemma matches_any_star : forall greedy s caps s' caps',
    Matches (RStar greedy RAny) s caps s' caps' ->
    exists t, s = t +++ s' /\ caps' = caps.
Proof.
  intros greedy s caps s' caps' H.
  remember (RStar greedy RAny) as r eqn:E.
  induction H; try discriminate E.
  - now exists EmptyString.
  - inversion E; subst. inv H.
    destruct (IHMatches2 eq_refl) as (t & -> & ->).
    now exists (String d t).
Qed.

Lemma matches_group_any : forall i greedy s caps s' caps',
    Matches (RGroup i (RPlus greedy RAny)) s caps s' caps' ->
    exists t, s = t +++ s' /\ t <> EmptyString /\ caps' = (i, t) :: caps.
Proof.
  intros i greedy s caps s' caps' H.
  inv H. unfold RPlus in *.
  match goal with H : Matches (RSeq _ _) _ _ _ _ |- _ => inv H end.
  match goal with H : Matches RAny _ _ _ _ |- _ => inv H end.
  match goal with H : Matches (RStar _ _) _ _ _ _ |- _ =>
    apply matches_any_star in H; destruct H as (t & -> & ->) end.
  exists (String d t). split; [reflexivity|]. split; [discriminate|].
  change (String d (t +++ s')) with (String d t +++ s'). now rewrite consumed_app.
Qed.

Lemma search_from_sound : forall r s pre m,
    search_from r pre s = Some m ->
    exists s0 s' , Matches r s0 [] s' (groups m).
Proof.
  intros r s. induction s as [|c s IH]; intros pre m H; cbn [search_from] in H.
  - destruct (rmatch r EmptyString [] _) as [m'|] eqn:E; [|discriminate].
    inv H. apply rmatch_sound in E. destruct E as (s' & caps' & M & E).
    inv E. now exists EmptyString, s'.
  - destruct (rmatch r (String c s) [] _) as [m'|] eqn:E.
    + inv H. apply rmatch_sound in E. destruct E as (s' & caps' & M & E).
      inv E. now exists (String c s), s'.
    + now apply IH in H.
Qed.

Lemma exec_sound : forall r s m,
    exec r s = Some m -> exists s0 s', Matches r s0 [] s' (groups m).
Proof. intros r s m H. unfold exec in H. now apply search_from_sound in H. Qed.

Lemma not_slash_free : forall t, class_all true [CsChar "/"] t = true -> slash_free t = true.
Proof.
  induction t as [|c t IH]; [reflexivity|].
  cbn [class_all slash_free existsb cset_mem]. rewrite orb_false_r.
  intros H. apply andb_true_iff in H. destruct H as [Hc Ht].
  rewrite (IH Ht), andb_true_r. now destruct (Ascii.eqb c "/").
Qed.


Lemma rev_string_acc_app : forall a b acc,
    rev_string_acc (a +++ b) acc = rev_string_acc b (rev_string_acc a acc).
Proof. induction a as [|c a IH]; intros b acc; [reflexivity | apply IH]. Qed.

Lemma rev_string_acc_acc : forall a acc,
    rev_string_acc a acc = rev_string_acc a EmptyString +++ acc.
Proof.
  induction a as [|c a IH]; intros acc; [reflexivity|].
  cbn [rev_string_acc]. rewrite IH, (IH (String c EmptyString)).
  now rewrite HashFacts.string_app_assoc.
Qed.

Lemma prefix_app : forall x y z, String.prefix x y = true -> String.prefix x (y +++ z) = true.
Proof.
  induction x as [|c x IH]; intros y z H; [now destruct (y +++ z)|].
  destruct y as [|d y]; [discriminate|]. cbn [String.append String.prefix] in *.
  destruct (ascii_dec c d); [now apply IH | discriminate].
Qed.

Lemma prefix_refl : forall x, String.prefix x x = true.
Proof.
  induction x as [|c x IH]; [reflexivity|]. cbn [String.prefix].
  destruct (ascii_dec c c); [exact IH | congruence].
Qed.

Lemma endsWith_app_r : forall a b suffix,
    endsWith b suffix = true -> endsWith (a +++ b) suffix = true.
Proof.
  intros a b suffix H. unfold endsWith in *.
  rewrite rev_string_acc_app, (rev_string_acc_acc b). now apply prefix_app.
Qed.

Lemma endsWith_refl : forall s, endsWith s s = true.
Proof. intros s. unfold endsWith. apply prefix_refl. Qed.

Lemma endsWith_app : forall a suffix, endsWith (a +++ suffix) suffix = true.
Proof. intros. apply endsWith_app_r, endsWith_refl. Qed.

Lemma endsWith_cons : forall c s suffix,
    endsWith s suffix = true -> endsWith (String c s) suffix = true.
Proof. intros c s suffix H. now apply (endsWith_app_r (String c EmptyString)). Qed.

(** One step through a match of a sequence. *)
Ltac step :=
  match goal with
  | H : Matches (RLit _) _ _ _ _ |- _ =>
      apply matches_groupless in H; [subst | apply groupless_RLit]
  | H : Matches (RSeq (ROpt _) REnd) _ _ _ _ |- _ =>
      apply matches_groupless in H; [subst | reflexivity]
  | H : Matches (RAlt _ _) _ _ _ _ |- _ =>
      apply matches_groupless in H; [subst | reflexivity]
  | H : Matches (ROpt _) _ _ _ _ |- _ =>
      apply matches_groupless in H; [subst | reflexivity]
  | H : Matches (RChar _) _ _ _ _ |- _ => inv H
  | H : Matches (RGroup _ (RPlus _ (RSet _ _))) _ _ _ _ |- _ =>
      apply matches_group_class in H; destruct H as (? & -> & ? & ? & ->)
  | H : Matches (RGroup _ (RPlus _ RAny)) _ _ _ _ |- _ =>
      apply matches_group_any in H; destruct H as (? & -> & ? & ->)
  | H : Matches (RSeq _ _) _ _ _ _ |- _ => inv H
  end.

Lemma re_https_groups : forall hostname s s' caps,
    Matches (re_https hostname) s [] s' caps ->
    exists t1 t2, caps = [(2, t2); (1, t1)]
                  /\ t1 <> EmptyString /\ slash_free t1 = true.
Proof.
  intros hostname s s' caps H. unfold re_https, notSlash, repoChar in H.
  repeat step. eexists; eexists. split; [reflexivity|].
  split; [assumption | now apply not_slash_free].
Qed.

Lemma re_ssh_groups : forall hostname s s' caps,
    Matches (re_ssh hostname) s [] s' caps ->
    exists t1 t2, caps = [(2, t2); (1, t1)]
                  /\ t1 <> EmptyString /\ slash_free t1 = true.
Proof.
  intros hostname s s' caps H. unfold re_ssh, notSlash in H.
  repeat step. eexists; eexists. split; [reflexivity|].
  split; [assumption | now apply not_slash_free].
Qed.

Lemma re_subdir_groups : forall hostname marker s s' caps,
    groupless marker = true ->
    Matches (re_subdir hostname marker) s [] s' caps ->
    exists t1 t2 t3 t4,
      caps = [(4, t4); (3, t3); (2, t2); (1, t1)]
      /\ t1 <> EmptyString /\ slash_free t1 = true
      /\ t3 <> EmptyString /\ slash_free t3 = true.
Proof.
  intros hostname marker s s' caps G H. unfold re_subdir, notSlash in H.
  repeat first
    [ step
    | match goal with H : Matches marker _ _ _ _ |- _ =>
        apply matches_groupless in H; [subst | exact G] end ].
  do 4 eexists. split; [reflexivity|].
  repeat split; try assumption; now apply not_slash_free.
Qed.

Lemma re_generic_ssh_groups : forall s s' caps,
    Matches re_generic_ssh s [] s' caps ->
    exists t1 t2 t3, caps = [(3, t3); (2, t2); (1, t1)]
                     /\ t1 <> EmptyString
                     /\ t2 <> EmptyString /\ slash_free t2 = true.
Proof.
  intros s s' caps H. unfold re_generic_ssh, notSlash in H.
  repeat step. do 3 eexists. split; [reflexivity|].
  repeat split; try assumption; now apply not_slash_free.
Qed.

Lemma re_generic_https_groups : forall s s' caps,
    Matches re_generic_https s [] s' caps ->
    exists t1 t2 t3, caps = [(3, t3); (2, t2); (1, t1)]
                     /\ t1 <> EmptyString
                     /\ t2 <> EmptyString /\ slash_free t2 = true.
Proof.
  intros s s' caps H. unfold re_generic_https, notSlash, repoChar in H.
  repeat step. do 3 eexists. split; [reflexivity|].
  repeat split; try assumption; now apply not_slash_free.
Qed.


Ltac shape_goal :=
  unfold parsed_shape; cbn [host owner cloneUrl branch subdir group Nat.eqb];
  repeat split; try discriminate; try assumption;
  try (repeat first [ apply endsWith_refl | apply endsWith_app
                    | apply endsWith_app_r | apply endsWith_cons ]).

Ltac from_match E lemma :=
  apply exec_sound in E; destruct E as (? & ? & E);
  match type of E with
  | Matches _ _ _ _ (groups ?m) => remember (groups m) as caps eqn:Hcaps
  end;
  apply lemma in E.

Ltac hosted H :=
  match type of H with
  | context [exec (re_subdir ?h ?mk) ?url] =>
      destruct (exec (re_subdir h mk) url) as [m1|] eqn:E1;
      [ from_match E1 (re_subdir_groups h mk); [|reflexivity];
        destruct E1 as (t1 & t2 & t3 & t4 & -> & ? & ? & ? & ?);
        inv H; shape_goal
      | destruct (exec (re_https h) url) as [m2|] eqn:E2;
        [ from_match E2 (re_https_groups h);
          destruct E2 as (t1 & t2 & -> & ? & ?);
          inv H; shape_goal
        | destruct (exec (re_ssh h) url) as [m3|] eqn:E3; [|discriminate H];
          from_match E3 (re_ssh_groups h);
          destruct E3 as (t1 & t2 & -> & ? & ?);
          inv H; shape_goal ] ]
  end.

Lemma parseGitHubUrl_shape : forall url p, parseGitHubUrl url = Some p -> parsed_shape p.
Proof. intros url p H. unfold parseGitHubUrl, marker_github in H. hosted H. Qed.

Lemma parseGitLabUrl_shape : forall url p, parseGitLabUrl url = Some p -> parsed_shape p.
Proof. intros url p H. unfold parseGitLabUrl, marker_gitlab in H. hosted H. Qed.

Lemma parseBitbucketUrl_shape : forall url p,
    parseBitbucketUrl url = Some p -> parsed_shape p.
Proof. intros url p H. unfold parseBitbucketUrl, marker_bitbucket in H. hosted H. Qed.

Lemma parseGenericGitUrl_shape : forall url p,
    parseGenericGitUrl url = Some p -> parsed_shape p.
Proof.
  intros url p H. unfold parseGenericGitUrl in H.
  assert (Hclone : endsWith (if endsWith url ".git" then url else url +++ ".git") ".git"
                   = true).
  { destruct (endsWith url ".git") eqn:E; [exact E | apply endsWith_app]. }
  destruct (exec re_generic_ssh url) as [m1|] eqn:E1.
  - from_match E1 re_generic_ssh_groups.
    destruct E1 as (t1 & t2 & t3 & -> & ? & ? & ?).
    inv H. unfold parsed_shape. cbn [host owner cloneUrl branch subdir group Nat.eqb].
    repeat split; assumption.
  - destruct (exec re_generic_https url) as [m2|] eqn:E2; [|discriminate H].
    from_match E2 re_generic_https_groups.
    destruct E2 as (t1 & t2 & t3 & -> & ? & ? & ?).
    inv H. unfold parsed_shape. cbn [host owner cloneUrl branch subdir group Nat.eqb].
    repeat split; assumption.
Qed.

(** X11.  Every result of [parseGitUrl], whichever matcher produced it, has
    a host that is not empty, an owner that is not empty and holds no slash,
    and a clone URL that ends in [.git]; it has a branch exactly when it has
    a subdirectory, and the branch then is not empty and holds no slash. *)
Theorem parseGitUrl_shape : forall url p,
    parseGitUrl url = Some p -> parsed_shape p.
Proof.
  intros url p H. unfold parseGitUrl, or_else in H.
  destruct (parseGitHubUrl url) as [p1|] eqn:E1;
    [inv H; eapply parseGitHubUrl_shape; eassumption|].
  destruct (parseGitLabUrl url) as [p2|] eqn:E2;
    [inv H; eapply parseGitLabUrl_shape; eassumption|].
  destruct (parseBitbucketUrl url) as [p3|] eqn:E3;
    [inv H; eapply parseBitbucketUrl_shape; eassumption|].
  eapply parseGenericGitUrl_shape; eassumption.
Qed.

Lemma parseGitUrl_shape_witness :
  parsed_shape
    (mkParsed "github.com" "owner" "repo" (Some "main") (Some "skills/x")
       "https://github.com/owner/repo.git").
Proof.
  apply (parseGitUrl_shape "https://github.com/owner/repo/tree/main/skills/x").
  vm_compute. reflexivity.
Defined.

End RegexFacts.

(** ** The command line *)

Module CliFacts.
Import JS Proc Frame Cli ProcFacts.
Local Open Scope proc_scope.

Lemma includes_In : forall args x, includes args x = true <-> In x args.
Proof.
  intros args x. unfold includes. rewrite existsb_exists. split.
  - intros (y & Hy & E). apply String.eqb_eq in E. now subst.
  - intros H. exists x. split; [exact H | apply String.eqb_refl].
Qed.

Lemma includes_not_In : forall args x, includes args x = false <-> ~ In x args.
Proof.
  intros args x. rewrite <- includes_In. destruct (includes args x); split; congruence.
Qed.

Lemma first_plain_argument : forall flags a rest,
    Forall (fun f => String.prefix "--" f = true) flags ->
    String.prefix "--" a = false ->
    nth_error (filter (fun x => negb (String.prefix "--" x)) (flags ++ a :: rest)) 0
    = Some a.
Proof.
  induction flags as [|f flags IH]; intros a rest Hf Ha.
  - cbn [app filter]. now rewrite Ha.
  - inversion Hf as [|? ? Hf1 Hf2]; subst. cbn [app filter]. rewrite Hf1. cbn [negb].
    now apply IH.
Qed.

Lemma no_plain_argument : forall flags,
    Forall (fun f => String.prefix "--" f = true) flags ->
    filter (fun x => negb (String.prefix "--" x)) flags = [].
Proof.
  induction flags as [|f flags IH]; intros Hf; [reflexivity|].
  inversion Hf as [|? ? Hf1 Hf2]; subst. cbn [filter]. rewrite Hf1. now apply IH.
Qed.

Section Commands.
Variable red cyan : string -> string.
Variable help_text : string.
Variable sourceAdd : string -> SourceType -> option string -> M ending.
Variable sourceRemove : string -> M ending.
Variable sourceList : M ending.
Variable targetAdd : string -> option string -> M ending.
Variable targetRemove : string -> M ending.
Variable targetList targetAvailable sync update doctor status : M ending.

Local Abbreviation main :=
  (Cli.main red cyan help_text sourceAdd sourceRemove sourceList targetAdd targetRemove
     targetList targetAvailable sync update doctor status).
Local Abbreviation dispatch :=
  (Cli.dispatch red cyan help_text sourceAdd sourceRemove sourceList targetAdd targetRemove
     targetList targetAvailable sync update doctor status).

(** X12.  Help and version come first.  With no argument at all, or with
    [--help] or [-h] anywhere among the arguments, [main] prints the help
    text and ends the process with status 0; otherwise, with [--version] or
    [-v] anywhere among them, it prints the version and ends with status 0.
    In both cases no command is run, whatever the other arguments are. *)
Theorem help_and_version_come_first : forall args st,
    (args = [] \/ In "--help" args \/ In "-h" args ->
     main args st = (Ok (Exited 0), with_line (Out help_text) st))
    /\ (args <> [] -> ~ In "--help" args -> ~ In "-h" args ->
        In "--version" args \/ In "-v" args ->
        main args st = (Ok (Exited 0), with_line (Out "skills v1.1.0") st)).
Proof.
  intros args st. split.
  - intros H. unfold Cli.main.
    assert (E : Nat.eqb (List.length args) 0 || includes args "--help"
                || includes args "-h" = true).
    { destruct H as [->|[H|H]]; [reflexivity| |];
        apply includes_In in H; rewrite H; now rewrite ?orb_true_r. }
    now rewrite E.
  - intros Hne Hh1 Hh2 Hv. unfold Cli.main.
    apply includes_not_In in Hh1, Hh2. rewrite Hh1, Hh2.
    destruct args as [|a args]; [congruence|]. cbn [List.length Nat.eqb orb].
    assert (E : includes (a :: args) "--version" || includes (a :: args) "-v" = true).
    { destruct Hv as [H|H]; apply includes_In in H; rewrite H; now rewrite ?orb_true_r. }
    now rewrite E.
Qed.

(** X13.  [main] lets no exception out.  Whatever the arguments and the
    commands, it returns.  When the command that the arguments select throws,
    the message goes to the error stream as [Error: ...] and the process ends
    with status 1; when the command returns, or ends the process itself with
    some status, that is how [main] ends. *)
Theorem main_turns_failures_into_exit_1 : forall args st,
    (exists e st', main args st = (Ok e, st'))
    /\ (forall err st1,
           args <> [] -> ~ In "--help" args -> ~ In "-h" args ->
           ~ In "--version" args -> ~ In "-v" args ->
           dispatch args st = (Throw err, st1) ->
           main args st
           = (Ok (Exited 1), with_line (Err (red ("Error: " +++ message err))) st1))
    /\ (forall e st1,
           args <> [] -> ~ In "--help" args -> ~ In "-h" args ->
           ~ In "--version" args -> ~ In "-v" args ->
           dispatch args st = (Ok e, st1) ->
           main args st = (Ok e, st1)).
Proof.
  intros args st.
  assert (Hplain : args <> [] -> ~ In "--help" args -> ~ In "-h" args ->
                   ~ In "--version" args -> ~ In "-v" args ->
                   main args st
                   = tryCatch (dispatch args)
                       (fun error =>
                          console_error (red ("Error: " +++ message error)) ;; exit 1) st).
  { intros Hne H1 H2 H3 H4. unfold Cli.main.
    apply includes_not_In in H1, H2, H3, H4. rewrite H1, H2, H3, H4.
    destruct args; [congruence | reflexivity]. }
  split; [|split].
  - unfold Cli.main.
    destruct (Nat.eqb (List.length args) 0 || includes args "--help" || includes args "-h");
      [eexists; eexists; reflexivity|].
    destruct (includes args "--version" || includes args "-v");
      [eexists; eexists; reflexivity|].
    unfold tryCatch. destruct (dispatch args st) as [[e|err] st1];
      eexists; eexists; reflexivity.
  - intros err st1 Hne H1 H2 H3 H4 Hd. rewrite (Hplain Hne H1 H2 H3 H4).
    now rewrite (tryCatch_throw _ _ _ st err st1 Hd).
  - intros e st1 Hne H1 H2 H3 H4 Hd. rewrite (Hplain Hne H1 H2 H3 H4).
    now apply tryCatch_ok.
Qed.

End Commands.

Section SourceHandler.
Variable sourceAdd : string -> SourceType -> option string -> M ending.
Variable sourceRemove : string -> M ending.
Variable sourceList : M ending.

Local Abbreviation handleSourceCommand :=
  (Cli.handleSourceCommand sourceAdd sourceRemove sourceList).

(** X14.  What [source add] takes for the path or URL is the first
    argument that does not begin with [--], wherever the flags stand.  So the
    value of [--name], when it comes before the URL, is added as the URL;
    and when every argument begins with [--], the handler reports the
    missing path and ends the process with status 1. *)
Theorem source_add_reads_the_first_plain_argument :
  (forall flags a rest st,
      Forall (fun f => String.prefix "--" f = true) flags ->
      String.prefix "--" a = false -> a <> EmptyString ->
      In "--remote" (flags ++ a :: rest) -> ~ In "--local" (flags ++ a :: rest) ->
      ~ In "--name" (flags ++ a :: rest) ->
      handleSourceCommand (Some "add") (flags ++ a :: rest) st
      = sourceAdd a remote None st)
  /\ (forall name url st,
         String.prefix "--" name = false -> name <> EmptyString ->
         String.prefix "--" url = false ->
         handleSourceCommand (Some "add") ["--name"; name; url; "--remote"] st
         = sourceAdd name remote (Some name) st)
  /\ (forall flags st,
         Forall (fun f => String.prefix "--" f = true) flags ->
         handleSourceCommand (Some "add") flags st
         = (Ok (Exited 1), with_line (Err "Missing path or URL for source add") st)).
Proof.
  assert (Htruthy : forall a, a <> EmptyString -> truthy a = true).
  { intros a Ha. unfold truthy. destruct (String.eqb a EmptyString) eqn:E; [|reflexivity].
    apply String.eqb_eq in E. contradiction. }
  split; [|split].
  - intros flags a rest st Hf Ha Hne Hr Hl Hn.
    unfold Cli.handleSourceCommand. cbn [selects String.eqb Ascii.eqb Bool.eqb andb].
    rewrite (first_plain_argument flags a rest Hf Ha).
    cbn [truthy_opt]. rewrite (Htruthy a Hne). cbn [negb].
    apply includes_In in Hr. apply includes_not_In in Hl. rewrite Hr, Hl.
    cbn [negb andb show_opt].
    assert (E : findIndex (fun x => String.eqb x "--name") (flags ++ a :: rest) = None).
    { clear - Hn. induction (flags ++ a :: rest) as [|x l IH]; [reflexivity|].
      cbn [findIndex]. destruct (String.eqb x "--name") eqn:E.
      - apply String.eqb_eq in E. exfalso. apply Hn. now left.
      - rewrite IH; [reflexivity|]. intros H. apply Hn. now right. }
    now rewrite E.
  - intros name url st Hp Hne Hu.
    unfold Cli.handleSourceCommand. cbn [selects String.eqb Ascii.eqb Bool.eqb andb].
    pose proof (first_plain_argument ["--name"] name [url; "--remote"]
                  ltac:(repeat constructor) Hp) as Hfirst.
    cbn [app] in Hfirst. rewrite Hfirst.
    cbn [truthy_opt]. rewrite (Htruthy name Hne). cbn [negb].
    assert (Hr : includes ["--name"; name; url; "--remote"] "--remote" = true).
    { apply includes_In. cbn. tauto. }
    rewrite Hr. cbn [negb andb].
    destruct (includes ["--name"; name; url; "--remote"] "--local") eqn:Hl.
    + exfalso. apply includes_In in Hl. cbn [In] in Hl.
      destruct Hl as [H|[H|[H|[H|[]]]]]; try discriminate H.
      * subst name. discriminate Hp.
      * subst url. discriminate Hu.
    + cbn [findIndex String.eqb Ascii.eqb Bool.eqb andb Nat.add nth_error show_opt].
      reflexivity.
  - intros flags st Hf.
    unfold Cli.handleSourceCommand. cbn [selects String.eqb Ascii.eqb Bool.eqb andb].
    rewrite (no_plain_argument flags Hf). reflexivity.
Qed.

End SourceHandler.

Local Abbreviation sample_main :=
  (Cli.main Samples.plain Samples.plain Samples.help Samples.add_nothing
     Samples.take_nothing Samples.quiet Samples.aim_nothing Samples.take_nothing
     Samples.quiet Samples.quiet Samples.failing Samples.quiet Samples.quiet
     Samples.quiet).

Lemma help_and_version_come_first_witness :
  sample_main ["sync"; "--help"] Examples.blank_state
  = (Ok (Exited 0), with_line (Out Samples.help) Examples.blank_state)
  /\ sample_main ["source"; "remove"; "-v"] Examples.blank_state
     = (Ok (Exited 0), with_line (Out "skills v1.1.0") Examples.blank_state).
Proof.
  split.
  - apply help_and_version_come_first. right. left. right. left. reflexivity.
  - apply help_and_version_come_first.
    + discriminate.
    + intros [H|[H|[H|[]]]]; discriminate H.
    + intros [H|[H|[H|[]]]]; discriminate H.
    + right. right. right. left. reflexivity.
Defined.

Lemma main_turns_failures_into_exit_1_witness :
  sample_main ["sync"] Examples.blank_state
  = (Ok (Exited 1), with_line (Err (Samples.plain ("Error: " +++ "no such thing")))
                      Examples.blank_state).
Proof.
  apply (proj1 (proj2 (main_turns_failures_into_exit_1 Samples.plain Samples.plain
                         Samples.help Samples.add_nothing Samples.take_nothing
                         Samples.quiet Samples.aim_nothing Samples.take_nothing
                         Samples.quiet Samples.quiet Samples.failing Samples.quiet
                         Samples.quiet Samples.quiet ["sync"] Examples.blank_state))
           (Error "no such thing") Examples.blank_state).
  - discriminate.
  - intros [H|[]]; discriminate H.
  - intros [H|[]]; discriminate H.
  - intros [H|[]]; discriminate H.
  - intros [H|[]]; discriminate H.
  - reflexivity.
Defined.

Lemma source_add_reads_the_first_plain_argument_witness :
  Cli.handleSourceCommand Samples.add_nothing Samples.take_nothing Samples.quiet
    (Some "add") ["--name"; "react"; "https://github.com/owner/repo"; "--remote"]
    Examples.blank_state
  = (Ok Returned, with_line (Out "react as react") Examples.blank_state).
Proof.
  rewrite (proj1 (proj2 (source_add_reads_the_first_plain_argument
                           Samples.add_nothing Samples.take_nothing Samples.quiet))
             "react" "https://github.com/owner/repo" Examples.blank_state
             eq_refl ltac:(discriminate) eq_refl).
  reflexivity.
Defined.

End CliFacts.

(** ** The predefined targets *)

Module KnownTargetsFacts.
Import JS Fs Frame Store KnownTargets Trees FsFacts TreeFacts.

Lemma under_home_eq : forall homedir parts,
    Forall (fun s => segments s = [s]) parts ->
    under_home homedir parts = segments homedir ++ parts.
Proof.
  intros homedir parts. unfold under_home.
  generalize (segments homedir) as base.
  induction parts as [|s parts IH]; intros base H.
  - now rewrite app_nil_r.
  - inversion H as [|? ? Hs Hp]; subst. cbn [fold_left]. rewrite IH by exact Hp.
    unfold Fs.join. rewrite Hs, <- app_assoc. reflexivity.
Qed.

Section WithHome.
Variable homedir : string.

Local Abbreviation KNOWN := (KNOWN_TARGETS homedir).
Local Abbreviation getKnownTarget := (KnownTargets.getKnownTarget homedir).

Lemma find_by_key : forall (k : KnownTarget -> string) l key t,
    NoDup (map k l) -> In t l -> k t = key ->
    find (fun x => String.eqb (k x) key) l = Some t.
Proof.
  intros k l key t. induction l as [|a l IH]; intros Hnd Hin Hk; [destruct Hin|].
  cbn [map] in Hnd. inversion Hnd as [|? ? Ha Hnd']; subst.
  cbn [find]. destruct Hin as [->|Hin].
  - now rewrite String.eqb_refl.
  - destruct (String.eqb (k a) (k t)) eqn:E; [|now apply IH].
    apply String.eqb_eq in E. exfalso. apply Ha. rewrite E. now apply in_map.
Qed.

(** X15.  [getKnownTarget] looks a name up whatever its letter case.  The
    names of the table are pairwise different; a name whose lower case is the
    name of a listed target finds that target, and nothing else is ever
    found: what is returned is in the table under the lower case of the name
    asked for. *)
Theorem getKnownTarget_ignores_case :
  NoDup (KnownTargets.getKnownTargetNames homedir)
  /\ (forall t n,
         In t KNOWN -> toLowerCase n = name t -> getKnownTarget n = Some t)
  /\ (forall n t,
         getKnownTarget n = Some t -> In t KNOWN /\ toLowerCase n = name t)
  /\ (forall n,
         ~ In (toLowerCase n) (KnownTargets.getKnownTargetNames homedir) ->
         getKnownTarget n = None).
Proof.
  assert (Hnames : map (fun t => toLowerCase (name t)) KNOWN
                   = KnownTargets.getKnownTargetNames homedir) by reflexivity.
  assert (Hnd : NoDup (KnownTargets.getKnownTargetNames homedir)).
  { unfold KnownTargets.getKnownTargetNames. cbn [KNOWN_TARGETS map name].
    repeat (constructor; [cbn [In]; intuition discriminate|]). constructor. }
  assert (Hlow : forall t, In t KNOWN -> toLowerCase (name t) = name t).
  { intros t Hin. cbn [KNOWN_TARGETS In] in Hin.
    repeat (destruct Hin as [<-|Hin]; [reflexivity|]). destruct Hin. }
  split; [exact Hnd|]. split; [|split].
  - intros t n Hin Hn. unfold KnownTargets.getKnownTarget.
    apply (find_by_key (fun x => toLowerCase (name x))); [now rewrite Hnames | exact Hin |].
    now rewrite Hn, Hlow.
  - intros n t H. unfold KnownTargets.getKnownTarget in H.
    apply find_some in H. destruct H as [Hin E]. apply String.eqb_eq in E.
    split; [exact Hin|]. now rewrite <- E, Hlow.
  - intros n Hout. unfold KnownTargets.getKnownTarget.
    destruct (find _ KNOWN) as [t|] eqn:F; [|reflexivity].
    apply find_some in F. destruct F as [Hin E]. apply String.eqb_eq in E.
    exfalso. apply Hout. rewrite <- E, Hlow by exact Hin.
    unfold KnownTargets.getKnownTargetNames. now apply in_map.
Qed.

Lemma known_path_parts : forall t,
    In t KNOWN ->
    exists parts, path t = segments homedir ++ parts
                  /\ In (name t, parts)
                       (map (fun k => (name k, path k)) (KNOWN_TARGETS EmptyString)).
Proof.
  intros t Hin. cbn [KNOWN_TARGETS In] in Hin.
  repeat (destruct Hin as [<-|Hin]; [
    cbn [path name]; rewrite under_home_eq by (repeat constructor);
    eexists; split; [reflexivity | cbn; tauto] |]).
  destruct Hin.
Qed.

(** A name that is not listed, in lower case, finds nothing. *)
Lemma getKnownTarget_unlisted : forall n,
    ~ In (toLowerCase n) (KnownTargets.getKnownTargetNames homedir) ->
    getKnownTarget n = None.
Proof.
  intros n Hout. unfold KnownTargets.getKnownTarget.
  destruct (find _ KNOWN) as [t|] eqn:F; [|reflexivity].
  apply find_some in F. destruct F as [Hin E]. apply String.eqb_eq in E.
  exfalso. apply Hout. rewrite <- E.
  cbn [KNOWN_TARGETS In] in Hin.
  repeat (destruct Hin as [<-|Hin]; [cbn; tauto|]). destruct Hin.
Qed.

(** X16.  The predefined targets lie apart.  Whatever the home directory
    is, the path of a predefined target lies apart from the tool's own
    directory [~/.skills], and apart from the path of every other predefined
    target: none is inside another. *)
Theorem known_targets_lie_apart : forall t,
    In t KNOWN ->
    diverge (path t) (SKILLS_ROOT homedir)
    /\ forall t', In t' KNOWN -> name t' <> name t -> diverge (path t) (path t').
Proof.
  intros t Hin.
  destruct (known_path_parts t Hin) as (parts & Hp & Hparts).
  split.
  - rewrite Hp. unfold SKILLS_ROOT, Fs.join. apply diverge_under, part_ways_diverge.
    cbn [map name path KNOWN_TARGETS In] in Hparts.
    repeat (destruct Hparts as [E|Hparts]; [inversion E; subst; reflexivity|]).
    destruct Hparts.
  - intros t' Hin' Hne.
    destruct (known_path_parts t' Hin') as (parts' & Hp' & Hparts').
    rewrite Hp, Hp'. apply diverge_under, part_ways_diverge.
    cbn [map name path KNOWN_TARGETS In] in Hparts, Hparts'.
    repeat (destruct Hparts as [E|Hparts];
            [inversion E as [[En Ep]]; clear E; rewrite <- En in Hne; subst parts|]);
      try (destruct Hparts);
      repeat (destruct Hparts' as [E'|Hparts'];
              [inversion E' as [[En' Ep']]; clear E'; rewrite <- En' in Hne; clear En';
               subst parts'; first [reflexivity | exfalso; apply Hne; reflexivity]|]);
      destruct Hparts'.
Qed.

End WithHome.

Lemma getKnownTarget_ignores_case_witness :
  KnownTargets.getKnownTarget Examples.home "Cursor"
  = Some (KnownTargets.mk "cursor" "Cursor IDE"
            (KnownTargets.under_home Examples.home [".cursor"; "skills"]) GA).
Proof.
  apply (proj1 (proj2 (getKnownTarget_ignores_case Examples.home))).
  - left. reflexivity.
  - reflexivity.
Defined.

Lemma known_targets_lie_apart_witness :
  diverge (KnownTargets.under_home Examples.home [".gemini"; "antigravity"])
          (SKILLS_ROOT Examples.home)
  /\ forall t',
      In t' (KNOWN_TARGETS Examples.home) -> name t' <> "antigravity" ->
      diverge (KnownTargets.under_home Examples.home [".gemini"; "antigravity"]) (path t').
Proof.
  apply (known_targets_lie_apart Examples.home
           (KnownTargets.mk "antigravity" "Antigravity"
              (KnownTargets.under_home Examples.home [".gemini"; "antigravity"])
              Experimental)).
  do 6 right. left. reflexivity.
Defined.

End KnownTargetsFacts.

(** ** Namespaces of the older store layout *)

Module NamespacesFacts.
Import JS Fs Paths Proc Store Namespaces Trees.

Lemma split_acc_free : forall sep x cur,
    free_of sep x = true -> split_where_acc sep x cur = [cur +++ x].
Proof.
  intros sep x. induction x as [|c x IH]; intros cur H.
  - cbn. f_equal. induction cur; cbn; congruence.
  - cbn [free_of] in H. apply andb_true_iff in H. destruct H as [Hc Hx].
    cbn [split_where_acc]. destruct (sep c); [discriminate|].
    rewrite IH by exact Hx. now rewrite HashFacts.string_app_assoc.
Qed.

(** The pieces of a text that ends with a separator and a last component. *)
Lemma split_acc_last : forall sep a cur c x,
    sep c = true -> free_of sep x = true ->
    exists front, split_where_acc sep (a +++ String c x) cur = front ++ [x].
Proof.
  intros sep a. induction a as [|d a IH]; intros cur c x Hc Hx.
  - cbn [String.append split_where_acc]. rewrite Hc.
    rewrite split_acc_free by exact Hx. now exists [cur].
  - cbn [String.append split_where_acc]. destruct (sep d).
    + destruct (IH EmptyString c x Hc Hx) as [front E]. rewrite E.
      now exists (cur :: front).
    + apply IH; assumption.
Qed.

(** ... and of one that goes on with separators only. *)
Lemma split_acc_trail : forall sep trail cur,
    free_of (fun c => negb (sep c)) trail = true ->
    exists empties,
      split_where_acc sep trail cur = cur :: empties
      /\ filter truthy empties = [].
Proof.
  intros sep trail. induction trail as [|c trail IH]; intros cur H.
  - now exists [].
  - cbn [free_of] in H. apply andb_true_iff in H. destruct H as [Hc Ht].
    rewrite negb_involutive in Hc. cbn [split_where_acc]. rewrite Hc.
    destruct (IH EmptyString Ht) as (empties & E & F). rewrite E.
    exists (EmptyString :: empties). split; [reflexivity|]. exact F.
Qed.

Lemma split_acc_free_then : forall sep x rest cur,
    free_of sep x = true ->
    split_where_acc sep (x +++ rest) cur = split_where_acc sep rest (cur +++ x).
Proof.
  intros sep x. induction x as [|c x IH]; intros rest cur H.
  - cbn [String.append]. f_equal. induction cur; cbn; congruence.
  - cbn [free_of] in H. apply andb_true_iff in H. destruct H as [Hc Hx].
    cbn [String.append split_where_acc]. destruct (sep c); [discriminate|].
    rewrite IH by exact Hx. now rewrite HashFacts.string_app_assoc.
Qed.

Lemma split_acc_last_trail : forall sep a cur c x trail,
    sep c = true -> free_of sep x = true ->
    free_of (fun c => negb (sep c)) trail = true ->
    exists front empties,
      split_where_acc sep (a +++ String c (x +++ trail)) cur = front ++ x :: empties
      /\ filter truthy empties = [].
Proof.
  intros sep a. induction a as [|d a IH]; intros cur c x trail Hc Hx Ht.
  - cbn [String.append split_where_acc]. rewrite Hc.
    rewrite split_acc_free_then by exact Hx. cbn [String.append].
    destruct (split_acc_trail sep trail x Ht) as (empties & E & F).
    rewrite E. now exists [cur], empties.
  - cbn [String.append split_where_acc]. destruct (sep d).
    + destruct (IH EmptyString c x trail Hc Hx Ht) as (front & empties & E & F).
      rewrite E. now exists (cur :: front), empties.
    + apply IH; assumption.
Qed.

Lemma pop_last : forall front x, pop (front ++ [x]) = Some x.
Proof. intros. unfold pop. now rewrite rev_app_distr. Qed.

Lemma filter_last : forall (f : string -> bool) front x,
    f x = true -> filter f (front ++ [x]) = filter f front ++ [x].
Proof. intros. rewrite filter_app. cbn [filter]. now rewrite H. Qed.

Lemma split_pieces_free : forall sep s cur,
    free_of sep cur = true ->
    Forall (fun piece => free_of sep piece = true) (split_where_acc sep s cur).
Proof.
  intros sep s. induction s as [|c s IH]; intros cur Hcur.
  - now constructor.
  - cbn [split_where_acc]. destruct (sep c) eqn:E.
    + constructor; [exact Hcur | now apply IH].
    + apply IH. clear IH. induction cur as [|d cur IHc]; cbn.
      * now rewrite E.
      * cbn [free_of] in Hcur. apply andb_true_iff in Hcur.
        destruct Hcur as [Hd Hc]. now rewrite Hd, IHc.
Qed.

Lemma split_is_split_where : forall s cur,
    split_acc "/" s cur = split_where_acc (fun c => Ascii.eqb c "/") s cur.
Proof.
  induction s as [|c s IH]; intros cur; [reflexivity|].
  cbn [split_acc split_where_acc]. now rewrite !IH.
Qed.

(** X17.  [getLocalNamespace] is [local/] and the last component of the
    folder path, where a slash and a backslash both separate components and
    separators at the end do not count: the folders above the last component
    play no part.  The component is never empty and holds no separator; a
    path without any component gives [local/unnamed]. *)
Theorem getLocalNamespace_is_the_last_component :
  (forall dir c x,
      slash_or_backslash c = true ->
      free_of slash_or_backslash x = true -> x <> EmptyString ->
      getLocalNamespace (dir +++ String c x) = "local/" +++ x)
  /\ (forall dir c x trail,
         slash_or_backslash c = true ->
         free_of slash_or_backslash x = true -> x <> EmptyString ->
         free_of (fun c => negb (slash_or_backslash c)) trail = true ->
         getLocalNamespace (dir +++ String c (x +++ trail)) = "local/" +++ x)
  /\ (forall x,
         free_of slash_or_backslash x = true -> x <> EmptyString ->
         getLocalNamespace x = "local/" +++ x)
  /\ (forall folderPath,
         exists x, getLocalNamespace folderPath = "local/" +++ x
                   /\ x <> EmptyString /\ free_of slash_or_backslash x = true)
  /\ (forall s, free_of (fun c => negb (slash_or_backslash c)) s = true ->
                getLocalNamespace s = "local/unnamed").
Proof.
  assert (Htruthy : forall a, a <> EmptyString -> truthy a = true).
  { intros a Ha. unfold truthy. destruct (String.eqb a EmptyString) eqn:E; [|reflexivity].
    apply String.eqb_eq in E. contradiction. }
  split; [|split; [|split; [|split]]].
  - intros dir c x Hc Hx Hne. unfold getLocalNamespace, split_where.
    destruct (split_acc_last slash_or_backslash dir EmptyString c x Hc Hx) as [front E].
    rewrite E, filter_last by now apply Htruthy.
    rewrite pop_last. unfold or_string. cbn [truthy_opt show_opt].
    now rewrite (Htruthy x Hne).
  - intros dir c x trail Hc Hx Hne Ht. unfold getLocalNamespace, split_where.
    destruct (split_acc_last_trail slash_or_backslash dir EmptyString c x trail Hc Hx Ht)
      as (front & empties & E & F).
    rewrite E, filter_app. cbn [filter]. rewrite (Htruthy x Hne), F.
    rewrite pop_last. unfold or_string. cbn [truthy_opt show_opt].
    now rewrite (Htruthy x Hne).
  - intros x Hx Hne. unfold getLocalNamespace, split_where.
    rewrite split_acc_free by exact Hx. cbn [String.append filter].
    rewrite (Htruthy x Hne). cbn [pop rev app]. unfold or_string.
    cbn [truthy_opt show_opt]. now rewrite (Htruthy x Hne).
  - intros folderPath. unfold getLocalNamespace, split_where.
    pose proof (split_pieces_free slash_or_backslash folderPath EmptyString eq_refl) as Hfree.
    set (pieces := split_where_acc slash_or_backslash folderPath EmptyString) in *.
    assert (Hf : Forall (fun p => free_of slash_or_backslash p = true /\ truthy p = true)
                        (filter truthy pieces)).
    { rewrite Forall_forall in *. intros p Hp. apply filter_In in Hp.
      destruct Hp as [Hin Ht]. split; [now apply Hfree | exact Ht]. }
    unfold pop. destruct (rev (filter truthy pieces)) as [|x l] eqn:R.
    + exists "unnamed". now repeat split.
    + assert (Hx : In x (filter truthy pieces)).
      { apply in_rev. rewrite R. now left. }
      rewrite Forall_forall in Hf. destruct (Hf x Hx) as [Hfx Htx].
      exists x. unfold or_string. cbn [truthy_opt show_opt]. rewrite Htx.
      split; [reflexivity|]. split; [|exact Hfx].
      intros ->. discriminate Htx.
  - intros s Hs. unfold getLocalNamespace, split_where.
    assert (E : forall t, free_of (fun c => negb (slash_or_backslash c)) t = true ->
                          filter truthy (split_where_acc slash_or_backslash t EmptyString) = []).
    { induction t as [|c t IH]; intros Ht; [reflexivity|].
      cbn [free_of] in Ht. apply andb_true_iff in Ht. destruct Ht as [Hc Ht].
      rewrite negb_involutive in Hc. cbn [split_where_acc]. rewrite Hc.
      cbn [filter truthy String.eqb negb]. now apply IH. }
    now rewrite (E s Hs).
Qed.

Lemma truthy_ne : forall a, a <> EmptyString -> truthy a = true.
Proof.
  intros a Ha. unfold truthy. destruct (String.eqb a EmptyString) eqn:E; [|reflexivity].
  apply String.eqb_eq in E. contradiction.
Qed.

(** X18.  [getRemoteNamespace] is the owner, a slash, and the repository
    when there is no subdirectory, else the last component of the
    subdirectory: neither the repository nor the directories above that
    component play a part then.  A subdirectory that ends in a slash is taken
    whole. *)
Theorem getRemoteNamespace_is_owner_and_leaf :
  (forall p, subdir p = None -> getRemoteNamespace p = owner p +++ "/" +++ repo p)
  /\ (forall p x,
         subdir p = Some x -> x <> EmptyString ->
         free_of (fun c => Ascii.eqb c "/") x = true ->
         getRemoteNamespace p = owner p +++ "/" +++ x)
  /\ (forall p dir x,
         subdir p = Some (dir +++ "/" +++ x) -> x <> EmptyString ->
         free_of (fun c => Ascii.eqb c "/") x = true ->
         getRemoteNamespace p = owner p +++ "/" +++ x)
  /\ (forall p dir,
         subdir p = Some (dir +++ "/") ->
         getRemoteNamespace p = owner p +++ "/" +++ dir +++ "/").
Proof.
  split; [|split; [|split]].
  - intros p H. unfold getRemoteNamespace. now rewrite H.
  - intros p x H Hne Hx. unfold getRemoteNamespace. rewrite H.
    cbn [truthy_opt show_opt]. rewrite (truthy_ne x Hne).
    unfold split. rewrite split_is_split_where, split_acc_free by exact Hx.
    cbn [String.append pop rev app]. unfold or_string. cbn [truthy_opt show_opt].
    now rewrite (truthy_ne x Hne).
  - intros p dir x H Hne Hx. unfold getRemoteNamespace. rewrite H.
    cbn [truthy_opt show_opt].
    assert (Ht : truthy (dir +++ "/" +++ x) = true).
    { apply truthy_ne. destruct dir; discriminate. }
    rewrite Ht. unfold split. rewrite split_is_split_where.
    destruct (split_acc_last (fun c => Ascii.eqb c "/") dir EmptyString "/" x eq_refl Hx)
      as [front E].
    cbn [String.append] in E. cbn [String.append]. rewrite E, pop_last.
    unfold or_string. cbn [truthy_opt show_opt]. now rewrite (truthy_ne x Hne).
  - intros p dir H. unfold getRemoteNamespace. rewrite H.
    cbn [truthy_opt show_opt].
    assert (Ht : truthy (dir +++ "/") = true).
    { apply truthy_ne. destruct dir; discriminate. }
    rewrite Ht. unfold split. rewrite split_is_split_where.
    destruct (split_acc_last (fun c => Ascii.eqb c "/") dir EmptyString "/" EmptyString
                eq_refl eq_refl) as [front E].
    rewrite E, pop_last. unfold or_string. cbn [truthy_opt truthy String.eqb negb].
    reflexivity.
Qed.


Lemma getLocalNamespace_is_the_last_component_witness :
  getLocalNamespace "/work/mine" = "local/mine"
  /\ getLocalNamespace "C:\Users\me\mine" = "local/mine".
Proof.
  split.
  - apply (proj1 getLocalNamespace_is_the_last_component "/work" "/"%char "mine").
    + reflexivity.
    + reflexivity.
    + discriminate.
  - apply (proj1 getLocalNamespace_is_the_last_component "C:\Users\me" "\"%char "mine").
    + reflexivity.
    + reflexivity.
    + discriminate.
Defined.

Lemma getRemoteNamespace_is_owner_and_leaf_witness :
  getRemoteNamespace
    (mkParsed "github.com" "owner" "repo" (Some "main") (Some "skills/x")
       "https://github.com/owner/repo.git")
  = "owner/x".
Proof.
  apply (proj1 (proj2 (proj2 getRemoteNamespace_is_owner_and_leaf))
           (mkParsed "github.com" "owner" "repo" (Some "main") (Some "skills/x")
              "https://github.com/owner/repo.git")
           "skills" "x").
  - reflexivity.
  - discriminate.
  - reflexivity.
Defined.

End NamespacesFacts.

(** ** [updateLocalSource] *)

Module UpdateFacts.
Import JS Fs Hash Shape Proc Store Registry Frame RegistryShape Trees Migration Plain.
Import FsFacts ProcFacts RegistryFacts TreeFacts.
Local Open Scope proc_scope.

Section WithHome.
Variable homedir : string.

Lemma getSkillPath_not_nil : forall name, getSkillPath homedir name <> [].
Proof.
  intros name H. unfold getSkillPath, join in H.
  apply app_eq_nil in H. destruct H as [H _]. exact (STORE_not_nil homedir H).
Qed.


End WithHome.


End UpdateFacts.

(** ** [sync] when the store is there *)

Module SyncAllFacts.
Import JS Fs Hash Shape Proc Store Registry Frame RegistryShape Trees Places Plain.
Import FsFacts ProcFacts RegistryFacts TreeFacts.
Local Open Scope proc_scope.

Section WithHome.
Variable homedir : string.
Local Abbreviation ROOT := (SKILLS_ROOT homedir).
Local Abbreviation STORE := (SKILLS_STORE homedir).
Local Abbreviation CONFIG := (CONFIG_PATH homedir).
Local Abbreviation place t := (segments (Target.path t)).
Local Abbreviation done_line t := (Out ("  " +++ Target.name t +++ ": Synced")).

(** The loop of [sync] over targets that are ready and lie apart. *)
Lemma syncEach_mirrors : forall ts st r es,
    lookup (fs st) STORE = Some (Dir r es) ->
    well_formed (Dir r es) = true ->
    all_readable (Dir r es) = true ->
    Forall (ready homedir (fs st)) ts ->
    apart ts ->
    exists n',
      Sync.syncEach homedir ts st
      = (Ok tt, mkState n' (DEFAULT_CONFIG st) (console st ++ map (fun t => done_line t) ts))
      /\ (forall t, In t ts -> lookup n' (place t) = Some (Dir true es))
      /\ forall q, (forall t, In t ts -> diverge q (place t)) -> lookup n' q = lookup (fs st) q.
Proof.
  induction ts as [|t ts IH]; intros st r es Hstore Hwf Hread Hready Hapart.
  - exists (fs st). split; [|split].
    + cbn [Sync.syncEach forEach map]. rewrite app_nil_r. unfold ret. now rewrite state_eta.
    + intros t [].
    + reflexivity.
  - inversion Hready as [|? ? (Hroot & Hway & Hrd) Hrest]; subst.
    inversion Hapart as [|? ? Hfirst Hothers]; subst.
    pose proof (diverge_ROOT_STORE homedir _ Hroot) as Hdiv.
    rewrite Forall_forall in Hfirst.
    destruct (MirrorFacts.syncToTarget_copies homedir t st r es Hstore Hwf Hread Hdiv Hway Hrd)
      as (n1 & Hrun & Ht & Hframe).
    set (st1 := with_line (done_line t) (with_fs n1 st)) in *.
    assert (Hstore1 : lookup (fs st1) STORE = Some (Dir r es)).
    { cbn [st1 with_line with_fs fs]. rewrite Hframe; [exact Hstore|].
      now apply diverge_sym. }
    assert (Hready1 : Forall (ready homedir (fs st1)) ts).
    { rewrite Forall_forall in *. intros t' Hin.
      destruct (Hrest t' Hin) as (Hroot' & Hway' & Hrd').
      assert (Hd : diverge (place t') (place t)) by (apply diverge_sym; now apply Hfirst).
      cbn [st1 with_line with_fs fs]. split; [exact Hroot'|]. split.
      - apply (dirs_way_kept (fs st) n1 (place t') (place t) Hway' Hd Hframe).
        now rewrite Ht.
      - intros es'. rewrite (Hframe _ Hd). apply Hrd'. }
    destruct (IH st1 r es Hstore1 Hwf Hread Hready1 Hothers) as (n' & Hloop & Hall & Hkeep).
    exists n'. split; [|split].
    + unfold Sync.syncEach in *. cbn [forEach].
      rewrite (bind_ok _ _ _ _ st tt st1) by (apply tryCatch_ok; exact Hrun).
      rewrite Hloop. cbn [st1 with_line with_fs fs DEFAULT_CONFIG console map].
      now rewrite <- app_assoc.
    + intros t' [<-|Hin]; [|now apply Hall].
      rewrite Hkeep; [exact Ht|]. intros t' Hin. now apply Hfirst.
    + intros q Hq. rewrite Hkeep by (intros t' Hin; apply Hq; now right).
      cbn [st1 with_line with_fs fs]. apply Hframe. apply Hq. now left.
Qed.



End WithHome.

Lemma two_targets_settled : settled Examples.home (fs Samples.two_targets_state).
Proof. split; [|split]; reflexivity. Qed.



End SyncAllFacts.

(** ** Git URL parsing: the URL of a repository on GitHub *)

Module GitHubUrlFacts.
Import JS Paths Shape Regex RegexFacts.

Lemma matches_count : forall c r s caps s' caps',
    Matches r s caps s' caps' -> min_count c r + count_char c s' <= count_char c s.
Proof.
  intros c r s caps s' caps' H.
  induction H; cbn [min_count count_char] in *; lia.
Qed.

Lemma count_char_app : forall c a b,
    count_char c (a +++ b) = count_char c a + count_char c b.
Proof. induction a as [|d a IH]; intros b; cbn; [reflexivity | rewrite IH; lia]. Qed.

Lemma count_slash_free : forall s, slash_free s = true -> count_char "/" s = 0.
Proof.
  induction s as [|d s IH]; intros H; [reflexivity|].
  cbn [slash_free] in H. apply andb_true_iff in H. destruct H as [Hd Hs].
  cbn [count_char]. destruct (Ascii.eqb d "/"); [discriminate | now rewrite IH].
Qed.

(** No match anywhere in a text that has too few of a character that the
    expression needs. *)
Lemma search_none_by_count : forall c r s pre,
    count_char c s < min_count c r -> search_from r pre s = None.
Proof.
  intros c r s. induction s as [|d s IH]; intros pre H.
  - cbn [search_from].
    destruct (rmatch r EmptyString [] _) as [m|] eqn:E; [|reflexivity].
    apply rmatch_sound in E. destruct E as (s' & caps' & HM & _).
    apply (matches_count c) in HM. cbn [count_char] in *. lia.
  - cbn [search_from].
    destruct (rmatch r (String d s) [] _) as [m|] eqn:E.
    + apply rmatch_sound in E. destruct E as (s' & caps' & HM & _).
      apply (matches_count c) in HM. lia.
    + apply IH. cbn [count_char] in H. lia.
Qed.

Lemma rmatch_lit : forall (R : Type) t s caps (k : string -> captures -> option R),
    rmatch (RLit t) (t +++ s) caps k = k s caps.
Proof.
  intros R t. induction t as [|c t IH]; intros s caps k; [reflexivity|].
  destruct t as [|c' t'].
  - cbn [RLit rmatch String.append]. now rewrite Ascii.eqb_refl.
  - change (RLit (String c (String c' t'))) with (RSeq (RChar c) (RLit (String c' t'))).
    change (String c (String c' t') +++ s) with (String c (String c' t' +++ s)).
    cbn [rmatch]. rewrite Ascii.eqb_refl. apply IH.
Qed.

Lemma rmatch_seq : forall (R : Type) r1 r2 s caps (k : string -> captures -> option R),
    rmatch (RSeq r1 r2) s caps k = rmatch r1 s caps (fun s' caps' => rmatch r2 s' caps' k).
Proof. reflexivity. Qed.

Lemma rmatch_char : forall (R : Type) c s caps (k : string -> captures -> option R),
    rmatch (RChar c) (String c s) caps k = k s caps.
Proof. intros. cbn [rmatch]. now rewrite Ascii.eqb_refl. Qed.

(** A greedy star over a class goes to the end of the run of the class
    when what follows it succeeds there. *)
Lemma star_greedy_class : forall (R : Type) negated items (k : string -> captures -> option R)
                                 t s caps y fuel,
    class_all negated items t = true ->
    stops negated items s ->
    k s caps = Some y ->
    String.length t <= fuel ->
    star_loop (RSet negated items) true k fuel (t +++ s) caps = Some y.
Proof.
  intros R negated items k t. induction t as [|c t IH]; intros s caps y fuel Hc Hs Hk Hf.
  - cbn [String.append]. destruct fuel as [|fuel]; [exact Hk|].
    cbn [star_loop]. destruct s as [|d s]; cbn [rmatch]; [exact Hk|].
    cbn [stops] in Hs. now rewrite Hs.
  - cbn [class_all] in Hc. apply andb_true_iff in Hc. destruct Hc as [Hc Ht].
    destruct fuel as [|fuel]; [cbn in Hf; lia|].
    cbn [String.append star_loop rmatch].
    destruct (Bool.eqb (existsb (cset_mem c) items) negated); [discriminate Hc|].
    assert (L : Nat.ltb (String.length (t +++ s)) (String.length (String c (t +++ s))) = true)
      by (apply Nat.ltb_lt; cbn; lia).
    rewrite L. rewrite (IH s caps y fuel Ht Hs Hk) by (cbn in Hf; lia). reflexivity.
Qed.

Lemma group_greedy_class : forall (R : Type) i negated items
                                  (k : string -> captures -> option R) t s caps y,
    t <> EmptyString ->
    class_all negated items t = true ->
    stops negated items s ->
    k s ((i, t) :: caps) = Some y ->
    rmatch (RGroup i (RPlus true (RSet negated items))) (t +++ s) caps k = Some y.
Proof.
  intros R i negated items k t s caps y Hne Hc Hs Hk.
  destruct t as [|c t]; [congruence|].
  cbn [class_all] in Hc. apply andb_true_iff in Hc. destruct Hc as [Hc Ht].
  unfold RPlus. cbn [rmatch String.append].
  destruct (Bool.eqb (existsb (cset_mem c) items) negated); [discriminate Hc|].
  change (star_loop (RSet negated items) true
            (fun s' caps' => k s' ((i, consumed (String c (t +++ s)) s') :: caps'))
            (S (String.length (t +++ s))) (t +++ s) caps = Some y).
  apply star_greedy_class; [exact Ht | exact Hs | | ].
  - change (String c (t +++ s)) with (String c t +++ s). now rewrite consumed_app.
  - rewrite CloneFacts.length_append. lia.
Qed.

Lemma search_skip : forall r pre c s,
    rmatch r (String c s) []
      (fun s' caps => Some (MatchResult pre (consumed (String c s) s') s' caps)) = None ->
    search_from r pre (String c s) = search_from r (pre +++ String c EmptyString) s.
Proof. intros r pre c s H. cbn [search_from]. now rewrite H. Qed.

Lemma search_here : forall r pre s m,
    rmatch r s [] (fun s' caps => Some (MatchResult pre (consumed s s') s' caps)) = Some m ->
    search_from r pre s = Some m.
Proof. intros r pre s m H. destruct s; cbn [search_from]; now rewrite H. Qed.

Lemma no_dotgit_to_strip : forall name pre,
    class_all true repo_chars name = true ->
    search_from re_dotgit_end pre name = None.
Proof.
  induction name as [|c name IH]; intros pre H; [reflexivity|].
  cbn [class_all] in H. apply andb_true_iff in H. destruct H as [Hc Hn].
  rewrite search_skip; [now apply IH|].
  unfold re_dotgit_end. cbn [RLit rmatch].
  destruct (Ascii.eqb "." c) eqn:E; [|reflexivity].
  apply Ascii.eqb_eq in E. subst c. discriminate Hc.
Qed.

Lemma strip_git_plain : forall name,
    class_all true repo_chars name = true -> strip_git name = name.
Proof.
  intros name H. unfold strip_git, replace_empty, exec.
  now rewrite no_dotgit_to_strip.
Qed.

Lemma slash_free_class : forall t, slash_free t = true -> class_all true [CsChar "/"] t = true.
Proof.
  induction t as [|c t IH]; intros H; [reflexivity|].
  cbn [slash_free] in H. apply andb_true_iff in H. destruct H as [Hc Ht].
  cbn [class_all existsb cset_mem orb]. rewrite (IH Ht), andb_true_r.
  rewrite orb_false_r. now destruct (Ascii.eqb c "/").
Qed.

Lemma repo_chars_slash_free : forall name,
    class_all true repo_chars name = true -> slash_free name = true.
Proof.
  induction name as [|c name IH]; intros H; [reflexivity|].
  cbn [class_all] in H. apply andb_true_iff in H. destruct H as [Hc Hn].
  cbn [slash_free]. rewrite (IH Hn), andb_true_r.
  cbn [existsb cset_mem repo_chars] in Hc. destruct (Ascii.eqb c "/"); [discriminate Hc|].
  reflexivity.
Qed.

(** The basic form of [parseGitHubUrl] on the URL of a repository. *)
Lemma github_https_match : forall owner name rest,
    owner <> EmptyString -> slash_free owner = true ->
    name <> EmptyString -> class_all true repo_chars name = true ->
    stops true repo_chars rest -> slash_free rest = true ->
    parseGitHubUrl ("https://github.com/" +++ owner +++ "/" +++ name +++ rest)
    = Some (mkParsed "github.com" owner name None None
              ("https://github.com/" +++ owner +++ "/" +++ name +++ ".git")).
Proof.
  intros owner name rest Ho Hos Hn Hnc Hstop Hrest.
  unfold parseGitHubUrl.
  assert (E1 : exec (re_subdir "github.com" marker_github)
                 ("https://github.com/" +++ owner +++ "/" +++ name +++ rest) = None).
  { apply (search_none_by_count "/"%char).
    rewrite !count_char_app, (count_slash_free owner Hos),
      (count_slash_free name (repo_chars_slash_free name Hnc)),
      (count_slash_free rest Hrest).
    cbn. lia. }
  rewrite E1.
  set (url := "https://github.com/" +++ owner +++ "/" +++ name +++ rest).
  assert (E2 : exists m, exec (re_https "github.com") url = Some m
                         /\ groups m = [(2, name); (1, owner)]).
  { unfold exec, url. eexists. split.
    - cbn [String.append].
      do 8 (rewrite search_skip by reflexivity).
      apply search_here. unfold re_https.
      change (String "g" (String "i" (String "t" (String "h" (String "u" (String "b"
               (String "." (String "c" (String "o" (String "m" (String "/"
                 (owner +++ String "/" (name +++ rest)))))))))))))
        with ("github.com" +++ String "/" (owner +++ String "/" (name +++ rest))).
      rewrite rmatch_seq, rmatch_lit, rmatch_seq, rmatch_char, rmatch_seq.
      apply group_greedy_class; [exact Ho | now apply slash_free_class | reflexivity |].
      cbv beta. rewrite rmatch_seq, rmatch_char.
      apply group_greedy_class; [exact Hn | exact Hnc | exact Hstop | reflexivity].
    - reflexivity. }
  destruct E2 as (m & E2 & Hg). rewrite E2, Hg. cbn [group Nat.eqb].
  now rewrite (strip_git_plain name Hnc).
Qed.

(** X21.  The URL of a repository on GitHub.  For an owner that is not
    empty and holds no slash, and a name of ASCII characters that is not empty
    and holds no slash, dot or white space, [parseGitUrl] reads
    [https://github.com/<owner>/<name>] as that owner and that repository,
    without branch or subdirectory, with the clone URL
    [https://github.com/<owner>/<name>.git].  It reads the same from the URL
    followed by a dot and any text without a slash: [.git] is dropped, and so
    is the rest of a repository name from its first dot on. *)
Theorem parseGitUrl_reads_github_https : forall owner name ext,
    owner <> EmptyString -> slash_free owner = true ->
    name <> EmptyString -> class_all true repo_chars name = true ->
    ascii_only name = true ->
    slash_free ext = true ->
    parseGitUrl ("https://github.com/" +++ owner +++ "/" +++ name)
    = Some (mkParsed "github.com" owner name None None
              ("https://github.com/" +++ owner +++ "/" +++ name +++ ".git"))
    /\ parseGitUrl ("https://github.com/" +++ owner +++ "/" +++ name +++ "." +++ ext)
       = Some (mkParsed "github.com" owner name None None
                 ("https://github.com/" +++ owner +++ "/" +++ name +++ ".git")).
Proof.
  intros owner name ext Ho Hos Hn Hnc _ Hext. unfold parseGitUrl. split.
  - pose proof (github_https_match owner name EmptyString Ho Hos Hn Hnc I eq_refl) as H.
    rewrite HashFacts.string_app_nil_r in H. now rewrite H.
  - now rewrite (github_https_match owner name ("." +++ ext) Ho Hos Hn Hnc eq_refl Hext).
Qed.

Lemma parseGitUrl_reads_github_https_witness :
  parseGitUrl "https://github.com/vercel/next"
  = Some (mkParsed "github.com" "vercel" "next" None None
            "https://github.com/vercel/next.git")
  /\ parseGitUrl "https://github.com/vercel/next.js"
     = Some (mkParsed "github.com" "vercel" "next" None None
               "https://github.com/vercel/next.git").
Proof.
  apply (parseGitUrl_reads_github_https "vercel" "next" "js").
  - discriminate.
  - reflexivity.
  - discriminate.
  - reflexivity.
  - reflexivity.
  - reflexivity.
Defined.

End GitHubUrlFacts.

(** ** [readConfig] on a registry of the older schema *)

Module MigrationFacts.
Import JS Fs Hash Shape Proc Store Registry Frame RegistryShape Trees Migration.
Import FsFacts ProcFacts RegistryFacts.
Local Open Scope proc_scope.

Lemma stable_ret : forall (A : Type) I (a : A), stable I (ret a).
Proof. intros A I a st r st' H E. inversion E. now subst. Qed.

Lemma stable_bind : forall (A B : Type) I (m : M A) (k : A -> M B),
    stable I m -> (forall a, stable I (k a)) -> stable I (bind m k).
Proof.
  intros A B I m k Hm Hk st r st' H E. unfold bind in E.
  destruct (m st) as [[a|e] st1] eqn:E1.
  - exact (Hk a st1 r st' (Hm st _ st1 H E1) E).
  - inversion E; subst. exact (Hm st _ st' H E1).
Qed.

Lemma stable_tryCatch : forall (A : Type) I (m : M A) h,
    stable I m -> (forall e, stable I (h e)) -> stable I (tryCatch m h).
Proof.
  intros A I m h Hm Hh st r st' H E. unfold tryCatch in E.
  destruct (m st) as [[a|e] st1] eqn:E1.
  - inversion E; subst. exact (Hm st _ st' H E1).
  - exact (Hh e st1 r st' (Hm st _ st1 H E1) E).
Qed.

Lemma stable_readFs : forall (A : Type) I (f : node -> A), stable I (readFs f).
Proof. intros A I f st r st' H E. inversion E. now subst. Qed.

Lemma stable_print : forall I l, stable I (print l).
Proof. intros I l st r st' H E. inversion E. now subst. Qed.

Lemma stable_tryFs : forall (I : node -> Prop) op,
    (forall n n', I n -> op n = Ok n' -> I n') -> stable I (tryFs op).
Proof.
  intros I op Hop st r st' H E. unfold tryFs in E.
  destruct (op (fs st)) as [n|e] eqn:E1.
  - inversion E; subst. cbn [fs]. exact (Hop _ _ H E1).
  - inversion E. now subst.
Qed.

Lemma stable_if : forall (A : Type) I (b : bool) (m1 m2 : M A),
    stable I m1 -> stable I m2 -> stable I (if b then m1 else m2).
Proof. intros A I [|] m1 m2 H1 H2; assumption. Qed.

(** A [try] whose [catch] does nothing always returns. *)
Lemma guarded_returns : forall (m : M unit) st,
    exists st', tryCatch m (fun _ => ret tt) st = (Ok tt, st').
Proof.
  intros m st. unfold tryCatch. destruct (m st) as [[[]|e] st1]; eexists; reflexivity.
Qed.

Section WithHome.
Variable homedir : string.
Local Abbreviation ROOT := (SKILLS_ROOT homedir).
Local Abbreviation STORE := (SKILLS_STORE homedir).
Local Abbreviation CONFIG := (CONFIG_PATH homedir).
Local Abbreviation in_place := (Migration.in_place homedir).

Lemma below_STORE_in_place : forall v mk f x q n,
    in_place v n -> in_place v (update mk f (STORE ++ x :: q) n).
Proof.
  intros v mk f x q n ((HR & HS & HC) & Hv).
  assert (Hd : diverge CONFIG (STORE ++ x :: q))
    by (apply diverge_extend, CONFIG_diverges_STORE).
  assert (E : lookup (update mk f (STORE ++ x :: q) n) CONFIG = lookup n CONFIG)
    by now apply update_lookup_diverge.
  split; [split; [|split]|].
  - rewrite STORE_eq, <- app_assoc. cbn [app]. now apply update_keeps_dir_above.
  - now apply update_keeps_dir_above.
  - now rewrite E.
  - now rewrite E.
Qed.

Lemma rename_in_place : forall v a b n n',
    a <> [] -> in_place v n -> rename (STORE ++ a) (STORE ++ b) n = Ok n' -> in_place v n'.
Proof.
  intros v a b n n' Ha HI H. unfold rename in H.
  destruct (lookup n (STORE ++ a)) as [m|] eqn:Hfrom; [|discriminate H].
  destruct a as [|x a]; [congruence|].
  destruct b as [|y b].
  - exfalso. rewrite app_nil_r in H. destruct HI as ((_ & HS & _) & _).
    rewrite lookup_app in Hfrom.
    destruct (lookup n STORE) as [[r d|r [|e es]|]|]; try discriminate HS;
      [discriminate Hfrom | discriminate H].
  - assert (Hgo : (if isDirectory (lookup n (parent (STORE ++ y :: b)))
                   then Ok (update false (fun _ => Some m) (STORE ++ y :: b)
                              (rm (STORE ++ x :: a) n))
                   else Throw (Error "ENOENT: no such file or directory, rename")) = Ok n' ->
                  in_place v n').
    { destruct (isDirectory (lookup n (parent (STORE ++ y :: b)))); [|discriminate].
      intros E. inversion E. unfold rm. now do 2 apply below_STORE_in_place. }
    destruct (lookup n (STORE ++ y :: b)) as [[r d|r [|e es]|]|];
      try discriminate H; exact (Hgo H).
Qed.

Lemma rm_plain_in_place : forall v q n n',
    in_place v n -> rm_plain (STORE ++ q) n = Ok n' -> in_place v n'.
Proof.
  intros v q n n' HI H. unfold rm_plain in H. destruct q as [|x q].
  - exfalso. rewrite app_nil_r in H. destruct HI as ((_ & HS & _) & _).
    destruct (lookup n STORE) as [[r d|r es|]|]; try discriminate HS. discriminate H.
  - assert (E : n' = rm (STORE ++ x :: q) n).
    { destruct (lookup n (STORE ++ x :: q)) as [[r d|r es|]|]; try discriminate H;
        now inversion H. }
    subst n'. unfold rm. now apply below_STORE_in_place.
Qed.

(** Whatever [migrateSkillFolder] does to the folders, the tool's
    directories and the registry file stay as they are. *)
Lemma migrateSkillFolder_in_place : forall v oldNamespace newName,
    segments oldNamespace <> [] ->
    stable (in_place v) (migrateSkillFolder homedir oldNamespace newName).
Proof.
  intros v oldNamespace newName Hne. unfold migrateSkillFolder.
  apply stable_tryCatch; [|intros _; apply stable_ret].
  apply stable_bind; [apply stable_readFs | intro skillMd].
  apply stable_bind;
    [apply stable_if; [apply stable_ret | apply stable_readFs] | intro oldItself].
  apply stable_if; [|apply stable_ret].
  apply stable_bind; [apply stable_readFs | intro newExists].
  apply stable_if; [|apply stable_ret].
  apply stable_bind; [|intros _].
  - apply stable_tryFs. intros n n' HI H. unfold join in H.
    now apply (rename_in_place v _ _ n n' Hne HI H).
  - apply stable_bind; [apply stable_print | intros _].
    apply stable_tryCatch; [|intros _; apply stable_ret].
    apply stable_tryFs. intros n n' HI H. unfold join in H.
    now apply (rm_plain_in_place v _ n n' HI H).
Qed.

Lemma migrateSkillFolder_returns : forall oldNamespace newName st,
    exists st', migrateSkillFolder homedir oldNamespace newName st = (Ok tt, st').
Proof. intros. unfold migrateSkillFolder. apply guarded_returns. Qed.

Lemma plain_path_not_nil : forall p, plain_path p = true -> p <> [].
Proof. intros [|x p] H; [discriminate H | discriminate]. Qed.

(** The loop of [readConfig] rewrites the entries of the older schema,
    whatever becomes of their folders. *)
Lemma migrateSources_migrates : forall v l st,
    forallb plainly_placed l = true ->
    in_place v (fs st) ->
    exists st',
      migrateSources homedir l st
      = (Ok (map migrated_source l, existsb needs_migration l), st')
      /\ in_place v (fs st').
Proof.
  intros v l. induction l as [|s l IH]; intros st Hp HI.
  - exists st. split; [reflexivity | exact HI].
  - cbn [forallb] in Hp. apply andb_true_iff in Hp. destruct Hp as [Hs Hl].
    cbn [migrateSources map existsb]. unfold migrated_source, plainly_placed in *.
    fold (needs_migration s). destruct (needs_migration s) eqn:E.
    + apply plain_path_not_nil in Hs.
      destruct (migrateSkillFolder_returns (show_opt (Source.namespace s))
                  (last_segment (split "/" (show_opt (Source.namespace s)))) st)
        as [st1 E1].
      pose proof (migrateSkillFolder_in_place v _ _ Hs st _ st1 HI E1) as HI1.
      destruct (IH st1 Hl HI1) as (st' & Hrun & HI').
      exists st'. split; [|exact HI'].
      rewrite (bind_ok _ _ _ _ st tt st1 E1).
      rewrite (bind_ok _ _ _ _ st1 _ st' Hrun). reflexivity.
    + destruct (IH st Hl HI) as (st' & Hrun & HI').
      exists st'. split; [|exact HI'].
      rewrite (bind_ok _ _ _ _ st _ st' Hrun). reflexivity.
Qed.

Lemma migrated_source_current : forall s, needs_migration (migrated_source s) = false.
Proof.
  intros s. unfold migrated_source. destruct (needs_migration s) eqn:E; [reflexivity | exact E].
Qed.

Lemma migrated_current : forall c, current_schema (sources (migrated c)).
Proof.
  intros c. unfold current_schema, migrated. cbn [sources].
  apply Forall_forall. intros s Hs. apply in_map_iff in Hs. destruct Hs as (s0 & <- & _).
  apply migrated_source_current.
Qed.

Lemma nothing_to_migrate : forall l,
    existsb needs_migration l = false -> map migrated_source l = l.
Proof.
  induction l as [|s l IH]; intros H; [reflexivity|].
  cbn [existsb] in H. apply orb_false_iff in H. destruct H as [Hs Hl].
  cbn [map]. unfold migrated_source at 1. now rewrite Hs, IH.
Qed.


End WithHome.


End MigrationFacts.

(** ** Removing a target *)

Module RemoveTargetFacts.
Import JS Fs Proc Store Registry Frame RegistryShape Migration Plain.
Import FsFacts ProcFacts RegistryFacts MigrationFacts.
Local Open Scope proc_scope.

Section WithHome.
Variable homedir : string.
Local Abbreviation ROOT := (SKILLS_ROOT homedir).
Local Abbreviation STORE := (SKILLS_STORE homedir).
Local Abbreviation CONFIG := (CONFIG_PATH homedir).

Lemma diverge_below_STORE : forall p s, diverge p STORE -> diverge p (join STORE s).
Proof. intros p s H. unfold join. now apply diverge_extend. Qed.

(** The migration of a folder works below the store. *)
Lemma migrateSkillFolder_keeps_outside : forall p oldNamespace newName,
    diverge p STORE -> preserves p (migrateSkillFolder homedir oldNamespace newName).
Proof.
  intros p oldNamespace newName H. unfold migrateSkillFolder.
  apply preserves_tryCatch; [|intros _; apply preserves_ret].
  apply preserves_bind; [apply preserves_readFs | intro skillMd].
  apply preserves_bind;
    [apply preserves_if; [apply preserves_ret | apply preserves_readFs] | intro oldItself].
  apply preserves_if; [|apply preserves_ret].
  apply preserves_bind; [apply preserves_readFs | intro newExists].
  apply preserves_if; [|apply preserves_ret].
  apply preserves_bind; [|intros _].
  - apply preserves_tryFs, rename_keeps; now apply diverge_below_STORE.
  - apply preserves_bind; [apply preserves_print | intros _].
    apply preserves_tryCatch; [|intros _; apply preserves_ret].
    apply preserves_tryFs, rm_plain_keeps. now apply diverge_below_STORE.
Qed.

Lemma migrateSources_keeps_outside : forall p l,
    diverge p STORE -> preserves p (migrateSources homedir l).
Proof.
  intros p l H. induction l as [|s l IH]; cbn [migrateSources].
  - apply preserves_ret.
  - apply preserves_if.
    + apply preserves_bind; [now apply migrateSkillFolder_keeps_outside | intros _].
      apply preserves_bind; [exact IH | intro r; apply preserves_ret].
    + apply preserves_bind; [exact IH | intro r; apply preserves_ret].
Qed.

(** Reading a registry that is in place, of whatever schema: the entries of
    the older schema are rewritten, and nothing changes but the registry file
    and what stands below the store. *)
Lemma readConfig_in_place : forall st c,
    settled homedir (fs st) ->
    lookup (fs st) CONFIG = Some (File true (Json c)) ->
    forallb plainly_placed (sources c) = true ->
    exists st',
      readConfig homedir st = (Ok (Fresh (migrated c)), st')
      /\ settled homedir (fs st')
      /\ lookup (fs st') CONFIG = Some (File true (Json (migrated c)))
      /\ forall p, diverge p CONFIG -> diverge p STORE ->
                   lookup (fs st') p = lookup (fs st) p.
Proof.
  intros st c Hset Hreg Hplain.
  destruct (migrateSources_migrates homedir (Some (File true (Json c))) (sources c) st Hplain
              (conj Hset Hreg)) as (st1 & Hrun & Hset1 & Hreg1).
  set (st' := if existsb needs_migration (sources c)
              then with_registry homedir (migrated c) st1 else st1).
  exists st'. split; [|split; [|split]].
  - unfold readConfig.
    rewrite (bind_ok _ _ _ _ st tt st) by now apply ensureDirectories_settled.
    rewrite (bind_ok _ _ _ _ st true st)
      by (unfold exists_, readFs; now rewrite Hreg).
    cbn [negb]. apply tryCatch_ok.
    rewrite (bind_ok _ _ _ _ st c st) by (unfold askFs, json; now rewrite Hreg).
    rewrite (bind_ok _ _ _ _ st _ st1 Hrun). cbn [fst snd]. fold (migrated c).
    unfold st'. destruct (existsb needs_migration (sources c)).
    + rewrite (bind_ok _ _ _ _ st1 tt (with_registry homedir (migrated c) st1))
        by now apply writeConfig_settled.
      reflexivity.
    + reflexivity.
  - unfold st'. destruct (existsb needs_migration (sources c));
      [now apply settled_with_registry | exact Hset1].
  - unfold st'. destruct (existsb needs_migration (sources c)) eqn:E.
    + now apply settled_with_registry.
    + rewrite Hreg1. unfold migrated. rewrite (nothing_to_migrate _ E). now destruct c.
  - intros p HpC HpS.
    assert (H1 : lookup (fs st1) p = lookup (fs st) p)
      by exact (migrateSources_keeps_outside p (sources c) HpS st _ st1 Hrun).
    unfold st'. destruct (existsb needs_migration (sources c)); [|exact H1].
    unfold with_registry. cbn [fs]. rewrite <- H1. now apply update_lookup_diverge.
Qed.

Lemma removeTarget_in_place : forall name st c,
    settled homedir (fs st) ->
    lookup (fs st) CONFIG = Some (File true (Json c)) ->
    forallb plainly_placed (sources c) = true ->
    exists st1,
      (forall p, diverge p CONFIG -> diverge p STORE -> lookup (fs st1) p = lookup (fs st) p)
      /\ removeTarget homedir name st
         = match splice_first (fun t => String.eqb (Target.name t) name) (targets c) with
           | None => (Ok None, st1)
           | Some (removed, rest) =>
               (Ok (Some removed),
                with_registry homedir (mkConfig (sources (migrated c)) rest) st1)
           end
      /\ settled homedir (fs st1).
Proof.
  intros name st c Hset Hreg Hplain.
  destruct (readConfig_in_place st c Hset Hreg Hplain) as (st1 & Hread & Hset1 & _ & Hkeep).
  exists st1. split; [exact Hkeep|]. split; [|exact Hset1].
  unfold removeTarget.
  rewrite (bind_ok _ _ _ _ st (Fresh (migrated c)) st1 Hread).
  rewrite (bind_ok _ _ _ _ st1 (migrated c) st1) by reflexivity.
  cbn [migrated targets sources].
  destruct (splice_first _ (targets c)) as [[removed rest]|]; [|reflexivity].
  rewrite (bind_ok _ _ _ _ st1 tt st1) by reflexivity.
  rewrite (bind_ok _ _ _ _ st1 tt _ (writeConfig_settled homedir _ st1 Hset1)).
  reflexivity.
Qed.

(** On a disk where the tool's directories are in place, [removeTarget]
    touches the registry file and, when it migrates, the store. *)
Lemma removeTarget_keeps_outside : forall name st r st' p,
    settled homedir (fs st) ->
    (forall c, lookup (fs st) CONFIG = Some (File true (Json c)) ->
               forallb plainly_placed (sources c) = true) ->
    diverge p CONFIG -> diverge p STORE ->
    removeTarget homedir name st = (r, st') ->
    lookup (fs st') p = lookup (fs st) p.
Proof.
  intros name st r st' p Hset Hplain HpC HpS Hrun.
  destruct (lookup (fs st) CONFIG) as [[[|] [raw|c]|rd es|]|] eqn:E.
  2: { destruct (removeTarget_in_place name st c Hset E (Hplain c eq_refl))
         as (st1 & Hkeep & Heq & _).
       rewrite Heq in Hrun.
       destruct (splice_first _ (targets c)) as [[removed rest]|];
         inversion Hrun; subst; [|now apply Hkeep].
       unfold with_registry. cbn [fs]. rewrite <- (Hkeep p HpC HpS).
       now apply update_lookup_diverge. }
  all: apply (removeTarget_touches_registry homedir name st r st' Hset); auto;
       intros c0 Hc0; rewrite E in Hc0; discriminate Hc0.
Qed.

(** C10, as amended.  Removing a target changes the registry file and, where
    the [readConfig] that it runs has entries of the older schema to migrate,
    the store; nothing else.  Take a disk on which the tool's own directory
    is where its path says (no [.] or [..] in the home directory, no symbolic
    link on the way to [~/.skills] or inside it) and a registry whose entries
    of the older schema, if it has any, name places below the store.
    Whatever stands at a path that lies apart from [~/.skills] (so the
    directory of a target there and every file in it) is the same after
    [removeTarget] and after [targetRemove] as before, whatever their
    outcome.  When the tool's directories are in place, the same holds of
    every path apart from the registry file and the store, and of every path
    apart from the registry file when the registry has no entry of the older
    schema: so also of a target that is registered below [~/.skills].  For a
    target that the registry lists, [removeTarget] returns that target's
    record; the registry file then holds the configuration without it, its
    other targets in their order and its sources as [readConfig] migrates
    them; and [targetRemove] returns after the same change to the disk. *)
Theorem removeTarget_only_registry : forall name st,
    own_directory_plain homedir (fs st) ->
    (forall c, lookup (fs st) CONFIG = Some (File true (Json c)) ->
               forallb plainly_placed (sources c) = true) ->
    (forall p r st',
        diverge p ROOT ->
        removeTarget homedir name st = (r, st') ->
        lookup (fs st') p = lookup (fs st) p)
    /\ (forall p r st',
           diverge p ROOT ->
           TargetCmd.targetRemove homedir name st = (r, st') ->
           lookup (fs st') p = lookup (fs st) p)
    /\ (settled homedir (fs st) ->
        forall p,
          diverge p CONFIG ->
          diverge p STORE
          \/ (forall c, lookup (fs st) CONFIG = Some (File true (Json c)) ->
                        current_schema (sources c)) ->
          (forall r st', removeTarget homedir name st = (r, st') ->
                         lookup (fs st') p = lookup (fs st) p)
          /\ (forall r st', TargetCmd.targetRemove homedir name st = (r, st') ->
                            lookup (fs st') p = lookup (fs st) p))
    /\ (forall c t,
           usable homedir (fs st) ->
           lookup (fs st) CONFIG = Some (File true (Json c)) ->
           find (fun t' => String.eqb (Target.name t') name) (targets c) = Some t ->
           exists st' front back,
             removeTarget homedir name st = (Ok (Some t), st')
             /\ Target.name t = name
             /\ targets c = front ++ t :: back
             /\ lookup (fs st') CONFIG
                = Some (File true (Json (mkConfig (sources (migrated c)) (front ++ back))))
             /\ (current_schema (sources c) -> sources (migrated c) = sources c)
             /\ exists st'',
                 TargetCmd.targetRemove homedir name st = (Ok tt, st'')
                 /\ fs st'' = fs st').
Proof.
  intros name st _ Hplain. split; [|split; [|split]].
  - intros p r st' Hd Hrun. eapply removeTarget_preserves; eauto.
  - intros p r st' Hd Hrun. eapply targetRemove_preserves; eauto.
  - intros Hs p HpC Hor.
    assert (Hremove : forall r st', removeTarget homedir name st = (r, st') ->
                                    lookup (fs st') p = lookup (fs st) p).
    { intros r st' Hrun. destruct Hor as [HpS|Hcur].
      - exact (removeTarget_keeps_outside name st r st' p Hs Hplain HpC HpS Hrun).
      - exact (removeTarget_touches_registry homedir name st r st' Hs Hcur Hrun p HpC). }
    split; [exact Hremove|].
    intros r st' Hrun.
    destruct (targetRemove_follows homedir name st r st' Hrun) as (r0 & st0 & Hrun0 & ->).
    exact (Hremove r0 st0 Hrun0).
  - intros c t Hu Hl Hfind.
    destruct (ensureDirectories_usable homedir st Hu) as (n & Hens & Hs & Hln).
    assert (Hstart : removeTarget homedir name st
                     = removeTarget homedir name (with_fs n st)).
    { unfold removeTarget. apply bind_same_start. now apply readConfig_usable. }
    assert (Hl' : lookup (fs (with_fs n st)) CONFIG = Some (File true (Json c)))
      by (cbn [with_fs fs]; now rewrite Hln).
    assert (Hs' : settled homedir (fs (with_fs n st))) by exact Hs.
    destruct (removeTarget_in_place name (with_fs n st) c Hs' Hl' (Hplain c Hl))
      as (st1 & _ & Heq & Hs1).
    rewrite Heq in Hstart.
    destruct (splice_first_found _ _ _ _ Hfind) as (front & back & Hsp & Htargets & Ht).
    rewrite Hsp in Hstart.
    set (st' := with_registry homedir (mkConfig (sources (migrated c)) (front ++ back)) st1)
      in *.
    exists st', front, back.
    split; [exact Hstart|]. split; [now apply String.eqb_eq|]. split; [exact Htargets|].
    split; [|split].
    + apply (settled_with_registry homedir _ st1). exact Hs1.
    + intros Hcur. unfold migrated. cbn [sources]. apply nothing_to_migrate.
      clear - Hcur. induction Hcur as [|s l Hs _ IH]; [reflexivity|].
      cbn [existsb]. now rewrite Hs, IH.
    + unfold TargetCmd.targetRemove.
      rewrite (bind_ok _ _ _ _ st (Some t) st') by exact Hstart.
      eexists. split; [reflexivity | reflexivity].
Qed.

End WithHome.

Lemma old_state_plain :
  own_directory_plain Examples.home (fs Samples.old_state).
Proof.
  split; [reflexivity|]. split; [reflexivity|].
  intros m H. vm_compute in H. inversion H. reflexivity.
Qed.

(** A registry of the older schema that lists the target [cursor]: the
    target's directory keeps its file, the store is the only other place that
    changes, and the record comes back. *)
Lemma removeTarget_only_registry_witness :
  lookup (fs (snd (removeTarget Examples.home "cursor" Samples.old_state)))
         ["work"; "cursor"]
  = Some (Dir true [("notes.md", File true (Text "mine"))])
  /\ lookup (fs (snd (TargetCmd.targetRemove Examples.home "cursor" Samples.old_state)))
            (SKILLS_ROOT Examples.home ++ ["notes"])
     = lookup (fs Samples.old_state) (SKILLS_ROOT Examples.home ++ ["notes"])
  /\ exists st' front back,
      removeTarget Examples.home "cursor" Samples.old_state
      = (Ok (Some Examples.cursor), st')
      /\ Target.name Examples.cursor = "cursor"
      /\ targets Samples.old_config = front ++ Examples.cursor :: back
      /\ lookup (fs st') (CONFIG_PATH Examples.home)
         = Some (File true (Json (mkConfig (sources (migrated Samples.old_config))
                                    (front ++ back))))
      /\ (current_schema (sources Samples.old_config) ->
          sources (migrated Samples.old_config) = sources Samples.old_config)
      /\ exists st'',
          TargetCmd.targetRemove Examples.home "cursor" Samples.old_state = (Ok tt, st'')
          /\ fs st'' = fs st'.
Proof.
  assert (Hplaced : forall c,
             lookup (fs Samples.old_state) (CONFIG_PATH Examples.home)
             = Some (File true (Json c)) ->
             forallb plainly_placed (sources c) = true).
  { intros c H. vm_compute in H. inversion H. reflexivity. }
  destruct (removeTarget_only_registry Examples.home "cursor" Samples.old_state
              old_state_plain Hplaced)
    as (Hframe & _ & Hinside & Hreturns).
  split; [|split].
  - apply (Hframe ["work"; "cursor"]
             (fst (removeTarget Examples.home "cursor" Samples.old_state))
             (snd (removeTarget Examples.home "cursor" Samples.old_state))).
    + exact work_cursor_apart.
    + apply surjective_pairing.
  - refine (proj2 (Hinside _ (SKILLS_ROOT Examples.home ++ ["notes"]) _ (or_introl _))
              (fst (TargetCmd.targetRemove Examples.home "cursor" Samples.old_state))
              (snd (TargetCmd.targetRemove Examples.home "cursor" Samples.old_state))
              _).
    + split; [|split]; reflexivity.
    + apply TreeFacts.part_ways_diverge. reflexivity.
    + apply TreeFacts.part_ways_diverge. reflexivity.
    + apply surjective_pairing.
  - apply (Hreturns Samples.old_config Examples.cursor).
    + split; reflexivity.
    + reflexivity.
    + reflexivity.
Defined.

(** C10, as stated, fails: [removeTarget] reads the registry through
    [readConfig], which migrates the entries of the older schema and moves
    their folders within the store.  With the repository [a/x] in a registry
    of the older schema and a target registered at [~/.skills/store/a], the
    call returns the target's record, and the skill that stood in the
    target's directory at [x/SKILL.md] stands there no more: it is at
    [~/.skills/store/x/SKILL.md].  [targetRemove] leaves the same disk. *)
Lemma removeTarget_moves_migrated_folders :
  lookup (fs Samples.nested_state) (CONFIG_PATH Examples.home)
  = Some (File true (Json Samples.nested_config))
  /\ In Samples.store_target (targets Samples.nested_config)
  /\ segments (Target.path Samples.store_target) = SKILLS_STORE Examples.home ++ ["a"]
  /\ lookup (fs Samples.nested_state)
            (segments (Target.path Samples.store_target) ++ ["x"; "SKILL.md"])
     = Some (File true (Text "# A"))
  /\ exists st',
      removeTarget Examples.home "inside" Samples.nested_state
      = (Ok (Some Samples.store_target), st')
      /\ lookup (fs st') (segments (Target.path Samples.store_target) ++ ["x"; "SKILL.md"])
         = None
      /\ lookup (fs st') (SKILLS_STORE Examples.home ++ ["x"; "SKILL.md"])
         = Some (File true (Text "# A"))
      /\ exists st'',
          TargetCmd.targetRemove Examples.home "inside" Samples.nested_state
          = (Ok tt, st'')
          /\ fs st'' = fs st'.
Proof.
  split; [reflexivity|]. split; [now left|]. split; [reflexivity|].
  split; [reflexivity|].
  eexists. split; [vm_compute; reflexivity|].
  split; [reflexivity|]. split; [reflexivity|].
  eexists. split; [vm_compute; reflexivity | reflexivity].
Qed.

End RemoveTargetFacts.

(** ** [sourceRemove] and [targetAdd] *)

Module CommandsFacts.
Import JS Fs Hash Shape Proc Paths Store Registry Git KnownTargets.
Import Frame RegistryShape Trees Migration Places Commands Plain.
Import FsFacts ProcFacts RegistryFacts TreeFacts.
Local Open Scope proc_scope.

Ltac run_print :=
  cbv beta;
  match goal with
  | |- context [bind (console_log ?t) ?k ?st] =>
      change (bind (console_log t) k st) with (k tt (with_line (Out t) st)); cbv beta
  end.

Section WithHome.
Variable homedir : string.
Variable env_home : string.
Variable resolve : string -> string.
Variable cyan green red : string -> string.
Local Abbreviation ROOT := (SKILLS_ROOT homedir).
Local Abbreviation STORE := (SKILLS_STORE homedir).
Local Abbreviation CONFIG := (CONFIG_PATH homedir).
Local Abbreviation targetAdd := (Commands.targetAdd homedir env_home resolve cyan green red).
Local Abbreviation sourceRemove := (Commands.sourceRemove homedir green).
Local Abbreviation chosen := (Places.chosen homedir env_home resolve).
Local Abbreviation called name :=
  (fun s : Source.t => strict_eq (Source.name s) (Some name)).

Lemma CONFIG_apart_getSkillPath : forall name, diverge CONFIG (getSkillPath homedir name).
Proof. intros. unfold getSkillPath, join. apply diverge_extend, CONFIG_diverges_STORE. Qed.

Lemma sourceRemove_not_found : forall st c name,
    settled homedir (fs st) ->
    lookup (fs st) CONFIG = Some (File true (Json c)) ->
    current_schema (sources c) ->
    find (called name) (sources c) = None ->
    sourceRemove name st = (Throw (Error ("Skill not found: " +++ name)), st).
Proof.
  intros st c name Hset Hreg Hcur Hnone. unfold Commands.sourceRemove.
  assert (E : removeSource homedir name st = (Ok None, st)).
  { rewrite (RegistryRoundTrips.removeSource_present homedir st c name Hset Hreg Hcur).
    rewrite RegistryRoundTrips.splice_first_absent; [reflexivity|].
    intros x Hx. destruct (called name x) eqn:Ex; [|reflexivity].
    exfalso. eapply find_none in Hnone; [|exact Hx]. cbn beta in Hnone. congruence. }
  now rewrite (bind_ok _ _ _ _ st None st E).
Qed.


(** What [targetAdd] does once the path is chosen. *)
Local Abbreviation register_and_sync name absolutePath :=
  (console_log ("Adding target: " +++ cyan name) ;;
   console_log ("Path: " +++ absolutePath) ;;
   tryFs (mkdir (segments absolutePath)) ;;
   addTarget homedir (Target.mk name absolutePath) ;;
   console_log (green ("Successfully registered target: " +++ name)) ;;
   console_log "Performing initial sync..." ;;
   Sync.syncToTarget homedir (Target.mk name absolutePath) ;;
   console_log (green ("Target " +++ quote +++ name +++ quote +++ " is now synced.")) ;;
   ret Cli.Returned).

Lemma targetAdd_chosen : forall name path absolutePath st,
    chosen name path absolutePath ->
    exists st0,
      targetAdd name path st = register_and_sync name absolutePath st0
      /\ fs st0 = fs st /\ DEFAULT_CONFIG st0 = DEFAULT_CONFIG st.
Proof.
  intros name path absolutePath st [[Hp ->]|(Hp & known & Hk & ->)];
    unfold Commands.targetAdd; rewrite Hp.
  - now exists st.
  - rewrite Hk. eexists. split; [|split].
    + erewrite bind_ok by reflexivity. reflexivity.
    + reflexivity.
    + reflexivity.
Qed.

Lemma mkdir_apart : forall T n n1,
    diverge T ROOT -> settled homedir n -> mkdir T n = Ok n1 ->
    settled homedir n1
    /\ lookup n1 CONFIG = lookup n CONFIG /\ lookup n1 STORE = lookup n STORE.
Proof.
  intros T n n1 Hd (HR & HS & HC) Hmk.
  assert (ER : lookup n1 ROOT = lookup n ROOT)
    by exact (mkdir_keeps ROOT T (diverge_sym _ _ Hd) n n1 Hmk).
  assert (ES : lookup n1 STORE = lookup n STORE)
    by exact (mkdir_keeps STORE T (diverge_sym _ _ (diverge_ROOT_STORE homedir T Hd)) n n1 Hmk).
  assert (EC : lookup n1 CONFIG = lookup n CONFIG)
    by exact (mkdir_keeps CONFIG T (diverge_sym _ _ (diverge_ROOT_CONFIG homedir T Hd)) n n1 Hmk).
  unfold settled. rewrite ER, ES, EC. now repeat split.
Qed.


(** X25.  Without a path, [targetAdd] of a name that is not the name of a
    predefined target in any letter case ends the process with status 1:
    three lines are printed, and neither the disk nor the registry is
    touched. *)
Theorem targetAdd_refuses_unknown_name : forall name path st,
    truthy_opt path = false ->
    ~ In (toLowerCase name) (getKnownTargetNames homedir) ->
    exists st',
      targetAdd name path st = (Ok (Cli.Exited 1), st')
      /\ fs st' = fs st /\ DEFAULT_CONFIG st' = DEFAULT_CONFIG st
      /\ console st'
         = console st
             ++ [Err (red ("Unknown target: " +++ name));
                 Out (newline +++ "Run " +++ cyan "skills target available"
                        +++ " to see predefined targets.");
                 Out ("Or specify a custom path: "
                        +++ cyan ("skills target add " +++ name +++ " <path>"))].
Proof.
  intros name path st Hp Hout. unfold Commands.targetAdd. rewrite Hp.
  rewrite (KnownTargetsFacts.getKnownTarget_unlisted homedir name Hout).
  eexists. split; [reflexivity|]. cbn [fs DEFAULT_CONFIG console].
  repeat split. now rewrite <- !app_assoc.
Qed.

End WithHome.


Lemma work_windsurf_ready :
  ready Examples.home (fs Samples.two_targets_state) (Target.mk "windsurf" "/work/windsurf").
Proof.
  split; [apply part_ways_diverge; reflexivity|]. split; [reflexivity|].
  intros es' H. vm_compute in H. discriminate H.
Qed.

Lemma home_cursor_ready :
  ready Examples.home (fs Samples.two_targets_state)
    (Target.mk "cursor"
       (show_path (KnownTargets.under_home Examples.home [".cursor"; "skills"]))).
Proof.
  split; [apply part_ways_diverge; reflexivity|]. split; [reflexivity|].
  intros es' H. vm_compute in H. discriminate H.
Qed.


Lemma targetAdd_refuses_unknown_name_witness :
  exists st',
    Commands.targetAdd Examples.home "/home/u" Samples.plain Samples.plain Samples.plain
      Samples.plain "emacs" None Examples.blank_state
    = (Ok (Cli.Exited 1), st')
    /\ fs st' = fs Examples.blank_state
    /\ DEFAULT_CONFIG st' = DEFAULT_CONFIG Examples.blank_state
    /\ console st'
       = console Examples.blank_state
           ++ [Err (Samples.plain ("Unknown target: " +++ "emacs"));
               Out (newline +++ "Run " +++ Samples.plain "skills target available"
                      +++ " to see predefined targets.");
               Out ("Or specify a custom path: "
                      +++ Samples.plain ("skills target add " +++ "emacs" +++ " <path>"))].
Proof.
  apply (targetAdd_refuses_unknown_name Examples.home "/home/u" Samples.plain
           Samples.plain Samples.plain Samples.plain "emacs" None Examples.blank_state).
  - reflexivity.
  - cbn. intuition discriminate.
Defined.

End CommandsFacts.

(** ** [migrateSkillFolder]: the folder of a skill *)

Module FolderFacts.
Import JS Fs Hash Shape Proc Store Registry Frame RegistryShape Trees Migration Namespaces.
Import FsFacts ProcFacts RegistryFacts TreeFacts NamespacesFacts.
Local Open Scope proc_scope.

Lemma free_of_slash : forall x, free_of (fun c => Ascii.eqb c "/") x = slash_free x.
Proof. induction x as [|c x IH]; [reflexivity|]. cbn. now rewrite IH. Qed.

Lemma split_valid_name : forall x, slash_free x = true -> split "/" x = [x].
Proof.
  intros x H. unfold split. rewrite split_is_split_where.
  rewrite split_acc_free by (now rewrite free_of_slash). reflexivity.
Qed.

Lemma segments_valid_name : forall x, valid_name x = true -> segments x = [x].
Proof.
  intros x H. unfold valid_name in H. apply andb_true_iff in H. destruct H as [Ht Hs].
  unfold segments. rewrite (split_valid_name x Hs). cbn [filter]. now rewrite Ht.
Qed.

Lemma split_two : forall a b,
    slash_free a = true -> slash_free b = true -> split "/" (a +++ "/" +++ b) = [a; b].
Proof.
  intros a b Ha Hb. unfold split. rewrite split_is_split_where.
  rewrite split_acc_free_then by (now rewrite free_of_slash).
  cbn [String.append split_where_acc Ascii.eqb Bool.eqb].
  rewrite split_acc_free by (now rewrite free_of_slash). reflexivity.
Qed.

Lemma segments_two : forall a b,
    valid_name a = true -> valid_name b = true -> segments (a +++ "/" +++ b) = [a; b].
Proof.
  intros a b Ha Hb. unfold valid_name in *.
  apply andb_true_iff in Ha, Hb. destruct Ha as [Hta Hsa], Hb as [Htb Hsb].
  unfold segments. rewrite (split_two a b Hsa Hsb). cbn [filter]. now rewrite Hta, Htb.
Qed.

Lemma lookup_update_child : forall mk f p x n r es,
    lookup n p = Some (Dir r es) ->
    lookup (update mk f (p ++ [x]) n) (p ++ [x]) = f (assoc x es).
Proof.
  intros mk f p x n r es H.
  rewrite lookup_app, (lookup_update_at_parent mk f p x n r es H).
  cbn [lookup_opt lookup]. rewrite assoc_entries_alter_same.
  now destruct (f (assoc x es)).
Qed.

Section WithHome.
Variable homedir : string.
Local Abbreviation ROOT := (SKILLS_ROOT homedir).
Local Abbreviation STORE := (SKILLS_STORE homedir).
Local Abbreviation CONFIG := (CONFIG_PATH homedir).

(** X26.  [migrateSkillFolder] moves the folder of a skill from
    [store/<owner>/<name>] to [store/<name>], for plain names of owner and
    skill.  When the folder holds a file [SKILL.md] and nothing stands at the
    new place, the folder stands at the new place afterwards and no longer at
    the old one, one line is printed, and nothing else changes; the directory
    of the owner stays behind without the folder, even when it is empty then,
    since [rm] without [recursive] refuses a directory.  When the folder is a
    directory without a file [SKILL.md], nothing is moved and nothing is
    printed. *)
Theorem migrateSkillFolder_moves_the_folder : forall owner name st,
    valid_name owner = true -> valid_name name = true ->
    plain_path [owner; name] = true ->
    (forall skill,
        settled homedir (fs st) ->
        lookup (fs st) (STORE ++ [owner; name]) = Some skill ->
        isFile (lookup (fs st) (STORE ++ [owner; name; "SKILL.md"])) = true ->
        lookup (fs st) (STORE ++ [name]) = None ->
        exists st' r es,
          migrateSkillFolder homedir (owner +++ "/" +++ name) name st = (Ok tt, st')
          /\ lookup (fs st') (STORE ++ [name]) = Some skill
          /\ lookup (fs st') (STORE ++ [owner; name]) = None
          /\ lookup (fs st) (STORE ++ [owner]) = Some (Dir r es)
          /\ lookup (fs st') (STORE ++ [owner]) = Some (Dir r (remove_name name es))
          /\ (forall q, diverge q (STORE ++ [owner; name]) -> diverge q (STORE ++ [name]) ->
                        lookup (fs st') q = lookup (fs st) q)
          /\ console st'
             = console st
                 ++ [Out ("Migrated skill folder: " +++ (owner +++ "/" +++ name)
                            +++ " -> " +++ name)])
    /\ (isDirectory (lookup (fs st) (STORE ++ [owner; name])) = true ->
        isFile (lookup (fs st) (STORE ++ [owner; name; "SKILL.md"])) = false ->
        migrateSkillFolder homedir (owner +++ "/" +++ name) name st = (Ok tt, st)).
Proof.
  intros owner name st Ho Hn _.
  assert (Hpaths : segments (owner +++ "/" +++ name) = [owner; name]
                   /\ segments name = [name] /\ segments owner = [owner]
                   /\ split "/" (owner +++ "/" +++ name) = [owner; name]).
  { split; [now apply segments_two|]. split; [now apply segments_valid_name|].
    split; [now apply segments_valid_name|]. unfold valid_name in Ho, Hn.
    apply andb_true_iff in Ho, Hn. now apply split_two. }
  destruct Hpaths as (Hseg2 & Hsegn & Hsego & Hsplit).
  split; [|intros Hdir Hmd; unfold migrateSkillFolder, join;
           rewrite Hseg2, Hsegn, Hsplit; cbn [hd]; rewrite Hsego;
           unfold tryCatch, bind, exists_, readFs, ret;
           replace ((STORE ++ [owner; name]) ++ ["SKILL.md"])
             with (STORE ++ [owner; name; "SKILL.md"]) by (now rewrite <- app_assoc);
           rewrite Hmd;
           destruct (lookup (fs st) (STORE ++ [owner; name])) as [[?|?|]|];
           try discriminate Hdir; reflexivity].
  intros skill (HR & HS & HC) Hold Hmd Hnew.
  set (from := STORE ++ [owner; name]) in *.
  set (to := STORE ++ [name]) in *.
  assert (Hfrom_eq : from = (STORE ++ [owner]) ++ [name])
    by (unfold from; now rewrite <- app_assoc).
  (* the owner directory *)
  assert (Hown : exists r es, lookup (fs st) (STORE ++ [owner]) = Some (Dir r es)).
  { pose proof (lookup_prefix_dir (STORE ++ [owner]) name [] (fs st) skill) as H.
    rewrite <- Hfrom_eq in H. specialize (H Hold).
    destruct (lookup (fs st) (STORE ++ [owner])) as [[?|r es|]|]; try discriminate H.
    now exists r, es. }
  destruct Hown as (r & es & Hown).
  assert (Hne : owner <> name).
  { intros ->. unfold to in Hnew. rewrite Hnew in Hown. discriminate Hown. }
  assert (Hdiv : diverge from to).
  { unfold from, to. apply diverge_under. now exists [], owner, name, [name], []. }
  destruct (lookup (fs st) STORE) as [[?|rs ess|]|] eqn:Hstore; try discriminate HS.
  (* the move *)
  set (n0 := rm from (fs st)).
  set (n1 := update false (fun _ => Some skill) to n0).
  assert (Hn0own : lookup n0 (STORE ++ [owner]) = Some (Dir r (remove_name name es))).
  { unfold n0. rewrite Hfrom_eq. now apply rm_child. }
  assert (Hn0store : exists rs' ess', lookup n0 STORE = Some (Dir rs' ess')).
  { pose proof (update_keeps_dir_above false (fun _ => None) STORE owner [name] (fs st)) as H.
    fold from in H. unfold n0, rm. rewrite Hstore in H. specialize (H eq_refl).
    destruct (lookup (update false (fun _ => None) from (fs st)) STORE) as [[?|a b|]|];
      try discriminate H. now exists a, b. }
  destruct Hn0store as (rs' & ess' & Hn0store).
  assert (Hn0new : lookup n0 to = None).
  { unfold n0. rewrite (rm_keeps to from (diverge_sym _ _ Hdiv)). exact Hnew. }
  assert (Hn1new : lookup n1 to = Some skill).
  { unfold n1, to. rewrite (lookup_update_child false _ STORE name n0 rs' ess' Hn0store).
    reflexivity. }
  assert (Hkeep1 : forall q, diverge q to -> lookup n1 q = lookup n0 q).
  { intros q Hq. unfold n1. now apply update_lookup_diverge. }
  assert (Hrename : rename from to (fs st) = Ok n1).
  { unfold rename. rewrite Hold, Hnew. unfold to at 1. rewrite parent_snoc, Hstore.
    reflexivity. }
  assert (Hn1own : lookup n1 (STORE ++ [owner]) = Some (Dir r (remove_name name es))).
  { rewrite Hkeep1; [exact Hn0own|]. now apply diverge_siblings. }
  set (line := Out ("Migrated skill folder: " +++ (owner +++ "/" +++ name)
                      +++ " -> " +++ name)).
  exists (with_line line (with_fs n1 st)), r, es.
  split; [|split; [exact Hn1new | split; [|split; [exact Hown | split; [exact Hn1own | split]]]]].
  - unfold migrateSkillFolder, join.
    rewrite Hseg2, Hsegn, Hsplit. cbn [hd]. rewrite Hsego.
    fold from. fold to.
    unfold tryCatch, bind, exists_, readFs, tryFs, setFs, console_log, print, ret.
    replace (from ++ ["SKILL.md"]) with (STORE ++ [owner; name; "SKILL.md"])
      by (unfold from; now rewrite <- app_assoc).
    rewrite Hmd. rewrite Hnew. cbn [isFile negb]. rewrite Hrename.
    cbn [fs DEFAULT_CONFIG console]. unfold rm_plain. rewrite Hn1own. reflexivity.
  - cbn [fs with_line with_fs]. rewrite (Hkeep1 from Hdiv). unfold n0.
    apply lookup_rm_same. unfold from. now destruct STORE.
  - intros q Hqf Hqt. cbn [fs with_line with_fs]. rewrite (Hkeep1 q Hqt).
    unfold n0. now apply rm_keeps.
  - reflexivity.
Qed.

End WithHome.

Lemma migrateSkillFolder_moves_the_folder_witness :
  exists st' r es,
    migrateSkillFolder Examples.home ("owner" +++ "/" +++ "skill") "skill" Samples.old_state
    = (Ok tt, st')
    /\ lookup (fs st') (SKILLS_STORE Examples.home ++ ["skill"])
       = Some (Dir true [("SKILL.md", File true (Text "# Skill"))])
    /\ lookup (fs st') (SKILLS_STORE Examples.home ++ ["owner"; "skill"]) = None
    /\ lookup (fs Samples.old_state) (SKILLS_STORE Examples.home ++ ["owner"])
       = Some (Dir r es)
    /\ lookup (fs st') (SKILLS_STORE Examples.home ++ ["owner"])
       = Some (Dir r (remove_name "skill" es))
    /\ (forall q, diverge q (SKILLS_STORE Examples.home ++ ["owner"; "skill"]) ->
                  diverge q (SKILLS_STORE Examples.home ++ ["skill"]) ->
                  lookup (fs st') q = lookup (fs Samples.old_state) q)
    /\ console st'
       = console Samples.old_state
           ++ [Out ("Migrated skill folder: " +++ ("owner" +++ "/" +++ "skill")
                      +++ " -> " +++ "skill")].
Proof.
  refine (proj1 (migrateSkillFolder_moves_the_folder Examples.home "owner" "skill"
                   Samples.old_state eq_refl eq_refl eq_refl)
            (Dir true [("SKILL.md", File true (Text "# Skill"))]) _ _ _ _).
  - split; [|split]; reflexivity.
  - reflexivity.
  - reflexivity.
  - reflexivity.
Defined.

End FolderFacts.

(** ** [addRemoteSource]: what it checks first *)

Module AddRemoteFacts.
Import JS Fs Hash Shape Proc Paths Store Registry Git SourceCmd Frame RegistryShape Trees.
Import FsFacts ProcFacts RegistryFacts.
Local Open Scope proc_scope.

Section WithHome.
Variable homedir : string.
Variable git : client.


End WithHome.


End AddRemoteFacts.

(** ** From the command line to the commands *)

Module EndToEndFacts.
Import JS Fs Proc Store Registry KnownTargets Frame RegistryShape Migration Cli.
Import ProcFacts RegistryFacts.
Local Open Scope proc_scope.

Section Commands.
Variable homedir : string.
Variable env_home : string.
Variable resolve : string -> string.
Variable red cyan green : string -> string.
Variable help_text : string.
Variable sourceAdd : string -> SourceType -> option string -> M ending.
Variable sourceList : M ending.
Variable targetRemove : string -> M ending.
Variable targetList targetAvailable sync update doctor status : M ending.

(** [main] with [targetAdd] and [sourceRemove] as they are written; a
    command that returns nothing returns to its caller. *)
Local Abbreviation main :=
  (Cli.main red cyan help_text sourceAdd
     (fun name => Commands.sourceRemove homedir green name ;; ret Returned)
     sourceList
     (Commands.targetAdd homedir env_home resolve cyan green red)
     targetRemove targetList targetAvailable sync update doctor status).

Local Abbreviation options := ["--help"; "-h"; "--version"; "-v"].

Lemma no_option_among : forall a b name,
    ~ In a options -> ~ In b options -> ~ In name options ->
    forall o, In o options -> includes [a; b; name] o = false.
Proof.
  intros a b name Ha Hb Hn o Ho. apply CliFacts.includes_not_In.
  intros [<-|[<-|[<-|[]]]]; contradiction.
Qed.

Lemma main_runs_the_command : forall a b name st,
    ~ In a options -> ~ In b options -> ~ In name options ->
    main [a; b; name] st
    = tryCatch
        (Cli.dispatch red cyan help_text sourceAdd
           (fun name => Commands.sourceRemove homedir green name ;; ret Returned)
           sourceList
           (Commands.targetAdd homedir env_home resolve cyan green red)
           targetRemove targetList targetAvailable sync update doctor status [a; b; name])
        (fun error => console_error (red ("Error: " +++ message error)) ;; exit 1) st.
Proof.
  intros a b name st Ha Hb Hn. unfold Cli.main.
  pose proof (no_option_among a b name Ha Hb Hn) as H.
  rewrite (H "--help"), (H "-h"), (H "--version"), (H "-v") by (cbn; tauto).
  reflexivity.
Qed.

(** X29.  What the user sees for a name that is not known.  [skills
    target add <name>], for a name that is no predefined target in any letter
    case, prints [Unknown target] with two hints and ends with status 1
    without touching the disk.  [skills source remove <name>], on a registry
    in place that has no source of that name, prints [Error: Skill not
    found: <name>] in red on the error stream and ends with status 1; the
    state is otherwise as it was. *)
Theorem unknown_names_end_with_status_1 :
  (forall name st,
      truthy name = true -> ~ In name options ->
      ~ In (toLowerCase name) (getKnownTargetNames homedir) ->
      exists st',
        main ["target"; "add"; name] st = (Ok (Exited 1), st')
        /\ fs st' = fs st /\ DEFAULT_CONFIG st' = DEFAULT_CONFIG st
        /\ console st'
           = console st
               ++ [Err (red ("Unknown target: " +++ name));
                   Out (newline +++ "Run " +++ cyan "skills target available"
                          +++ " to see predefined targets.");
                   Out ("Or specify a custom path: "
                          +++ cyan ("skills target add " +++ name +++ " <path>"))])
  /\ (forall name st c,
         truthy name = true -> ~ In name options ->
         plain_path (segments name) = true ->
         settled homedir (fs st) ->
         lookup (fs st) (CONFIG_PATH homedir) = Some (File true (Json c)) ->
         current_schema (sources c) ->
         find (fun s => strict_eq (Source.name s) (Some name)) (sources c) = None ->
         main ["source"; "remove"; name] st
         = (Ok (Exited 1),
            with_line (Err (red ("Error: " +++ "Skill not found: " +++ name))) st)).
Proof.
  assert (Hplain : forall w, In w ["target"; "add"; "source"; "remove"] -> ~ In w options).
  { intros w Hw Ho. cbn [In] in Hw, Ho.
    repeat (destruct Hw as [<-|Hw]; [intuition discriminate|]). destruct Hw. }
  split.
  - intros name st Ht Hn Hout.
    rewrite main_runs_the_command by (try exact Hn; apply Hplain; cbn; tauto).
    unfold Cli.dispatch.
    cbn [nth_error selects String.eqb Ascii.eqb Bool.eqb andb skipn].
    unfold Cli.handleTargetCommand.
    cbn [nth_error selects String.eqb Ascii.eqb Bool.eqb andb truthy_opt show_opt].
    rewrite Ht. cbn [negb].
    unfold Commands.targetAdd. cbn [truthy_opt].
    rewrite (KnownTargetsFacts.getKnownTarget_unlisted homedir name Hout).
    eexists. split; [reflexivity|]. cbn [fs DEFAULT_CONFIG console].
    repeat split. now rewrite <- !app_assoc.
  - intros name st c Ht Hn _ Hset Hreg Hcur Hnone.
    rewrite main_runs_the_command by (try exact Hn; apply Hplain; cbn; tauto).
    unfold Cli.dispatch.
    cbn [nth_error selects String.eqb Ascii.eqb Bool.eqb andb skipn].
    unfold Cli.handleSourceCommand.
    cbn [nth_error selects String.eqb Ascii.eqb Bool.eqb andb truthy_opt show_opt].
    rewrite Ht. cbn [negb].
    pose proof (CommandsFacts.sourceRemove_not_found homedir green st c name
                  Hset Hreg Hcur Hnone) as Hthrow.
    erewrite tryCatch_throw
      by (apply (bind_throw _ _ _ _ st _ st); exact Hthrow).
    reflexivity.
Qed.

End Commands.

Lemma unknown_names_end_with_status_1_witness :
  Cli.main Samples.plain Samples.plain Samples.help Samples.add_nothing
    (fun name => Commands.sourceRemove Examples.home Samples.plain name ;; ret Returned)
    Samples.quiet
    (Commands.targetAdd Examples.home "/home/u" Samples.plain Samples.plain Samples.plain
       Samples.plain)
    Samples.take_nothing Samples.quiet Samples.quiet Samples.quiet Samples.quiet
    Samples.quiet Samples.quiet
    ["source"; "remove"; "react"] Samples.two_targets_state
  = (Ok (Exited 1),
     with_line (Err (Samples.plain ("Error: " +++ "Skill not found: " +++ "react")))
       Samples.two_targets_state).
Proof.
  apply (proj2 (unknown_names_end_with_status_1 Examples.home "/home/u" Samples.plain
                  Samples.plain Samples.plain Samples.plain Samples.help
                  Samples.add_nothing Samples.quiet Samples.take_nothing Samples.quiet
                  Samples.quiet Samples.quiet Samples.quiet Samples.quiet Samples.quiet)
           "react" Samples.two_targets_state Samples.two_targets_config).
  - reflexivity.
  - cbn. intuition discriminate.
  - reflexivity.
  - exact SyncAllFacts.two_targets_settled.
  - reflexivity.
  - repeat constructor.
  - reflexivity.
Defined.

End EndToEndFacts.
